(** * Streaming content encryption of walrus-go (package [encryption])

    A shallow embedding of the padding codec, the CBC stream readers, the GCM
    stream ciphers and the cipher factory, with the properties of the
    specification stated and proved over it.

    Conventions.
    - Go's [int] is [Z]; every [int] of this package is a slice length or a
      difference of slice lengths, far from the 64-bit bounds.
    - A [[]byte] is a [list byte]; where the code tests a slice against [nil]
      the slice is an [option (list byte)].
    - A call that can panic returns an [outcome]; Go's [(value, error)] pairs
      are pairs whose error is an [option error], [None] being [nil].
    - [io.Reader] and [io.Writer] values are explicit states that every call
      takes and returns.
    - The Go standard library ([io], [bytes], [crypto/aes], [crypto/cipher],
      [crypto/rand]) is not part of the repository: [io] and [bytes] are
      modelled from their documented behaviour, the AES block and the AEAD are
      parameters. *)

From Stdlib Require Import Ascii String DecimalString.
From Stdlib Require Import ZArith List Lia ZifyNat Bool.
From Stdlib Require Import Strings.Byte.
Import ListNotations.

Local Open Scope string_scope.
Local Open Scope list_scope.
Local Open Scope Z_scope.

(* ================================================================== *)
(** * Go values: errors, panics, integers, bytes, slices *)

(** The error values that flow through the package. *)
Inductive error : Type :=
| EOF                                   (* io.EOF *)
| ErrUnexpectedEOF                      (* io.ErrUnexpectedEOF *)
| ErrShortWrite                         (* io.ErrShortWrite *)
| ErrOpen                               (* cipher: message authentication failed *)
| KeySizeError (n : Z)                  (* aes.KeySizeError *)
| ErrUnsupportedCipherSuite             (* var ErrUnsupportedCipherSuite *)
| Errorf (format : string) (args : list Z)    (* fmt.Errorf with integer verbs *)
| Wrapf (format : string) (cause : error).    (* fmt.Errorf with %v or %w *)

(** [err == io.EOF] *)
Definition is_EOF (e : option error) : bool :=
  match e with Some EOF => true | _ => false end.

(** The outcome of running Go code: a normal return, a run-time panic, or
    the iteration budget of a modelled loop used up. *)
Inductive outcome (A : Type) : Type :=
| Ret (a : A)
| Panic (msg : string)
| Exhausted.

Arguments Ret {A} a.
Arguments Panic {A} msg.
Arguments Exhausted {A}.

Definition bind {A B : Type} (m : outcome A) (k : A -> outcome B) : outcome B :=
  match m with
  | Ret a => k a
  | Panic msg => Panic msg
  | Exhausted => Exhausted
  end.

Notation "x <- m ;; k" := (bind m (fun x => k))
  (at level 61, m at next level, right associativity).
Notation "' pat <- m ;; k" := (bind m (fun x => match x with pat => k end))
  (at level 61, pat pattern, m at next level, right associativity).

Definition panics {A : Type} (m : outcome A) : Prop := exists msg, m = Panic msg.

(** [len(s)] *)
Definition len (s : list byte) : Z := Z.of_nat (length s).

(** [byte(x)] for an [int] [x]: the low eight bits. *)
Definition byte_of_Z (z : Z) : byte :=
  match Byte.of_N (Z.to_N (z mod 256)) with
  | Some b => b
  | None => x00
  end.

(** [int(b)] for a byte [b]. *)
Definition Z_of_byte (b : byte) : Z := Z.of_N (Byte.to_N b).

(** [a % b] on [int]: truncated remainder, panics on a zero divisor. *)
Definition go_rem (a b : Z) : outcome Z :=
  if b =? 0 then Panic "runtime error: integer divide by zero" else Ret (Z.rem a b).

(** [a / b] on [int]: truncated quotient, panics on a zero divisor. *)
Definition go_quo (a b : Z) : outcome Z :=
  if b =? 0 then Panic "runtime error: integer divide by zero" else Ret (Z.quot a b).

(** [make([]byte, n)] *)
Definition make (n : Z) : outcome (list byte) :=
  if n <? 0 then Panic "runtime error: makeslice: len out of range"
  else Ret (repeat x00 (Z.to_nat n)).

(** [s[:n]] for a slice whose capacity is its length. *)
Definition slice_to (s : list byte) (n : Z) : outcome (list byte) :=
  if (n <? 0) || (len s <? n) then Panic "runtime error: slice bounds out of range"
  else Ret (firstn (Z.to_nat n) s).

(** [s[n:]] *)
Definition slice_from (s : list byte) (n : Z) : outcome (list byte) :=
  if (n <? 0) || (len s <? n) then Panic "runtime error: slice bounds out of range"
  else Ret (skipn (Z.to_nat n) s).

(** [s[i]] *)
Definition index (s : list byte) (i : Z) : outcome byte :=
  if (i <? 0) || (len s <=? i) then Panic "runtime error: index out of range"
  else Ret (nth (Z.to_nat i) s x00).

(** [copy(dst, src)]: the new contents of [dst] and the count copied. *)
Definition copy (dst src : list byte) : list byte * Z :=
  let n := Nat.min (length dst) (length src) in
  (firstn n src ++ skipn n dst, Z.of_nat n).

(** [bytes.Repeat(b, count)] *)
Fixpoint repeat_bytes (b : list byte) (count : nat) : list byte :=
  match count with
  | O => []
  | S c => b ++ repeat_bytes b c
  end.

Definition bytes_Repeat (b : list byte) (count : Z) : outcome (list byte) :=
  if count <? 0 then Panic "bytes: negative Repeat count"
  else Ret (repeat_bytes b (Z.to_nat count)).

(* ================================================================== *)
(** * [bytes.Buffer], readers and writers *)

(** A [bytes.Buffer] is its unread bytes. *)
Definition Buffer := list byte.

Definition Buffer_Write (b : Buffer) (p : list byte) : Buffer := b ++ p.

Definition Buffer_Len (b : Buffer) : Z := len b.

(** [b.Read(p)]: new buffer, new contents of [p], count, error. *)
Definition Buffer_Read (b : Buffer) (p : list byte)
  : Buffer * list byte * Z * option error :=
  match b with
  | [] => match p with
          | [] => ([], p, 0, None)
          | _ => ([], p, 0, Some EOF)
          end
  | _ => let n := Nat.min (length p) (length b) in
         (skipn n b, firstn n b ++ skipn n p, Z.of_nat n, None)
  end.

(** [b.Next(n)]: the slice returned and the new buffer. *)
Definition Buffer_Next (b : Buffer) (n : Z) : list byte * Buffer :=
  let m := Nat.min (Z.to_nat n) (length b) in
  (firstn m b, skipn m b).

(** The [io.Reader] values handed to the ciphers. *)
Inductive Source : Type :=
| BytesReader (s : list byte)            (* bytes.NewReader: the unread part *)
| ShortReader (k : nat) (s : list byte)  (* at most [k] bytes per Read: pipe, socket *)
| FailingReader (e : error).             (* the tests' failingReader *)

(** Reading up to [m] bytes of [s] into [p]. *)
Definition read_upto (m : nat) (s p : list byte)
  : list byte * list byte * Z * option error :=
  match s with
  | [] => ([], p, 0, Some EOF)
  | _ => let n := Nat.min m (Nat.min (length p) (length s)) in
         (skipn n s, firstn n s ++ skipn n p, Z.of_nat n, None)
  end.

(** [src.Read(p)]: new reader, new contents of [p], count, error. *)
Definition src_Read (src : Source) (p : list byte)
  : Source * list byte * Z * option error :=
  match src with
  | BytesReader s =>
      let '(s', p', n, e) := read_upto (length p) s p in (BytesReader s', p', n, e)
  | ShortReader k s =>
      let '(s', p', n, e) := read_upto k s p in (ShortReader k s', p', n, e)
  | FailingReader e => (src, p, 0, Some e)
  end.

(** The bytes a reader has still to deliver. *)
Definition unread (src : Source) : list byte :=
  match src with
  | BytesReader s => s
  | ShortReader _ s => s
  | FailingReader _ => []
  end.

(** The [io.Writer] values handed to the ciphers. *)
Inductive Sink : Type :=
| BufferSink (w : list byte)             (* a writer that keeps what is written *)
| FailingWriter (e : error).             (* the tests' failingWriter *)

(** [dst.Write(p)] *)
Definition dst_Write (dst : Sink) (p : list byte) : Sink * Z * option error :=
  match dst with
  | BufferSink w => (BufferSink (w ++ p), len p, None)
  | FailingWriter e => (dst, 0, Some e)
  end.

(* ================================================================== *)
(** * Padding codec (encryption/aes_cbc.go) *)

Record PKCS7Padder : Type := { blockSize : Z }.

(** [func (p *PKCS7Padder) Pad(data []byte, size int) ([]byte, error)] *)
Definition Pad (p : PKCS7Padder) (data : list byte) (size : Z)
  : outcome (list byte * option error) :=
  r <- go_rem size (blockSize p) ;;
  let padding := blockSize p - r in
  padtext <- bytes_Repeat [byte_of_Z padding] padding ;;
  Ret (data ++ padtext, None).

(** [func (p *PKCS7Padder) Unpad(data []byte) ([]byte, error)] *)
Definition Unpad (p : PKCS7Padder) (data : list byte)
  : outcome (list byte * option error) :=
  let length := len data in
  if length =? 0 then Ret ([], None)
  else
    lastByte <- index data (length - 1) ;;
    let padding := Z_of_byte lastByte in
    r <- slice_to data (length - padding) ;;
    Ret (r, None).

(* ================================================================== *)
(** * The Go standard library: [io], [crypto/cipher], [crypto/aes] *)

(** [io.ErrUnexpectedEOF] clause of [io.ReadAtLeast]. *)
Definition readFull_error (n min : Z) (err : option error) : option error :=
  if min <=? n then None
  else if (0 <? n) && is_EOF err then Some ErrUnexpectedEOF
  else err.

(** The loop of [io.ReadAtLeast(r, buf, len(buf))]. *)
Fixpoint readFull_loop (fuel : nat) (r : Source) (buf : list byte) (n : Z)
  : outcome (Source * list byte * Z * option error) :=
  match fuel with
  | O => Exhausted
  | S fuel' =>
      if n <? len buf then
        head <- slice_to buf n ;;
        tail <- slice_from buf n ;;
        let '(r1, tail1, nn, err) := src_Read r tail in
        let buf1 := head ++ tail1 in
        match err with
        | None => readFull_loop fuel' r1 buf1 (n + nn)
        | Some _ => Ret (r1, buf1, n + nn, readFull_error (n + nn) (len buf) err)
        end
      else Ret (r, buf, n, None)
  end.

(** [io.ReadFull(r, buf)]: every reader of the model that returns no error
    delivers at least one byte, or none at all for ever. *)
Definition io_ReadFull (r : Source) (buf : list byte)
  : outcome (Source * list byte * Z * option error) :=
  readFull_loop (S (length buf)) r buf 0.

(** The loop of [io.ReadAll]: the reads are appended until an error;
    [io.EOF] is reported as success.  Each read is offered a window of 512
    bytes, the initial capacity [io.ReadAll] allocates. *)
Fixpoint readAll_loop (fuel : nat) (r : Source) (b : list byte)
  : outcome (Source * list byte * option error) :=
  match fuel with
  | O => Exhausted
  | S fuel' =>
      let '(r1, window, n, err) := src_Read r (repeat x00 512) in
      chunk <- slice_to window n ;;
      match err with
      | None => readAll_loop fuel' r1 (b ++ chunk)
      | Some e => Ret (r1, b ++ chunk, if is_EOF err then None else Some e)
      end
  end.

Definition io_ReadAll (r : Source) : outcome (Source * list byte * option error) :=
  readAll_loop (S (length (unread r))) r [].

(** [rand.Read(b)] is [io.ReadFull(rand.Reader, b)]; the entropy source is a
    reader supplied by the environment. *)
Definition rand_Read (entropy : Source) (b : list byte)
  : outcome (Source * list byte * Z * option error) :=
  io_ReadFull entropy b.

(** The size of the buffer [io.Copy] allocates. *)
Definition copyBufSize : Z := 32 * 1024.

Section Copy.
(** A reader under [io.Copy] is any state with a [Read] method. *)
Variable R : Type.
Variable Read : R -> list byte -> outcome (R * list byte * Z * option error).

(** The loop of [io.Copy] itself: read into [buf], write [buf[0:nr]], stop at
    the first error.  The CBC readers have no [WriteTo], so this is the loop
    that runs for a destination without [ReadFrom]; a destination with
    [ReadFrom] runs a loop of the same shape over a buffer of its own, and
    the length of [buf] is therefore kept a parameter of the loop. *)
Fixpoint copy_loop (fuel : nat) (src : R) (dst : Sink) (buf : list byte) (written : Z)
  : outcome (R * Sink * Z * option error) :=
  match fuel with
  | O => Exhausted
  | S fuel' =>
      '(src1, buf1, nr, er) <- Read src buf ;;
      '(dst1, written1, stop) <-
        (if 0 <? nr then
           chunk <- slice_to buf1 nr ;;
           let '(dst1, nw, ew) := dst_Write dst chunk in
           match ew with
           | Some e => Ret (dst1, written + nw, Some (Some e))
           | None =>
               if nr =? nw then Ret (dst1, written + nw, None)
               else Ret (dst1, written + nw, Some (Some ErrShortWrite))
           end
         else Ret (dst, written, None)) ;;
      match stop with
      | Some err => Ret (src1, dst1, written1, err)
      | None =>
          match er with
          | Some e => Ret (src1, dst1, written1, if is_EOF er then None else Some e)
          | None => copy_loop fuel' src1 dst1 buf1 written1
          end
      end
  end.

Definition io_Copy (fuel : nat) (dst : Sink) (src : R)
  : outcome (R * Sink * Z * option error) :=
  buf <- make copyBufSize ;;
  copy_loop fuel src dst buf 0.
End Copy.

Arguments copy_loop {R} Read fuel src dst buf written.
Arguments io_Copy {R} Read fuel dst src.

(** [a ^ b] on bytes. *)
Definition byte_xor (a b : byte) : byte :=
  byte_of_Z (Z.lxor (Z_of_byte a) (Z_of_byte b)).

(** [subtle.XORBytes] over equally long slices. *)
Fixpoint xor_bytes (a b : list byte) : list byte :=
  match a, b with
  | x :: a', y :: b' => byte_xor x y :: xor_bytes a' b'
  | _, _ => []
  end.

(** [cipher.Block] for AES: the keyed permutation of 16-byte blocks. *)
Record Block : Type := {
  Encrypt : list byte -> list byte;
  Decrypt : list byte -> list byte
}.

(** [aes.BlockSize] *)
Definition aes_BlockSize : Z := 16.

(** What [crypto/aes] guarantees of a keyed block. *)
Record Block_ok (blk : Block) : Prop := {
  Encrypt_length : forall x, length x = 16%nat -> length (Encrypt blk x) = 16%nat;
  Decrypt_length : forall x, length x = 16%nat -> length (Decrypt blk x) = 16%nat;
  Decrypt_Encrypt : forall x, length x = 16%nat -> Decrypt blk (Encrypt blk x) = x
}.

(** [cipher.AEAD] as the package uses it: [Seal(nil, nonce, plaintext, nil)]
    and [Open(nil, nonce, ciphertext, nil)]. *)
Record AEAD : Type := {
  NonceSize : Z;
  Overhead : Z;
  Seal : list byte -> list byte -> list byte;
  Open : list byte -> list byte -> option (list byte)
}.

(** What [crypto/cipher] guarantees of an AEAD: [Seal] appends [Overhead]
    bytes and [Open] inverts it under the same nonce. *)
Record AEAD_ok (a : AEAD) : Prop := {
  NonceSize_nonneg : 0 <= NonceSize a;
  Overhead_nonneg : 0 <= Overhead a;
  Seal_length : forall nonce p, len (Seal a nonce p) = len p + Overhead a;
  Open_Seal : forall nonce p, Open a nonce (Seal a nonce p) = Some p
}.

(** Bit [k] of a byte inverted. *)
Definition flip_byte (k : nat) (b : byte) : byte :=
  byte_of_Z (Z.lxor (Z_of_byte b) (Z.shiftl 1 (Z.of_nat k))).

(** Bit [i] of a byte string inverted: bit [i mod 8] of byte [i / 8]. *)
Fixpoint flip_bit (i : nat) (s : list byte) : list byte :=
  match s with
  | [] => []
  | b :: s' => if (i <? 8)%nat then flip_byte i b :: s'
               else b :: flip_bit (i - 8) s'
  end.

(** The integrity an AEAD gives against a single inverted bit: [Open]
    rejects a sealed message with any one bit of body or tag changed. *)
Definition AEAD_authentic (a : AEAD) : Prop :=
  forall nonce p i, (i < 8 * length (Seal a nonce p))%nat ->
    Open a nonce (flip_bit i (Seal a nonce p)) = None.

(** The chain of [cbcEncrypter.CryptBlocks] over [n] blocks: the output and
    the chaining value left behind. *)
Fixpoint encryptBlocks (blk : Block) (n : nat) (iv src : list byte)
  : list byte * list byte :=
  match n with
  | O => ([], iv)
  | S m =>
      let c := Encrypt blk (xor_bytes (firstn 16 src) iv) in
      let '(out, iv') := encryptBlocks blk m c (skipn 16 src) in
      (c ++ out, iv')
  end.

(** The chain of [cbcDecrypter.CryptBlocks]. *)
Fixpoint decryptBlocks (blk : Block) (n : nat) (iv src : list byte)
  : list byte * list byte :=
  match n with
  | O => ([], iv)
  | S m =>
      let c := firstn 16 src in
      let p := xor_bytes (Decrypt blk c) iv in
      let '(out, iv') := decryptBlocks blk m c (skipn 16 src) in
      (p ++ out, iv')
  end.

Inductive direction : Type := Encrypting | Decrypting.

(** [cipher.BlockMode] in CBC mode: the block, the direction and the
    chaining value. *)
Record BlockMode : Type := {
  bm_block : Block;
  bm_dir : direction;
  bm_iv : list byte
}.

Definition BlockSize (x : BlockMode) : Z := aes_BlockSize.

(** [cipher.NewCBCEncrypter(b, iv)] *)
Definition NewCBCEncrypter (blk : Block) (iv : list byte) : outcome BlockMode :=
  if len iv =? aes_BlockSize
  then Ret {| bm_block := blk; bm_dir := Encrypting; bm_iv := iv |}
  else Panic "cipher.NewCBCEncrypter: IV length must equal block size".

(** [cipher.NewCBCDecrypter(b, iv)] *)
Definition NewCBCDecrypter (blk : Block) (iv : list byte) : outcome BlockMode :=
  if len iv =? aes_BlockSize
  then Ret {| bm_block := blk; bm_dir := Decrypting; bm_iv := iv |}
  else Panic "cipher.NewCBCDecrypter: IV length must equal block size".

(** [x.CryptBlocks(dst, src)]: the new mode and the new contents of [dst]. *)
Definition CryptBlocks (x : BlockMode) (dst src : list byte)
  : outcome (BlockMode * list byte) :=
  if negb (Z.rem (len src) aes_BlockSize =? 0)
  then Panic "crypto/cipher: input not full blocks"
  else if len dst <? len src
  then Panic "crypto/cipher: output smaller than input"
  else
    let n := Z.to_nat (Z.quot (len src) aes_BlockSize) in
    let '(out, iv') :=
      match bm_dir x with
      | Encrypting => encryptBlocks (bm_block x) n (bm_iv x) src
      | Decrypting => decryptBlocks (bm_block x) n (bm_iv x) src
      end in
    Ret ({| bm_block := bm_block x; bm_dir := bm_dir x; bm_iv := iv' |},
         out ++ skipn (length src) dst).

(* ================================================================== *)
(** * CBC stream readers (encryption/aes_cbc.go) *)

(** [func getSliceSize(blockSize, bufSize, dataSize int) int] *)
Definition getSliceSize (blockSize bufSize dataSize : Z) : outcome Z :=
  let size := bufSize in
  let size := if bufSize >? dataSize then dataSize else size in
  r <- go_rem size blockSize ;;
  let size := size - r - blockSize in
  let size := if size <=? 0 then blockSize else size in
  Ret size.

Record cbcEncryptReader : Type := {
  encrypter : BlockMode;
  e_src : Source;
  e_padder : PKCS7Padder;
  e_size : Z;
  e_buf : Buffer
}.

Record cbcDecryptReader : Type := {
  decrypter : BlockMode;
  d_src : Source;
  d_padder : PKCS7Padder;
  d_buf : Buffer
}.

(** [func (r *cbcEncryptReader) Read(data []byte) (int, error)]: the new
    reader, the new contents of [data], and the two results. *)
Definition cbcEncryptReader_Read (r : cbcEncryptReader) (data : list byte)
  : outcome (cbcEncryptReader * list byte * Z * option error) :=
  let '(src1, data1, n, err) := src_Read (e_src r) data in
  let size1 := e_size r + n in
  let blockSize := BlockSize (encrypter r) in
  chunk <- slice_to data1 n ;;
  let buf1 := Buffer_Write (e_buf r) chunk in
  let state x buf :=
    {| encrypter := x; e_src := src1; e_padder := e_padder r;
       e_size := size1; e_buf := buf |} in
  if is_EOF err then
    sz <- getSliceSize blockSize (Buffer_Len buf1) (len data) ;;
    b <- make sz ;;
    let '(buf2, b1, n, err) := Buffer_Read buf1 b in
    let crypt b n err :=
      if 0 <? n then
        '(x, data2) <- CryptBlocks (encrypter r) data1 b ;;
        Ret (state x buf2, data2, n, err)
      else Ret (state (encrypter r) buf2, data1, n, err) in
    if (match err with Some _ => negb (is_EOF err) | None => false end)
    then Ret (state (encrypter r) buf2, data1, n, err)
    else if Buffer_Len buf2 =? 0 then
      bn <- slice_to b1 n ;;
      '(padded, perr) <- Pad (e_padder r) bn size1 ;;
      match perr with
      | Some _ => Ret (state (encrypter r) buf2, data1, n, perr)
      | None => crypt padded (len padded) (Some EOF)
      end
    else crypt b1 n err
  else
    match err with
    | Some _ => Ret (state (encrypter r) buf1, data1, n, err)
    | None =>
        let size := Buffer_Len buf1 in
        if blockSize <=? size then
          q <- go_quo size blockSize ;;
          nBlocks <- (if size >? len data then go_quo (len data) blockSize else Ret q) ;;
          if 0 <? nBlocks then
            b <- make (nBlocks * blockSize) ;;
            let '(buf2, b1, n, _) := Buffer_Read buf1 b in
            bn <- slice_to b1 n ;;
            '(x, data2) <- CryptBlocks (encrypter r) data1 bn ;;
            Ret (state x buf2, data2, n, None)
          else Ret (state (encrypter r) buf1, data1, n, None)
        else Ret (state (encrypter r) buf1, data1, 0, None)
    end.

(** [func (r *cbcDecryptReader) Read(data []byte) (int, error)] *)
Definition cbcDecryptReader_Read (r : cbcDecryptReader) (data : list byte)
  : outcome (cbcDecryptReader * list byte * Z * option error) :=
  let '(src1, data1, n, err) := src_Read (d_src r) data in
  let blockSize := BlockSize (decrypter r) in
  chunk <- slice_to data1 n ;;
  let buf1 := Buffer_Write (d_buf r) chunk in
  let state x buf :=
    {| decrypter := x; d_src := src1; d_padder := d_padder r; d_buf := buf |} in
  if is_EOF err then
    sz <- getSliceSize blockSize (Buffer_Len buf1) (len data) ;;
    b <- make sz ;;
    let '(buf2, b1, n, err) := Buffer_Read buf1 b in
    if (match err with Some _ => negb (is_EOF err) | None => false end)
    then Ret (state (decrypter r) buf2, data1, n, err)
    else
      '(x, data2) <- (if 0 <? n then CryptBlocks (decrypter r) data1 b1
                      else Ret (decrypter r, data1)) ;;
      if Buffer_Len buf2 =? 0 then
        dn <- slice_to data2 n ;;
        '(unpadded, uerr) <- Unpad (d_padder r) dn ;;
        let n := len unpadded in
        match uerr with
        | Some _ => Ret (state x buf2, data2, n, uerr)
        | None => Ret (state x buf2, data2, n, Some EOF)
        end
      else Ret (state x buf2, data2, n, err)
  else
    match err with
    | Some _ => Ret (state (decrypter r) buf1, data1, n, err)
    | None =>
        let size := Buffer_Len buf1 in
        if blockSize <=? size then
          q <- go_quo size blockSize ;;
          nBlocks <- (if size >? len data then go_quo (len data) blockSize else Ret q) ;;
          let nBlocks := nBlocks - blockSize in
          if 0 <? nBlocks then
            b <- make (nBlocks * blockSize) ;;
            let '(buf2, b1, n, _) := Buffer_Read buf1 b in
            bn <- slice_to b1 n ;;
            '(x, data2) <- CryptBlocks (decrypter r) data1 bn ;;
            Ret (state x buf2, data2, n, None)
          else Ret (state (decrypter r) buf1, data1, 0, None)
        else Ret (state (decrypter r) buf1, data1, n, None)
    end.

Record cbcCipher : Type := {
  cbc_key : list byte;
  cbc_iv : list byte
}.

Record gcmContentCipher : Type := {
  gcm_key : option (list byte);
  gcm : option AEAD
}.

(** The two implementations of the [ContentCipher] interface. *)
Inductive ContentCipher : Type :=
| CBCEngine (c : cbcCipher)
| GCMEngine (c : gcmContentCipher).

(** [type CipherSuite string] and its two constants. *)
Definition CipherSuite : Type := string.
Definition AES256GCM : CipherSuite := "AES256GCM".
Definition AES256CBC : CipherSuite := "AES256CBC".

(** A Go [(value, error)] return of a constructor. *)
Inductive result (A : Type) : Type :=
| Value (a : A)
| Failure (e : error).

Arguments Value {A} a.
Arguments Failure {A} e.

(* ================================================================== *)
(** * GCM stream cipher, single-shot form (encryption/aes_gcm.go) *)

(** Calling a method of a nil interface value. *)
Definition nil_dereference : string :=
  "runtime error: invalid memory address or nil pointer dereference".

(** [func (c *gcmContentCipher) EncryptStream(src io.Reader, dst io.Writer) error]:
    the error returned, and the reader and the writer as the call leaves
    them. [entropy] is [crypto/rand]'s reader. *)
Definition gcmContentCipher_EncryptStream
  (c : gcmContentCipher) (entropy src : Source) (dst : Sink)
  : outcome (option error * Source * Sink) :=
  match gcm c with
  | None => Ret (Some (Errorf "gcm cipher is not initialized" []), src, dst)
  | Some a =>
      nonce0 <- make (NonceSize a) ;;
      '(_, nonce, _, err) <- rand_Read entropy nonce0 ;;
      match err with
      | Some _ => Ret (err, src, dst)
      | None =>
          let '(dst1, _, err) := dst_Write dst nonce in
          match err with
          | Some _ => Ret (err, src, dst1)
          | None =>
              '(src1, plaintext, err) <- io_ReadAll src ;;
              match err with
              | Some _ => Ret (err, src1, dst1)
              | None =>
                  let ciphertext := Seal a nonce plaintext in
                  let '(dst2, _, err) := dst_Write dst1 ciphertext in
                  Ret (err, src1, dst2)
              end
          end
      end
  end.

(** [func (c *gcmContentCipher) DecryptStream(src io.Reader, dst io.Writer) error] *)
Definition gcmContentCipher_DecryptStream
  (c : gcmContentCipher) (src : Source) (dst : Sink)
  : outcome (option error * Source * Sink) :=
  match gcm c with
  | None => Panic nil_dereference
  | Some a =>
      nonce0 <- make (NonceSize a) ;;
      '(src1, nonce, _, err) <- io_ReadFull src nonce0 ;;
      match err with
      | Some _ => Ret (err, src1, dst)
      | None =>
          '(src2, ciphertext, err) <- io_ReadAll src1 ;;
          match err with
          | Some _ => Ret (err, src2, dst)
          | None =>
              match Open a nonce ciphertext with
              | None => Ret (Some ErrOpen, src2, dst)
              | Some plaintext =>
                  let '(dst1, _, err) := dst_Write dst plaintext in
                  Ret (err, src2, dst1)
              end
          end
      end
  end.

(** The calls a stream makes to its AEAD, in order. *)
Inductive aead_call : Type :=
| SealCall (nonce plaintext : list byte)
| OpenCall (nonce ciphertext : list byte).

Definition call_nonce (c : aead_call) : list byte :=
  match c with
  | SealCall nonce _ => nonce
  | OpenCall nonce _ => nonce
  end.

(* ================================================================== *)
(** * GCM stream cipher, chunked form (the version of aes_gcm.go that
      seals one chunk per read of 32 KiB) *)

Module Chunked.

Definition chunkSize : Z := 32 * 1024.

(** The [for] loop of [EncryptStream]; every read of a reader of the model
    that returns no error consumes a byte, which bounds the iterations. *)
Fixpoint encrypt_loop (fuel : nat) (a : AEAD) (nonce : list byte)
    (src : Source) (dst : Sink) (buf : list byte) (calls : list aead_call)
  : outcome (option error * Source * Sink * list aead_call) :=
  match fuel with
  | O => Exhausted
  | S fuel' =>
      let '(src1, buf1, n, err) := src_Read src buf in
      '(dst1, calls1, werr) <-
        (if 0 <? n then
           chunk <- slice_to buf1 n ;;
           let ciphertext := Seal a nonce chunk in
           let '(dst1, _, werr) := dst_Write dst ciphertext in
           Ret (dst1, calls ++ [SealCall nonce chunk], werr)
         else Ret (dst, calls, None)) ;;
      match werr with
      | Some _ => Ret (werr, src1, dst1, calls1)
      | None =>
          if is_EOF err then Ret (None, src1, dst1, calls1)
          else match err with
               | Some _ => Ret (err, src1, dst1, calls1)
               | None => encrypt_loop fuel' a nonce src1 dst1 buf1 calls1
               end
      end
  end.

(** [func (c *gcmContentCipher) EncryptStream(src io.Reader, dst io.Writer) error],
    with the calls made to the AEAD. *)
Definition EncryptStream (c : gcmContentCipher) (entropy src : Source) (dst : Sink)
  : outcome (option error * Source * Sink * list aead_call) :=
  match gcm c with
  | None => Ret (Some (Errorf "gcm cipher is not initialized" []), src, dst, [])
  | Some a =>
      nonce0 <- make (NonceSize a) ;;
      '(_, nonce, _, err) <- rand_Read entropy nonce0 ;;
      match err with
      | Some _ => Ret (err, src, dst, [])
      | None =>
          let '(dst1, _, err) := dst_Write dst nonce in
          match err with
          | Some _ => Ret (err, src, dst1, [])
          | None =>
              buf <- make chunkSize ;;
              encrypt_loop (S (length (unread src))) a nonce src dst1 buf []
          end
      end
  end.

(** The [for] loop of [DecryptStream]. *)
Fixpoint decrypt_loop (fuel : nat) (a : AEAD) (nonce : list byte)
    (src : Source) (dst : Sink) (buf : list byte) (calls : list aead_call)
  : outcome (option error * Source * Sink * list aead_call) :=
  match fuel with
  | O => Exhausted
  | S fuel' =>
      let '(src1, buf1, n, err) := src_Read src buf in
      '(dst1, calls1, stop) <-
        (if 0 <? n then
           chunk <- slice_to buf1 n ;;
           let calls1 := calls ++ [OpenCall nonce chunk] in
           match Open a nonce chunk with
           | None => Ret (dst, calls1, Some ErrOpen)
           | Some plaintext =>
               let '(dst1, _, werr) := dst_Write dst plaintext in
               Ret (dst1, calls1, werr)
           end
         else Ret (dst, calls, None)) ;;
      match stop with
      | Some _ => Ret (stop, src1, dst1, calls1)
      | None =>
          if is_EOF err then Ret (None, src1, dst1, calls1)
          else match err with
               | Some _ => Ret (err, src1, dst1, calls1)
               | None => decrypt_loop fuel' a nonce src1 dst1 buf1 calls1
               end
      end
  end.

(** [func (c *gcmContentCipher) DecryptStream(src io.Reader, dst io.Writer) error] *)
Definition DecryptStream (c : gcmContentCipher) (src : Source) (dst : Sink)
  : outcome (option error * Source * Sink * list aead_call) :=
  match gcm c with
  | None => Panic nil_dereference
  | Some a =>
      nonce0 <- make (NonceSize a) ;;
      '(src1, nonce, _, err) <- io_ReadFull src nonce0 ;;
      match err with
      | Some _ => Ret (err, src1, dst, [])
      | None =>
          buf <- make (chunkSize + Overhead a) ;;
          decrypt_loop (S (length (unread src1))) a nonce src1 dst buf []
      end
  end.

End Chunked.

(* ================================================================== *)
(** * GCM stream cipher, buffered-reader form (the version of aes_gcm.go
      with [gcmEncryptReader]) *)

Module Buffered.

Definition defaultBufferSize : Z := 32 * 1024.

Record gcmEncryptReader : Type := {
  src : Source;
  gcm : AEAD;
  nonce : list byte;
  buf : Buffer
}.

(** [func (r *gcmEncryptReader) Read(data []byte) (int, error)], with the
    calls made to the AEAD. *)
Definition Read (r : gcmEncryptReader) (data : list byte)
  : outcome (gcmEncryptReader * list byte * Z * option error * list aead_call) :=
  let '(src1, data1, n, err) := src_Read (src r) data in
  buf1 <- (if 0 <? n then
             chunk <- slice_to data1 n ;;
             Ret (Buffer_Write (buf r) chunk)
           else Ret (buf r)) ;;
  let state b := {| src := src1; gcm := gcm r; nonce := nonce r; buf := b |} in
  if is_EOF err then
    if 0 <? Buffer_Len buf1 then
      let plaintext := buf1 in
      let ciphertext := Seal (gcm r) (nonce r) plaintext in
      let '(data2, _) := copy data1 ciphertext in
      Ret (state [], data2, len ciphertext, Some EOF,
           [SealCall (nonce r) plaintext])
    else Ret (state buf1, data1, 0, Some EOF, [])
  else
    match err with
    | Some _ => Ret (state buf1, data1, 0, err, [])
    | None =>
        if defaultBufferSize <=? Buffer_Len buf1 then
          let '(plaintext, buf2) := Buffer_Next buf1 defaultBufferSize in
          let ciphertext := Seal (gcm r) (nonce r) plaintext in
          let '(data2, _) := copy data1 ciphertext in
          Ret (state buf2, data2, len ciphertext, None,
               [SealCall (nonce r) plaintext])
        else Ret (state buf1, data1, 0, None, [])
    end.

End Buffered.

(* ================================================================== *)
(** * Cipher factory and CBC streams *)

Section Crypto.

(** [crypto/aes]: the block keyed by a key of a valid size. *)
Variable aes : list byte -> Block.
(** [cipher.NewGCM] over an AES block. *)
Variable NewGCM : Block -> AEAD.

(** [aes.NewCipher(key)] *)
Definition aes_NewCipher (key : list byte) : result Block :=
  let k := len key in
  if (k =? 16) || (k =? 24) || (k =? 32) then Value (aes key)
  else Failure (KeySizeError k).

(** [func (c cbcCipher) EncryptStream(src io.Reader, dst io.Writer) error] *)
Definition cbcCipher_EncryptStream (fuel : nat) (c : cbcCipher) (src : Source) (dst : Sink)
  : outcome (option error * Source * Sink) :=
  match aes_NewCipher (cbc_key c) with
  | Failure e => Ret (Some e, src, dst)
  | Value block =>
      let '(dst1, _, err) := dst_Write dst (cbc_iv c) in
      match err with
      | Some _ => Ret (err, src, dst1)
      | None =>
          x <- NewCBCEncrypter block (cbc_iv c) ;;
          let padder := {| blockSize := aes_BlockSize |} in
          let reader := {| encrypter := x; e_src := src; e_padder := padder;
                           e_size := 0; e_buf := [] |} in
          '(reader1, dst2, _, err) <- io_Copy cbcEncryptReader_Read fuel dst1 reader ;;
          Ret (err, e_src reader1, dst2)
      end
  end.

(** [func (c cbcCipher) DecryptStream(src io.Reader, dst io.Writer) error] *)
Definition cbcCipher_DecryptStream (fuel : nat) (c : cbcCipher) (src : Source) (dst : Sink)
  : outcome (option error * Source * Sink) :=
  match aes_NewCipher (cbc_key c) with
  | Failure e => Ret (Some e, src, dst)
  | Value block =>
      iv0 <- make aes_BlockSize ;;
      '(src1, iv, _, err) <- io_ReadFull src iv0 ;;
      match err with
      | Some _ => Ret (err, src1, dst)
      | None =>
          x <- NewCBCDecrypter block iv ;;
          let padder := {| blockSize := aes_BlockSize |} in
          let reader := {| decrypter := x; d_src := src1; d_padder := padder;
                           d_buf := [] |} in
          '(reader1, dst1, _, err) <- io_Copy cbcDecryptReader_Read fuel dst reader ;;
          Ret (err, d_src reader1, dst1)
      end
  end.

(** [func NewGCMContentCipher(key []byte) (ContentCipher, error)] *)
Definition NewGCMContentCipher (key : option (list byte)) : result ContentCipher :=
  match key with
  | None => Failure (Errorf "key cannot be nil" [])
  | Some k =>
      if (len k =? 16) || (len k =? 24) || (len k =? 32) then
        match aes_NewCipher k with
        | Failure e => Failure (Wrapf "failed to create AES cipher: %v" e)
        | Value block =>
            Value (GCMEngine {| gcm_key := key; gcm := Some (NewGCM block) |})
        end
      else Failure (Errorf "invalid key size: %d" [len k])
  end.

(** [func NewCBCCipher(key, iv []byte)], returning a [cbcCipher] pointer and
    an error. *)
Definition NewCBCCipher (key iv : option (list byte)) : result cbcCipher :=
  match key with
  | None => Failure (Errorf "invalid key size" [])
  | Some k =>
      match iv with
      | None => Failure (Errorf "IV length must equal block size" [])
      | Some v =>
          if (len k =? 16) || (len k =? 24) || (len k =? 32) then
            if negb (len v =? aes_BlockSize)
            then Failure (Errorf "IV length must equal block size" [])
            else Value {| cbc_key := k; cbc_iv := v |}
          else Failure (Errorf "invalid key size" [])
      end
  end.

(** [func NewCipher(suite CipherSuite, key []byte, iv []byte) (ContentCipher, error)] *)
Definition NewCipher (suite : CipherSuite) (key iv : option (list byte))
  : result ContentCipher :=
  if String.eqb suite AES256GCM then NewGCMContentCipher key
  else if String.eqb suite AES256CBC then
    match NewCBCCipher key iv with
    | Value c => Value (CBCEngine c)
    | Failure e => Failure e
    end
  else Failure ErrUnsupportedCipherSuite.

(** [func NewGCMCipher(key []byte)], returning a [gcmContentCipher] pointer
    and an error. *)
Definition NewGCMCipher (key : option (list byte)) : result gcmContentCipher :=
  Value {| gcm_key := key; gcm := None |}.



End Crypto.

(* ================================================================== *)
(** * Error messages *)

(** [fmt.Sprintf] for a format whose verbs are all [%d]. *)
Fixpoint sprintf_ints (format : string) (args : list Z) : string :=
  match format with
  | String "%"%char (String "d"%char rest) =>
      match args with
      | a :: args' =>
          String.append (NilZero.string_of_int (Z.to_int a)) (sprintf_ints rest args')
      | [] => String.append "%!d(MISSING)" (sprintf_ints rest [])
      end
  | String c rest => String c (sprintf_ints rest args)
  | EmptyString => EmptyString
  end.

(** [fmt.Sprintf] for a format with one [%v] or [%w] verb and an error. *)
Fixpoint sprintf_error (format : string) (cause : string) : string :=
  match format with
  | String "%"%char (String "v"%char rest) => String.append cause rest
  | String "%"%char (String "w"%char rest) => String.append cause rest
  | String c rest => String c (sprintf_error rest cause)
  | EmptyString => EmptyString
  end.

(** [err.Error()] *)
Fixpoint Error (e : error) : string :=
  match e with
  | EOF => "EOF"
  | ErrUnexpectedEOF => "unexpected EOF"
  | ErrShortWrite => "short write"
  | ErrOpen => "cipher: message authentication failed"
  | KeySizeError n =>
      String.append "crypto/aes: invalid key size " (NilZero.string_of_int (Z.to_int n))
  | ErrUnsupportedCipherSuite => "unsupported cipher suite"
  | Errorf format args => sprintf_ints format args
  | Wrapf format cause => sprintf_error format (Error cause)
  end.

(** [strings.Contains(s, sub)] *)
Fixpoint contains (s sub : string) : bool :=
  String.prefix sub s ||
  match s with
  | String _ s' => contains s' sub
  | EmptyString => false
  end.

(* ================================================================== *)
(** * Vocabulary of the statements *)

(** [len(s)] of a slice that may be nil. *)
Definition slice_len (s : option (list byte)) : Z :=
  match s with
  | None => 0
  | Some l => len l
  end.

(** The key sizes of AES-128, AES-192 and AES-256. *)
Definition valid_key_size (n : Z) : Prop := n = 16 \/ n = 24 \/ n = 32.

(** The errors a constructor of the package reports. *)
Inductive ConfigurationError : error -> Prop :=
| cfg_key_nil : ConfigurationError (Errorf "key cannot be nil" [])
| cfg_key_size : ConfigurationError (Errorf "invalid key size" [])
| cfg_key_size_n : forall n, ConfigurationError (Errorf "invalid key size: %d" [n])
| cfg_iv_size : ConfigurationError (Errorf "IV length must equal block size" [])
| cfg_suite : ConfigurationError ErrUnsupportedCipherSuite.

(** The reader with its unread bytes replaced. *)
Definition with_unread (src : Source) (s : list byte) : Source :=
  match src with
  | BytesReader _ => BytesReader s
  | ShortReader k _ => ShortReader k s
  | FailingReader _ => src
  end.

(** The most bytes one [Read] of a reader puts into a buffer of [n] bytes. *)
Definition quota (src : Source) (n : nat) : nat :=
  match src with
  | BytesReader _ => n
  | ShortReader k _ => Nat.min k n
  | FailingReader _ => 0%nat
  end.

(** The readers that deliver their bytes: no failure, and progress at every
    [Read]. *)
Definition delivering (src : Source) : Prop :=
  match src with
  | BytesReader _ => True
  | ShortReader k _ => (0 < k)%nat
  | FailingReader _ => False
  end.

(** A byte string cut into pieces of [n] bytes, the last one shorter when
    [n] does not divide the length: what successive reads of [n] bytes see. *)
Fixpoint chunks_aux (fuel n : nat) (s : list byte) : list (list byte) :=
  match fuel with
  | O => []
  | S fuel' =>
      match s with
      | [] => []
      | _ => firstn n s :: chunks_aux fuel' n (skipn n s)
      end
  end.

Definition chunks (n : nat) (s : list byte) : list (list byte) :=
  chunks_aux (length s) n s.

(** Pieces that are all [n] bytes long, but for a last one of 1 to [n] bytes. *)
Fixpoint aligned (n : nat) (cs : list (list byte)) : Prop :=
  match cs with
  | [] => True
  | c :: rest =>
      match rest with
      | [] => (0 < length c <= n)%nat
      | _ => length c = n /\ aligned n rest
      end
  end.

(** The AEAD calls of a finished chunked stream. *)
Definition calls_of (o : outcome (option error * Source * Sink * list aead_call))
  : list aead_call :=
  match o with
  | Ret (_, _, _, calls) => calls
  | _ => []
  end.

(** The call is a [Seal] under the given nonce. *)
Definition seals_under (nonce : list byte) (c : aead_call) : Prop :=
  exists plaintext, c = SealCall nonce plaintext.

(** The call is an [Open] under the given nonce. *)
Definition opens_under (nonce : list byte) (c : aead_call) : Prop :=
  exists ciphertext, c = OpenCall nonce ciphertext.

(** The padder both CBC streams build. *)
Definition p16 : PKCS7Padder := {| blockSize := aes_BlockSize |}.

(** A CBC mode over a block, in a direction, with a chaining value. *)
Definition cbcMode (blk : Block) (d : direction) (iv : list byte) : BlockMode :=
  {| bm_block := blk; bm_dir := d; bm_iv := iv |}.

(** What the decrypting loop must come to: with [plain] the chain decryption
    of the [N] blocks still to process, [N - 1] blocks and the unpadded last
    block are appended to [w0], or the panic of [Unpad] is the loop's. *)
Definition dec_result (loop : outcome (cbcDecryptReader * Sink * Z * option error))
    (src : Source) (w0 plain : list byte) (N : nat) : Prop :=
  match Unpad p16 (skipn (16 * (N - 1)) plain) with
  | Ret (u, _) =>
      exists r' wr',
        loop = Ret (r', BufferSink (w0 ++ firstn (16 * (N - 1)) plain ++ u), wr', None) /\
        d_src r' = with_unread src []
  | Panic m => loop = Panic m
  | Exhausted => False
  end.

(** The PKCS7 padding of a plaintext of [n] bytes. *)
Definition pkcs7 (n : nat) : list byte :=
  repeat (byte_of_Z (Z.of_nat (16 - n mod 16))) (16 - n mod 16).

(** CBC encryption of block-aligned bytes under a block and an IV. *)
Definition cbc_encrypt (blk : Block) (iv s : list byte) : list byte :=
  fst (encryptBlocks blk (length s / 16) iv s).

(** CBC decryption of block-aligned bytes under a block and an IV. *)
Definition cbc_decrypt (blk : Block) (iv s : list byte) : list byte :=
  fst (decryptBlocks blk (length s / 16) iv s).

(* ================================================================== *)
(** * Small instances of the parameters, to run the model on *)

(** A keyed permutation of blocks: reverse, then xor with the first key byte. *)
Definition toyBlock (key : list byte) : Block := {|
  Encrypt x := map (byte_xor (hd x00 key)) (rev x);
  Decrypt y := rev (map (byte_xor (hd x00 key)) y)
|}.

Fixpoint bytes_eqb (a b : list byte) : bool :=
  match a, b with
  | [], [] => true
  | x :: a', y :: b' => Byte.eqb x y && bytes_eqb a' b'
  | _, _ => false
  end.

(** The sum of the bytes of a string, from [start]. *)
Definition byte_sum (start : Z) (s : list byte) : Z :=
  fold_right (fun b acc => Z_of_byte b + acc) start s.

(** A 16-byte tag: a checksum of nonce and body, then fifteen zero bytes. *)
Definition toy_tag (nonce body : list byte) : list byte :=
  byte_of_Z (byte_sum (Z_of_byte (hd x00 nonce)) body) :: repeat x00 15.

(** An AEAD with a 12-byte nonce and a 16-byte tag after the body. *)
Definition toyAEAD : AEAD := {|
  NonceSize := 12;
  Overhead := 16;
  Seal nonce p :=
    let body := map (byte_xor (hd x00 nonce)) p in
    body ++ toy_tag nonce body;
  Open nonce c :=
    if (length c <? 16)%nat then None
    else
      let body := firstn (length c - 16) c in
      let tag := skipn (length c - 16) c in
      if bytes_eqb tag (toy_tag nonce body)
      then Some (map (byte_xor (hd x00 nonce)) body)
      else None
|}.

Definition toyGCM (blk : Block) : AEAD := toyAEAD.

(** The bytes of an ASCII string. *)
Definition bytes_of_string (s : string) : list byte := list_byte_of_string s.

Definition key32 : list byte := repeat x00 32.
Definition iv16 : list byte := repeat x00 16.
Definition nonce12 : list byte := repeat x07 12.

(** A plaintext of two chunks: 32 KiB and one byte. *)
Definition two_chunks : list byte := repeat x41 (Z.to_nat (32 * 1024 + 1)).

(** An engine over the small AEAD. *)
Definition toyEngine : gcmContentCipher :=
  {| gcm_key := Some key32; gcm := Some toyAEAD |}.

(** A CBC engine over the small block. *)
Definition toyCBC : cbcCipher := {| cbc_key := key32; cbc_iv := iv16 |}.

(** The plaintext of the specification's example. *)
Definition hello_walrus : list byte := bytes_of_string "Hello, Walrus!".

(* ================================================================== *)
(** * GCM stream cipher, buffered-reader form: the stream over the reader *)

(** [gcmEncryptReader.Read] as the [io.Reader] method that [io.Copy] calls. *)
Definition gcmEncryptReader_Read (r : Buffered.gcmEncryptReader) (data : list byte)
  : outcome (Buffered.gcmEncryptReader * list byte * Z * option error) :=
  '(r1, data1, n, err, _) <- Buffered.Read r data ;;
  Ret (r1, data1, n, err).

(** [func (c *gcmContentCipher) EncryptStream(src io.Reader, dst io.Writer) error]
    of the buffered-reader form. *)
Definition Buffered_EncryptStream (fuel : nat) (c : gcmContentCipher)
    (entropy src : Source) (dst : Sink)
  : outcome (option error * Source * Sink) :=
  match gcm c with
  | None => Ret (Some (Errorf "gcm cipher is not initialized" []), src, dst)
  | Some a =>
      nonce0 <- make (NonceSize a) ;;
      '(_, nonce, _, err) <- rand_Read entropy nonce0 ;;
      match err with
      | Some e => Ret (Some (Wrapf "failed to generate nonce: %w" e), src, dst)
      | None =>
          let '(dst1, _, err) := dst_Write dst nonce in
          match err with
          | Some e => Ret (Some (Wrapf "failed to write nonce: %w" e), src, dst1)
          | None =>
              let reader := {| Buffered.src := src; Buffered.gcm := a;
                               Buffered.nonce := nonce; Buffered.buf := [] |} in
              '(reader1, dst2, _, err) <- io_Copy gcmEncryptReader_Read fuel dst1 reader ;;
              Ret (err, Buffered.src reader1, dst2)
          end
      end
  end.

(** The chunk the buffered reader seals at a time, as a length. *)
Definition bufferedChunk : nat := Z.to_nat Buffered.defaultBufferSize.

(* ================================================================== *)
(** * GCM stream cipher over a key alone (encryption/aes_gcm.go, [gcmCipher]) *)

Record gcmCipher : Type := { gc_key : list byte }.

Section KeyedGCM.

Variable aes : list byte -> Block.
Variable NewGCM : Block -> AEAD.

(** [func (c *gcmCipher) EncryptStream(src io.Reader, dst io.Writer) error];
    [cipher.NewGCM] does not fail on an AES block. *)
Definition gcmCipher_EncryptStream (c : gcmCipher) (entropy src : Source) (dst : Sink)
  : outcome (option error * Source * Sink) :=
  match aes_NewCipher aes (gc_key c) with
  | Failure e => Ret (Some e, src, dst)
  | Value block =>
      let aead := NewGCM block in
      nonce0 <- make (NonceSize aead) ;;
      '(_, nonce, _, err) <- rand_Read entropy nonce0 ;;
      match err with
      | Some _ => Ret (err, src, dst)
      | None =>
          let '(dst1, _, err) := dst_Write dst nonce in
          match err with
          | Some _ => Ret (err, src, dst1)
          | None =>
              '(src1, plaintext, err) <- io_ReadAll src ;;
              match err with
              | Some _ => Ret (err, src1, dst1)
              | None =>
                  let ciphertext := Seal aead nonce plaintext in
                  let '(dst2, _, err) := dst_Write dst1 ciphertext in
                  Ret (err, src1, dst2)
              end
          end
      end
  end.

(** [func (c *gcmCipher) DecryptStream(src io.Reader, dst io.Writer) error] *)
Definition gcmCipher_DecryptStream (c : gcmCipher) (src : Source) (dst : Sink)
  : outcome (option error * Source * Sink) :=
  match aes_NewCipher aes (gc_key c) with
  | Failure e => Ret (Some e, src, dst)
  | Value block =>
      let aead := NewGCM block in
      nonce0 <- make (NonceSize aead) ;;
      '(src1, nonce, _, err) <- io_ReadFull src nonce0 ;;
      match err with
      | Some _ => Ret (err, src1, dst)
      | None =>
          '(src2, ciphertext, err) <- io_ReadAll src1 ;;
          match err with
          | Some _ => Ret (err, src2, dst)
          | None =>
              match Open aead nonce ciphertext with
              | None => Ret (Some ErrOpen, src2, dst)
              | Some plaintext =>
                  let '(dst1, _, err) := dst_Write dst plaintext in
                  Ret (err, src2, dst1)
              end
          end
      end
  end.

End KeyedGCM.

(* ================================================================== *)
(** * Cipher suites and the [StreamCipher] constructors *)

(** [func (c CipherSuite) IsValid() bool] *)
Definition IsValid (c : CipherSuite) : bool :=
  if String.eqb c AES256GCM || String.eqb c AES256CBC then true else false.

(** [func (c CipherSuite) RequiresIV() bool] *)
Definition RequiresIV (c : CipherSuite) : bool := String.eqb c AES256CBC.

(** The engines behind the [StreamCipher] interface, and its constructors,
    which check nothing. A nil slice is the empty slice: the engines take
    its length and write it, and do nothing else with it. *)
Module StreamAPI.

Inductive StreamCipher : Type :=
| CBCStream (c : cbcCipher)
| GCMStream (c : gcmCipher).

(** [func NewCBCCipher(key, iv []byte) (StreamCipher, error)] *)
Definition NewCBCCipher (key iv : list byte) : result StreamCipher :=
  Value (CBCStream {| cbc_key := key; cbc_iv := iv |}).

(** [func NewGCMCipher(key []byte) (StreamCipher, error)] *)
Definition NewGCMCipher (key : list byte) : result StreamCipher :=
  Value (GCMStream {| gc_key := key |}).

Section Dispatch.

Variable aes : list byte -> Block.
Variable NewGCM : Block -> AEAD.

(** The methods of the [StreamCipher] interface, by dynamic dispatch. *)
Definition EncryptStream (fuel : nat) (c : StreamCipher)
    (entropy src : Source) (dst : Sink)
  : outcome (option error * Source * Sink) :=
  match c with
  | CBCStream c => cbcCipher_EncryptStream aes fuel c src dst
  | GCMStream c => gcmCipher_EncryptStream aes NewGCM c entropy src dst
  end.

Definition DecryptStream (fuel : nat) (c : StreamCipher) (src : Source) (dst : Sink)
  : outcome (option error * Source * Sink) :=
  match c with
  | CBCStream c => cbcCipher_DecryptStream aes fuel c src dst
  | GCMStream c => gcmCipher_DecryptStream aes NewGCM c src dst
  end.

End Dispatch.

End StreamAPI.

(* ================================================================== *)
(** * Encryption options of the client (walrus.go) *)

(** The errors of package [walrus_go]: those of the packages below it, and
    the messages it formats itself. *)
Inductive walrus_error : Type :=
| StreamError (e : error)                       (* returned as it came *)
| ErrDecryption                                 (* var ErrDecryption *)
| ErrorfString (format : string) (arg : string) (* fmt.Errorf with one %s *)
| ErrorfStatus (format : string) (code : Z) (body : list byte)
                                                (* fmt.Errorf with %d and %s *)
| WrapError (format : string) (cause : walrus_error)   (* fmt.Errorf with %w *)
| WrapNil (format : string).                    (* fmt.Errorf with %w and nil *)

(** [fmt.Sprintf] for a format with one [%s] verb. *)
Fixpoint sprintf_string (format : string) (arg : string) : string :=
  match format with
  | String "%"%char (String "s"%char rest) => String.append arg rest
  | String c rest => String c (sprintf_string rest arg)
  | EmptyString => EmptyString
  end.

(** [err.Error()] *)
Fixpoint walrus_Error (e : walrus_error) : string :=
  match e with
  | StreamError e => Error e
  | ErrDecryption => "failed to decrypt data: invalid key or corrupted data"
  | ErrorfString format arg => sprintf_string format arg
  | ErrorfStatus format code body =>
      sprintf_string (sprintf_ints format [code]) (string_of_list_byte body)
  | WrapError format cause => sprintf_error format (walrus_Error cause)
  | WrapNil format => sprintf_error format "%!w(<nil>)"
  end.

(** [fmt.Errorf(format, err)] with one [%w] verb, for an [err] that may be
    nil. *)
Definition wrap_w (format : string) (err : option walrus_error) : walrus_error :=
  match err with
  | Some e => WrapError format e
  | None => WrapNil format
  end.

(** A Go [(value, error)] return in package [walrus_go]. *)
Inductive walrus_result (A : Type) : Type :=
| Done (a : A)
| Failed (e : walrus_error).

Arguments Done {A} a.
Arguments Failed {A} e.

(** [type EncryptionOptions struct]; a nil slice is the empty slice. *)
Record EncryptionOptions : Type := {
  Key : list byte;
  Mode : string;
  IV : list byte
}.

(** [func (opts *EncryptionOptions) getCipher() (encryption.StreamCipher, error)];
    [None] is the nil pointer. *)
Definition getCipher (opts : option EncryptionOptions)
  : walrus_result StreamAPI.StreamCipher :=
  let lift (r : result StreamAPI.StreamCipher) :=
    match r with
    | Value c => Done c
    | Failure e => Failed (StreamError e)
    end in
  match opts with
  | None => Failed (StreamError (Errorf "encryption key is required" []))
  | Some opts =>
      if len (Key opts) =? 0
      then Failed (StreamError (Errorf "encryption key is required" []))
      else if String.eqb (Mode opts) "CBC" then
        if len (IV opts) =? 0
        then Failed (StreamError (Errorf "IV is required for CBC mode" []))
        else lift (StreamAPI.NewCBCCipher (Key opts) (IV opts))
      else if String.eqb (Mode opts) "GCM" || String.eqb (Mode opts) ""
      then lift (StreamAPI.NewGCMCipher (Key opts))
      else Failed (ErrorfString "unsupported encryption mode: %s" (Mode opts))
  end.

(* ================================================================== *)
(** * The Go standard library: CTR mode, stream reader and stream writer *)

(** The counter block incremented as a big-endian integer, with wrap-around:
    on the reversed block, from the low byte up. *)
Fixpoint incr_le (l : list byte) : list byte :=
  match l with
  | [] => []
  | b :: rest =>
      if Z_of_byte b =? 255 then x00 :: incr_le rest
      else byte_of_Z (Z_of_byte b + 1) :: rest
  end.

Definition ctr_incr (ctr : list byte) : list byte := rev (incr_le (rev ctr)).

(** [cipher.Stream] in CTR mode: the block, the counter block, and how many
    bytes of the key stream block [Encrypt(ctr)] have been used. *)
Record Stream : Type := {
  s_block : Block;
  s_ctr : list byte;
  s_outUsed : nat
}.

(** [cipher.NewCTR(block, iv)] *)
Definition NewCTR (blk : Block) (iv : list byte) : outcome Stream :=
  if len iv =? aes_BlockSize
  then Ret {| s_block := blk; s_ctr := iv; s_outUsed := 0 |}
  else Panic "cipher.NewCTR: IV length must equal block size".

(** The key stream applied to [src], byte by byte: byte [j] of the stream
    is byte [j mod 16] of the encryption of the counter advanced [j / 16]
    times. *)
Fixpoint keyStream_xor (x : Stream) (src : list byte) : Stream * list byte :=
  match src with
  | [] => (x, [])
  | b :: src' =>
      let k := nth (s_outUsed x) (Encrypt (s_block x) (s_ctr x)) x00 in
      let x1 :=
        if (S (s_outUsed x) <? 16)%nat
        then {| s_block := s_block x; s_ctr := s_ctr x;
                s_outUsed := S (s_outUsed x) |}
        else {| s_block := s_block x; s_ctr := ctr_incr (s_ctr x);
                s_outUsed := 0 |} in
      let '(x2, out) := keyStream_xor x1 src' in
      (x2, byte_xor b k :: out)
  end.

(** The state of a fresh CTR stream. *)
Definition ctr_start (blk : Block) (iv : list byte) : Stream :=
  {| s_block := blk; s_ctr := iv; s_outUsed := 0 |}.

(** [x.XORKeyStream(dst, src)]: the new stream and the new contents of [dst]. *)
Definition XORKeyStream (x : Stream) (dst src : list byte)
  : outcome (Stream * list byte) :=
  if len dst <? len src then Panic "crypto/cipher: output smaller than input"
  else
    let '(x1, out) := keyStream_xor x src in
    Ret (x1, out ++ skipn (length src) dst).

(** [cipher.StreamWriter] *)
Record StreamWriter : Type := { sw_S : Stream; sw_W : Sink }.

(** [func (w StreamWriter) Write(src []byte) (n int, err error)] *)
Definition StreamWriter_Write (w : StreamWriter) (src : list byte)
  : outcome (StreamWriter * Z * option error) :=
  c <- make (len src) ;;
  '(s1, c1) <- XORKeyStream (sw_S w) c src ;;
  let '(dst1, n, err) := dst_Write (sw_W w) c1 in
  let err := match err with
             | None => if n =? len src then None else Some ErrShortWrite
             | Some _ => err
             end in
  Ret ({| sw_S := s1; sw_W := dst1 |}, n, err).

(** [cipher.StreamReader] *)
Record StreamReader : Type := { sr_S : Stream; sr_R : Source }.

(** [func (r StreamReader) Read(dst []byte) (n int, err error)] *)
Definition StreamReader_Read (r : StreamReader) (dst : list byte)
  : outcome (StreamReader * list byte * Z * option error) :=
  let '(src1, dst1, n, err) := src_Read (sr_R r) dst in
  head <- slice_to dst1 n ;;
  '(s1, head1) <- XORKeyStream (sr_S r) head head ;;
  Ret ({| sr_S := s1; sr_R := src1 |}, head1 ++ skipn (length head) dst1, n, err).

Section CopyTo.
(** A writer under [io.Copy] is any state with a [Write] method. *)
Variable W : Type.
Variable Write : W -> list byte -> outcome (W * Z * option error).

(** The loop of [io.Copy] from a reader of the model to such a writer. *)
Fixpoint copy_to_loop (fuel : nat) (src : Source) (dst : W) (buf : list byte)
    (written : Z) : outcome (Source * W * Z * option error) :=
  match fuel with
  | O => Exhausted
  | S fuel' =>
      let '(src1, buf1, nr, er) := src_Read src buf in
      '(dst1, written1, stop) <-
        (if 0 <? nr then
           chunk <- slice_to buf1 nr ;;
           '(dst1, nw, ew) <- Write dst chunk ;;
           match ew with
           | Some e => Ret (dst1, written + nw, Some (Some e))
           | None =>
               if nr =? nw then Ret (dst1, written + nw, None)
               else Ret (dst1, written + nw, Some (Some ErrShortWrite))
           end
         else Ret (dst, written, None)) ;;
      match stop with
      | Some err => Ret (src1, dst1, written1, err)
      | None =>
          match er with
          | Some e => Ret (src1, dst1, written1, if is_EOF er then None else Some e)
          | None => copy_to_loop fuel' src1 dst1 buf1 written1
          end
      end
  end.

(** [io.Copy(dst, src)]: a [bytes.Reader] hands its unread bytes to the
    writer in one [Write] (its [WriteTo]); the other readers go through the
    loop. *)
Definition io_Copy_to (fuel : nat) (dst : W) (src : Source)
  : outcome (Source * W * Z * option error) :=
  match src with
  | BytesReader s =>
      match s with
      | [] => Ret (src, dst, 0, None)
      | _ =>
          '(dst1, m, err) <- Write dst s ;;
          if len s <? m then Panic "bytes.Reader.WriteTo: invalid Write count"
          else
            rest <- slice_from s m ;;
            let err := match err with
                       | None => if m =? len s then None else Some ErrShortWrite
                       | Some _ => err
                       end in
            Ret (BytesReader rest, dst1, m, err)
      end
  | _ =>
      buf <- make copyBufSize ;;
      copy_to_loop fuel src dst buf 0
  end.

End CopyTo.

Arguments copy_to_loop {W} Write fuel src dst buf written.
Arguments io_Copy_to {W} Write fuel dst src.

(* ================================================================== *)
(** * CTR streams of package [walrus_go] (encryption.go) *)

Module CTR.

Section Streams.

Variable aes : list byte -> Block.

(** [func EncryptStream(key []byte, src io.Reader, dst io.Writer) error] *)
Definition EncryptStream (fuel : nat) (key : list byte) (entropy src : Source)
    (dst : Sink) : outcome (option error * Source * Sink) :=
  match aes_NewCipher aes key with
  | Failure e => Ret (Some e, src, dst)
  | Value block =>
      iv0 <- make aes_BlockSize ;;
      '(_, iv, _, err) <- rand_Read entropy iv0 ;;
      match err with
      | Some _ => Ret (err, src, dst)
      | None =>
          let '(dst1, _, err) := dst_Write dst iv in
          match err with
          | Some _ => Ret (err, src, dst1)
          | None =>
              stream <- NewCTR block iv ;;
              let writer := {| sw_S := stream; sw_W := dst1 |} in
              '(src1, writer1, _, err) <- io_Copy_to StreamWriter_Write fuel writer src ;;
              Ret (err, src1, sw_W writer1)
          end
      end
  end.

(** [func DecryptStream(key []byte, src io.Reader, dst io.Writer) error] *)
Definition DecryptStream (fuel : nat) (key : list byte) (src : Source) (dst : Sink)
  : outcome (option error * Source * Sink) :=
  match aes_NewCipher aes key with
  | Failure e => Ret (Some e, src, dst)
  | Value block =>
      iv0 <- make aes_BlockSize ;;
      '(src1, iv, _, err) <- io_ReadFull src iv0 ;;
      match err with
      | Some _ => Ret (err, src1, dst)
      | None =>
          stream <- NewCTR block iv ;;
          let reader := {| sr_S := stream; sr_R := src1 |} in
          '(reader1, dst1, _, err) <- io_Copy StreamReader_Read fuel dst reader ;;
          Ret (err, sr_R reader1, dst1)
      end
  end.

End Streams.

End CTR.

(* ================================================================== *)
(** * CTR streams with a header of magic bytes (the version of
      encryption.go that writes "WAL_V1") *)

Module CTRMagic.

(** [magicBytes = []byte("WAL_V1")] *)
Definition magicBytes : list byte := bytes_of_string "WAL_V1".

Section Streams.

Variable aes : list byte -> Block.

(** [func EncryptStream(key []byte, src io.Reader, dst io.Writer) error] *)
Definition EncryptStream (fuel : nat) (key : list byte) (entropy src : Source)
    (dst : Sink) : outcome (option error * Source * Sink) :=
  match aes_NewCipher aes key with
  | Failure e => Ret (Some e, src, dst)
  | Value block =>
      iv0 <- make aes_BlockSize ;;
      '(_, iv, _, err) <- rand_Read entropy iv0 ;;
      match err with
      | Some _ => Ret (err, src, dst)
      | None =>
          let '(dst1, _, err) := dst_Write dst magicBytes in
          match err with
          | Some _ => Ret (err, src, dst1)
          | None =>
              let '(dst2, _, err) := dst_Write dst1 iv in
              match err with
              | Some _ => Ret (err, src, dst2)
              | None =>
                  stream <- NewCTR block iv ;;
                  verificationBytes0 <- make (len magicBytes) ;;
                  '(_, verificationBytes) <-
                    XORKeyStream stream verificationBytes0 magicBytes ;;
                  let '(dst3, _, err) := dst_Write dst2 verificationBytes in
                  match err with
                  | Some _ => Ret (err, src, dst3)
                  | None =>
                      stream <- NewCTR block iv ;;
                      let writer := {| sw_S := stream; sw_W := dst3 |} in
                      '(src1, writer1, _, err) <-
                        io_Copy_to StreamWriter_Write fuel writer src ;;
                      Ret (err, src1, sw_W writer1)
                  end
              end
          end
      end
  end.

(** [func DecryptStream(key []byte, src io.Reader, dst io.Writer) error] *)
Definition DecryptStream (fuel : nat) (key : list byte) (src : Source) (dst : Sink)
  : outcome (option walrus_error * Source * Sink) :=
  header0 <- make (len magicBytes) ;;
  '(src1, header, _, err) <- io_ReadFull src header0 ;;
  match err with
  | Some _ => Ret (Some ErrDecryption, src1, dst)
  | None =>
      if negb (bytes_eqb header magicBytes)
      then Ret (Some ErrDecryption, src1, dst)
      else
        match aes_NewCipher aes key with
        | Failure e => Ret (Some (StreamError e), src1, dst)
        | Value block =>
            iv0 <- make aes_BlockSize ;;
            '(src2, iv, _, err) <- io_ReadFull src1 iv0 ;;
            match err with
            | Some _ => Ret (Some ErrDecryption, src2, dst)
            | None =>
                stream <- NewCTR block iv ;;
                encryptedVerification0 <- make (len magicBytes) ;;
                '(src3, encryptedVerification, _, err) <-
                  io_ReadFull src2 encryptedVerification0 ;;
                match err with
                | Some _ => Ret (Some ErrDecryption, src3, dst)
                | None =>
                    verificationBytes0 <- make (len magicBytes) ;;
                    '(_, verificationBytes) <-
                      XORKeyStream stream verificationBytes0 encryptedVerification ;;
                    if negb (bytes_eqb verificationBytes magicBytes)
                    then Ret (Some ErrDecryption, src3, dst)
                    else
                      stream <- NewCTR block iv ;;
                      let reader := {| sr_S := stream; sr_R := src3 |} in
                      '(reader1, dst1, _, err) <-
                        io_Copy StreamReader_Read fuel dst reader ;;
                      Ret (option_map StreamError err, sr_R reader1, dst1)
                end
            end
        end
  end.

End Streams.

End CTRMagic.

(* ================================================================== *)
(** * More small instances *)

(** A reader that delivers the example plaintext five bytes at a time. *)
Definition short_hello : Source := ShortReader 5 hello_walrus.

(** The small CBC engine without an IV of its own. *)
Definition toyCBC_no_iv : cbcCipher := {| cbc_key := key32; cbc_iv := [] |}.

(** Two whole chunks of the chunked stream. *)
Definition chunkA : list byte := repeat x41 (Z.to_nat Chunked.chunkSize).
Definition chunkB : list byte := repeat x42 (Z.to_nat Chunked.chunkSize).

(** Encryption options: the default mode with a good key, and a key of
    three bytes. *)
Definition optsDefault : EncryptionOptions :=
  {| Key := key32; Mode := ""; IV := [] |}.
Definition optsShortKey : EncryptionOptions :=
  {| Key := [x01; x02; x03]; Mode := "GCM"; IV := [] |}.

(* ================================================================== *)
(** * The client (walrus.go): responses, options, retries *)

(** [int] on a 64-bit platform: what a sum or a difference wraps around
    to. *)
Definition int_wrap (z : Z) : Z := (z + 2 ^ 63) mod 2 ^ 64 - 2 ^ 63.

(** [math.MaxInt] *)
Definition MaxInt : Z := 2 ^ 63 - 1.

Module Walrus.

Record BlobInfo : Type := { BlobID : string; EndEpoch : Z }.

Record StorageInfo : Type := {
  storage_ID : string;
  StartEpoch : Z;
  storage_EndEpoch : Z;
  StorageSize : Z
}.

Record BlobObject : Type := {
  object_ID : string;
  StoredEpoch : Z;
  object_BlobID : string;
  Size : Z;
  ErasureCodeType : string;
  CertifiedEpoch : Z;
  Storage : StorageInfo
}.

Record EventInfo : Type := { TxDigest : string; EventSeq : string }.

Record NewlyCreatedInfo : Type := {
  created_BlobObject : BlobObject;
  EncodedSize : Z;
  Cost : Z
}.

Record AlreadyCertifiedInfo : Type := {
  certified_BlobID : string;
  Event : EventInfo;
  certified_EndEpoch : Z
}.

(** [type StoreResponse struct]; the two pointers are options. *)
Record StoreResponse : Type := {
  Blob : BlobInfo;
  NewlyCreated : option NewlyCreatedInfo;
  AlreadyCertified : option AlreadyCertifiedInfo
}.

(** [func (resp *StoreResponse) NormalizeBlobResponse()]: the response as
    the call leaves it. *)
Definition NormalizeBlobResponse (resp : StoreResponse) : StoreResponse :=
  let resp :=
    match AlreadyCertified resp with
    | Some ac =>
        {| Blob := {| BlobID := certified_BlobID ac;
                      EndEpoch := certified_EndEpoch ac |};
           NewlyCreated := NewlyCreated resp;
           AlreadyCertified := AlreadyCertified resp |}
    | None => resp
    end in
  match NewlyCreated resp with
  | Some nc =>
      {| Blob := {| BlobID := object_BlobID (created_BlobObject nc);
                    EndEpoch := storage_EndEpoch (Storage (created_BlobObject nc)) |};
         NewlyCreated := NewlyCreated resp;
         AlreadyCertified := AlreadyCertified resp |}
  | None => resp
  end.

Section Client.

#[local] Set Implicit Arguments.

(** [net/url] and [net/http] are not part of the repository: the URL of a
    request with what the client does to it, and the network, are
    parameters. *)
Variable URL : Type.
(** The [String] method of a URL. *)
Variable url_String : URL -> string.
(** [url.Parse]; [None] is the nil URL returned with an error. *)
Variable url_Parse : string -> option URL.
(** The URL with [Host] and [Scheme] set to the empty string. *)
Variable url_strip : URL -> URL.
(** The state of the network. *)
Variable World : Type.

(** [http.Request], as far as the client looks into it. *)
Record Request : Type := {
  Method : string;
  req_URL : option URL;
  req_Body : option Source
}.

(** [http.Response] *)
Record Response : Type := { StatusCode : Z; resp_Body : Source }.

(** [http.Client]: its [Do] method. *)
Record HTTPClient : Type := {
  Do : World -> Request -> World * (Response + walrus_error)
}.

(** [type RetryConfig struct]; a [time.Duration] is its nanoseconds. *)
Record RetryConfig : Type := { MaxRetries : Z; RetryDelay : Z }.

(** [type Client struct] *)
Record Client : Type := {
  AggregatorURL : list string;
  PublisherURL : list string;
  httpClient : HTTPClient;
  retryConfig : RetryConfig;
  MaxUnknownLengthUploadSize : Z
}.

(** [type ClientOption]: a function on the client; here, the client as the
    option leaves it. *)
Definition ClientOption : Type := Client -> Client.

(** [func WithAggregatorURLs(urls []string) ClientOption] *)
Definition WithAggregatorURLs (urls : list string) : ClientOption := fun c =>
  if (0 <? length urls)%nat
  then {| AggregatorURL := urls; PublisherURL := PublisherURL c;
          httpClient := httpClient c; retryConfig := retryConfig c;
          MaxUnknownLengthUploadSize := MaxUnknownLengthUploadSize c |}
  else c.

(** [func WithPublisherURLs(urls []string) ClientOption] *)
Definition WithPublisherURLs (urls : list string) : ClientOption := fun c =>
  if (0 <? length urls)%nat
  then {| AggregatorURL := AggregatorURL c; PublisherURL := urls;
          httpClient := httpClient c; retryConfig := retryConfig c;
          MaxUnknownLengthUploadSize := MaxUnknownLengthUploadSize c |}
  else c.

(** [func WithHTTPClient(httpClient) ClientOption]; [None] is the nil
    pointer. *)
Definition WithHTTPClient (h : option HTTPClient) : ClientOption := fun c =>
  match h with
  | Some h =>
      {| AggregatorURL := AggregatorURL c; PublisherURL := PublisherURL c;
         httpClient := h; retryConfig := retryConfig c;
         MaxUnknownLengthUploadSize := MaxUnknownLengthUploadSize c |}
  | None => c
  end.

(** [func WithRetryConfig(maxRetries int, retryDelay time.Duration) ClientOption] *)
Definition WithRetryConfig (maxRetries retryDelay : Z) : ClientOption := fun c =>
  {| AggregatorURL := AggregatorURL c; PublisherURL := PublisherURL c;
     httpClient := httpClient c;
     retryConfig := {| MaxRetries := maxRetries; RetryDelay := retryDelay |};
     MaxUnknownLengthUploadSize := MaxUnknownLengthUploadSize c |}.

(** [func WithMaxUnknownLengthUploadSize(maxSize int64) ClientOption] *)
Definition WithMaxUnknownLengthUploadSize (maxSize : Z) : ClientOption := fun c =>
  if 0 <? maxSize
  then {| AggregatorURL := AggregatorURL c; PublisherURL := PublisherURL c;
          httpClient := httpClient c; retryConfig := retryConfig c;
          MaxUnknownLengthUploadSize := maxSize |}
  else c.

(** The default endpoints, declared in a file of the package that is not at
    hand, and the zero [http.Client]. *)
Variable DefaultTestnetAggregators : list string.
Variable DefaultTestnetPublishers : list string.
Variable defaultHTTPClient : HTTPClient.

(** [func NewClient(opts ...ClientOption)] *)
Definition NewClient (opts : list ClientOption) : Client :=
  let client :=
    {| AggregatorURL := DefaultTestnetAggregators;
       PublisherURL := DefaultTestnetPublishers;
       httpClient := defaultHTTPClient;
       retryConfig := {| MaxRetries := 5; RetryDelay := 500 * 1000000 |};
       MaxUnknownLengthUploadSize := 5 * 1024 * 1024 |} in
  fold_left (fun client opt => opt client) opts client.

(** What a call of [doWithRetry] does to the network: the state of the
    network, the requests handed to [Do], each with the base URL it was
    built for, and the pauses slept, in order. *)
Record Net : Type := {
  world : World;
  sent : list (string * Request);
  slept : list Z
}.

(** [urls[i]] *)
Definition index_string (urls : list string) (i : Z) : outcome string :=
  if (i <? 0) || (Z.of_nat (length urls) <=? i)
  then Panic "runtime error: index out of range"
  else Ret (nth (Z.to_nat i) urls EmptyString).

(** The [for] loop of [doWithRetry]: the result, the request as the loop
    leaves it, and the network. *)
Fixpoint doWithRetry_loop (fuel : nat) (c : Client) (urls : list string)
    (req : Request) (totalAttempts attemptCount : Z)
    (lastErr : option walrus_error) (net : Net)
  : outcome (walrus_result Response * Request * Net) :=
  match fuel with
  | O => Exhausted
  | S fuel' =>
      if attemptCount <? totalAttempts then
        urlIndex <- go_rem attemptCount (Z.of_nat (length urls)) ;;
        baseURL <- index_string urls urlIndex ;;
        match req_URL req with
        | None => Panic nil_dereference
        | Some u =>
            let fullURL := String.append baseURL (url_String (url_strip u)) in
            let url1 := url_Parse fullURL in
            '(body, berr) <-
              match req_Body req with
              | None => Ret (None, None)
              | Some b =>
                  '(b1, bodyBytes, err) <- io_ReadAll b ;;
                  match err with
                  | Some e => Ret (Some b1, Some e)
                  | None => Ret (Some (BytesReader bodyBytes), None)
                  end
              end ;;
            match berr with
            | Some e =>
                Ret (Failed (WrapError "failed to read request body: %w"
                               (StreamError e)),
                     {| Method := Method req; req_URL := url1; req_Body := body |},
                     net)
            | None =>
                let req1 := {| Method := Method req; req_URL := url1;
                               req_Body := body |} in
                let newReq := req1 in
                let '(w1, r) := Do (httpClient c) (world net) newReq in
                let sent1 := sent net ++ [(baseURL, newReq)] in
                let failed lastErr1 :=
                  let slept1 :=
                    if attemptCount <? int_wrap (totalAttempts - 1)
                    then slept net ++ [RetryDelay (retryConfig c)]
                    else slept net in
                  doWithRetry_loop fuel' c urls req1 totalAttempts
                    (int_wrap (attemptCount + 1)) (Some lastErr1)
                    {| world := w1; sent := sent1; slept := slept1 |} in
                match r with
                | inr err => failed err
                | inl resp =>
                    if StatusCode resp =? 200
                    then Ret (Done resp, req1,
                              {| world := w1; sent := sent1; slept := slept net |})
                    else
                      '(_, errBody, readErr) <- io_ReadAll (resp_Body resp) ;;
                      match readErr with
                      | None =>
                          if 0 <? len errBody
                          then failed (ErrorfStatus
                                         "request failed with status code %d: %s"
                                         (StatusCode resp) errBody)
                          else failed (StreamError
                                         (Errorf "request failed with status code %d"
                                            [StatusCode resp]))
                      | Some _ =>
                          failed (StreamError
                                    (Errorf "request failed with status code %d"
                                       [StatusCode resp]))
                      end
                end
            end
        end
      else
        Ret (Failed (wrap_w "all retry attempts failed: %w" lastErr), req, net)
  end.

(** [func (c *Client) doWithRetry(req, urls)], from the state [w] of the
    network. *)
Definition doWithRetry (c : Client) (req : Request) (urls : list string) (w : World)
  : outcome (walrus_result Response * Request * Net) :=
  let totalAttempts := int_wrap (MaxRetries (retryConfig c) + 1) in
  doWithRetry_loop (S (Z.to_nat totalAttempts)) c urls req totalAttempts 0 None
    {| world := w; sent := []; slept := [] |}.

(** The body of a request as an attempt leaves it: read to its end and
    replaced by a reader of the bytes read. *)
Definition replayed (body : option Source) : option Source :=
  match body with
  | None => None
  | Some b => Some (BytesReader (unread b))
  end.

(** The base URLs of [n] attempts in turn, from attempt number [from]. *)
Definition round_robin (urls : list string) (from n : nat) : list string :=
  map (fun k => nth (k mod length urls) urls EmptyString) (seq from n).

(** The options the package provides. *)
Inductive package_option : ClientOption -> Prop :=
| opt_aggregators : forall urls, package_option (WithAggregatorURLs urls)
| opt_publishers : forall urls, package_option (WithPublisherURLs urls)
| opt_http : forall h, package_option (WithHTTPClient h)
| opt_retry : forall m d, package_option (WithRetryConfig m d)
| opt_upload : forall n, package_option (WithMaxUnknownLengthUploadSize n).

End Client.

End Walrus.

(** A small network for the client: a URL is its text, and the server fails
    the first request, is busy at the second and answers from the third
    on; the state of the network is the number of requests served. *)
Definition toyHTTP : Walrus.HTTPClient string nat :=
  {| Walrus.Do := fun w _ =>
       (S w,
        match w with
        | O => inr (StreamError ErrUnexpectedEOF)
        | S O => inl {| Walrus.StatusCode := 503;
                        Walrus.resp_Body := BytesReader (bytes_of_string "busy") |}
        | _ => inl {| Walrus.StatusCode := 200;
                      Walrus.resp_Body := BytesReader hello_walrus |}
        end) |}.

Definition toyOptions : list (Walrus.ClientOption string nat) :=
  [Walrus.WithRetryConfig 3 1000;
   Walrus.WithAggregatorURLs ["https://a.example"; "https://b.example"];
   Walrus.WithPublisherURLs []].

Definition toyClient : Walrus.Client string nat :=
  Walrus.NewClient ["https://aggregator.example"] ["https://publisher.example"]
    toyHTTP toyOptions.

(** The same client with the largest number of retries there is. *)
Definition toyClientMax : Walrus.Client string nat :=
  Walrus.WithRetryConfig MaxInt 1000 toyClient.

Definition toyRequest : Walrus.Request string :=
  {| Walrus.Method := "GET"; Walrus.req_URL := Some "/v1/blobs/abc";
     Walrus.req_Body := Some short_hello |}.

Definition toyRequest_no_URL : Walrus.Request string :=
  {| Walrus.Method := "GET"; Walrus.req_URL := None; Walrus.req_Body := None |}.

(** Encryption options that ask for a mode the client does not have. *)
Definition optsCTR : EncryptionOptions :=
  {| Key := key32; Mode := "CTR"; IV := [] |}.

(* ================================================================== *)
(** * Bytes and slices *)

(** Linear arithmetic with quotients and remainders by constants. *)
Ltac dlia := zify; Z.to_euclidean_division_equations; lia.

Lemma Z_of_byte_range (b : byte) : 0 <= Z_of_byte b < 256.
Proof.
  unfold Z_of_byte. pose proof (Byte.to_N_bounded b). lia.
Qed.

Lemma Z_of_byte_of_Z (z : Z) : Z_of_byte (byte_of_Z z) = z mod 256.
Proof.
  unfold Z_of_byte, byte_of_Z.
  assert (Hr : 0 <= z mod 256 < 256) by (apply Z.mod_pos_bound; lia).
  destruct (Byte.of_N (Z.to_N (z mod 256))) as [b|] eqn:E.
  - apply Byte.to_of_N in E. rewrite E. apply Z2N.id. lia.
  - apply Byte.of_N_None_iff in E. lia.
Qed.

Lemma byte_of_Z_of_byte (b : byte) : byte_of_Z (Z_of_byte b) = b.
Proof.
  unfold byte_of_Z. pose proof (Z_of_byte_range b) as Hr.
  rewrite Z.mod_small by exact Hr.
  unfold Z_of_byte. rewrite N2Z.id, Byte.of_to_N. reflexivity.
Qed.

Lemma Z_of_byte_inj (a b : byte) : Z_of_byte a = Z_of_byte b -> a = b.
Proof.
  intros H. rewrite <- (byte_of_Z_of_byte a), <- (byte_of_Z_of_byte b), H.
  reflexivity.
Qed.

Lemma len_nonneg (s : list byte) : 0 <= len s.
Proof. unfold len. lia. Qed.

Lemma len_app (a b : list byte) : len (a ++ b) = len a + len b.
Proof. unfold len. rewrite length_app. lia. Qed.

Lemma len_nil_iff (s : list byte) : len s = 0 <-> s = [].
Proof.
  unfold len. destruct s; simpl; split; intros H; try reflexivity; try discriminate; lia.
Qed.

Lemma repeat_bytes_single (b : byte) (n : nat) : repeat_bytes [b] n = repeat b n.
Proof. induction n as [|n IH]; simpl; [reflexivity | now rewrite IH]. Qed.

Lemma slice_to_ok (s : list byte) (n : Z) :
  0 <= n <= len s -> slice_to s n = Ret (firstn (Z.to_nat n) s).
Proof.
  intros H. unfold slice_to.
  destruct (n <? 0) eqn:E1; [apply Z.ltb_lt in E1; lia|].
  destruct (len s <? n) eqn:E2; [apply Z.ltb_lt in E2; lia|].
  reflexivity.
Qed.

Lemma slice_from_ok (s : list byte) (n : Z) :
  0 <= n <= len s -> slice_from s n = Ret (skipn (Z.to_nat n) s).
Proof.
  intros H. unfold slice_from.
  destruct (n <? 0) eqn:E1; [apply Z.ltb_lt in E1; lia|].
  destruct (len s <? n) eqn:E2; [apply Z.ltb_lt in E2; lia|].
  reflexivity.
Qed.

Lemma make_ok (n : Z) : 0 <= n -> make n = Ret (repeat x00 (Z.to_nat n)).
Proof.
  intros H. unfold make.
  destruct (n <? 0) eqn:E; [apply Z.ltb_lt in E; lia | reflexivity].
Qed.

Lemma index_last (s : list byte) :
  s <> [] -> index s (len s - 1) = Ret (last s x00).
Proof.
  intros Hs. unfold index.
  assert (Hl : 0 < len s).
  { destruct s; [contradiction | unfold len; simpl; lia]. }
  destruct (len s - 1 <? 0) eqn:E1; [apply Z.ltb_lt in E1; lia|].
  destruct (len s <=? len s - 1) eqn:E2; [apply Z.leb_le in E2; lia|].
  simpl. f_equal.
  destruct (exists_last Hs) as [front [b ->]].
  rewrite last_last. unfold len. rewrite length_app. simpl.
  replace (Z.to_nat (Z.of_nat (length front + 1) - 1)) with (length front) by lia.
  rewrite app_nth2, Nat.sub_diag by lia. reflexivity.
Qed.

(* ================================================================== *)
(** * The padding codec *)

Lemma Pad_spec (p : PKCS7Padder) (data : list byte) (size : Z) :
  0 < blockSize p -> 0 <= size ->
  Pad p data size =
    Ret (data ++ repeat (byte_of_Z (blockSize p - size mod blockSize p))
                        (Z.to_nat (blockSize p - size mod blockSize p)), None).
Proof.
  intros Hb Hs. unfold Pad, go_rem.
  destruct (blockSize p =? 0) eqn:E; [apply Z.eqb_eq in E; lia|].
  simpl. rewrite Z.rem_mod_nonneg by lia.
  pose proof (Z.mod_pos_bound size (blockSize p) Hb) as Hm.
  unfold bytes_Repeat.
  destruct (blockSize p - size mod blockSize p <? 0) eqn:E2;
    [apply Z.ltb_lt in E2; lia|].
  simpl. rewrite repeat_bytes_single. reflexivity.
Qed.

Lemma Unpad_spec (p : PKCS7Padder) (data : list byte) :
  data <> [] -> Z_of_byte (last data x00) <= len data ->
  Unpad p data =
    Ret (firstn (Z.to_nat (len data - Z_of_byte (last data x00))) data, None).
Proof.
  intros Hd Hk. unfold Unpad.
  destruct (len data =? 0) eqn:E.
  { apply Z.eqb_eq, len_nil_iff in E. contradiction. }
  rewrite index_last by exact Hd. simpl.
  pose proof (Z_of_byte_range (last data x00)).
  rewrite slice_to_ok by lia. reflexivity.
Qed.

Lemma Unpad_panic (p : PKCS7Padder) (data : list byte) :
  data <> [] -> len data < Z_of_byte (last data x00) ->
  Unpad p data = Panic "runtime error: slice bounds out of range".
Proof.
  intros Hd Hk. unfold Unpad.
  destruct (len data =? 0) eqn:E.
  { apply Z.eqb_eq, len_nil_iff in E. contradiction. }
  rewrite index_last by exact Hd. simpl. unfold slice_to.
  destruct (len data - Z_of_byte (last data x00) <? 0) eqn:E1;
    [reflexivity | apply Z.ltb_ge in E1; lia].
Qed.

Lemma Unpad_trailing (p : PKCS7Padder) (front trailing : list byte) :
  trailing <> [] -> Z_of_byte (last trailing x00) = len trailing ->
  Unpad p (front ++ trailing) = Ret (front, None).
Proof.
  intros Ht Hk.
  assert (Hne : front ++ trailing <> []).
  { intros H. apply app_eq_nil in H. destruct H. contradiction. }
  assert (Hl : last (front ++ trailing) x00 = last trailing x00).
  { destruct (exists_last Ht) as [t [b ->]].
    rewrite app_assoc, !last_last. reflexivity. }
  rewrite Unpad_spec; rewrite ?Hl, ?Hk, ?len_app; try exact Hne.
  - replace (Z.to_nat (len front + len trailing - len trailing)) with (length front)
      by (unfold len; lia).
    rewrite firstn_app, Nat.sub_diag, firstn_all. simpl. rewrite app_nil_r.
    reflexivity.
  - pose proof (len_nonneg front). lia.
Qed.

(** C5. For every data and every running total length, [Pad] appends exactly
    [blockSize - totalLength mod blockSize] bytes, each holding that value;
    when the total length is a multiple of the block size (the empty
    plaintext included) that is one full block. The block size is that of a
    block cipher, so a padding count fits a byte. *)
Theorem C5_Pad_appends_padding (p : PKCS7Padder) (data : list byte) (totalLength : Z) :
  0 < blockSize p <= 255 -> 0 <= totalLength ->
  exists padtext,
    Pad p data totalLength = Ret (data ++ padtext, None) /\
    len padtext = blockSize p - totalLength mod blockSize p /\
    Forall (fun b => Z_of_byte b = blockSize p - totalLength mod blockSize p) padtext /\
    (totalLength mod blockSize p = 0 -> len padtext = blockSize p).
Proof.
  intros Hb Hs.
  pose proof (Z.mod_pos_bound totalLength (blockSize p) (proj1 Hb)) as Hm.
  exists (repeat (byte_of_Z (blockSize p - totalLength mod blockSize p))
                 (Z.to_nat (blockSize p - totalLength mod blockSize p))).
  split; [apply Pad_spec; lia|].
  assert (Hlen : len (repeat (byte_of_Z (blockSize p - totalLength mod blockSize p))
                   (Z.to_nat (blockSize p - totalLength mod blockSize p)))
                 = blockSize p - totalLength mod blockSize p).
  { unfold len. rewrite repeat_length. lia. }
  split; [exact Hlen|]. split.
  - apply Forall_forall. intros b Hin. apply repeat_spec in Hin. subst b.
    rewrite Z_of_byte_of_Z. apply Z.mod_small. lia.
  - intros H0. rewrite Hlen, H0. lia.
Qed.

Lemma C5_Pad_witness :
  (0 < 16 <= 255) /\ (0 <= 0) /\
  exists padtext,
    Pad {| blockSize := 16 |} [] 0 = Ret ([] ++ padtext, None) /\
    len padtext = 16 - 0 mod 16 /\
    Forall (fun b => Z_of_byte b = 16 - 0 mod 16) padtext /\
    (0 mod 16 = 0 -> len padtext = 16).
Proof.
  split; [lia|]. split; [lia|].
  apply (C5_Pad_appends_padding {| blockSize := 16 |} [] 0); simpl; lia.
Defined.

(** C6, as stated, fails: on the one-byte input [05] the count read from the
    last byte exceeds the input and [Unpad] returns nothing at all. *)
Lemma C6_Unpad_counterexample :
  [x05] <> [] /\
  Unpad {| blockSize := 16 |} [x05] = Panic "runtime error: slice bounds out of range" /\
  ~ (exists r, Unpad {| blockSize := 16 |} [x05] = Ret (r, None)).
Proof.
  split; [discriminate|]. split; [reflexivity|].
  intros [r H]. vm_compute in H. discriminate.
Qed.

(** C6, amended. For every non-empty input whose last byte [k], read as the
    padding count, is at most the input's length, [Unpad] returns the input
    without its last [k] bytes, whatever those bytes are; for the zero-length
    input it returns an empty result and no error. *)
Theorem C6_Unpad_removes_trailing (p : PKCS7Padder) :
  (forall front trailing : list byte,
     trailing <> [] -> Z_of_byte (last trailing x00) = len trailing ->
     Unpad p (front ++ trailing) = Ret (front, None)) /\
  (forall data : list byte,
     data <> [] -> Z_of_byte (last data x00) <= len data ->
     Unpad p data =
       Ret (firstn (Z.to_nat (len data - Z_of_byte (last data x00))) data, None)) /\
  Unpad p [] = Ret ([], None).
Proof.
  split; [|split; [apply Unpad_spec | reflexivity]].
  intros front trailing Ht Hk. now apply Unpad_trailing.
Qed.

Lemma C6_Unpad_witness :
  Unpad {| blockSize := 16 |} ([x41; x42] ++ [x09; x02]) = Ret ([x41; x42], None).
Proof.
  apply (proj1 (C6_Unpad_removes_trailing {| blockSize := 16 |}) [x41; x42] [x09; x02]).
  - discriminate.
  - reflexivity.
Defined.

(* ================================================================== *)
(** * The cipher factory *)

Lemma key_size_test (n : Z) :
  ~ valid_key_size n -> (n =? 16) || (n =? 24) || (n =? 32) = false.
Proof.
  unfold valid_key_size. intros H.
  destruct (n =? 16) eqn:E1; [apply Z.eqb_eq in E1; tauto|].
  destruct (n =? 24) eqn:E2; [apply Z.eqb_eq in E2; tauto|].
  destruct (n =? 32) eqn:E3; [apply Z.eqb_eq in E3; tauto|].
  reflexivity.
Qed.

Lemma key_size_test_true (n : Z) :
  (n =? 16) || (n =? 24) || (n =? 32) = true -> valid_key_size n.
Proof.
  unfold valid_key_size. intros H.
  apply orb_true_iff in H. destruct H as [H|H].
  - apply orb_true_iff in H. destruct H as [H|H]; apply Z.eqb_eq in H; tauto.
  - apply Z.eqb_eq in H. tauto.
Qed.

Section Factory.

Variable aes : list byte -> Block.
Variable NewGCM : Block -> AEAD.

Lemma NewGCMContentCipher_bad_key (key : option (list byte)) :
  ~ valid_key_size (slice_len key) ->
  exists e, NewGCMContentCipher aes NewGCM key = Failure e /\ ConfigurationError e.
Proof.
  intros Hk. unfold NewGCMContentCipher. destruct key as [k|].
  - simpl in Hk. rewrite (key_size_test _ Hk). eexists. split; [reflexivity|].
    constructor.
  - eexists. split; [reflexivity | constructor].
Qed.

Lemma NewCBCCipher_bad_key (key iv : option (list byte)) :
  ~ valid_key_size (slice_len key) ->
  exists e, NewCBCCipher key iv = Failure e /\ ConfigurationError e.
Proof.
  intros Hk. unfold NewCBCCipher. destruct key as [k|].
  - destruct iv as [v|].
    + simpl in Hk. rewrite (key_size_test _ Hk).
      eexists. split; [reflexivity | constructor].
    + eexists. split; [reflexivity | constructor].
  - eexists. split; [reflexivity | constructor].
Qed.

Lemma NewCBCCipher_bad_iv (key iv : option (list byte)) :
  slice_len iv <> aes_BlockSize ->
  exists e, NewCBCCipher key iv = Failure e /\ ConfigurationError e.
Proof.
  intros Hv. unfold NewCBCCipher. destruct key as [k|].
  - destruct iv as [v|].
    + simpl in Hv.
      destruct ((len k =? 16) || (len k =? 24) || (len k =? 32)).
      * destruct (len v =? aes_BlockSize) eqn:E;
          [apply Z.eqb_eq in E; contradiction|].
        eexists. split; [reflexivity | constructor].
      * eexists. split; [reflexivity | constructor].
    + eexists. split; [reflexivity | constructor].
  - eexists. split; [reflexivity | constructor].
Qed.

Lemma NewCBCCipher_value (key iv : option (list byte)) (c : cbcCipher) :
  NewCBCCipher key iv = Value c ->
  key = Some (cbc_key c) /\ iv = Some (cbc_iv c) /\
  valid_key_size (len (cbc_key c)) /\ len (cbc_iv c) = aes_BlockSize.
Proof.
  unfold NewCBCCipher. destruct key as [k|]; [|discriminate].
  destruct iv as [v|]; [|discriminate].
  destruct ((len k =? 16) || (len k =? 24) || (len k =? 32)) eqn:Ek; [|discriminate].
  destruct (len v =? aes_BlockSize) eqn:Ev; [|discriminate].
  simpl. intros H. injection H as <-. simpl.
  repeat split; [now apply key_size_test_true | now apply Z.eqb_eq].
Qed.

(** C4. A key whose length is not 16, 24 or 32 makes [NewCBCCipher],
    [NewGCMContentCipher] and [NewCipher] for every suite return a
    configuration error; an IV whose length is not the block size makes
    [NewCBCCipher] and [NewCipher] for the CBC suite return one. The
    constructors take no source, so nothing has been read; and an engine
    that was constructed holds a valid key and IV, so that the stream
    methods cannot meet such an input. *)
Theorem C4_construction_rejects_bad_sizes (key iv : option (list byte)) :
  (~ valid_key_size (slice_len key) ->
     (exists e, NewCBCCipher key iv = Failure e /\ ConfigurationError e) /\
     (exists e, NewGCMContentCipher aes NewGCM key = Failure e /\ ConfigurationError e) /\
     (forall suite, exists e,
         NewCipher aes NewGCM suite key iv = Failure e /\ ConfigurationError e)) /\
  (slice_len iv <> aes_BlockSize ->
     (exists e, NewCBCCipher key iv = Failure e /\ ConfigurationError e) /\
     (exists e, NewCipher aes NewGCM AES256CBC key iv = Failure e /\ ConfigurationError e)) /\
  (forall c, NewCBCCipher key iv = Value c ->
     valid_key_size (len (cbc_key c)) /\ len (cbc_iv c) = aes_BlockSize) /\
  (forall c, NewGCMContentCipher aes NewGCM key = Value c ->
     valid_key_size (slice_len key) /\
     exists g a, c = GCMEngine g /\ gcm g = Some a).
Proof.
  split; [|split; [|split]].
  - intros Hk. split; [now apply NewCBCCipher_bad_key|].
    split; [now apply NewGCMContentCipher_bad_key|].
    intros suite. unfold NewCipher.
    destruct (String.eqb suite AES256GCM);
      [now apply NewGCMContentCipher_bad_key|].
    destruct (String.eqb suite AES256CBC).
    + destruct (NewCBCCipher_bad_key key iv Hk) as [e [-> He]]. eauto.
    + eexists. split; [reflexivity | constructor].
  - intros Hv. split; [now apply NewCBCCipher_bad_iv|].
    unfold NewCipher. simpl.
    destruct (NewCBCCipher_bad_iv key iv Hv) as [e [-> He]]. eauto.
  - intros c Hc. apply NewCBCCipher_value in Hc. tauto.
  - intros c. unfold NewGCMContentCipher. destruct key as [k|]; [|discriminate].
    destruct ((len k =? 16) || (len k =? 24) || (len k =? 32)) eqn:Ek; [|discriminate].
    unfold aes_NewCipher. rewrite Ek. intros H. injection H as <-.
    split; [now apply key_size_test_true|]. do 2 eexists. split; reflexivity.
Qed.

(** C7, amended. For every suite value other than AES256GCM and AES256CBC,
    [NewCipher] fails with the one error value [ErrUnsupportedCipherSuite],
    whose message is the fixed text "unsupported cipher suite": the same
    for every rejected suite. *)
Theorem C7_NewCipher_unsupported_suite (suite : CipherSuite) (key iv : option (list byte)) :
  suite <> AES256GCM -> suite <> AES256CBC ->
  NewCipher aes NewGCM suite key iv = Failure ErrUnsupportedCipherSuite /\
  Error ErrUnsupportedCipherSuite = "unsupported cipher suite".
Proof.
  intros Hg Hc. unfold NewCipher.
  apply String.eqb_neq in Hg, Hc. rewrite Hg, Hc. split; reflexivity.
Qed.

(** C10. For every key, of a valid size or not, [NewGCMCipher] returns an
    engine whose [gcm] field is nil: its [EncryptStream] returns the error
    "gcm cipher is not initialized" with the source and the sink untouched,
    and its [DecryptStream] panics on the nil AEAD. *)
Theorem C10_NewGCMCipher_engine_unusable (key : option (list byte)) :
  exists c,
    NewGCMCipher key = Value c /\
    gcm_key c = key /\ gcm c = None /\
    (forall entropy src dst,
       gcmContentCipher_EncryptStream c entropy src dst =
         Ret (Some (Errorf "gcm cipher is not initialized" []), src, dst)) /\
    Error (Errorf "gcm cipher is not initialized" []) = "gcm cipher is not initialized" /\
    (forall src dst,
       gcmContentCipher_DecryptStream c src dst = Panic nil_dereference).
Proof.
  eexists. split; [reflexivity|]. simpl. repeat split; reflexivity.
Qed.

End Factory.

Lemma C4_construction_witness :
  ~ valid_key_size (slice_len (Some (repeat x00 15))) /\
  exists e, NewCBCCipher (Some (repeat x00 15)) (Some iv16) = Failure e /\
            ConfigurationError e.
Proof.
  assert (H : ~ valid_key_size (slice_len (Some (repeat x00 15)))).
  { vm_compute. intros [H|[H|H]]; discriminate H. }
  split; [exact H|].
  exact (proj1 (proj1 (C4_construction_rejects_bad_sizes toyBlock toyGCM
                         (Some (repeat x00 15)) (Some iv16)) H)).
Defined.

(** C7, as stated, fails: the error returned for the suite "AES128CTR" does
    not mention it, and is the very error returned for the suite "DES". *)
Lemma C7_NewCipher_counterexample :
  "AES128CTR" <> AES256GCM /\ "AES128CTR" <> AES256CBC /\
  NewCipher toyBlock toyGCM "AES128CTR" (Some key32) (Some iv16)
    = Failure ErrUnsupportedCipherSuite /\
  contains (Error ErrUnsupportedCipherSuite) "AES128CTR" = false /\
  NewCipher toyBlock toyGCM "DES" (Some key32) (Some iv16)
    = NewCipher toyBlock toyGCM "AES128CTR" (Some key32) (Some iv16).
Proof.
  repeat split; try discriminate; reflexivity.
Qed.

Lemma C7_NewCipher_witness :
  NewCipher toyBlock toyGCM "AES128CTR" (Some key32) (Some iv16)
    = Failure ErrUnsupportedCipherSuite /\
  Error ErrUnsupportedCipherSuite = "unsupported cipher suite".
Proof.
  apply (C7_NewCipher_unsupported_suite toyBlock toyGCM "AES128CTR"
           (Some key32) (Some iv16)); discriminate.
Defined.

(* ================================================================== *)
(** * Readers, [io.ReadAll] and [io.ReadFull] *)

Lemma src_Read_EOF (src : Source) (p : list byte) :
  delivering src -> unread src = [] ->
  src_Read src p = (src, p, 0, Some EOF).
Proof.
  destruct src as [s|k s|e]; simpl; intros Hd Hs; try contradiction;
    subst s; reflexivity.
Qed.

Lemma src_Read_data (src : Source) (p : list byte) :
  delivering src -> unread src <> [] ->
  let n := Nat.min (quota src (length p)) (length (unread src)) in
  src_Read src p =
    (with_unread src (skipn n (unread src)),
     firstn n (unread src) ++ skipn n p, Z.of_nat n, None).
Proof.
  destruct src as [s|k s|e]; simpl; intros Hd Hs; try contradiction.
  - destruct s as [|b s]; [contradiction|]. unfold read_upto.
    replace (Nat.min (length p) (Nat.min (length p) (length (b :: s))))
      with (Nat.min (length p) (length (b :: s))) by lia.
    reflexivity.
  - destruct s as [|b s]; [contradiction|]. unfold read_upto.
    replace (Nat.min k (Nat.min (length p) (length (b :: s))))
      with (Nat.min (Nat.min k (length p)) (length (b :: s))) by lia.
    reflexivity.
Qed.

Lemma delivering_with_unread (src : Source) (s : list byte) :
  delivering src -> delivering (with_unread src s).
Proof. destruct src; simpl; auto. Qed.

Lemma unread_with_unread (src : Source) (s : list byte) :
  delivering src -> unread (with_unread src s) = s.
Proof. destruct src; simpl; intros H; try contradiction; reflexivity. Qed.

Lemma with_unread_twice (src : Source) (s t : list byte) :
  with_unread (with_unread src s) t = with_unread src t.
Proof. destruct src; reflexivity. Qed.

Lemma with_unread_same (src : Source) :
  with_unread src (unread src) = src.
Proof. destruct src; reflexivity. Qed.

Lemma quota_with_unread (src : Source) (s : list byte) (n : nat) :
  quota (with_unread src s) n = quota src n.
Proof. destruct src; reflexivity. Qed.

Lemma quota_le (src : Source) (n : nat) : (quota src n <= n)%nat.
Proof. destruct src; simpl; lia. Qed.

Lemma quota_pos (src : Source) (n : nat) :
  delivering src -> (0 < n)%nat -> (0 < quota src n)%nat.
Proof. destruct src; simpl; intros; try contradiction; lia. Qed.

Lemma length_nonempty (s : list byte) : s <> [] -> (0 < length s)%nat.
Proof. destruct s; [contradiction | simpl; lia]. Qed.

Lemma readAll_loop_spec (fuel : nat) :
  forall (src : Source) (b : list byte),
    delivering src -> (length (unread src) < fuel)%nat ->
    readAll_loop fuel src b = Ret (with_unread src [], b ++ unread src, None).
Proof.
  induction fuel as [|fuel IH]; intros src b Hd Hf; [lia|].
  cbn [readAll_loop].
  destruct (unread src) as [|x s] eqn:Es.
  - rewrite src_Read_EOF by assumption. cbn.
    rewrite app_nil_r. f_equal. f_equal. f_equal.
    rewrite <- Es. symmetry. apply with_unread_same.
  - assert (Hne : unread src <> []) by (rewrite Es; discriminate).
    rewrite src_Read_data by assumption. cbv zeta.
    set (n := Nat.min (quota src (length (repeat x00 512))) (length (unread src))).
    assert (Hn : (0 < n <= length (unread src))%nat /\ (n <= 512)%nat).
    { subst n. pose proof (quota_le src (length (repeat x00 512))).
      pose proof (quota_pos src (length (repeat x00 512)) Hd).
      pose proof (length_nonempty _ Hne).
      rewrite repeat_length in *. lia. }
    clearbody n. rewrite slice_to_ok.
    2:{ unfold len. rewrite length_app, length_firstn, length_skipn, repeat_length. lia. }
    cbn [bind]. rewrite IH.
    + rewrite with_unread_twice, unread_with_unread by assumption.
      rewrite Nat2Z.id, firstn_app, length_firstn.
      replace (n - Nat.min n (length (unread src)))%nat with 0%nat by lia.
      rewrite firstn_O, app_nil_r, firstn_firstn, Nat.min_id.
      rewrite <- app_assoc, firstn_skipn, Es. reflexivity.
    + now apply delivering_with_unread.
    + rewrite unread_with_unread by assumption. rewrite length_skipn.
      rewrite Es in *. cbn [length] in *. lia.
Qed.

Lemma io_ReadAll_spec (src : Source) :
  delivering src ->
  io_ReadAll src = Ret (with_unread src [], unread src, None).
Proof.
  intros Hd. unfold io_ReadAll. rewrite readAll_loop_spec by (auto; lia).
  reflexivity.
Qed.

Lemma firstn_plus (a b : nat) (l : list byte) :
  firstn (a + b) l = firstn a l ++ firstn b (skipn a l).
Proof.
  revert l. induction a as [|a IH]; intros l; simpl; [reflexivity|].
  destruct l as [|x l]; simpl.
  - now rewrite firstn_nil.
  - now rewrite IH.
Qed.

Lemma readFull_loop_spec (fuel : nat) :
  forall (src : Source) (buf : list byte) (n : nat),
    delivering src -> (n <= length buf)%nat ->
    (length buf - n <= length (unread src))%nat ->
    (length buf - n < fuel)%nat ->
    readFull_loop fuel src buf (Z.of_nat n) =
      Ret (with_unread src (skipn (length buf - n) (unread src)),
           firstn n buf ++ firstn (length buf - n) (unread src),
           len buf, None).
Proof.
  induction fuel as [|fuel IH]; intros src buf n Hd Hn Hs Hf; [lia|].
  cbn [readFull_loop]. unfold len at 1.
  destruct (Z.of_nat n <? Z.of_nat (length buf)) eqn:E.
  - apply Z.ltb_lt in E.
    rewrite slice_to_ok, slice_from_ok by (unfold len; lia).
    cbn [bind]. rewrite Nat2Z.id.
    assert (Hne : unread src <> []).
    { intros H0. rewrite H0 in Hs. simpl in Hs. lia. }
    rewrite src_Read_data by assumption. cbv zeta.
    set (m := Nat.min (quota src (length (skipn n buf))) (length (unread src))).
    assert (Hm : (0 < m <= length (unread src))%nat /\ (m <= length buf - n)%nat).
    { subst m. pose proof (quota_le src (length (skipn n buf))).
      pose proof (quota_pos src (length (skipn n buf)) Hd).
      pose proof (length_nonempty _ Hne).
      rewrite length_skipn in *. lia. }
    clearbody m.
    set (buf1 := firstn n buf ++ firstn m (unread src) ++ skipn m (skipn n buf)).
    assert (Hl : length buf1 = length buf).
    { subst buf1. rewrite !length_app, !length_firstn, !length_skipn. lia. }
    rewrite <- Nat2Z.inj_add. rewrite IH.
    + rewrite with_unread_twice, unread_with_unread by assumption.
      rewrite skipn_skipn. unfold len. rewrite Hl.
      replace (length buf - (n + m) + m)%nat with (length buf - n)%nat by lia.
      f_equal. f_equal. f_equal.
      subst buf1. rewrite firstn_app, length_firstn.
      replace (Nat.min n (length buf)) with n by lia.
      rewrite firstn_firstn.
      replace (Nat.min (n + m) n) with n by lia.
      replace (n + m - n)%nat with m by lia.
      rewrite firstn_app, length_firstn.
      replace (m - Nat.min m (length (unread src)))%nat with 0%nat by lia.
      rewrite firstn_O, app_nil_r, firstn_firstn, Nat.min_id.
      replace (length buf - n)%nat with (m + (length buf - (n + m)))%nat by lia.
      rewrite firstn_plus, <- app_assoc.
      reflexivity.
    + now apply delivering_with_unread.
    + lia.
    + rewrite unread_with_unread, length_skipn by assumption. lia.
    + lia.
  - apply Z.ltb_ge in E.
    replace (length buf - n)%nat with 0%nat by lia.
    cbn [skipn firstn]. rewrite app_nil_r, with_unread_same.
    replace n with (length buf) by lia. rewrite firstn_all. reflexivity.
Qed.

Lemma io_ReadFull_spec (src : Source) (buf : list byte) :
  delivering src -> (length buf <= length (unread src))%nat ->
  io_ReadFull src buf =
    Ret (with_unread src (skipn (length buf) (unread src)),
         firstn (length buf) (unread src), len buf, None).
Proof.
  intros Hd Hl. unfold io_ReadFull.
  change 0 with (Z.of_nat 0).
  rewrite readFull_loop_spec by (auto; lia).
  rewrite Nat.sub_0_r. reflexivity.
Qed.

(* ================================================================== *)
(** * The single-shot GCM stream *)

Section SingleShot.

Variable a : AEAD.
Variable c : gcmContentCipher.
Hypothesis c_gcm : gcm c = Some a.
Hypothesis nonce_size : 0 <= NonceSize a.

Lemma gcm_EncryptStream_spec (entropy src : Source) (w : list byte) :
  delivering entropy -> NonceSize a <= len (unread entropy) ->
  delivering src ->
  let nonce := firstn (Z.to_nat (NonceSize a)) (unread entropy) in
  gcmContentCipher_EncryptStream c entropy src (BufferSink w) =
    Ret (None, with_unread src [],
         BufferSink ((w ++ nonce) ++ Seal a nonce (unread src))).
Proof.
  intros He Hn Hs nonce. unfold gcmContentCipher_EncryptStream.
  rewrite c_gcm, make_ok by exact nonce_size. cbn [bind].
  unfold rand_Read. rewrite io_ReadFull_spec.
  - cbn [bind]. rewrite repeat_length. cbn [dst_Write].
    rewrite io_ReadAll_spec by assumption. reflexivity.
  - assumption.
  - rewrite repeat_length. unfold len in Hn. lia.
Qed.

Lemma gcm_DecryptStream_spec (src : Source) (w : list byte) :
  delivering src -> NonceSize a <= len (unread src) ->
  let nonce := firstn (Z.to_nat (NonceSize a)) (unread src) in
  let ciphertext := skipn (Z.to_nat (NonceSize a)) (unread src) in
  gcmContentCipher_DecryptStream c src (BufferSink w) =
    match Open a nonce ciphertext with
    | None => Ret (Some ErrOpen, with_unread src [], BufferSink w)
    | Some plaintext => Ret (None, with_unread src [], BufferSink (w ++ plaintext))
    end.
Proof.
  intros Hs Hn nonce ciphertext. unfold gcmContentCipher_DecryptStream.
  rewrite c_gcm, make_ok by exact nonce_size. cbn [bind].
  rewrite io_ReadFull_spec.
  - cbn [bind]. rewrite repeat_length.
    rewrite io_ReadAll_spec by now apply delivering_with_unread.
    cbn [bind]. rewrite with_unread_twice, unread_with_unread by assumption.
    fold nonce ciphertext. destruct (Open a nonce ciphertext); reflexivity.
  - assumption.
  - rewrite repeat_length. unfold len in Hn. lia.
Qed.

(** Round trip of the single-shot GCM stream. *)
Lemma gcm_round_trip (nonce P : list byte) :
  len nonce = NonceSize a ->
  Open a nonce (Seal a nonce P) = Some P ->
  gcmContentCipher_EncryptStream c (BytesReader nonce) (BytesReader P) (BufferSink [])
    = Ret (None, BytesReader [], BufferSink (nonce ++ Seal a nonce P)) /\
  gcmContentCipher_DecryptStream c (BytesReader (nonce ++ Seal a nonce P)) (BufferSink [])
    = Ret (None, BytesReader [], BufferSink P).
Proof.
  intros Hn Ho.
  assert (Hz : Z.to_nat (NonceSize a) = length nonce) by (unfold len in Hn; lia).
  split.
  - rewrite gcm_EncryptStream_spec; simpl; trivial; try lia.
    rewrite Hz, firstn_all. reflexivity.
  - rewrite gcm_DecryptStream_spec; simpl; trivial.
    + rewrite Hz, firstn_app, firstn_all, Nat.sub_diag, firstn_O, app_nil_r.
      rewrite skipn_app, skipn_all, Nat.sub_diag. simpl.
      rewrite Ho. reflexivity.
    + rewrite len_app. pose proof (len_nonneg (Seal a nonce P)). lia.
Qed.

(** A ciphertext with one bit inverted is rejected and nothing is written. *)
Lemma gcm_tamper_single_shot (nonce P : list byte) (i : nat) :
  len nonce = NonceSize a ->
  Open a nonce (flip_bit i (Seal a nonce P)) = None ->
  gcmContentCipher_DecryptStream c
      (BytesReader (nonce ++ flip_bit i (Seal a nonce P))) (BufferSink [])
    = Ret (Some ErrOpen, BytesReader [], BufferSink []).
Proof.
  intros Hn Ho.
  assert (Hz : Z.to_nat (NonceSize a) = length nonce) by (unfold len in Hn; lia).
  rewrite gcm_DecryptStream_spec; simpl; trivial.
  - rewrite Hz, firstn_app, firstn_all, Nat.sub_diag, firstn_O, app_nil_r.
    rewrite skipn_app, skipn_all, Nat.sub_diag. simpl.
    rewrite Ho. reflexivity.
  - rewrite len_app. pose proof (len_nonneg (flip_bit i (Seal a nonce P))). lia.
Qed.

End SingleShot.

(* ================================================================== *)
(** * The chunked GCM stream *)

Lemma src_Read_bounds (src : Source) (p : list byte) :
  forall src' p' n err, src_Read src p = (src', p', n, err) ->
    0 <= n <= len p' /\ length p' = length p.
Proof.
  intros src' p' n err.
  assert (Hu : forall m s s' q k e, read_upto m s p = (s', q, k, e) ->
                 0 <= k <= len q /\ length q = length p).
  { intros m s s' q k e. unfold read_upto. destruct s as [|x s].
    - intros H. injection H as <- <- <- <-. pose proof (len_nonneg p). lia.
    - intros H. injection H as <- <- <- <-. unfold len.
      rewrite length_app, length_firstn, length_skipn. cbn [length]. lia. }
  destruct src as [s|k s|e]; simpl.
  - destruct (read_upto (length p) s p) as [[[s' q] k] e] eqn:E.
    intros H. injection H as <- <- <- <-. eapply Hu; eassumption.
  - destruct (read_upto k s p) as [[[s' q] k'] e] eqn:E.
    intros H. injection H as <- <- <- <-. eapply Hu; eassumption.
  - intros H. injection H as <- <- <- <-. pose proof (len_nonneg p). lia.
Qed.

Lemma chunks_aux_more (n : nat) (f1 : nat) :
  forall (f2 : nat) (s : list byte),
    (0 < n)%nat -> (length s <= f1)%nat -> (length s <= f2)%nat ->
    chunks_aux f1 n s = chunks_aux f2 n s.
Proof.
  induction f1 as [|f1 IH]; intros f2 s Hn H1 H2.
  - destruct s; [|simpl in H1; lia]. destruct f2; reflexivity.
  - destruct s as [|x s]; [destruct f2; reflexivity|].
    destruct f2 as [|f2]; [simpl in H2; lia|].
    cbn [chunks_aux]. f_equal. apply IH; try assumption;
      rewrite length_skipn; cbn [length] in *; lia.
Qed.

Lemma chunks_step (n : nat) (s : list byte) :
  (0 < n)%nat -> s <> [] ->
  chunks n s = firstn n s :: chunks n (skipn n s).
Proof.
  intros Hn Hs. unfold chunks. destruct s as [|x s]; [contradiction|].
  cbn [length chunks_aux]. f_equal.
  apply chunks_aux_more; try assumption; rewrite length_skipn; cbn [length]; lia.
Qed.

Lemma chunks_nil (n : nat) : chunks n [] = [].
Proof. reflexivity. Qed.

Lemma concat_chunks (n : nat) (s : list byte) :
  (0 < n)%nat -> concat (chunks n s) = s.
Proof.
  intros Hn. remember (length s) as m eqn:Hm. revert s Hm.
  induction m as [m IH] using lt_wf_ind. intros s Hm.
  destruct s as [|x s]; [reflexivity|].
  rewrite chunks_step by (auto; discriminate). cbn [concat].
  rewrite (IH (length (skipn n (x :: s)))); try reflexivity.
  - apply firstn_skipn.
  - rewrite length_skipn. cbn [length] in *. lia.
Qed.

Lemma chunks_aligned (n : nat) (s : list byte) :
  (0 < n)%nat -> aligned n (chunks n s).
Proof.
  intros Hn. remember (length s) as m eqn:Hm. revert s Hm.
  induction m as [m IH] using lt_wf_ind. intros s Hm.
  destruct s as [|x s]; [exact I|].
  rewrite chunks_step by (auto; discriminate).
  assert (Hr : aligned n (chunks n (skipn n (x :: s)))).
  { apply (IH (length (skipn n (x :: s)))); try reflexivity.
    rewrite length_skipn. cbn [length] in *. lia. }
  cbn [aligned]. destruct (chunks n (skipn n (x :: s))) as [|c rest] eqn:Ec.
  - rewrite length_firstn. cbn [length]. lia.
  - split; [|exact Hr]. rewrite length_firstn.
    destruct (skipn n (x :: s)) as [|y t] eqn:Es; [discriminate|].
    assert (length (skipn n (x :: s)) = S (length t)) by now rewrite Es.
    rewrite length_skipn in H. lia.
Qed.

Lemma flip_bit_length (s : list byte) : forall i, length (flip_bit i s) = length s.
Proof.
  induction s as [|b s IH]; intros i; simpl; [reflexivity|].
  destruct (i <? 8)%nat; simpl; [reflexivity | now rewrite IH].
Qed.

Lemma flip_bit_app_l (x y : list byte) :
  forall i, (i < 8 * length x)%nat -> flip_bit i (x ++ y) = flip_bit i x ++ y.
Proof.
  induction x as [|b x IH]; intros i Hi; simpl in *; [lia|].
  destruct (i <? 8)%nat eqn:E; [reflexivity|].
  apply Nat.ltb_ge in E. simpl. f_equal. apply IH. lia.
Qed.

Lemma flip_bit_app_r (x y : list byte) :
  forall i, (8 * length x <= i)%nat ->
    flip_bit i (x ++ y) = x ++ flip_bit (i - 8 * length x) y.
Proof.
  induction x as [|b x IH]; intros i Hi; simpl in *.
  - now rewrite Nat.sub_0_r.
  - destruct (i <? 8)%nat eqn:E; [apply Nat.ltb_lt in E; lia|].
    f_equal. rewrite IH by lia. f_equal. f_equal. lia.
Qed.

Lemma firstn_min_length (q : nat) (s : list byte) :
  firstn (Nat.min q (length s)) s = firstn q s.
Proof.
  destruct (Nat.le_gt_cases q (length s)) as [H|H].
  - now rewrite Nat.min_l.
  - rewrite Nat.min_r, firstn_all, firstn_all2 by lia. reflexivity.
Qed.

Lemma skipn_min_length (q : nat) (s : list byte) :
  skipn (Nat.min q (length s)) s = skipn q s.
Proof.
  destruct (Nat.le_gt_cases q (length s)) as [H|H].
  - now rewrite Nat.min_l.
  - rewrite Nat.min_r, skipn_all, skipn_all2 by lia. reflexivity.
Qed.

(** What one read of a delivering reader returns, with the chunk it put in
    the buffer. *)
Lemma src_Read_chunk (src : Source) (p : list byte) :
  delivering src -> unread src <> [] -> (0 < length p)%nat ->
  let q := quota src (length p) in
  exists p' n,
    src_Read src p = (with_unread src (skipn q (unread src)), p', n, None) /\
    0 < n /\ length p' = length p /\
    slice_to p' n = Ret (firstn q (unread src)).
Proof.
  intros Hd Hne Hp q.
  pose proof (src_Read_data src p Hd Hne) as H. cbv zeta in H. fold q in H.
  pose proof (quota_pos src (length p) Hd Hp) as Hq. fold q in Hq.
  pose proof (quota_le src (length p)) as Hq'. fold q in Hq'.
  pose proof (length_nonempty _ Hne) as Hs.
  rewrite firstn_min_length, skipn_min_length in H.
  eexists _, _. split; [exact H|]. split; [lia|].
  assert (Hl : length (firstn q (unread src) ++
                       skipn (Nat.min q (length (unread src))) p) = length p).
  { rewrite length_app, length_firstn, length_skipn. lia. }
  split; [exact Hl|].
  rewrite slice_to_ok by (unfold len; rewrite Hl; lia).
  rewrite Nat2Z.id. rewrite firstn_app, length_firstn, firstn_firstn.
  replace (Nat.min q (length (unread src)) - Nat.min q (length (unread src)))%nat
    with 0%nat by lia.
  rewrite firstn_O, app_nil_r.
  replace (Nat.min (Nat.min q (length (unread src))) q)
    with (Nat.min q (length (unread src))) by lia.
  now rewrite firstn_min_length.
Qed.

Section ChunkedLoops.

Variable a : AEAD.
Variable nonce : list byte.

(** The encrypting loop returns, and every call it makes is a [Seal] under
    the one nonce it was given. *)
Lemma encrypt_loop_nonce (fuel : nat) :
  forall (src : Source) (dst : Sink) (buf : list byte) (calls : list aead_call),
    delivering src -> (length (unread src) < fuel)%nat -> (0 < length buf)%nat ->
    exists e src' dst' added,
      Chunked.encrypt_loop fuel a nonce src dst buf calls
        = Ret (e, src', dst', calls ++ added) /\
      Forall (seals_under nonce) added /\
      (forall w, dst = BufferSink w -> exists body, dst' = BufferSink (w ++ body)).
Proof.
  induction fuel as [|fuel IH]; intros src dst buf calls Hd Hf Hb; [lia|].
  cbn [Chunked.encrypt_loop].
  destruct (list_eq_dec Byte.byte_eq_dec (unread src) []) as [Hs|Hs].
  - rewrite src_Read_EOF by assumption. cbn.
    exists None, src, dst, []. rewrite app_nil_r.
    split; [reflexivity|]. split; [constructor|].
    intros w ->. exists []. now rewrite app_nil_r.
  - destruct (src_Read_chunk src buf Hd Hs Hb) as (p' & n & -> & Hn & Hl & Hc).
    apply Z.ltb_lt in Hn. rewrite Hn, Hc. cbn [bind].
    set (chunk := firstn (quota src (length buf)) (unread src)).
    destruct dst as [w|e]; cbn [dst_Write bind].
    + cbn [is_EOF].
      destruct (IH (with_unread src (skipn (quota src (length buf)) (unread src)))
                   (BufferSink (w ++ Seal a nonce chunk)) p'
                   (calls ++ [SealCall nonce chunk]))
        as (e & src' & dst' & added & -> & Ha & Hw).
      * now apply delivering_with_unread.
      * rewrite unread_with_unread, length_skipn by assumption.
        pose proof (length_nonempty _ Hs).
        pose proof (quota_pos src (length buf) Hd Hb). lia.
      * lia.
      * exists e, src', dst', (SealCall nonce chunk :: added).
        rewrite <- app_assoc. split; [reflexivity|].
        split; [constructor; [now exists chunk | exact Ha]|].
        intros w0 Hw0. injection Hw0 as ->.
        destruct (Hw _ eq_refl) as [body ->].
        exists (Seal a nonce chunk ++ body). now rewrite app_assoc.
    + eexists _, _, _, [SealCall nonce chunk]. split; [reflexivity|].
      split; [constructor; [now exists chunk | constructor]|].
      intros w0 Hw0. discriminate Hw0.
Qed.

(** The decrypting loop returns, and every call it makes is an [Open] under
    the one nonce it was given. *)
Lemma decrypt_loop_nonce (fuel : nat) :
  forall (src : Source) (dst : Sink) (buf : list byte) (calls : list aead_call),
    delivering src -> (length (unread src) < fuel)%nat -> (0 < length buf)%nat ->
    exists e src' dst' added,
      Chunked.decrypt_loop fuel a nonce src dst buf calls
        = Ret (e, src', dst', calls ++ added) /\
      Forall (opens_under nonce) added.
Proof.
  induction fuel as [|fuel IH]; intros src dst buf calls Hd Hf Hb; [lia|].
  cbn [Chunked.decrypt_loop].
  destruct (list_eq_dec Byte.byte_eq_dec (unread src) []) as [Hs|Hs].
  - rewrite src_Read_EOF by assumption. cbn.
    exists None, src, dst, []. rewrite app_nil_r. split; [reflexivity | constructor].
  - destruct (src_Read_chunk src buf Hd Hs Hb) as (p' & n & -> & Hn & Hl & Hc).
    apply Z.ltb_lt in Hn. rewrite Hn, Hc. cbn [bind].
    set (chunk := firstn (quota src (length buf)) (unread src)).
    destruct (Open a nonce chunk) as [plaintext|].
    + destruct dst as [w|e]; cbn [dst_Write bind].
      * cbn [is_EOF].
        destruct (IH (with_unread src (skipn (quota src (length buf)) (unread src)))
                     (BufferSink (w ++ plaintext)) p'
                     (calls ++ [OpenCall nonce chunk]))
          as (e & src' & dst' & added & -> & Ha).
        -- now apply delivering_with_unread.
        -- rewrite unread_with_unread, length_skipn by assumption.
           pose proof (length_nonempty _ Hs).
           pose proof (quota_pos src (length buf) Hd Hb). lia.
        -- lia.
        -- exists e, src', dst', (OpenCall nonce chunk :: added).
           rewrite <- app_assoc. split; [reflexivity|].
           constructor; [now exists chunk | exact Ha].
      * eexists _, _, _, [OpenCall nonce chunk]. split; [reflexivity|].
        constructor; [now exists chunk | constructor].
    + cbn [bind].
      eexists _, _, _, [OpenCall nonce chunk]. split; [reflexivity|].
      constructor; [now exists chunk | constructor].
Qed.

End ChunkedLoops.

(** One [Read] of the buffered reader returns, makes at most one call to the
    AEAD, a [Seal] under the reader's nonce, and keeps that nonce. *)
Lemma Buffered_Read_nonce (r : Buffered.gcmEncryptReader) (data : list byte) :
  exists r' data' n err calls,
    Buffered.Read r data = Ret (r', data', n, err, calls) /\
    Buffered.nonce r' = Buffered.nonce r /\
    Forall (seals_under (Buffered.nonce r)) calls /\
    (length calls <= 1)%nat.
Proof.
  unfold Buffered.Read.
  destruct (src_Read (Buffered.src r) data) as [[[src1 data1] n] err] eqn:E.
  destruct (src_Read_bounds _ _ _ _ _ _ E) as [Hn _].
  assert (Hb : exists buf1,
             (if 0 <? n
              then chunk <- slice_to data1 n ;;
                   Ret (Buffer_Write (Buffered.buf r) chunk)
              else Ret (Buffered.buf r)) = Ret buf1).
  { destruct (0 <? n); [|eauto]. rewrite slice_to_ok by exact Hn. simpl. eauto. }
  destruct Hb as [buf1 ->]. cbn [bind].
  destruct (is_EOF err).
  - destruct (0 <? Buffer_Len buf1).
    + destruct (copy data1 (Seal (Buffered.gcm r) (Buffered.nonce r) buf1)) as [data2 k].
      do 5 eexists. split; [reflexivity|]. simpl.
      repeat split; [|lia]. constructor; [now exists buf1 | constructor].
    + do 5 eexists. split; [reflexivity|]. simpl.
      repeat split; [constructor | lia].
  - destruct err as [e|].
    + do 5 eexists. split; [reflexivity|]. simpl.
      repeat split; [constructor | lia].
    + destruct (Buffered.defaultBufferSize <=? Buffer_Len buf1).
      * destruct (Buffer_Next buf1 Buffered.defaultBufferSize) as [plaintext buf2].
        destruct (copy data1 (Seal (Buffered.gcm r) (Buffered.nonce r) plaintext))
          as [data2 k].
        do 5 eexists. split; [reflexivity|]. simpl.
        repeat split; [|lia]. constructor; [now exists plaintext | constructor].
      * do 5 eexists. split; [reflexivity|]. simpl.
        repeat split; [constructor | lia].
Qed.

(** C2, as stated, fails: for a plaintext of 32 KiB and one byte the chunked
    [EncryptStream] seals two chunks, both under the nonce of the header. *)
Lemma C2_nonce_reuse_counterexample :
  map call_nonce
      (calls_of (Chunked.EncryptStream toyEngine (BytesReader nonce12)
                   (BytesReader two_chunks) (BufferSink [])))
    = [nonce12; nonce12] /\
  ~ NoDup (map call_nonce
             (calls_of (Chunked.EncryptStream toyEngine (BytesReader nonce12)
                          (BytesReader two_chunks) (BufferSink [])))).
Proof.
  assert (H : map call_nonce
                (calls_of (Chunked.EncryptStream toyEngine (BytesReader nonce12)
                             (BytesReader two_chunks) (BufferSink [])))
              = [nonce12; nonce12]) by (vm_compute; reflexivity).
  split; [exact H|]. rewrite H. intros Hn.
  apply NoDup_cons_iff in Hn. destruct Hn as [Hn _]. apply Hn. left. reflexivity.
Qed.

Section ChunkedNonce.

Variable a : AEAD.
Variable c : gcmContentCipher.
Hypothesis c_gcm : gcm c = Some a.
Hypothesis nonce_size : 0 <= NonceSize a.
Hypothesis overhead : 0 <= Overhead a.

(** C2, amended. In the chunked form every [Seal] of one [EncryptStream]
    call uses the same nonce, the one generated at the start of the call
    and written as the header; [DecryptStream] uses the nonce it reads from
    the header for every [Open]; and one [Read] of the buffered reader seals
    at most once, under the reader's unchanged nonce. *)
Theorem C2_chunked_streams_use_one_nonce (entropy src : Source) (w : list byte) :
  delivering entropy -> NonceSize a <= len (unread entropy) -> delivering src ->
  let nonce := firstn (Z.to_nat (NonceSize a)) (unread entropy) in
  (exists e src' body calls,
      Chunked.EncryptStream c entropy src (BufferSink w)
        = Ret (e, src', BufferSink ((w ++ nonce) ++ body), calls) /\
      Forall (seals_under nonce) calls) /\
  (forall (body : list byte) (dst : Sink),
      len nonce = NonceSize a ->
      exists e src' dst' calls,
        Chunked.DecryptStream c (BytesReader (nonce ++ body)) dst
          = Ret (e, src', dst', calls) /\
        Forall (opens_under nonce) calls) /\
  (forall (r : Buffered.gcmEncryptReader) (data : list byte),
      exists r' data' n err calls,
        Buffered.Read r data = Ret (r', data', n, err, calls) /\
        Buffered.nonce r' = Buffered.nonce r /\
        Forall (seals_under (Buffered.nonce r)) calls /\
        (length calls <= 1)%nat).
Proof.
  intros He Hn Hs nonce. split; [|split; [|apply Buffered_Read_nonce]].
  - unfold Chunked.EncryptStream.
    rewrite c_gcm, make_ok by exact nonce_size. cbn [bind].
    unfold rand_Read. rewrite io_ReadFull_spec;
      [|assumption | rewrite repeat_length; unfold len in Hn; lia].
    cbn [bind]. rewrite repeat_length. cbn [dst_Write].
    rewrite make_ok by (unfold Chunked.chunkSize; lia). cbn [bind].
    fold nonce.
    destruct (encrypt_loop_nonce a nonce (S (length (unread src))) src
                (BufferSink (w ++ nonce))
                (repeat x00 (Z.to_nat Chunked.chunkSize)) [])
      as (e & src' & dst' & added & Hr & Ha & Hw); try assumption; try lia.
    { rewrite repeat_length. unfold Chunked.chunkSize. lia. }
    destruct (Hw _ eq_refl) as [body ->].
    exists e, src', body, added. split; assumption.
  - intros body dst Hl. unfold Chunked.DecryptStream.
    assert (Hz : Z.to_nat (NonceSize a) = length nonce) by (unfold len in Hl; lia).
    rewrite c_gcm, make_ok by exact nonce_size. cbn [bind].
    rewrite io_ReadFull_spec;
      [|exact I | rewrite repeat_length; simpl; rewrite length_app; lia].
    cbn [bind]. rewrite repeat_length. cbn [unread with_unread].
    rewrite Hz, firstn_app, firstn_all, Nat.sub_diag, firstn_O, app_nil_r.
    rewrite skipn_app, skipn_all, Nat.sub_diag. cbn [skipn app].
    rewrite make_ok by (unfold Chunked.chunkSize; lia). cbn [bind].
    destruct (decrypt_loop_nonce a nonce (S (length body)) (BytesReader body) dst
                (repeat x00 (Z.to_nat (Chunked.chunkSize + Overhead a))) [])
      as (e & src' & dst' & added & Hr & Ha); try exact I; cbn [unread]; try lia.
    { rewrite repeat_length. unfold Chunked.chunkSize. lia. }
    cbn [app] in Hr. exists e, src', dst', added. split; assumption.
Qed.

End ChunkedNonce.

Section ChunkedBytes.

Variable a : AEAD.
Variable nonce : list byte.
Hypothesis a_ok : AEAD_ok a.
Hypothesis a_authentic : AEAD_authentic a.

Lemma Seal_length_nat (p : list byte) :
  length (Seal a nonce p) = (length p + Z.to_nat (Overhead a))%nat.
Proof.
  pose proof (Seal_length a a_ok nonce p) as H.
  pose proof (Overhead_nonneg a a_ok). unfold len in H. lia.
Qed.

(** The encrypting loop seals the successive reads of the source. *)
Lemma encrypt_loop_chunks (fuel : nat) :
  forall (src : Source) (w buf : list byte) (calls : list aead_call),
    delivering src -> (length (unread src) < fuel)%nat -> (0 < length buf)%nat ->
    let cs := chunks (quota src (length buf)) (unread src) in
    Chunked.encrypt_loop fuel a nonce src (BufferSink w) buf calls =
      Ret (None, with_unread src [],
           BufferSink (w ++ concat (map (Seal a nonce) cs)),
           calls ++ map (SealCall nonce) cs).
Proof.
  induction fuel as [|fuel IH]; intros src w buf calls Hd Hf Hb cs; [lia|].
  cbn [Chunked.encrypt_loop].
  destruct (list_eq_dec Byte.byte_eq_dec (unread src) []) as [Hs|Hs].
  - rewrite src_Read_EOF by assumption. subst cs. rewrite Hs. cbn.
    rewrite !app_nil_r, <- Hs, with_unread_same. reflexivity.
  - destruct (src_Read_chunk src buf Hd Hs Hb) as (p' & n & -> & Hn & Hl & Hc).
    apply Z.ltb_lt in Hn. rewrite Hn, Hc. cbn [bind dst_Write is_EOF].
    pose proof (quota_pos src (length buf) Hd Hb) as Hq.
    rewrite IH.
    + rewrite with_unread_twice, unread_with_unread, quota_with_unread, Hl
        by assumption.
      subst cs. rewrite (chunks_step (quota src (length buf)) (unread src)) by assumption.
      cbn [map concat]. rewrite <- !app_assoc. reflexivity.
    + now apply delivering_with_unread.
    + rewrite unread_with_unread, length_skipn by assumption.
      pose proof (length_nonempty _ Hs). lia.
    + lia.
Qed.

(** On a sealed stream with one bit inverted the decrypting loop fails
    with the authentication error, having written the chunks before the
    damaged one. *)
Lemma decrypt_loop_tampered (L : nat) (cs : list (list byte)) :
  forall (fuel i : nat) (w buf : list byte) (calls : list aead_call),
    (0 < L)%nat -> aligned L cs ->
    length buf = (L + Z.to_nat (Overhead a))%nat ->
    (i < 8 * length (concat (map (Seal a nonce) cs)))%nat ->
    (length (concat (map (Seal a nonce) cs)) < fuel)%nat ->
    exists k src' calls',
      Chunked.decrypt_loop fuel a nonce
          (BytesReader (flip_bit i (concat (map (Seal a nonce) cs))))
          (BufferSink w) buf calls
        = Ret (Some ErrOpen, src', BufferSink (w ++ concat (firstn k cs)), calls') /\
      (k < length cs)%nat.
Proof.
  induction cs as [|c rest IH]; intros fuel i w buf calls HL Hal Hb Hi Hf.
  { simpl in Hi. lia. }
  destruct fuel as [|fuel]; [lia|].
  cbn [map concat] in *.
  set (sealed := Seal a nonce c) in *.
  set (R := concat (map (Seal a nonce) rest)) in *.
  pose proof (Seal_length_nat c) as HS. fold sealed in HS.
  assert (Hc : (0 < length c <= L)%nat /\ (rest <> [] -> length c = L)).
  { cbn [aligned] in Hal. destruct rest; [split; [exact Hal | congruence]|].
    destruct Hal as [Hal _]. split; [lia | auto]. }
  assert (Hfirst : (i < 8 * length sealed)%nat ->
            firstn (length buf) (flip_bit i (sealed ++ R)) = flip_bit i sealed).
  { intros Hlt. rewrite flip_bit_app_l by exact Hlt.
    destruct rest as [|r rest'].
    - subst R. cbn [map concat]. rewrite app_nil_r.
      apply firstn_all2. rewrite flip_bit_length. lia.
    - assert (length c = L) by (apply Hc; discriminate).
      rewrite firstn_app, flip_bit_length.
      replace (length buf - length sealed)%nat with 0%nat by lia.
      rewrite firstn_O, app_nil_r. apply firstn_all2.
      rewrite flip_bit_length. lia. }
  assert (Hne : unread (BytesReader (flip_bit i (sealed ++ R))) <> []).
  { cbn [unread]. intros H0. apply (f_equal (@length byte)) in H0.
    rewrite flip_bit_length, length_app in H0. simpl in H0. lia. }
  assert (Hbuf : (0 < length buf)%nat) by lia.
  cbn [Chunked.decrypt_loop].
  destruct (src_Read_chunk (BytesReader (flip_bit i (sealed ++ R))) buf I Hne Hbuf)
    as (p' & n & -> & Hn & Hl & Hch).
  apply Z.ltb_lt in Hn. rewrite Hn, Hch. cbn [bind quota unread with_unread].
  destruct (Nat.lt_ge_cases i (8 * length sealed)) as [Hlt|Hge].
  - rewrite Hfirst by exact Hlt. subst sealed.
    rewrite a_authentic by exact Hlt. cbn [bind].
    exists 0%nat. eexists _, _. cbn [firstn concat]. rewrite app_nil_r.
    split; [reflexivity | simpl; lia].
  - assert (Hrest : rest <> []).
    { intros ->. subst R. cbn [map concat] in Hi. rewrite app_nil_r in Hi. lia. }
    assert (HcL : length c = L) by (apply Hc; exact Hrest).
    rewrite flip_bit_app_r by exact Hge.
    rewrite firstn_app, skipn_app.
    replace (length buf - length sealed)%nat with 0%nat by lia.
    rewrite firstn_O, app_nil_r, firstn_all2 by lia.
    rewrite skipn_all2 by lia. cbn [skipn app].
    subst sealed. rewrite (Open_Seal a a_ok). cbn [dst_Write bind is_EOF].
    destruct (IH fuel (i - 8 * length (Seal a nonce c))%nat (w ++ c) p'
                (calls ++ [OpenCall nonce (Seal a nonce c)]))
      as (k & src' & calls' & Hr & Hk).
    + exact HL.
    + cbn [aligned] in Hal. destruct rest; [contradiction | tauto].
    + lia.
    + fold R. rewrite length_app in Hi. lia.
    + fold R. rewrite length_app in Hf. lia.
    + fold R in Hr. rewrite Hr.
      exists (S k), src', calls'. cbn [firstn concat length].
      rewrite <- app_assoc. split; [reflexivity | lia].
Qed.

End ChunkedBytes.

Section Tamper.

Variable a : AEAD.
Variable c : gcmContentCipher.
Hypothesis c_gcm : gcm c = Some a.
Hypothesis a_ok : AEAD_ok a.
Hypothesis a_authentic : AEAD_authentic a.

Lemma chunked_EncryptStream_bytes (nonce P : list byte) :
  len nonce = NonceSize a ->
  let cs := chunks (Z.to_nat Chunked.chunkSize) P in
  Chunked.EncryptStream c (BytesReader nonce) (BytesReader P) (BufferSink []) =
    Ret (None, BytesReader [],
         BufferSink (nonce ++ concat (map (Seal a nonce) cs)),
         map (SealCall nonce) cs).
Proof.
  intros Hn cs. unfold Chunked.EncryptStream.
  assert (Hz : Z.to_nat (NonceSize a) = length nonce) by (unfold len in Hn; lia).
  rewrite c_gcm, make_ok by (apply (NonceSize_nonneg a a_ok)). cbn [bind].
  unfold rand_Read. rewrite io_ReadFull_spec;
    [|exact I | rewrite repeat_length; cbn [unread]; lia].
  cbn [bind]. rewrite repeat_length, Hz. cbn [unread dst_Write app].
  rewrite firstn_all.
  rewrite make_ok by (unfold Chunked.chunkSize; lia). cbn [bind].
  rewrite encrypt_loop_chunks; try exact I; try exact a_ok.
  - cbn [quota unread with_unread app]. rewrite repeat_length. reflexivity.
  - cbn [unread]. lia.
  - rewrite repeat_length. unfold Chunked.chunkSize. lia.
Qed.

Lemma chunked_DecryptStream_tampered (nonce P : list byte) (i : nat) :
  len nonce = NonceSize a ->
  let cs := chunks (Z.to_nat Chunked.chunkSize) P in
  let body := concat (map (Seal a nonce) cs) in
  (i < 8 * length body)%nat ->
  exists written rest src' calls,
    Chunked.DecryptStream c (BytesReader (nonce ++ flip_bit i body)) (BufferSink [])
      = Ret (Some ErrOpen, src', BufferSink written, calls) /\
    P = written ++ rest.
Proof.
  intros Hn cs body Hi. unfold Chunked.DecryptStream.
  assert (Hz : Z.to_nat (NonceSize a) = length nonce) by (unfold len in Hn; lia).
  pose proof (Overhead_nonneg a a_ok) as Hov.
  assert (HL : (0 < Z.to_nat Chunked.chunkSize)%nat)
    by (unfold Chunked.chunkSize; lia).
  rewrite c_gcm, make_ok by (apply (NonceSize_nonneg a a_ok)). cbn [bind].
  rewrite io_ReadFull_spec;
    [|exact I | rewrite repeat_length; cbn [unread]; rewrite length_app; lia].
  cbn [bind]. rewrite repeat_length, Hz. cbn [unread with_unread].
  rewrite firstn_app, firstn_all, Nat.sub_diag, firstn_O, app_nil_r.
  rewrite skipn_app, skipn_all, Nat.sub_diag. cbn [skipn app].
  rewrite make_ok by (unfold Chunked.chunkSize; lia). cbn [bind].
  destruct (decrypt_loop_tampered a nonce a_ok a_authentic
              (Z.to_nat Chunked.chunkSize) cs
              (S (length (flip_bit i body))) i []
              (repeat x00 (Z.to_nat (Chunked.chunkSize + Overhead a))) [])
    as (k & src' & calls' & Hr & Hk).
  - exact HL.
  - now apply chunks_aligned.
  - rewrite repeat_length. unfold Chunked.chunkSize. lia.
  - exact Hi.
  - fold body. rewrite flip_bit_length. lia.
  - fold body in Hr. rewrite Hr. cbn [app].
    exists (concat (firstn k cs)), (concat (skipn k cs)), src', calls'.
    split; [reflexivity|].
    rewrite <- concat_app, firstn_skipn. subst cs.
    now rewrite concat_chunks.
Qed.

(** C3. For every plaintext, inverting any single bit of the ciphertext
    portion (body or tag) of what [EncryptStream] wrote makes
    [DecryptStream] return the authentication error: the single-shot form
    writes nothing, the chunked form only chunks of the plaintext that were
    authenticated before the damaged one. *)
Theorem C3_tampered_ciphertext_rejected (nonce P : list byte) :
  len nonce = NonceSize a ->
  (exists body,
      gcmContentCipher_EncryptStream c
          (BytesReader nonce) (BytesReader P) (BufferSink [])
        = Ret (None, BytesReader [], BufferSink (nonce ++ body)) /\
      forall i, (i < 8 * length body)%nat ->
        gcmContentCipher_DecryptStream c
            (BytesReader (nonce ++ flip_bit i body)) (BufferSink [])
          = Ret (Some ErrOpen, BytesReader [], BufferSink [])) /\
  (exists body calls,
      Chunked.EncryptStream c (BytesReader nonce) (BytesReader P) (BufferSink [])
        = Ret (None, BytesReader [], BufferSink (nonce ++ body), calls) /\
      forall i, (i < 8 * length body)%nat ->
        exists written rest src' calls',
          Chunked.DecryptStream c
              (BytesReader (nonce ++ flip_bit i body)) (BufferSink [])
            = Ret (Some ErrOpen, src', BufferSink written, calls') /\
          P = written ++ rest) /\
  Error ErrOpen = "cipher: message authentication failed".
Proof.
  intros Hn. split; [|split; [|reflexivity]].
  - exists (Seal a nonce P). split.
    + apply (gcm_round_trip a c c_gcm (NonceSize_nonneg a a_ok) nonce P Hn).
      apply (Open_Seal a a_ok).
    + intros i Hi.
      apply (gcm_tamper_single_shot a c c_gcm (NonceSize_nonneg a a_ok) nonce P i Hn).
      now apply a_authentic.
  - eexists _, _. split; [now apply chunked_EncryptStream_bytes|].
    intros i Hi. now apply chunked_DecryptStream_tampered.
Qed.

End Tamper.

(* ================================================================== *)
(** * The small instances satisfy what is asked of the parameters *)

Lemma lxor_byte_range (x y : Z) :
  0 <= x < 256 -> 0 <= y < 256 -> 0 <= Z.lxor x y < 256.
Proof.
  intros Hx Hy.
  assert (Hnn : 0 <= Z.lxor x y) by (apply Z.lxor_nonneg; lia).
  split; [exact Hnn|].
  destruct (Z.eq_dec (Z.lxor x y) 0) as [E|E]; [lia|].
  assert (Hlog : forall v, 0 <= v < 256 -> Z.log2 v < 8).
  { intros v Hv. destruct (Z.eq_dec v 0) as [->|Hv0]; [simpl; lia|].
    apply Z.log2_lt_pow2; lia. }
  change 256 with (2 ^ 8). apply Z.log2_lt_pow2; [lia|].
  pose proof (Z.log2_lxor x y (proj1 Hx) (proj1 Hy)).
  pose proof (Hlog x Hx). pose proof (Hlog y Hy). lia.
Qed.

Lemma Z_of_byte_xor (a b : byte) :
  Z_of_byte (byte_xor a b) = Z.lxor (Z_of_byte a) (Z_of_byte b).
Proof.
  unfold byte_xor. rewrite Z_of_byte_of_Z. apply Z.mod_small.
  apply lxor_byte_range; apply Z_of_byte_range.
Qed.

Lemma byte_xor_cancel_r (a b : byte) : byte_xor (byte_xor a b) b = a.
Proof.
  apply Z_of_byte_inj. rewrite !Z_of_byte_xor.
  rewrite Z.lxor_assoc, Z.lxor_nilpotent, Z.lxor_0_r. reflexivity.
Qed.

Lemma byte_xor_cancel_l (k b : byte) : byte_xor k (byte_xor k b) = b.
Proof.
  apply Z_of_byte_inj. rewrite !Z_of_byte_xor.
  rewrite <- Z.lxor_assoc, Z.lxor_nilpotent, Z.lxor_0_l. reflexivity.
Qed.

Lemma map_xor_cancel (k : byte) (s : list byte) :
  map (byte_xor k) (map (byte_xor k) s) = s.
Proof.
  induction s as [|b s IH]; simpl; [reflexivity|].
  now rewrite byte_xor_cancel_l, IH.
Qed.

Lemma toyBlock_ok (key : list byte) : Block_ok (toyBlock key).
Proof.
  constructor; simpl; intros x Hx.
  - now rewrite length_map, length_rev.
  - now rewrite length_rev, length_map.
  - now rewrite map_xor_cancel, rev_involutive.
Qed.

Lemma bytes_eqb_eq (x y : list byte) : bytes_eqb x y = true <-> x = y.
Proof.
  revert y. induction x as [|b x IH]; intros [|d y]; simpl; split; intros H;
    try reflexivity; try discriminate.
  - apply andb_true_iff in H. destruct H as [H1 H2].
    apply Byte.byte_dec_bl in H1. apply IH in H2. now subst.
  - injection H as -> ->. apply andb_true_iff. split.
    + now apply Byte.byte_dec_lb.
    + now apply IH.
Qed.

Lemma toy_tag_length (nonce body : list byte) : length (toy_tag nonce body) = 16%nat.
Proof. reflexivity. Qed.

Lemma toyAEAD_open (nonce body tag : list byte) :
  length tag = 16%nat ->
  Open toyAEAD nonce (body ++ tag) =
    if bytes_eqb tag (toy_tag nonce body)
    then Some (map (byte_xor (hd x00 nonce)) body) else None.
Proof.
  intros Ht. cbn [Open toyAEAD]. rewrite length_app, Ht.
  destruct (length body + 16 <? 16)%nat eqn:E; [apply Nat.ltb_lt in E; lia|].
  replace (length body + 16 - 16)%nat with (length body) by lia.
  rewrite firstn_app, firstn_all, Nat.sub_diag, firstn_O, app_nil_r.
  rewrite skipn_app, skipn_all, Nat.sub_diag. reflexivity.
Qed.

Lemma toyAEAD_ok : AEAD_ok toyAEAD.
Proof.
  constructor.
  - simpl. lia.
  - simpl. lia.
  - intros nonce p. cbn [Seal toyAEAD Overhead]. rewrite len_app. unfold len.
    rewrite length_map, toy_tag_length. lia.
  - intros nonce p. cbn [Seal toyAEAD].
    rewrite toyAEAD_open by apply toy_tag_length.
    assert (H : bytes_eqb (toy_tag nonce (map (byte_xor (hd x00 nonce)) p))
                          (toy_tag nonce (map (byte_xor (hd x00 nonce)) p)) = true)
      by now apply bytes_eqb_eq.
    rewrite H, map_xor_cancel. reflexivity.
Qed.

Lemma flip_byte_changes (k : nat) (b : byte) :
  (k < 8)%nat ->
  Z_of_byte (flip_byte k b) <> Z_of_byte b.
Proof.
  intros Hk. unfold flip_byte. rewrite Z_of_byte_of_Z.
  pose proof (Z_of_byte_range b) as Hb.
  assert (Hm : 0 < Z.shiftl 1 (Z.of_nat k) < 256).
  { rewrite Z.shiftl_1_l. split; [apply Z.pow_pos_nonneg; lia|].
    change 256 with (2 ^ 8). apply Z.pow_lt_mono_r; lia. }
  rewrite Z.mod_small by (apply lxor_byte_range; lia).
  intros H.
  assert (H0 : Z.lxor (Z_of_byte b) (Z.lxor (Z_of_byte b) (Z.shiftl 1 (Z.of_nat k)))
               = Z.lxor (Z_of_byte b) (Z_of_byte b)) by now rewrite H.
  rewrite <- Z.lxor_assoc, Z.lxor_nilpotent, Z.lxor_0_l in H0. lia.
Qed.

Lemma byte_sum_flip (start : Z) (s : list byte) :
  forall i, (i < 8 * length s)%nat ->
    exists d, byte_sum start (flip_bit i s) = byte_sum start s + d /\
              d <> 0 /\ -256 < d < 256.
Proof.
  induction s as [|b s IH]; intros i Hi; cbn [length] in Hi; [lia|].
  cbn [flip_bit]. destruct (i <? 8)%nat eqn:E.
  - apply Nat.ltb_lt in E.
    exists (Z_of_byte (flip_byte i b) - Z_of_byte b).
    pose proof (flip_byte_changes i b E).
    pose proof (Z_of_byte_range (flip_byte i b)).
    pose proof (Z_of_byte_range b).
    unfold byte_sum. cbn [fold_right]. lia.
  - apply Nat.ltb_ge in E.
    destruct (IH (i - 8)%nat) as [d [Hd Hr]]; [lia|].
    exists d. unfold byte_sum in *. cbn [fold_right]. rewrite Hd. lia.
Qed.

Lemma flip_bit_changes (s : list byte) :
  forall i, (i < 8 * length s)%nat -> flip_bit i s <> s.
Proof.
  induction s as [|b s IH]; intros i Hi; cbn [length] in Hi; [lia|].
  cbn [flip_bit]. destruct (i <? 8)%nat eqn:E.
  - apply Nat.ltb_lt in E. intros H. injection H as H.
    apply (flip_byte_changes i b E). now rewrite H.
  - apply Nat.ltb_ge in E. intros H. injection H as H.
    apply (IH (i - 8)%nat); [lia | exact H].
Qed.

Lemma toyAEAD_authentic : AEAD_authentic toyAEAD.
Proof.
  intros nonce p i Hi. cbn [Seal toyAEAD] in *.
  set (body := map (byte_xor (hd x00 nonce)) p) in *.
  rewrite length_app, toy_tag_length in Hi.
  destruct (Nat.lt_ge_cases i (8 * length body)) as [Hlt|Hge].
  - rewrite flip_bit_app_l by exact Hlt.
    rewrite toyAEAD_open by apply toy_tag_length.
    destruct (bytes_eqb (toy_tag nonce body) (toy_tag nonce (flip_bit i body))) eqn:E;
      [|reflexivity].
    apply bytes_eqb_eq in E. unfold toy_tag in E. injection E as E.
    destruct (byte_sum_flip (Z_of_byte (hd x00 nonce)) body i Hlt) as [d [Hd [Hd0 Hr]]].
    apply (f_equal Z_of_byte) in E. rewrite !Z_of_byte_of_Z, Hd in E.
    exfalso. revert E. generalize (byte_sum (Z_of_byte (hd x00 nonce)) body).
    intros z E.
    assert (Hz : (z + d - z) mod 256 = 0).
    { rewrite Zminus_mod, <- E, Z.sub_diag. reflexivity. }
    replace (z + d - z) with d in Hz by lia.
    apply Z.mod_divide in Hz; [|lia]. destruct Hz as [q Hq]. lia.
  - rewrite flip_bit_app_r by exact Hge.
    rewrite toyAEAD_open by (rewrite flip_bit_length; apply toy_tag_length).
    destruct (bytes_eqb (flip_bit (i - 8 * length body) (toy_tag nonce body))
                        (toy_tag nonce body)) eqn:E; [|reflexivity].
    apply bytes_eqb_eq in E. exfalso.
    apply (flip_bit_changes (toy_tag nonce body) (i - 8 * length body)%nat);
      [rewrite toy_tag_length; lia | exact E].
Qed.

Lemma C2_one_nonce_witness :
  gcm toyEngine = Some toyAEAD /\
  delivering (BytesReader nonce12) /\
  NonceSize toyAEAD <= len (unread (BytesReader nonce12)) /\
  delivering (BytesReader two_chunks) /\
  exists e src' body calls,
    Chunked.EncryptStream toyEngine (BytesReader nonce12) (BytesReader two_chunks)
        (BufferSink [])
      = Ret (e, src', BufferSink (([] ++ nonce12) ++ body), calls) /\
    Forall (seals_under nonce12) calls.
Proof.
  split; [reflexivity|]. split; [exact I|].
  assert (Hn : NonceSize toyAEAD <= len (unread (BytesReader nonce12)))
    by (vm_compute; discriminate).
  split; [exact Hn|]. split; [exact I|].
  exact (proj1 (C2_chunked_streams_use_one_nonce toyAEAD toyEngine eq_refl
                  (NonceSize_nonneg toyAEAD toyAEAD_ok)
                  (Overhead_nonneg toyAEAD toyAEAD_ok)
                  (BytesReader nonce12) (BytesReader two_chunks) [] I Hn I)).
Defined.

Lemma C3_tampered_witness :
  gcm toyEngine = Some toyAEAD /\
  len nonce12 = NonceSize toyAEAD /\
  exists body,
    gcmContentCipher_EncryptStream toyEngine
        (BytesReader nonce12) (BytesReader (bytes_of_string "secret message"))
        (BufferSink [])
      = Ret (None, BytesReader [], BufferSink (nonce12 ++ body)) /\
    forall i, (i < 8 * length body)%nat ->
      gcmContentCipher_DecryptStream toyEngine
          (BytesReader (nonce12 ++ flip_bit i body)) (BufferSink [])
        = Ret (Some ErrOpen, BytesReader [], BufferSink []).
Proof.
  split; [reflexivity|]. split; [reflexivity|].
  exact (proj1 (C3_tampered_ciphertext_rejected toyAEAD toyEngine eq_refl
                  toyAEAD_ok toyAEAD_authentic nonce12
                  (bytes_of_string "secret message") eq_refl)).
Defined.


(* ================================================================== *)
(** * CBC chaining *)

Lemma xor_bytes_length (a b : list byte) :
  length a = length b -> length (xor_bytes a b) = length a.
Proof.
  revert b. induction a as [|x a IH]; intros [|y b] H; simpl in *; try lia.
  now rewrite IH by lia.
Qed.

Lemma xor_bytes_cancel (a b : list byte) :
  length a = length b -> xor_bytes (xor_bytes a b) b = a.
Proof.
  revert b. induction a as [|x a IH]; intros [|y b] H; simpl in *; try lia;
    try reflexivity.
  now rewrite byte_xor_cancel_r, IH by lia.
Qed.

Section Chain.
Variable blk : Block.
Hypothesis blk_ok : Block_ok blk.

Lemma encryptBlocks_shape (n : nat) :
  forall iv src, length iv = 16%nat -> length src = (16 * n)%nat ->
    length (fst (encryptBlocks blk n iv src)) = (16 * n)%nat /\
    length (snd (encryptBlocks blk n iv src)) = 16%nat.
Proof.
  induction n as [|n IH]; intros iv src Hiv Hs; cbn [encryptBlocks].
  - simpl. auto.
  - set (c := Encrypt blk (xor_bytes (firstn 16 src) iv)).
    assert (Hc : length c = 16%nat).
    { apply (Encrypt_length blk blk_ok). rewrite xor_bytes_length;
        rewrite length_firstn; lia. }
    destruct (IH c (skipn 16 src) Hc) as [H1 H2]; [rewrite length_skipn; lia|].
    destruct (encryptBlocks blk n c (skipn 16 src)) as [out iv'].
    cbn [fst snd] in *. rewrite length_app. split; lia.
Qed.

Lemma decryptBlocks_shape (n : nat) :
  forall iv src, length iv = 16%nat -> length src = (16 * n)%nat ->
    length (fst (decryptBlocks blk n iv src)) = (16 * n)%nat /\
    length (snd (decryptBlocks blk n iv src)) = 16%nat.
Proof.
  induction n as [|n IH]; intros iv src Hiv Hs; cbn [decryptBlocks].
  - simpl. auto.
  - assert (Hc : length (firstn 16 src) = 16%nat) by (rewrite length_firstn; lia).
    destruct (IH (firstn 16 src) (skipn 16 src) Hc) as [H1 H2];
      [rewrite length_skipn; lia|].
    destruct (decryptBlocks blk n (firstn 16 src) (skipn 16 src)) as [out iv'].
    cbn [fst snd] in *. rewrite length_app, xor_bytes_length.
    + rewrite (Decrypt_length blk blk_ok) by exact Hc. split; lia.
    + rewrite (Decrypt_length blk blk_ok) by exact Hc. lia.
Qed.

Lemma encryptBlocks_app (n m : nat) :
  forall iv x y, length x = (16 * n)%nat ->
    encryptBlocks blk (n + m) iv (x ++ y) =
      (fst (encryptBlocks blk n iv x)
         ++ fst (encryptBlocks blk m (snd (encryptBlocks blk n iv x)) y),
       snd (encryptBlocks blk m (snd (encryptBlocks blk n iv x)) y)).
Proof.
  induction n as [|n IH]; intros iv x y Hx.
  - destruct x; [|simpl in Hx; lia]. cbn [encryptBlocks fst snd app Nat.add].
    now destruct (encryptBlocks blk m iv y).
  - cbn [Nat.add encryptBlocks].
    assert (H1 : firstn 16 (x ++ y) = firstn 16 x).
    { rewrite firstn_app. replace (16 - length x)%nat with 0%nat by lia.
      now rewrite firstn_O, app_nil_r. }
    assert (H2 : skipn 16 (x ++ y) = skipn 16 x ++ y).
    { rewrite skipn_app. replace (16 - length x)%nat with 0%nat by lia.
      reflexivity. }
    rewrite H1, H2, IH by (rewrite length_skipn; lia).
    destruct (encryptBlocks blk n _ (skipn 16 x)) as [o1 v1]. cbn [fst snd].
    destruct (encryptBlocks blk m v1 y) as [o2 v2]. cbn [fst snd].
    now rewrite app_assoc.
Qed.

Lemma decryptBlocks_app (n m : nat) :
  forall iv x y, length x = (16 * n)%nat ->
    decryptBlocks blk (n + m) iv (x ++ y) =
      (fst (decryptBlocks blk n iv x)
         ++ fst (decryptBlocks blk m (snd (decryptBlocks blk n iv x)) y),
       snd (decryptBlocks blk m (snd (decryptBlocks blk n iv x)) y)).
Proof.
  induction n as [|n IH]; intros iv x y Hx.
  - destruct x; [|simpl in Hx; lia]. cbn [decryptBlocks fst snd app Nat.add].
    now destruct (decryptBlocks blk m iv y).
  - cbn [Nat.add decryptBlocks].
    assert (H1 : firstn 16 (x ++ y) = firstn 16 x).
    { rewrite firstn_app. replace (16 - length x)%nat with 0%nat by lia.
      now rewrite firstn_O, app_nil_r. }
    assert (H2 : skipn 16 (x ++ y) = skipn 16 x ++ y).
    { rewrite skipn_app. replace (16 - length x)%nat with 0%nat by lia.
      reflexivity. }
    rewrite H1, H2, IH by (rewrite length_skipn; lia).
    destruct (decryptBlocks blk n _ (skipn 16 x)) as [o1 v1]. cbn [fst snd].
    destruct (decryptBlocks blk m v1 y) as [o2 v2]. cbn [fst snd].
    now rewrite app_assoc.
Qed.

Lemma decrypt_encryptBlocks (n : nat) :
  forall iv x, length iv = 16%nat -> length x = (16 * n)%nat ->
    decryptBlocks blk n iv (fst (encryptBlocks blk n iv x)) =
      (x, snd (encryptBlocks blk n iv x)).
Proof.
  induction n as [|n IH]; intros iv x Hiv Hx.
  - destruct x; [reflexivity | simpl in Hx; lia].
  - cbn [encryptBlocks].
    set (c := Encrypt blk (xor_bytes (firstn 16 x) iv)).
    assert (Hf : length (firstn 16 x) = 16%nat) by (rewrite length_firstn; lia).
    assert (Hx16 : length (xor_bytes (firstn 16 x) iv) = 16%nat)
      by (rewrite xor_bytes_length; lia).
    assert (Hc : length c = 16%nat) by (apply (Encrypt_length blk blk_ok); exact Hx16).
    specialize (IH c (skipn 16 x) Hc).
    destruct (encryptBlocks blk n c (skipn 16 x)) as [out iv'] eqn:E.
    cbn [fst snd] in *. cbn [decryptBlocks].
    rewrite firstn_app, skipn_app, Hc, Nat.sub_diag, firstn_O, app_nil_r.
    rewrite firstn_all2, skipn_all2 by lia. cbn [app skipn].
    rewrite IH by (rewrite length_skipn; lia).
    subst c. rewrite (Decrypt_Encrypt blk blk_ok) by exact Hx16.
    rewrite xor_bytes_cancel by lia. now rewrite firstn_skipn.
Qed.

End Chain.

(* ================================================================== *)
(** * One call of a CBC reader *)

Lemma CryptBlocks_spec (x : BlockMode) (dst src : list byte) (n : nat) :
  length src = (16 * n)%nat -> (length src <= length dst)%nat ->
  CryptBlocks x dst src =
    Ret ({| bm_block := bm_block x; bm_dir := bm_dir x;
            bm_iv := snd (match bm_dir x with
                          | Encrypting => encryptBlocks (bm_block x) n (bm_iv x) src
                          | Decrypting => decryptBlocks (bm_block x) n (bm_iv x) src
                          end) |},
         fst (match bm_dir x with
              | Encrypting => encryptBlocks (bm_block x) n (bm_iv x) src
              | Decrypting => decryptBlocks (bm_block x) n (bm_iv x) src
              end) ++ skipn (length src) dst).
Proof.
  intros Hs Hd. unfold CryptBlocks, aes_BlockSize, len.
  assert (H1 : (Z.rem (Z.of_nat (length src)) 16 =? 0) = true)
    by (apply Z.eqb_eq; dlia).
  assert (H2 : (Z.of_nat (length dst) <? Z.of_nat (length src)) = false)
    by (apply Z.ltb_ge; lia).
  assert (H3 : Z.to_nat (Z.quot (Z.of_nat (length src)) 16) = n) by dlia.
  rewrite H1, H2, H3. cbn [negb].
  destruct (bm_dir x).
  - destruct (encryptBlocks (bm_block x) n (bm_iv x) src). reflexivity.
  - destruct (decryptBlocks (bm_block x) n (bm_iv x) src). reflexivity.
Qed.

Lemma Buffer_Read_take (B : Buffer) (T : nat) :
  B <> [] -> (T <= length B)%nat ->
  Buffer_Read B (repeat x00 T) = (skipn T B, firstn T B, Z.of_nat T, None).
Proof.
  intros HB HT. unfold Buffer_Read. destruct B as [|b B]; [contradiction|].
  rewrite repeat_length.
  replace (Nat.min T (length (b :: B))) with T by lia.
  rewrite (skipn_all2 (repeat x00 T)) by (rewrite repeat_length; lia).
  now rewrite app_nil_r.
Qed.

Lemma getSliceSize_spec (bufSize dataSize : Z) :
  0 <= bufSize -> 0 <= dataSize ->
  getSliceSize 16 bufSize dataSize =
    Ret (Z.max 16 (Z.min bufSize dataSize - Z.min bufSize dataSize mod 16 - 16)).
Proof.
  intros Hb Hd. unfold getSliceSize, go_rem. cbn [Z.eqb bind].
  destruct (bufSize >? dataSize) eqn:E1.
  - apply Z.gtb_lt in E1. rewrite Z.min_r by lia.
    rewrite Z.rem_mod_nonneg by lia.
    destruct (dataSize - dataSize mod 16 - 16 <=? 0) eqn:E2;
      [apply Z.leb_le in E2 | apply Z.leb_gt in E2]; f_equal; lia.
  - rewrite Z.gtb_ltb in E1. apply Z.ltb_ge in E1. rewrite Z.min_l by lia.
    rewrite Z.rem_mod_nonneg by lia.
    destruct (bufSize - bufSize mod 16 - 16 <=? 0) eqn:E2;
      [apply Z.leb_le in E2 | apply Z.leb_gt in E2]; f_equal; lia.
Qed.

Lemma src_Read_delivers (src : Source) (p : list byte) :
  delivering src -> unread src <> [] ->
  let chunk := firstn (quota src (length p)) (unread src) in
  src_Read src p =
    (with_unread src (skipn (quota src (length p)) (unread src)),
     chunk ++ skipn (length chunk) p, len chunk, None).
Proof.
  intros Hd Hne chunk.
  pose proof (src_Read_data src p Hd Hne) as H. cbv zeta in H.
  rewrite firstn_min_length, skipn_min_length in H. rewrite H.
  subst chunk. unfold len. rewrite length_firstn. reflexivity.
Qed.

Lemma chunk_length (src : Source) (n : nat) :
  delivering src -> unread src <> [] -> (0 < n)%nat ->
  (0 < length (firstn (quota src n) (unread src)) <= n)%nat.
Proof.
  intros Hd Hne Hn. rewrite length_firstn.
  pose proof (quota_pos src n Hd Hn). pose proof (quota_le src n).
  pose proof (length_nonempty _ Hne). lia.
Qed.

Lemma slice_to_app (x y : list byte) : slice_to (x ++ y) (len x) = Ret x.
Proof.
  rewrite slice_to_ok
    by (rewrite len_app; pose proof (len_nonneg y); pose proof (len_nonneg x); lia).
  unfold len. rewrite Nat2Z.id, firstn_app, Nat.sub_diag, firstn_all, firstn_O.
  now rewrite app_nil_r.
Qed.

Lemma Buffer_Read_all (B : Buffer) (p : list byte) :
  B <> [] -> (length B <= length p)%nat ->
  Buffer_Read B p = ([], B ++ skipn (length B) p, len B, None).
Proof.
  intros HB Hp. unfold Buffer_Read. destruct B as [|b B]; [contradiction|].
  replace (Nat.min (length p) (length (b :: B))) with (length (b :: B)) by lia.
  now rewrite skipn_all, firstn_all.
Qed.

(** One turn of the loop of [io.Copy] into a buffer sink, after a [Read]
    that returned [T] bytes. *)
Lemma copy_loop_step (R : Type)
    (Read : R -> list byte -> outcome (R * list byte * Z * option error))
    (fuel : nat) (src src1 : R) (w buf buf1 : list byte) (T : nat)
    (er : option error) (written : Z) :
  Read src buf = Ret (src1, buf1, Z.of_nat T, er) ->
  (T <= length buf1)%nat ->
  copy_loop Read (S fuel) src (BufferSink w) buf written =
    match er with
    | Some e =>
        Ret (src1, BufferSink (w ++ firstn T buf1), written + Z.of_nat T,
             if is_EOF er then None else Some e)
    | None =>
        copy_loop Read fuel src1 (BufferSink (w ++ firstn T buf1)) buf1
          (written + Z.of_nat T)
    end.
Proof.
  intros HR HT. cbn [copy_loop]. rewrite HR. cbn [bind].
  destruct T as [|T].
  - cbn [Z.of_nat Z.ltb Z.compare bind firstn]. rewrite app_nil_r, Z.add_0_r.
    reflexivity.
  - assert (Hp : (0 <? Z.of_nat (S T)) = true) by (apply Z.ltb_lt; lia).
    rewrite Hp. rewrite slice_to_ok by (unfold len; lia).
    cbn [bind dst_Write]. rewrite Nat2Z.id.
    assert (Hl : len (firstn (S T) buf1) = Z.of_nat (S T)).
    { unfold len. rewrite length_firstn. lia. }
    rewrite Hl, Z.eqb_refl. cbn [bind]. reflexivity.
Qed.

Lemma copy_loop_panic (R : Type)
    (Read : R -> list byte -> outcome (R * list byte * Z * option error))
    (fuel : nat) (src : R) (dst : Sink) (buf : list byte) (written : Z) (msg : string) :
  Read src buf = Panic msg ->
  copy_loop Read (S fuel) src dst buf written = Panic msg.
Proof.
  intros HR. cbn [copy_loop]. rewrite HR. reflexivity.
Qed.

Lemma Unpad_outcome (p : PKCS7Padder) (d : list byte) :
  (exists u t, Unpad p d = Ret (u, None) /\ d = u ++ t) \/
  (exists m, Unpad p d = Panic m).
Proof.
  destruct d as [|b d'].
  - left. exists [], []. split; reflexivity.
  - set (d := b :: d'). assert (Hne : d <> []) by discriminate.
    destruct (Z_le_gt_dec (Z_of_byte (last d x00)) (len d)) as [Hle|Hgt].
    + left. rewrite Unpad_spec by assumption.
      eexists _, _. split; [reflexivity|]. symmetry. apply firstn_skipn.
    + right. eexists. apply Unpad_panic; [assumption | lia].
Qed.

Lemma dec_result_step (loop : outcome (cbcDecryptReader * Sink * Z * option error))
    (src src' : Source) (w0 out plain' : list byte) (n N' : nat) :
  length out = (16 * n)%nat -> length plain' = (16 * N')%nat -> (1 <= N')%nat ->
  with_unread src' [] = with_unread src [] ->
  dec_result loop src' (w0 ++ out) plain' N' ->
  dec_result loop src w0 (out ++ plain') (n + N').
Proof.
  intros Ho Hp HN Hs. unfold dec_result.
  replace (16 * (n + N' - 1))%nat with (length out + 16 * (N' - 1))%nat by lia.
  rewrite skipn_app, firstn_app.
  replace (length out + 16 * (N' - 1) - length out)%nat with (16 * (N' - 1))%nat by lia.
  rewrite skipn_all2 with (l := out) by lia.
  rewrite firstn_all2 with (l := out) by lia. cbn [app].
  destruct (Unpad p16 (skipn (16 * (N' - 1)) plain')) as [[u ue]|m|]; auto.
  intros (r' & wr' & Hl & Hr). exists r', wr'. rewrite Hs in Hr.
  split; [|exact Hr]. rewrite Hl. now rewrite <- !app_assoc.
Qed.

Lemma dec_result_src (loop : outcome (cbcDecryptReader * Sink * Z * option error))
    (src src' : Source) (w0 w1 plain : list byte) (N : nat) :
  with_unread src' [] = with_unread src [] -> w1 = w0 ->
  dec_result loop src' w1 plain N -> dec_result loop src w0 plain N.
Proof.
  intros Hs ->. unfold dec_result. now rewrite Hs.
Qed.

Section Readers.

Variable blk : Block.
Hypothesis blk_ok : Block_ok blk.
Variable L : nat.
Hypothesis L_block : (16 <= L)%nat.
Hypothesis L_aligned : (L mod 16 = 0)%nat.

Lemma enc_Read_data (V : list byte) (src : Source) (sz : Z) (B data : list byte) :
  delivering src -> unread src <> [] ->
  length data = L -> (length B < 16)%nat -> length V = 16%nat ->
  let q := quota src L in
  let chunk := firstn q (unread src) in
  let B1 := B ++ chunk in
  let T := (16 * (length B1 / 16))%nat in
  let r := encryptBlocks blk (length B1 / 16) V (firstn T B1) in
  exists data',
    cbcEncryptReader_Read
      {| encrypter := cbcMode blk Encrypting V; e_src := src; e_padder := p16;
         e_size := sz; e_buf := B |} data
    = Ret ({| encrypter := cbcMode blk Encrypting (snd r);
              e_src := with_unread src (skipn q (unread src));
              e_padder := p16; e_size := sz + len chunk;
              e_buf := skipn T B1 |},
           data', Z.of_nat T, None) /\
    length data' = L /\ firstn T data' = fst r.
Proof.
  intros Hd Hne Hdata HB HV q chunk B1 T r.
  assert (Hpos : (0 < L)%nat) by lia.
  pose proof (chunk_length src L Hd Hne Hpos) as Hch. fold q chunk in Hch.
  unfold cbcEncryptReader_Read. cbn [e_src e_size e_buf encrypter e_padder].
  rewrite src_Read_delivers by assumption. rewrite Hdata. fold q chunk.
  rewrite slice_to_app. cbn [bind is_EOF].
  unfold Buffer_Write, Buffer_Len, BlockSize, aes_BlockSize. fold B1.
  set (data1 := chunk ++ skipn (length chunk) data).
  assert (Hd1 : length data1 = L).
  { subst data1. rewrite length_app, length_skipn. lia. }
  assert (HB1 : (length B1 < L + 16)%nat).
  { subst B1. rewrite length_app. lia. }
  destruct (16 <=? len B1) eqn:E.
  - apply Z.leb_le in E. unfold len in E.
    unfold go_quo. cbn [Z.eqb bind].
    assert (Hnb : (if len B1 >? len data then Ret (Z.quot (len data) 16)
                   else Ret (Z.quot (len B1) 16))
                  = Ret (Z.of_nat (length B1 / 16))).
    { unfold len. rewrite Hdata.
      destruct (Z.of_nat (length B1) >? Z.of_nat L) eqn:E2.
      - apply Z.gtb_lt in E2. f_equal. dlia.
      - f_equal. dlia. }
    rewrite Hnb. cbn [bind].
    assert (Hpos2 : (0 <? Z.of_nat (length B1 / 16)) = true)
      by (apply Z.ltb_lt; dlia).
    rewrite Hpos2.
    replace (Z.of_nat (length B1 / 16) * 16) with (Z.of_nat T) by (subst T; lia).
    rewrite make_ok by lia. cbn [bind]. rewrite Nat2Z.id.
    assert (HT : (T <= length B1)%nat) by (subst T; dlia).
    rewrite Buffer_Read_take; [|intros H0; rewrite H0 in E; simpl in E; lia | exact HT].
    rewrite slice_to_ok by (unfold len; rewrite length_firstn; lia).
    cbn [bind]. rewrite Nat2Z.id, firstn_firstn, Nat.min_id.
    rewrite (CryptBlocks_spec _ data1 (firstn T B1) (length B1 / 16)).
    + cbn [bind bm_dir bm_block bm_iv cbcMode]. fold r.
      eexists. split; [reflexivity|]. rewrite length_firstn.
      replace (Nat.min T (length B1)) with T by lia.
      destruct (encryptBlocks_shape blk blk_ok (length B1 / 16) V (firstn T B1) HV)
        as [Hf _]; [rewrite length_firstn; lia|]. fold r in Hf.
      split.
      * rewrite length_app, length_skipn. lia.
      * rewrite firstn_app. replace (T - length (fst r))%nat with 0%nat by lia.
        rewrite firstn_O, app_nil_r. apply firstn_all2. lia.
    + rewrite length_firstn. lia.
    + rewrite length_firstn. lia.
  - apply Z.leb_gt in E. unfold len in E.
    assert (H0 : (length B1 / 16 = 0)%nat) by (apply Nat.div_small; lia).
    subst r T. rewrite H0. cbn [Nat.mul encryptBlocks fst snd firstn skipn].
    exists data1. split; [reflexivity|]. split; [exact Hd1 | reflexivity].
Qed.

Lemma enc_Read_eof (V : list byte) (src : Source) (sz : Z) (B data : list byte) :
  delivering src -> unread src = [] ->
  length data = L -> (length B < 16)%nat -> length V = 16%nat ->
  0 <= sz -> sz mod 16 = Z.of_nat (length B) ->
  let k := (16 - length B)%nat in
  let padded := B ++ repeat (byte_of_Z (Z.of_nat k)) k in
  let r := encryptBlocks blk 1 V padded in
  exists data',
    cbcEncryptReader_Read
      {| encrypter := cbcMode blk Encrypting V; e_src := src; e_padder := p16;
         e_size := sz; e_buf := B |} data
    = Ret ({| encrypter := cbcMode blk Encrypting (snd r); e_src := src;
              e_padder := p16; e_size := sz; e_buf := [] |},
           data', 16, Some EOF) /\
    length data' = L /\ firstn 16 data' = fst r.
Proof.
  intros Hd He Hdata HB HV Hsz Hmod k padded r.
  unfold cbcEncryptReader_Read. cbn [e_src e_size e_buf encrypter e_padder].
  rewrite src_Read_EOF by assumption.
  rewrite slice_to_ok by (pose proof (len_nonneg data); lia).
  cbn [bind is_EOF Z.to_nat firstn].
  unfold Buffer_Write, Buffer_Len, BlockSize, aes_BlockSize.
  rewrite app_nil_r, Z.add_0_r.
  rewrite getSliceSize_spec by apply len_nonneg. cbn [bind].
  replace (Z.max 16 (Z.min (len B) (len data) - Z.min (len B) (len data) mod 16 - 16))
    with 16 by (unfold len; rewrite Hdata; dlia).
  rewrite make_ok by lia. cbn [bind].
  change (Z.to_nat 16) with 16%nat.
  assert (Hpad : Pad p16 B sz = Ret (padded, None)).
  { rewrite Pad_spec by (cbn; unfold aes_BlockSize; lia).
    cbn [blockSize p16]. unfold aes_BlockSize. rewrite Hmod.
    replace (16 - Z.of_nat (length B)) with (Z.of_nat k) by (subst k; lia).
    now rewrite Nat2Z.id. }
  assert (Hplen : length padded = 16%nat).
  { subst padded k. rewrite length_app, repeat_length. lia. }
  assert (Hfin :
    (bn <- Ret B ;;
     ' (padded0, perr) <- Pad p16 bn sz ;;
     match perr with
     | Some _ =>
         Ret ({| encrypter := cbcMode blk Encrypting V; e_src := src;
                 e_padder := p16; e_size := sz; e_buf := [] |}, data, len B, perr)
     | None =>
         if 0 <? len padded0
         then ' (x, data2) <- CryptBlocks (cbcMode blk Encrypting V) data padded0 ;;
              Ret ({| encrypter := x; e_src := src; e_padder := p16;
                      e_size := sz; e_buf := [] |}, data2, len padded0, Some EOF)
         else Ret ({| encrypter := cbcMode blk Encrypting V; e_src := src;
                      e_padder := p16; e_size := sz; e_buf := [] |},
                   data, len padded0, Some EOF)
     end)
    = Ret ({| encrypter := cbcMode blk Encrypting (snd r); e_src := src;
              e_padder := p16; e_size := sz; e_buf := [] |},
           fst r ++ skipn 16 data, 16, Some EOF)).
  { cbn [bind]. rewrite Hpad. cbn [bind]. unfold len at 1. rewrite Hplen.
    cbn [Z.of_nat Pos.of_succ_nat Pos.succ Z.ltb Z.compare].
    rewrite (CryptBlocks_spec _ data padded 1) by lia.
    cbn [bind bm_dir bm_block bm_iv cbcMode]. fold r.
    unfold len. rewrite Hplen. reflexivity. }
  destruct (encryptBlocks_shape blk blk_ok 1 V padded HV) as [Hf _]; [lia|].
  fold r in Hf.
  assert (Hres : length (fst r ++ skipn 16 data) = L /\
                 firstn 16 (fst r ++ skipn 16 data) = fst r).
  { split.
    - rewrite length_app, length_skipn. lia.
    - rewrite firstn_app. replace (16 - length (fst r))%nat with 0%nat by lia.
      rewrite firstn_O, app_nil_r. apply firstn_all2. lia. }
  destruct B as [|b B'] eqn:EB.
  - cbn [Buffer_Read repeat is_EOF negb len length Z.of_nat Z.eqb].
    rewrite slice_to_ok by (unfold len; simpl; lia).
    cbn [Z.to_nat firstn]. cbn [bind] in Hfin. cbn [bind].
    exists (fst r ++ skipn 16 data). split; [exact Hfin | exact Hres].
  - rewrite <- EB in *.
    rewrite Buffer_Read_all by (rewrite ?repeat_length; subst B; try discriminate; simpl in *; lia).
    cbn [len length Z.of_nat Z.eqb]. rewrite slice_to_app.
    exists (fst r ++ skipn 16 data). split; [exact Hfin | exact Hres].
Qed.

Lemma dec_Read_data (V : list byte) (src : Source) (B data : list byte) :
  delivering src -> unread src <> [] ->
  length data = L -> length V = 16%nat ->
  let q := quota src L in
  let chunk := firstn q (unread src) in
  let B1 := B ++ chunk in
  let src' := with_unread src (skipn q (unread src)) in
  ((length B1 < 16)%nat ->
   cbcDecryptReader_Read
     {| decrypter := cbcMode blk Decrypting V; d_src := src; d_padder := p16;
        d_buf := B |} data
   = Ret ({| decrypter := cbcMode blk Decrypting V; d_src := src';
             d_padder := p16; d_buf := B1 |},
          chunk ++ skipn (length chunk) data, len chunk, None)) /\
  ((16 <= length B1)%nat ->
   let nb := (Nat.min (length B1 / 16) (L / 16) - 16)%nat in
   let T := (16 * nb)%nat in
   let r := decryptBlocks blk nb V (firstn T B1) in
   exists data',
     cbcDecryptReader_Read
       {| decrypter := cbcMode blk Decrypting V; d_src := src; d_padder := p16;
          d_buf := B |} data
     = Ret ({| decrypter := cbcMode blk Decrypting (snd r); d_src := src';
               d_padder := p16; d_buf := skipn T B1 |},
            data', Z.of_nat T, None) /\
     length data' = L /\ firstn T data' = fst r).
Proof.
  intros Hd Hne Hdata HV q chunk B1 src'.
  assert (Hpos : (0 < L)%nat) by lia.
  pose proof (chunk_length src L Hd Hne Hpos) as Hch. fold q chunk in Hch.
  unfold cbcDecryptReader_Read. cbn [d_src d_buf decrypter d_padder].
  rewrite src_Read_delivers by assumption. rewrite Hdata. fold q chunk src'.
  rewrite slice_to_app. cbn [bind is_EOF].
  unfold Buffer_Write, Buffer_Len, BlockSize, aes_BlockSize. fold B1.
  set (data1 := chunk ++ skipn (length chunk) data).
  assert (Hd1 : length data1 = L).
  { subst data1. rewrite length_app, length_skipn. lia. }
  split.
  - intros Hlt.
    assert (E : (16 <=? len B1) = false) by (apply Z.leb_gt; unfold len; lia).
    rewrite E. reflexivity.
  - intros Hge.
    set (nb := (Nat.min (length B1 / 16) (L / 16) - 16)%nat).
    set (T := (16 * nb)%nat).
    set (r := decryptBlocks blk nb V (firstn T B1)).
    assert (E : (16 <=? len B1) = true) by (apply Z.leb_le; unfold len; lia).
    rewrite E. unfold go_quo. cbn [Z.eqb bind].
    assert (Hnb : (if len B1 >? len data then Ret (Z.quot (len data) 16)
                   else Ret (Z.quot (len B1) 16))
                  = Ret (Z.of_nat (Nat.min (length B1 / 16) (L / 16)))).
    { unfold len. rewrite Hdata.
      destruct (Z.of_nat (length B1) >? Z.of_nat L) eqn:E2.
      - apply Z.gtb_lt in E2. f_equal. dlia.
      - rewrite Z.gtb_ltb in E2. apply Z.ltb_ge in E2. f_equal. dlia. }
    rewrite Hnb. cbn [bind].
    destruct (0 <? Z.of_nat (Nat.min (length B1 / 16) (L / 16)) - 16) eqn:E3.
    + apply Z.ltb_lt in E3.
      replace ((Z.of_nat (Nat.min (length B1 / 16) (L / 16)) - 16) * 16)
        with (Z.of_nat T) by (subst T nb; lia).
      rewrite make_ok by lia. cbn [bind]. rewrite Nat2Z.id.
      assert (HT : (T <= length B1)%nat /\ (T <= L)%nat) by (subst T nb; dlia).
      rewrite Buffer_Read_take;
        [|intros H0; rewrite H0 in Hge; simpl in Hge; lia | tauto].
      rewrite slice_to_ok by (unfold len; rewrite length_firstn; lia).
      cbn [bind]. rewrite Nat2Z.id, firstn_firstn, Nat.min_id.
      rewrite (CryptBlocks_spec _ data1 (firstn T B1) nb);
        [| rewrite length_firstn; subst T; lia | rewrite length_firstn; lia].
      cbn [bind bm_dir bm_block bm_iv cbcMode]. fold r.
      eexists. split; [reflexivity|]. rewrite length_firstn.
      replace (Nat.min T (length B1)) with T by lia.
      destruct (decryptBlocks_shape blk blk_ok nb V (firstn T B1) HV)
        as [Hf _]; [rewrite length_firstn; subst T; lia|]. fold r in Hf.
      split.
      * rewrite length_app, length_skipn. lia.
      * rewrite firstn_app. replace (T - length (fst r))%nat with 0%nat by lia.
        rewrite firstn_O, app_nil_r. apply firstn_all2. lia.
    + apply Z.ltb_ge in E3.
      assert (H0 : nb = 0%nat) by (subst nb; lia).
      subst r T. rewrite H0. cbn [Nat.mul decryptBlocks fst snd firstn skipn].
      exists data1. split; [reflexivity|]. split; [exact Hd1 | reflexivity].
Qed.

Lemma dec_Read_eof (V : list byte) (src : Source) (B data : list byte) :
  delivering src -> unread src = [] ->
  length data = L -> length V = 16%nat ->
  B <> [] -> (length B mod 16 = 0)%nat ->
  let T := Nat.max 16 (Nat.min (length B) L - 16) in
  let r := decryptBlocks blk (T / 16) V (firstn T B) in
  let x := cbcMode blk Decrypting (snd r) in
  ((16 < length B)%nat ->
   exists data',
     cbcDecryptReader_Read
       {| decrypter := cbcMode blk Decrypting V; d_src := src; d_padder := p16;
          d_buf := B |} data
     = Ret ({| decrypter := x; d_src := src; d_padder := p16;
               d_buf := skipn T B |},
            data', Z.of_nat T, None) /\
     length data' = L /\ firstn T data' = fst r) /\
  (length B = 16%nat ->
   cbcDecryptReader_Read
     {| decrypter := cbcMode blk Decrypting V; d_src := src; d_padder := p16;
        d_buf := B |} data
   = ' (unpadded, uerr) <- Unpad p16 (fst r) ;;
     Ret ({| decrypter := x; d_src := src; d_padder := p16; d_buf := [] |},
          fst r ++ skipn 16 data, len unpadded,
          match uerr with Some _ => uerr | None => Some EOF end)).
Proof.
  intros Hd He Hdata HV HB Hmod T r x.
  assert (HT : (T <= length B)%nat /\ (T <= L)%nat /\ (T mod 16 = 0)%nat /\ (16 <= T)%nat).
  { pose proof (length_nonempty _ HB). subst T. dlia. }
  unfold cbcDecryptReader_Read. cbn [d_src d_buf decrypter d_padder].
  rewrite src_Read_EOF by assumption.
  rewrite slice_to_ok by (pose proof (len_nonneg data); lia).
  cbn [bind is_EOF Z.to_nat firstn].
  unfold Buffer_Write, Buffer_Len, BlockSize, aes_BlockSize.
  rewrite app_nil_r.
  rewrite getSliceSize_spec by apply len_nonneg. cbn [bind].
  replace (Z.max 16 (Z.min (len B) (len data) - Z.min (len B) (len data) mod 16 - 16))
    with (Z.of_nat T) by (unfold len; rewrite Hdata; subst T; dlia).
  rewrite make_ok by lia. cbn [bind]. rewrite Nat2Z.id.
  rewrite Buffer_Read_take by tauto.
  assert (Hp : (0 <? Z.of_nat T) = true) by (apply Z.ltb_lt; lia).
  rewrite Hp.
  rewrite (CryptBlocks_spec _ data (firstn T B) (T / 16));
    [| rewrite length_firstn; dlia | rewrite length_firstn; lia].
  cbn [bind bm_dir bm_block bm_iv cbcMode]. fold r. fold (cbcMode blk Decrypting (snd r)). fold x.
  rewrite length_firstn. replace (Nat.min T (length B)) with T by lia.
  destruct (decryptBlocks_shape blk blk_ok (T / 16) V (firstn T B) HV)
    as [Hf _]; [rewrite length_firstn; dlia|]. fold r in Hf.
  assert (HfT : length (fst r) = T) by dlia.
  assert (Hfirst : firstn T (fst r ++ skipn T data) = fst r).
  { rewrite firstn_app. replace (T - length (fst r))%nat with 0%nat by lia.
    rewrite firstn_O, app_nil_r. apply firstn_all2. lia. }
  split.
  - intros Hgt.
    assert (E : (len (skipn T B) =? 0) = false).
    { apply Z.eqb_neq. unfold len. rewrite length_skipn. subst T. dlia. }
    rewrite E. eexists. split; [reflexivity|]. split; [|exact Hfirst].
    rewrite length_app, length_skipn. lia.
  - intros H16.
    assert (HT16 : T = 16%nat) by (subst T; lia).
    assert (E : (len (skipn T B) =? 0) = true).
    { apply Z.eqb_eq. unfold len. rewrite length_skipn. lia. }
    rewrite E. rewrite slice_to_ok by (unfold len; rewrite length_app, length_skipn; lia).
    rewrite Nat2Z.id, Hfirst.
    rewrite skipn_all2 by lia. rewrite HT16.
    cbn [bind]. destruct (Unpad p16 (fst r)) as [[u ue]|m|]; cbn [bind]; try reflexivity.
    destruct ue; reflexivity.
Qed.

(** The encrypting loop: what [io.Copy] writes for a reader that holds [B]
    and whose source still has [R] to deliver is the CBC encryption of
    [B ++ R] and its padding. *)
Lemma enc_loop (fuel : nat) :
  forall (V : list byte) (src : Source) (sz : Z) (B data w : list byte) (wr : Z),
    delivering src -> length data = L -> (length B < 16)%nat ->
    length V = 16%nat -> 0 <= sz -> sz mod 16 = Z.of_nat (length B) ->
    (length (unread src) < fuel)%nat ->
    let k := (16 - (length B + length (unread src)) mod 16)%nat in
    let padded := B ++ unread src ++ repeat (byte_of_Z (Z.of_nat k)) k in
    exists r' wr',
      copy_loop cbcEncryptReader_Read fuel
        {| encrypter := cbcMode blk Encrypting V; e_src := src; e_padder := p16;
           e_size := sz; e_buf := B |} (BufferSink w) data wr
      = Ret (r', BufferSink (w ++ fst (encryptBlocks blk (length padded / 16) V padded)),
             wr', None) /\
      e_src r' = with_unread src [].
Proof.
  induction fuel as [|fuel IH]; intros V src sz B data w wr Hd Hdata HB HV Hsz Hmod Hf;
    [lia|].
  intros k padded.
  destruct (list_eq_dec Byte.byte_eq_dec (unread src) []) as [He|Hne].
  - destruct (enc_Read_eof V src sz B data Hd He Hdata HB HV Hsz Hmod)
      as (data' & HRead & Hl & Hout).
    rewrite (copy_loop_step _ _ _ _ _ _ _ _ 16 _ _ HRead) by lia.
    cbn [is_EOF]. rewrite Hout.
    subst padded k. rewrite He. cbn [length app]. rewrite Nat.add_0_r.
    rewrite Nat.mod_small by lia.
    replace (length (B ++ repeat (byte_of_Z (Z.of_nat (16 - length B))) (16 - length B)) / 16)%nat
      with 1%nat.
    2:{ rewrite length_app, repeat_length.
        replace (length B + (16 - length B))%nat with 16%nat by lia. reflexivity. }
    eexists _, _. split; [reflexivity|]. cbn [e_src].
    rewrite <- He. symmetry. apply with_unread_same.
  - destruct (enc_Read_data V src sz B data Hd Hne Hdata HB HV)
      as (data' & HRead & Hl & Hout).
    set (q := quota src L) in *.
    set (chunk := firstn q (unread src)) in *.
    set (B1 := B ++ chunk) in *.
    set (T := (16 * (length B1 / 16))%nat) in *.
    set (r := encryptBlocks blk (length B1 / 16) V (firstn T B1)) in *.
    assert (HT : (T <= length B1)%nat) by (subst T; dlia).
    assert (Hchunk : chunk ++ skipn q (unread src) = unread src)
      by apply firstn_skipn.
    assert (Hlen : (length B1 + length (skipn q (unread src))
                    = length B + length (unread src))%nat).
    { subst B1. rewrite length_app. rewrite <- Hchunk at 2. rewrite length_app. lia. }
    pose proof (chunk_length src L Hd Hne ltac:(lia)) as Hch. fold q chunk in Hch.
    assert (HTL : (T <= L)%nat).
    { subst T B1. rewrite length_app. clear - HB Hch L_aligned. dlia. }
    rewrite (copy_loop_step _ _ _ _ _ _ _ _ T _ _ HRead) by lia.
    rewrite Hout.
    destruct (encryptBlocks_shape blk blk_ok (length B1 / 16) V (firstn T B1) HV)
      as [Hf1 Hf2]; [rewrite length_firstn; lia|]. fold r in Hf1, Hf2.
    destruct (IH (snd r) (with_unread src (skipn q (unread src))) (sz + len chunk)
                 (skipn T B1) data' (w ++ fst r) (wr + Z.of_nat T))
      as (r' & wr' & Hloop & Hsrc).
    + now apply delivering_with_unread.
    + exact Hl.
    + rewrite length_skipn. subst T. dlia.
    + exact Hf2.
    + pose proof (len_nonneg chunk). lia.
    + rewrite length_skipn. unfold len. subst T B1. rewrite length_app.
      rewrite length_app in HT. dlia.
    + rewrite unread_with_unread by assumption. rewrite length_skipn.
      pose proof (quota_pos src L Hd ltac:(lia)) as Hq. fold q in Hq.
      pose proof (length_nonempty _ Hne). lia.
    + rewrite unread_with_unread in Hloop by assumption.
      rewrite with_unread_twice in Hsrc.
      rewrite Hloop. exists r', wr'. split; [|exact Hsrc].
      f_equal. f_equal. f_equal. f_equal.
      rewrite <- app_assoc. f_equal.
      assert (Hk : ((length (skipn T B1) + length (skipn q (unread src))) mod 16
                    = (length B + length (unread src)) mod 16)%nat).
      { rewrite length_skipn. subst T. dlia. }
      rewrite Hk. fold k.
      set (pad := repeat (byte_of_Z (Z.of_nat k)) k).
      assert (Hpadded : padded = firstn T B1 ++ (skipn T B1 ++ skipn q (unread src) ++ pad)).
      { subst padded. fold pad. rewrite (app_assoc (firstn T B1)), firstn_skipn.
        unfold B1. rewrite <- app_assoc. f_equal.
        rewrite app_assoc, Hchunk. reflexivity. }
      rewrite Hpadded.
      replace (length (firstn T B1 ++ skipn T B1 ++ skipn q (unread src) ++ pad) / 16)%nat
        with (length B1 / 16 + length (skipn T B1 ++ skipn q (unread src) ++ pad) / 16)%nat.
      2:{ rewrite !length_app, length_firstn, !length_skipn. subst T. dlia. }
      rewrite encryptBlocks_app by (rewrite length_firstn; lia).
      reflexivity.
Qed.

(** The decrypting loop. While fewer than 16 bytes have been buffered, what
    the source delivers is passed on as it is: [rawn] bytes in all. *)
Lemma dec_loop (fuel : nat) :
  forall (V : list byte) (src : Source) (B data w : list byte) (wr : Z),
    delivering src -> length data = L -> length V = 16%nat ->
    ((length B + length (unread src)) mod 16 = 0)%nat ->
    (16 <= length B + length (unread src))%nat ->
    (2 * length (unread src) + length B < fuel)%nat ->
    let q := quota src L in
    let C := B ++ unread src in
    let rawn := if (length B <? 16)%nat
                then (q * ((15 - length B) / q))%nat else 0%nat in
    dec_result
      (copy_loop cbcDecryptReader_Read fuel
         {| decrypter := cbcMode blk Decrypting V; d_src := src; d_padder := p16;
            d_buf := B |} (BufferSink w) data wr)
      src (w ++ firstn rawn (unread src))
      (fst (decryptBlocks blk (length C / 16) V C)) (length C / 16).
Proof.
  induction fuel as [|fuel IH]; intros V src B data w wr Hd Hdata HV Hmod Hge Hf;
    [lia|].
  intros q C rawn.
  destruct (list_eq_dec Byte.byte_eq_dec (unread src) []) as [He|Hne].
  - (* the source is exhausted: the buffer is drained *)
    subst C rawn. rewrite He in *. cbn [length] in *.
    rewrite Nat.add_0_r in Hmod, Hge. rewrite firstn_nil, !app_nil_r.
    assert (HB : B <> []) by (intros ->; simpl in Hge; lia).
    pose proof (dec_Read_eof V src B data Hd He Hdata HV HB Hmod) as H.
    cbv zeta in H. destruct H as [Hmore Hlast].
    set (T := Nat.max 16 (Nat.min (length B) L - 16)) in *.
    set (r := decryptBlocks blk (T / 16) V (firstn T B)) in *.
    destruct (Nat.eq_dec (length B) 16) as [H16|H16].
    + (* the last block *)
      specialize (Hlast H16).
      assert (HT : T = 16%nat) by (subst T; lia).
      assert (Hr : r = decryptBlocks blk 1 V B).
      { subst r. rewrite HT. rewrite firstn_all2 by lia. reflexivity. }
      rewrite H16. change (16 / 16)%nat with 1%nat. rewrite <- Hr.
      unfold dec_result. change (16 * (1 - 1))%nat with 0%nat.
      cbn [skipn firstn app].
      destruct (decryptBlocks_shape blk blk_ok 1 V B HV) as [Hlen _]; [lia|].
      rewrite <- Hr in Hlen.
      destruct (Unpad_outcome p16 (fst r)) as [(u & t & Hu & Ht)|(m & Hm)].
      * rewrite Hu in Hlast |- *. cbn [bind] in Hlast.
        change (len u) with (Z.of_nat (length u)) in Hlast.
        assert (Hul : (length u <= 16)%nat).
        { rewrite Ht, length_app in Hlen. lia. }
        rewrite (copy_loop_step _ _ _ _ _ _ _ _ (length u) _ _ Hlast)
          by (rewrite length_app, length_skipn; lia).
        cbn [is_EOF].
        assert (Hfu : firstn (length u) (fst r ++ skipn 16 data) = u).
        { rewrite Ht, <- app_assoc, firstn_app, Nat.sub_diag, firstn_all, firstn_O.
          now rewrite app_nil_r. }
        rewrite Hfu. eexists _, _. split; [reflexivity|].
        cbn [d_src]. rewrite <- He. symmetry. apply with_unread_same.
      * rewrite Hm in Hlast |- *. cbn [bind] in Hlast.
        now apply copy_loop_panic.
    + (* more than one block is left *)
      assert (Hgt : (16 < length B)%nat) by dlia.
      destruct (Hmore Hgt) as (data' & HRead & Hl & Hout).
      assert (HT : (T <= length B)%nat /\ (T <= L)%nat /\ (T mod 16 = 0)%nat /\
                   (16 <= T)%nat /\ (T < length B)%nat).
      { subst T. dlia. }
      rewrite (copy_loop_step _ _ _ _ _ _ _ _ T _ _ HRead) by lia.
      rewrite Hout.
      destruct (decryptBlocks_shape blk blk_ok (T / 16) V (firstn T B) HV)
        as [Hf1 Hf2]; [rewrite length_firstn; dlia|]. fold r in Hf1, Hf2.
      set (B' := skipn T B).
      assert (HB' : (length B' = length B - T)%nat) by (subst B'; apply length_skipn).
      pose proof (IH (snd r) src B' data' (w ++ fst r) (wr + Z.of_nat T)
                    Hd Hl Hf2) as IH'.
      rewrite He in IH'. cbn [length] in IH'. rewrite Nat.add_0_r in IH'.
      specialize (IH' ltac:(dlia) ltac:(dlia) ltac:(lia)).
      cbv zeta in IH'. rewrite firstn_nil, !app_nil_r in IH'.
      assert (HN : (length B / 16 = T / 16 + length B' / 16)%nat) by dlia.
      rewrite HN.
      replace (decryptBlocks blk (T / 16 + length B' / 16) V B)
        with (decryptBlocks blk (T / 16 + length B' / 16) V (firstn T B ++ B'))
        by (subst B'; now rewrite firstn_skipn).
      rewrite decryptBlocks_app by (rewrite length_firstn; dlia).
      fold r. cbn [fst].
      destruct (decryptBlocks_shape blk blk_ok (length B' / 16) (snd r) B' Hf2)
        as [Hp1 _]; [dlia|].
      apply dec_result_step with (src' := src); try assumption; try reflexivity.
      dlia.
  - (* the source delivers a chunk *)
    pose proof (dec_Read_data V src B data Hd Hne Hdata HV) as H.
    cbv zeta in H. fold q in H. destruct H as [Hraw Hblocks].
    set (chunk := firstn q (unread src)) in *.
    set (B1 := B ++ chunk) in *.
    set (src' := with_unread src (skipn q (unread src))) in *.
    pose proof (chunk_length src L Hd Hne ltac:(lia)) as Hch. fold q chunk in Hch.
    pose proof (quota_pos src L Hd ltac:(lia)) as Hq. fold q in Hq.
    assert (Hchunk : chunk ++ skipn q (unread src) = unread src)
      by apply firstn_skipn.
    assert (Hsrc' : unread src' = skipn q (unread src))
      by (subst src'; now apply unread_with_unread).
    assert (Hd' : delivering src') by (subst src'; now apply delivering_with_unread).
    assert (Hq' : quota src' L = q) by (subst src'; apply quota_with_unread).
    assert (Hw' : with_unread src' [] = with_unread src [])
      by (subst src'; apply with_unread_twice).
    assert (HC : B1 ++ unread src' = C).
    { subst B1 C. rewrite Hsrc', <- app_assoc, Hchunk. reflexivity. }
    assert (Hlen : (length B1 + length (unread src')
                    = length B + length (unread src))%nat).
    { rewrite <- !length_app, HC. reflexivity. }
    assert (HB1 : length B1 = (length B + length chunk)%nat)
      by (subst B1; apply length_app).
    destruct (Nat.lt_ge_cases (length B1) 16) as [Hlt|Hge1].
    + (* fewer than 16 bytes buffered: the chunk is returned as it was read *)
      specialize (Hraw Hlt).
      change (len chunk) with (Z.of_nat (length chunk)) in Hraw.
      rewrite (copy_loop_step _ _ _ _ _ _ _ _ (length chunk) _ _ Hraw)
        by (rewrite length_app; lia).
      rewrite firstn_app, Nat.sub_diag, firstn_all, firstn_O, app_nil_r.
      pose proof (IH V src' B1 (chunk ++ skipn (length chunk) data) (w ++ chunk)
                    (wr + Z.of_nat (length chunk)) Hd') as IH'.
      rewrite Hq', HC, Hlen in IH'.
      specialize (IH' ltac:(rewrite length_app, length_skipn; lia) HV Hmod Hge
                      ltac:(lia)).
      cbv zeta in IH'. fold C in IH'.
      apply dec_result_src with (src' := src') (w1 :=
        (w ++ chunk) ++ firstn (if (length B1 <? 16)%nat
                                then (q * ((15 - length B1) / q))%nat else 0%nat)
                               (unread src')); try assumption.
      assert (Hcq : length chunk = q).
      { unfold chunk. rewrite length_firstn.
        assert (q < length (unread src))%nat; [|lia].
        rewrite HB1 in Hlt. unfold chunk in Hlt. rewrite length_firstn in Hlt. lia. }
      subst rawn.
      assert (E1 : (length B <? 16)%nat = true) by (apply Nat.ltb_lt; lia).
      assert (E2 : (length B1 <? 16)%nat = true) by (apply Nat.ltb_lt; lia).
      rewrite E1, E2.
      replace (15 - length B)%nat with ((15 - length B1) + 1 * q)%nat by lia.
      rewrite Nat.div_add by lia.
      replace (q * ((15 - length B1) / q + 1))%nat
        with (q + q * ((15 - length B1) / q))%nat by lia.
      rewrite firstn_plus. fold chunk. rewrite Hsrc'. now rewrite <- !app_assoc.
    + (* at least 16 bytes buffered: whole blocks, less 16, are decrypted *)
      destruct (Hblocks Hge1) as (data' & HRead & Hl & Hout).
      set (nb := (Nat.min (length B1 / 16) (L / 16) - 16)%nat) in *.
      set (T := (16 * nb)%nat) in *.
      set (r := decryptBlocks blk nb V (firstn T B1)) in *.
      assert (HT : (T <= L)%nat /\ (T + 16 <= length B1)%nat).
      { subst T nb. dlia. }
      rewrite (copy_loop_step _ _ _ _ _ _ _ _ T _ _ HRead) by lia.
      rewrite Hout.
      destruct (decryptBlocks_shape blk blk_ok nb V (firstn T B1) HV)
        as [Hf1 Hf2]; [rewrite length_firstn; lia|]. fold r in Hf1, Hf2.
      set (B' := skipn T B1).
      assert (HB' : (length B' = length B1 - T)%nat) by (subst B'; apply length_skipn).
      assert (Hraw0 : rawn = 0%nat).
      { subst rawn. destruct (length B <? 16)%nat eqn:E; [|reflexivity].
        assert (length chunk <= q)%nat by (unfold chunk; rewrite length_firstn; lia).
        rewrite Nat.div_small; lia. }
      rewrite Hraw0. cbn [firstn]. rewrite app_nil_r.
      pose proof (IH (snd r) src' B' data' (w ++ fst r) (wr + Z.of_nat T)
                    Hd' Hl Hf2) as IH'.
      rewrite Hq' in IH'.
      specialize (IH' ltac:(dlia) ltac:(dlia) ltac:(lia)).
      cbv zeta in IH'.
      assert (E : (length B' <? 16)%nat = false) by (apply Nat.ltb_ge; lia).
      rewrite E in IH'. cbn [firstn] in IH'. rewrite app_nil_r in IH'.
      assert (HC' : C = firstn T B1 ++ (B' ++ unread src')).
      { rewrite <- HC. subst B'. now rewrite app_assoc, firstn_skipn. }
      assert (HN : (length C / 16 = nb + length (B' ++ unread src') / 16)%nat).
      { rewrite HC', !length_app, length_firstn. subst T. dlia. }
      rewrite HN, HC'.
      rewrite decryptBlocks_app by (rewrite length_firstn; lia).
      fold r. cbn [fst].
      destruct (decryptBlocks_shape blk blk_ok (length (B' ++ unread src') / 16)
                  (snd r) (B' ++ unread src') Hf2) as [Hp1 _];
        [rewrite length_app; dlia|].
      apply dec_result_step with (src' := src'); try assumption.
      rewrite length_app. dlia.
Qed.

End Readers.

(* ================================================================== *)
(** * The CBC streams *)

Lemma copyBuf_block : (16 <= Z.to_nat copyBufSize)%nat.
Proof. unfold copyBufSize. lia. Qed.

Lemma copyBuf_aligned : (Z.to_nat copyBufSize mod 16 = 0)%nat.
Proof. unfold copyBufSize. dlia. Qed.

Lemma aes_NewCipher_valid (aes : list byte -> Block) (key : list byte) :
  valid_key_size (len key) -> aes_NewCipher aes key = Value (aes key).
Proof.
  intros [H|[H|H]]; unfold aes_NewCipher; rewrite H; reflexivity.
Qed.

Lemma pkcs7_length (n : nat) :
  (0 < length (pkcs7 n) <= 16)%nat /\ ((n + length (pkcs7 n)) mod 16 = 0)%nat.
Proof.
  unfold pkcs7. rewrite repeat_length. dlia.
Qed.

Lemma last_repeat (b : byte) (n : nat) : (0 < n)%nat -> last (repeat b n) x00 = b.
Proof.
  induction n as [|n IH]; [lia|]. intros _. destruct n as [|n]; [reflexivity|].
  change (repeat b (S (S n))) with (b :: repeat b (S n)).
  change (last (b :: repeat b (S n)) x00) with (last (repeat b (S n)) x00).
  apply IH. lia.
Qed.

Lemma Unpad_pkcs7 (front : list byte) (n : nat) :
  Unpad p16 (front ++ pkcs7 n) = Ret (front, None).
Proof.
  pose proof (pkcs7_length n) as [Hl _].
  apply Unpad_trailing.
  - intros H. rewrite H in Hl. simpl in Hl. lia.
  - unfold pkcs7 in *. rewrite repeat_length in Hl.
    rewrite last_repeat by lia. rewrite Z_of_byte_of_Z.
    unfold len. rewrite repeat_length. rewrite Z.mod_small; lia.
Qed.

Lemma last_skipn (m : nat) (l : list byte) :
  (m < length l)%nat -> last (skipn m l) x00 = last l x00.
Proof.
  revert l. induction m as [|m IH]; intros l Hm; [reflexivity|].
  destruct l as [|x l]; [simpl in Hm; lia|]. cbn [skipn].
  rewrite IH by (simpl in Hm; lia).
  destruct l; [simpl in Hm; lia | reflexivity].
Qed.

Lemma cbc_encrypt_length (blk : Block) (iv s : list byte) :
  Block_ok blk -> length iv = 16%nat -> (length s mod 16 = 0)%nat ->
  length (cbc_encrypt blk iv s) = length s.
Proof.
  intros Hb Hiv Hs. unfold cbc_encrypt.
  destruct (encryptBlocks_shape blk Hb (length s / 16) iv s Hiv) as [H _]; dlia.
Qed.

Lemma cbc_decrypt_encrypt (blk : Block) (iv s : list byte) :
  Block_ok blk -> length iv = 16%nat -> (length s mod 16 = 0)%nat ->
  cbc_decrypt blk iv (cbc_encrypt blk iv s) = s.
Proof.
  intros Hb Hiv Hs. unfold cbc_decrypt.
  rewrite cbc_encrypt_length by assumption. unfold cbc_encrypt.
  rewrite decrypt_encryptBlocks by (try assumption; dlia). reflexivity.
Qed.

Section Streams.

Variable aes : list byte -> Block.
Hypothesis aes_ok : forall key, Block_ok (aes key).

Lemma cbc_EncryptStream_spec (fuel : nat) (c : cbcCipher) (src : Source) (w : list byte) :
  valid_key_size (len (cbc_key c)) -> len (cbc_iv c) = aes_BlockSize ->
  delivering src -> (length (unread src) < fuel)%nat ->
  cbcCipher_EncryptStream aes fuel c src (BufferSink w) =
    Ret (None, with_unread src [],
         BufferSink ((w ++ cbc_iv c) ++
                     cbc_encrypt (aes (cbc_key c)) (cbc_iv c)
                       (unread src ++ pkcs7 (length (unread src))))).
Proof.
  intros Hk Hiv Hd Hf. unfold cbcCipher_EncryptStream.
  rewrite aes_NewCipher_valid by exact Hk. cbn [dst_Write].
  unfold NewCBCEncrypter. rewrite Hiv, Z.eqb_refl. cbn [bind].
  unfold io_Copy. rewrite make_ok by (unfold copyBufSize; lia). cbn [bind].
  destruct (enc_loop (aes (cbc_key c)) (aes_ok _) (Z.to_nat copyBufSize)
              copyBuf_block copyBuf_aligned fuel (cbc_iv c) src 0 []
              (repeat x00 (Z.to_nat copyBufSize)) (w ++ cbc_iv c) 0)
    as (r' & wr' & Hloop & Hsrc); try assumption.
  - apply repeat_length.
  - simpl. lia.
  - unfold len, aes_BlockSize in Hiv. lia.
  - lia.
  - reflexivity.
  - cbv zeta in Hloop. cbn [app length Nat.add] in Hloop.
    unfold cbcMode, p16 in Hloop. rewrite Hloop. cbn [bind].
    rewrite Hsrc. reflexivity.
Qed.

Lemma cbc_DecryptStream_spec (fuel : nat) (c : cbcCipher) (src : Source)
    (iv C w : list byte) :
  valid_key_size (len (cbc_key c)) ->
  delivering src -> unread src = iv ++ C -> length iv = 16%nat ->
  (length C mod 16 = 0)%nat -> (16 <= length C)%nat ->
  (2 * length C < fuel)%nat ->
  let q := quota src (Z.to_nat copyBufSize) in
  let plain := cbc_decrypt (aes (cbc_key c)) iv C in
  let N := (length C / 16)%nat in
  match Unpad p16 (skipn (16 * (N - 1)) plain) with
  | Ret (u, _) =>
      cbcCipher_DecryptStream aes fuel c src (BufferSink w) =
        Ret (None, with_unread src [],
             BufferSink ((w ++ firstn (q * (15 / q)) C)
                           ++ firstn (16 * (N - 1)) plain ++ u))
  | Panic m => cbcCipher_DecryptStream aes fuel c src (BufferSink w) = Panic m
  | Exhausted => False
  end.
Proof.
  intros Hk Hd Hu Hiv Hmod Hge Hf q plain N.
  set (src1 := with_unread src C).
  assert (Hds : cbcCipher_DecryptStream aes fuel c src (BufferSink w) =
                ' (reader1, dst1, _, err) <-
                  copy_loop cbcDecryptReader_Read fuel
                    {| decrypter := cbcMode (aes (cbc_key c)) Decrypting iv;
                       d_src := src1; d_padder := p16; d_buf := [] |}
                    (BufferSink w) (repeat x00 (Z.to_nat copyBufSize)) 0 ;;
                Ret (err, d_src reader1, dst1)).
  { unfold cbcCipher_DecryptStream.
    rewrite aes_NewCipher_valid by exact Hk.
    rewrite make_ok by (unfold aes_BlockSize; lia). cbn [bind].
    rewrite io_ReadFull_spec;
      [|exact Hd | rewrite repeat_length, Hu, length_app; unfold aes_BlockSize; lia].
    cbn [bind]. rewrite repeat_length, Hu.
    change (Z.to_nat aes_BlockSize) with 16%nat.
    rewrite firstn_app, skipn_app, Hiv, Nat.sub_diag, firstn_O, app_nil_r.
    rewrite firstn_all2 with (l := iv) by lia.
    rewrite skipn_all2 with (l := iv) by lia. cbn [skipn app].
    unfold NewCBCDecrypter.
    replace (len iv =? aes_BlockSize) with true
      by (symmetry; apply Z.eqb_eq; unfold len, aes_BlockSize; lia).
    cbn [bind]. unfold io_Copy.
    rewrite make_ok by (unfold copyBufSize; lia). cbn [bind]. reflexivity. }
  rewrite Hds. clear Hds.
  assert (Hd1 : delivering src1) by (subst src1; now apply delivering_with_unread).
  assert (Hu1 : unread src1 = C) by (subst src1; now apply unread_with_unread).
  pose proof (dec_loop (aes (cbc_key c)) (aes_ok _) (Z.to_nat copyBufSize)
                copyBuf_block copyBuf_aligned fuel iv src1 []
                (repeat x00 (Z.to_nat copyBufSize)) w 0 Hd1
                (repeat_length _ _) Hiv) as H.
  rewrite Hu1 in H. cbn [length Nat.add app] in H.
  specialize (H Hmod Hge ltac:(lia)). cbv zeta in H.
  change (0 <? 16)%nat with true in H. cbv iota in H.
  replace (15 - 0)%nat with 15%nat in H by reflexivity.
  assert (Hq1 : quota src1 (Z.to_nat copyBufSize) = q)
    by (unfold src1, q; apply quota_with_unread).
  rewrite Hq1 in H.
  unfold dec_result in H. fold N in H.
  subst plain. unfold cbc_decrypt. fold N.
  destruct (Unpad p16 (skipn (16 * (N - 1))
                         (fst (decryptBlocks (aes (cbc_key c)) N iv C))))
    as [[u ue]|m|]; [| |contradiction].
  - destruct H as (r' & wr' & Hloop & Hsrc). rewrite Hloop. cbn [bind].
    rewrite Hsrc. subst src1. rewrite with_unread_twice. reflexivity.
  - rewrite H. reflexivity.
Qed.

(** Decrypting what [EncryptStream] wrote for [P], from any reader that
    delivers its bytes: the plaintext, after whatever the first reads of
    fewer than 16 bytes let through. *)
Lemma cbc_decrypt_of_encrypt (fuel : nat) (c : cbcCipher) (P w : list byte) (dsrc : Source) :
  valid_key_size (len (cbc_key c)) -> len (cbc_iv c) = aes_BlockSize ->
  let E := cbc_encrypt (aes (cbc_key c)) (cbc_iv c) (P ++ pkcs7 (length P)) in
  let q := quota dsrc (Z.to_nat copyBufSize) in
  delivering dsrc -> unread dsrc = cbc_iv c ++ E ->
  (2 * (length P + 16) < fuel)%nat ->
  cbcCipher_DecryptStream aes fuel c dsrc (BufferSink w) =
    Ret (None, with_unread dsrc [],
         BufferSink ((w ++ firstn (q * (15 / q)) E) ++ P)).
Proof.
  intros Hk Hiv E q Hd Hu Hf.
  assert (Hiv' : length (cbc_iv c) = 16%nat)
    by (unfold len, aes_BlockSize in Hiv; lia).
  pose proof (pkcs7_length (length P)) as [Hp1 Hp2].
  assert (Hpl : (length (P ++ pkcs7 (length P)) mod 16 = 0)%nat)
    by now rewrite length_app.
  assert (HE : length E = length (P ++ pkcs7 (length P))).
  { apply cbc_encrypt_length; auto. }
  rewrite length_app in HE.
  pose proof (cbc_DecryptStream_spec fuel c dsrc (cbc_iv c) E w Hk Hd Hu Hiv') as H.
  specialize (H ltac:(rewrite HE; exact Hp2) ltac:(lia) ltac:(lia)).
  cbv zeta in H. fold q in H.
  assert (Hplain : cbc_decrypt (aes (cbc_key c)) (cbc_iv c) E = P ++ pkcs7 (length P))
    by (unfold E; apply cbc_decrypt_encrypt; auto).
  rewrite Hplain in H.
  set (N := (length E / 16)%nat) in *.
  assert (Hm : (16 * (N - 1) <= length P)%nat /\ (length P < 16 * N)%nat).
  { subst N. rewrite HE. dlia. }
  rewrite skipn_app, firstn_app in H.
  replace (16 * (N - 1) - length P)%nat with 0%nat in H by lia.
  cbn [skipn firstn] in H. rewrite app_nil_r in H.
  rewrite Unpad_pkcs7 in H. rewrite H, firstn_skipn. reflexivity.
Qed.

(** Round trip of the CBC stream. *)
Lemma cbc_round_trip (c : cbcCipher) (P : list byte) (fuel : nat) :
  valid_key_size (len (cbc_key c)) -> len (cbc_iv c) = aes_BlockSize ->
  (2 * (length P + 16) < fuel)%nat ->
  exists ct,
    cbcCipher_EncryptStream aes fuel c (BytesReader P) (BufferSink [])
      = Ret (None, BytesReader [], BufferSink ct) /\
    cbcCipher_DecryptStream aes fuel c (BytesReader ct) (BufferSink [])
      = Ret (None, BytesReader [], BufferSink P).
Proof.
  intros Hk Hiv Hf.
  exists (cbc_iv c ++ cbc_encrypt (aes (cbc_key c)) (cbc_iv c) (P ++ pkcs7 (length P))).
  split.
  - rewrite cbc_EncryptStream_spec; try assumption; try exact I;
      [reflexivity | cbn [unread]; lia].
  - pose proof (cbc_decrypt_of_encrypt fuel c P []
                  (BytesReader (cbc_iv c ++ cbc_encrypt (aes (cbc_key c)) (cbc_iv c)
                                              (P ++ pkcs7 (length P))))
                  Hk Hiv I eq_refl Hf) as H.
    cbn [quota with_unread app] in H.
    rewrite Nat.div_small in H by (pose proof copyBuf_block; lia).
    rewrite Nat.mul_0_r in H. exact H.
Qed.

Variable NewGCM : Block -> AEAD.
Hypothesis NewGCM_ok : forall blk, AEAD_ok (NewGCM blk).


(** C8. A [Read] of the decrypting reader whose source delivers a chunk
    that leaves fewer than 16 bytes buffered returns the count of the chunk
    with a nil error and the chunk itself, still ciphertext, in the output
    buffer, where the encrypting reader returns 0; so that [DecryptStream],
    fed the ciphertext of any plaintext by a reader that delivers fewer than
    16 bytes per read, writes ciphertext bytes before the plaintext and its
    output differs from the plaintext. *)
Theorem C8_short_reads_pass_ciphertext :
  (forall (blk : Block) (V B data : list byte) (src : Source) (sz : Z),
      Block_ok blk -> delivering src -> unread src <> [] ->
      (16 <= length data)%nat -> (length data mod 16 = 0)%nat ->
      length V = 16%nat ->
      let chunk := firstn (quota src (length data)) (unread src) in
      let src' := with_unread src (skipn (quota src (length data)) (unread src)) in
      (length B + length chunk < 16)%nat ->
      cbcDecryptReader_Read
        {| decrypter := cbcMode blk Decrypting V; d_src := src; d_padder := p16;
           d_buf := B |} data
        = Ret ({| decrypter := cbcMode blk Decrypting V; d_src := src';
                  d_padder := p16; d_buf := B ++ chunk |},
               chunk ++ skipn (length chunk) data, len chunk, None) /\
      0 < len chunk /\
      exists data',
        cbcEncryptReader_Read
          {| encrypter := cbcMode blk Encrypting V; e_src := src; e_padder := p16;
             e_size := sz; e_buf := B |} data
          = Ret ({| encrypter := cbcMode blk Encrypting V; e_src := src';
                    e_padder := p16; e_size := sz + len chunk;
                    e_buf := B ++ chunk |}, data', 0, None)) /\
  (forall (c : cbcCipher) (P : list byte) (k fuel : nat),
      valid_key_size (len (cbc_key c)) -> len (cbc_iv c) = aes_BlockSize ->
      (0 < k < 16)%nat -> (2 * (length P + 16) < fuel)%nat ->
      exists ct raw,
        cbcCipher_EncryptStream aes fuel c (BytesReader P) (BufferSink [])
          = Ret (None, BytesReader [], BufferSink (cbc_iv c ++ ct)) /\
        raw = firstn (k * (15 / k)) ct /\ raw <> [] /\
        cbcCipher_DecryptStream aes fuel c (ShortReader k (cbc_iv c ++ ct)) (BufferSink [])
          = Ret (None, ShortReader k [], BufferSink (raw ++ P)) /\
        raw ++ P <> P).
Proof.
  split.
  - intros blk V B data src sz Hb Hd Hne HL1 HL2 HV chunk src' Hlt.
    pose proof (chunk_length src (length data) Hd Hne ltac:(lia)) as Hch.
    fold chunk in Hch.
    split; [|split].
    + apply (proj1 (dec_Read_data blk Hb (length data) HL1 HL2 V src B data
                      Hd Hne eq_refl HV)).
      rewrite length_app. exact Hlt.
    + unfold len. lia.
    + destruct (enc_Read_data blk Hb (length data) HL1 HL2 V src sz B data
                  Hd Hne eq_refl ltac:(lia) HV) as (data' & HR & _).
      fold chunk src' in HR.
      assert (H0 : (length (B ++ chunk) / 16 = 0)%nat)
        by (apply Nat.div_small; rewrite length_app; lia).
      rewrite H0 in HR. cbn [Nat.mul encryptBlocks snd skipn Z.of_nat] in HR.
      exists data'. exact HR.
  - intros c P k fuel Hk Hiv Hkk Hf.
    set (ct := cbc_encrypt (aes (cbc_key c)) (cbc_iv c) (P ++ pkcs7 (length P))).
    exists ct, (firstn (k * (15 / k)) ct).
    assert (Hiv' : length (cbc_iv c) = 16%nat)
      by (unfold len, aes_BlockSize in Hiv; lia).
    pose proof (pkcs7_length (length P)) as [Hp1 Hp2].
    assert (Hct : length ct = (length P + length (pkcs7 (length P)))%nat).
    { subst ct. rewrite cbc_encrypt_length; auto; rewrite length_app; auto. }
    assert (Hdiv : (1 <= 15 / k)%nat) by (apply Nat.div_le_lower_bound; lia).
    assert (Hraw : (0 < length (firstn (k * (15 / k)) ct))%nat).
    { rewrite length_firstn. nia. }
    split; [|split; [reflexivity|split; [|split]]].
    + rewrite cbc_EncryptStream_spec; try assumption; try exact I;
        [reflexivity | cbn [unread]; lia].
    + intros H0. rewrite H0 in Hraw. simpl in Hraw. lia.
    + pose proof (cbc_decrypt_of_encrypt fuel c P [] (ShortReader k (cbc_iv c ++ ct))
                    Hk Hiv ltac:(cbn; lia) eq_refl Hf) as H.
      cbn [quota with_unread app] in H. fold ct in H.
      replace (Nat.min k (Z.to_nat copyBufSize)) with k in H
        by (pose proof copyBuf_block; lia).
      exact H.
    + intros H0. apply (f_equal (@length byte)) in H0.
      rewrite length_app in H0. lia.
Qed.

(** C9. On a non-empty input whose last byte, read as the padding count,
    exceeds the input's length, [Unpad] panics with a slice-bounds violation
    and returns no error; and when the last block of a ciphertext decrypts to
    such a block (its last byte above 16), the panic is that of the whole
    [DecryptStream] call. *)
Theorem C9_oversized_padding_count_panics :
  (forall (p : PKCS7Padder) (data : list byte),
      data <> [] -> len data < Z_of_byte (last data x00) ->
      Unpad p data = Panic "runtime error: slice bounds out of range") /\
  (forall (c : cbcCipher) (iv C w : list byte) (fuel : nat),
      valid_key_size (len (cbc_key c)) -> length iv = 16%nat ->
      (length C mod 16 = 0)%nat -> (16 <= length C)%nat ->
      (2 * length C < fuel)%nat ->
      16 < Z_of_byte (last (cbc_decrypt (aes (cbc_key c)) iv C) x00) ->
      cbcCipher_DecryptStream aes fuel c (BytesReader (iv ++ C)) (BufferSink w)
        = Panic "runtime error: slice bounds out of range").
Proof.
  split; [exact Unpad_panic|].
  intros c iv C w fuel Hk Hiv Hmod Hge Hf Hlast.
  pose proof (cbc_DecryptStream_spec fuel c (BytesReader (iv ++ C)) iv C w
                Hk I eq_refl Hiv Hmod Hge Hf) as H.
  cbv zeta in H.
  set (plain := cbc_decrypt (aes (cbc_key c)) iv C) in *.
  set (N := (length C / 16)%nat) in *.
  assert (Hpl : length plain = length C).
  { subst plain. unfold cbc_decrypt.
    destruct (decryptBlocks_shape (aes (cbc_key c)) (aes_ok _) (length C / 16) iv C Hiv)
      as [Hl _]; dlia. }
  assert (HN : (16 * (N - 1) + 16 = length C)%nat) by (subst N; dlia).
  rewrite Unpad_panic in H.
  - exact H.
  - intros H0. apply (f_equal (@length byte)) in H0.
    rewrite length_skipn in H0. simpl in H0. lia.
  - rewrite last_skipn by lia. unfold len. rewrite length_skipn. lia.
Qed.

End Streams.

Lemma key32_valid : valid_key_size (len key32).
Proof. right. right. reflexivity. Qed.


Lemma C8_short_reads_witness :
  (0 < 5 < 16)%nat /\
  exists ct raw,
    cbcCipher_EncryptStream toyBlock 100 toyCBC (BytesReader hello_walrus) (BufferSink [])
      = Ret (None, BytesReader [], BufferSink (cbc_iv toyCBC ++ ct)) /\
    raw = firstn (5 * (15 / 5)) ct /\ raw <> [] /\
    cbcCipher_DecryptStream toyBlock 100 toyCBC
        (ShortReader 5 (cbc_iv toyCBC ++ ct)) (BufferSink [])
      = Ret (None, ShortReader 5 [], BufferSink (raw ++ hello_walrus)) /\
    raw ++ hello_walrus <> hello_walrus.
Proof.
  assert (Hk : (0 < 5 < 16)%nat) by lia.
  assert (Hf : (2 * (length hello_walrus + 16) < 100)%nat) by (simpl; lia).
  split; [exact Hk|].
  exact (proj2 (C8_short_reads_pass_ciphertext toyBlock toyBlock_ok) toyCBC
           hello_walrus 5%nat 100%nat key32_valid eq_refl Hk Hf).
Defined.

Lemma C9_oversized_padding_witness :
  16 < Z_of_byte (last (cbc_decrypt (toyBlock (cbc_key toyCBC)) iv16 (repeat xff 16)) x00) /\
  cbcCipher_DecryptStream toyBlock 100 toyCBC (BytesReader (iv16 ++ repeat xff 16))
      (BufferSink [])
    = Panic "runtime error: slice bounds out of range".
Proof.
  assert (Hl : 16 < Z_of_byte (last (cbc_decrypt (toyBlock (cbc_key toyCBC)) iv16
                                       (repeat xff 16)) x00))
    by (vm_compute; reflexivity).
  split; [exact Hl|].
  apply (proj2 (C9_oversized_padding_count_panics toyBlock toyBlock_ok) toyCBC iv16
           (repeat xff 16) [] 100%nat key32_valid eq_refl eq_refl).
  - simpl. lia.
  - simpl. lia.
  - exact Hl.
Defined.

(* ================================================================== *)
(** * Further properties of the streams *)

Lemma nonce12_enough : NonceSize toyAEAD <= len (unread (BytesReader nonce12)).
Proof. vm_compute. discriminate. Qed.

Lemma short_hello_delivering : delivering short_hello.
Proof. simpl. lia. Qed.

Lemma optsShortKey_key : Key optsShortKey <> [].
Proof. discriminate. Qed.

Lemma optsShortKey_invalid : ~ valid_key_size (len (Key optsShortKey)).
Proof. vm_compute. intros [H|[H|H]]; discriminate H. Qed.

Lemma iv16_enough : (16 <= length (unread (BytesReader iv16)))%nat.
Proof. simpl. lia. Qed.

Lemma short_hello_fuel : (length (unread short_hello) < 100)%nat.
Proof. simpl. lia. Qed.

Lemma hello_fuel : (length hello_walrus < 100)%nat.
Proof. simpl. lia. Qed.

Lemma hello_not_magic : firstn 6 (unread (BytesReader hello_walrus)) <> CTRMagic.magicBytes.
Proof. vm_compute. discriminate. Qed.

Lemma toyOptions_package : Forall (@Walrus.package_option string nat) toyOptions.
Proof. repeat constructor. Qed.

Lemma toyHTTP_bodies (w : nat) (r : Walrus.Request string) (w' : nat)
    (resp : Walrus.Response) :
  Walrus.Do (Walrus.httpClient toyClient) w r = (w', inl resp) ->
  delivering (Walrus.resp_Body resp).
Proof.
  destruct w as [|[|w]]; cbn; intros H; [discriminate H| |];
    injection H as _ <-; exact I.
Qed.

Lemma toy_parses (s : string) : Some s <> None.
Proof. discriminate. Qed.

Lemma toyRequest_body (b : Source) :
  Walrus.req_Body toyRequest = Some b -> delivering b.
Proof. intros H. injection H as <-. simpl. lia. Qed.

(** [io.ReadFull] on a reader that runs dry before the buffer is full. *)
Lemma readFull_loop_short (fuel : nat) :
  forall (src : Source) (buf : list byte) (n : nat),
    delivering src -> (n <= length buf)%nat ->
    (length (unread src) < length buf - n)%nat ->
    (length (unread src) < fuel)%nat ->
    exists buf',
      readFull_loop fuel src buf (Z.of_nat n) =
        Ret (with_unread src [], buf', Z.of_nat (n + length (unread src)),
             Some (if (0 <? n + length (unread src))%nat
                   then ErrUnexpectedEOF else EOF)).
Proof.
  induction fuel as [|fuel IH]; intros src buf n Hd Hn Hs Hf; [lia|].
  cbn [readFull_loop]. unfold len at 1.
  replace (Z.of_nat n <? Z.of_nat (length buf)) with true
    by (symmetry; apply Z.ltb_lt; lia).
  rewrite slice_to_ok, slice_from_ok by (unfold len; lia).
  cbn [bind]. rewrite Nat2Z.id.
  destruct (unread src) as [|x s] eqn:Es.
  - rewrite src_Read_EOF by assumption.
    eexists. rewrite <- Es at 1. rewrite with_unread_same.
    cbn [length]. rewrite Nat.add_0_r, Z.add_0_r. f_equal. f_equal.
    unfold readFull_error, len.
    destruct (Z.of_nat (length buf) <=? Z.of_nat n) eqn:E;
      [apply Z.leb_le in E; cbn [length] in Hs; lia|].
    cbn [is_EOF]. rewrite andb_true_r.
    destruct n; [reflexivity|].
    replace (0 <? Z.of_nat (S n)) with true by (symmetry; apply Z.ltb_lt; lia).
    reflexivity.
  - assert (Hne : unread src <> []) by (rewrite Es; discriminate).
    rewrite src_Read_data by assumption. cbv zeta.
    set (m := Nat.min (quota src (length (skipn n buf))) (length (unread src))).
    assert (Hm : (0 < m <= length (unread src))%nat).
    { subst m. pose proof (quota_pos src (length (skipn n buf)) Hd).
      pose proof (length_nonempty _ Hne).
      rewrite length_skipn in *. rewrite Es in *. cbn [length] in *. lia. }
    clearbody m.
    set (buf1 := firstn n buf ++ firstn m (unread src) ++ skipn m (skipn n buf)).
    assert (Hl : length buf1 = length buf).
    { subst buf1. rewrite !length_app, !length_firstn, !length_skipn.
      rewrite Es in *. cbn [length] in *. lia. }
    rewrite <- Nat2Z.inj_add.
    destruct (IH (with_unread src (skipn m (unread src))) buf1 (n + m)%nat)
      as (buf' & Hr).
    + now apply delivering_with_unread.
    + rewrite Es in *. cbn [length] in *. lia.
    + rewrite unread_with_unread, length_skipn by assumption.
      rewrite Es in *. cbn [length] in *. lia.
    + rewrite unread_with_unread, length_skipn by assumption.
      rewrite Es in *. cbn [length] in *. lia.
    + exists buf'. rewrite Hr.
      rewrite with_unread_twice, unread_with_unread, length_skipn by assumption.
      rewrite Es in *. cbn [length] in *.
      replace (n + m + (S (length s) - m))%nat with (n + S (length s))%nat by lia.
      replace (0 <? n + S (length s))%nat with true
        by (symmetry; apply Nat.ltb_lt; lia).
      reflexivity.
Qed.

Lemma io_ReadFull_short (src : Source) (buf : list byte) :
  delivering src -> (length (unread src) < length buf)%nat ->
  exists buf',
    io_ReadFull src buf =
      Ret (with_unread src [], buf', len (unread src),
           Some (match unread src with [] => EOF | _ => ErrUnexpectedEOF end)).
Proof.
  intros Hd Hl. unfold io_ReadFull. change 0 with (Z.of_nat 0).
  destruct (readFull_loop_short (S (length buf)) src buf 0 Hd) as (buf' & Hr);
    try lia.
  exists buf'. rewrite Hr. cbn [Nat.add]. unfold len.
  destruct (unread src); reflexivity.
Qed.

(** A [Read] of the decrypting reader at the end of a source that delivered
    nothing since the buffer was last emptied. *)
Lemma dec_Read_eof_empty (x : BlockMode) (src : Source) (data : list byte) :
  delivering src -> unread src = [] ->
  cbcDecryptReader_Read
    {| decrypter := x; d_src := src; d_padder := p16; d_buf := [] |} data
  = Ret ({| decrypter := x; d_src := src; d_padder := p16; d_buf := [] |},
         data, 0, Some EOF).
Proof.
  intros Hd Hu. unfold cbcDecryptReader_Read. cbn [d_src d_buf decrypter d_padder].
  rewrite src_Read_EOF by assumption.
  rewrite slice_to_ok by (pose proof (len_nonneg data); lia).
  cbn [bind Z.to_nat firstn Buffer_Write app is_EOF].
  unfold BlockSize. change aes_BlockSize with 16.
  rewrite getSliceSize_spec by (unfold Buffer_Len, len; cbn [length]; lia).
  cbn [bind]. unfold Buffer_Len. change (len []) with 0.
  replace (Z.max 16 (Z.min 0 (len data) - Z.min 0 (len data) mod 16 - 16)) with 16
    by (pose proof (len_nonneg data); rewrite Z.min_l by lia; reflexivity).
  rewrite make_ok by lia. cbn [bind]. change (Z.to_nat 16) with 16%nat.
  cbn [repeat Buffer_Read is_EOF negb Z.ltb Z.compare bind].
  change (len [] =? 0) with true. cbv iota.
  rewrite slice_to_ok by (pose proof (len_nonneg data); lia).
  reflexivity.
Qed.

Lemma cbcCipher_DecryptStream_key (aes : list byte -> Block) (fuel : nat)
    (c c' : cbcCipher) (src : Source) (dst : Sink) :
  cbc_key c' = cbc_key c ->
  cbcCipher_DecryptStream aes fuel c' src dst = cbcCipher_DecryptStream aes fuel c src dst.
Proof. intros H. unfold cbcCipher_DecryptStream. rewrite H. reflexivity. Qed.

Lemma cbc_plain_length (blk : Block) (iv C : list byte) :
  Block_ok blk -> length iv = 16%nat -> (length C mod 16 = 0)%nat ->
  length (cbc_decrypt blk iv C) = length C.
Proof.
  intros Hb Hiv Hm. unfold cbc_decrypt.
  destruct (decryptBlocks_shape blk Hb (length C / 16) iv C Hiv) as [H _]; [dlia|].
  rewrite H. dlia.
Qed.

Section StreamFacts.

Variable aes : list byte -> Block.
Hypothesis aes_ok : forall key, Block_ok (aes key).

(** X1. The ciphertext [EncryptStream] writes is the IV of the engine followed
    by the CBC encryption of the padded plaintext, whatever the sizes of the
    reads the source answers with; it is one to sixteen bytes longer than
    the plaintext, rounded up to whole blocks, after the sixteen of the IV. *)
Theorem cbc_EncryptStream_layout (c : cbcCipher) (src : Source) (w : list byte)
    (fuel : nat) :
  valid_key_size (len (cbc_key c)) -> len (cbc_iv c) = aes_BlockSize ->
  delivering src -> (length (unread src) < fuel)%nat ->
  exists body,
    cbcCipher_EncryptStream aes fuel c src (BufferSink w)
      = Ret (None, with_unread src [], BufferSink (w ++ cbc_iv c ++ body)) /\
    body = cbc_encrypt (aes (cbc_key c)) (cbc_iv c)
             (unread src ++ pkcs7 (length (unread src))) /\
    length body = (16 * (length (unread src) / 16 + 1))%nat.
Proof.
  intros Hk Hiv Hd Hf. eexists. split; [|split; [reflexivity|]].
  - rewrite cbc_EncryptStream_spec by assumption. now rewrite <- app_assoc.
  - pose proof (pkcs7_length (length (unread src))) as [Hp1 Hp2].
    rewrite cbc_encrypt_length; auto.
    + rewrite length_app. unfold pkcs7 in *. rewrite repeat_length in *. dlia.
    + unfold len, aes_BlockSize in Hiv. lia.
    + now rewrite length_app.
Qed.

(** X2. [DecryptStream] takes the IV from the first sixteen bytes of the stream
    and never looks at the IV of its engine: what an engine encrypted is
    decrypted by every engine with the same key, whatever its IV. *)
Theorem cbc_DecryptStream_uses_header_iv (c c' : cbcCipher) (P : list byte)
    (fuel : nat) :
  valid_key_size (len (cbc_key c)) -> len (cbc_iv c) = aes_BlockSize ->
  cbc_key c' = cbc_key c ->
  (2 * (length P + 16) < fuel)%nat ->
  exists ct,
    cbcCipher_EncryptStream aes fuel c (BytesReader P) (BufferSink [])
      = Ret (None, BytesReader [], BufferSink ct) /\
    cbcCipher_DecryptStream aes fuel c' (BytesReader ct) (BufferSink [])
      = Ret (None, BytesReader [], BufferSink P).
Proof.
  intros Hk Hiv Hkey Hf.
  destruct (cbc_round_trip aes aes_ok c P fuel Hk Hiv Hf) as (ct & He & Hd).
  exists ct. split; [exact He|].
  rewrite (cbcCipher_DecryptStream_key aes fuel c c') by exact Hkey. exact Hd.
Qed.

(** X3. [DecryptStream] validates no padding. Of a ciphertext of whole blocks
    it removes as many bytes as the last byte of the decrypted text says,
    when that is at most sixteen (zero included), without looking at the
    bytes removed; and whatever the ciphertext, it reports no error. *)
Theorem cbc_DecryptStream_validates_no_padding (c : cbcCipher) (iv C w : list byte)
    (fuel : nat) :
  valid_key_size (len (cbc_key c)) -> length iv = 16%nat ->
  (length C mod 16 = 0)%nat -> (16 <= length C)%nat ->
  (2 * length C < fuel)%nat ->
  let plain := cbc_decrypt (aes (cbc_key c)) iv C in
  let k := Z.to_nat (Z_of_byte (last plain x00)) in
  ((k <= 16)%nat ->
     cbcCipher_DecryptStream aes fuel c (BytesReader (iv ++ C)) (BufferSink w)
       = Ret (None, BytesReader [], BufferSink (w ++ firstn (length C - k) plain))) /\
  (forall e src' dst',
     cbcCipher_DecryptStream aes fuel c (BytesReader (iv ++ C)) (BufferSink w)
       <> Ret (Some e, src', dst')).
Proof.
  intros Hk Hiv Hm Hge Hf plain k.
  pose proof (cbc_DecryptStream_spec aes aes_ok fuel c (BytesReader (iv ++ C))
                iv C w Hk I eq_refl Hiv Hm Hge Hf) as H.
  cbv zeta in H. cbn [quota with_unread] in H.
  rewrite (Nat.div_small 15) in H by (pose proof copyBuf_block; lia).
  rewrite Nat.mul_0_r in H. cbn [firstn] in H. rewrite app_nil_r in H.
  fold plain in H.
  set (N := (length C / 16)%nat) in *.
  assert (Hpl : length plain = length C)
    by (apply cbc_plain_length; auto).
  assert (HN : length C = (16 * N)%nat) by (subst N; dlia).
  set (lastb := skipn (16 * (N - 1)) plain) in *.
  assert (Hlb : length lastb = 16%nat)
    by (subst lastb; rewrite length_skipn; lia).
  assert (Hne : lastb <> []) by (intros E; rewrite E in Hlb; discriminate).
  assert (Hlast : last lastb x00 = last plain x00)
    by (subst lastb; apply last_skipn; lia).
  split.
  - intros Hk16.
    rewrite Unpad_spec in H; [|exact Hne|].
    2:{ rewrite Hlast. unfold len. rewrite Hlb.
        pose proof (Z_of_byte_range (last plain x00)). subst k. lia. }
    rewrite H. do 3 f_equal.
    rewrite Hlast. unfold len. rewrite Hlb.
    replace (Z.to_nat (Z.of_nat 16 - Z_of_byte (last plain x00))) with (16 - k)%nat
      by (subst k; pose proof (Z_of_byte_range (last plain x00)); lia).
    subst lastb.
    replace (length C - k)%nat with (16 * (N - 1) + (16 - k))%nat by lia.
    now rewrite firstn_plus.
  - intros e src' dst' Habs.
    destruct (Unpad_outcome p16 lastb) as [(u & t & Hu & _)|(m & Hu)];
      rewrite Hu in H; rewrite H in Habs; discriminate Habs.
Qed.

(** X4. A stream that ends with its sixteen-byte header, which no encryption
    produces, is decrypted without error to the empty plaintext. *)
Theorem cbc_DecryptStream_header_only (c : cbcCipher) (src : Source) (w : list byte)
    (fuel : nat) :
  valid_key_size (len (cbc_key c)) -> delivering src ->
  length (unread src) = 16%nat -> (0 < fuel)%nat ->
  cbcCipher_DecryptStream aes fuel c src (BufferSink w)
    = Ret (None, with_unread src [], BufferSink w).
Proof.
  intros Hk Hd Hl Hf. unfold cbcCipher_DecryptStream.
  rewrite aes_NewCipher_valid by exact Hk.
  rewrite make_ok by (unfold aes_BlockSize; lia). cbn [bind].
  rewrite io_ReadFull_spec;
    [|exact Hd | rewrite repeat_length; unfold aes_BlockSize; lia].
  cbn [bind]. rewrite repeat_length.
  change (Z.to_nat aes_BlockSize) with 16%nat.
  rewrite skipn_all2 by lia. rewrite firstn_all2 by lia.
  unfold NewCBCDecrypter.
  replace (len (unread src) =? aes_BlockSize) with true
    by (symmetry; apply Z.eqb_eq; unfold len, aes_BlockSize; lia).
  cbn [bind]. unfold io_Copy.
  rewrite make_ok by (unfold copyBufSize; lia). cbn [bind].
  destruct fuel as [|fuel]; [lia|].
  erewrite copy_loop_step with (T := 0%nat).
  2:{ apply dec_Read_eof_empty.
      - now apply delivering_with_unread.
      - now apply unread_with_unread. }
  2:{ lia. }
  cbn [is_EOF bind firstn d_src]. now rewrite app_nil_r.
Qed.

End StreamFacts.

Lemma cbc_EncryptStream_layout_witness :
  valid_key_size (len (cbc_key toyCBC)) /\ len (cbc_iv toyCBC) = aes_BlockSize /\
  delivering short_hello /\ (length (unread short_hello) < 100)%nat /\
  exists body,
    cbcCipher_EncryptStream toyBlock 100 toyCBC short_hello (BufferSink [])
      = Ret (None, with_unread short_hello [], BufferSink ([] ++ cbc_iv toyCBC ++ body)) /\
    body = cbc_encrypt (toyBlock (cbc_key toyCBC)) (cbc_iv toyCBC)
             (unread short_hello ++ pkcs7 (length (unread short_hello))) /\
    length body = (16 * (length (unread short_hello) / 16 + 1))%nat.
Proof.
  assert (H1 : delivering short_hello) by (simpl; lia).
  assert (H2 : (length (unread short_hello) < 100)%nat) by (simpl; lia).
  split; [exact key32_valid|]. split; [reflexivity|].
  split; [exact H1|]. split; [exact H2|].
  exact (cbc_EncryptStream_layout toyBlock toyBlock_ok toyCBC short_hello []
           100%nat key32_valid eq_refl H1 H2).
Defined.

Lemma cbc_DecryptStream_uses_header_iv_witness :
  valid_key_size (len (cbc_key toyCBC)) /\ len (cbc_iv toyCBC) = aes_BlockSize /\
  cbc_key toyCBC_no_iv = cbc_key toyCBC /\
  (2 * (length hello_walrus + 16) < 100)%nat /\
  exists ct,
    cbcCipher_EncryptStream toyBlock 100 toyCBC (BytesReader hello_walrus) (BufferSink [])
      = Ret (None, BytesReader [], BufferSink ct) /\
    cbcCipher_DecryptStream toyBlock 100 toyCBC_no_iv (BytesReader ct) (BufferSink [])
      = Ret (None, BytesReader [], BufferSink hello_walrus).
Proof.
  assert (Hf : (2 * (length hello_walrus + 16) < 100)%nat) by (simpl; lia).
  split; [exact key32_valid|]. split; [reflexivity|].
  split; [reflexivity|]. split; [exact Hf|].
  exact (cbc_DecryptStream_uses_header_iv toyBlock toyBlock_ok toyCBC toyCBC_no_iv
           hello_walrus 100%nat key32_valid eq_refl eq_refl Hf).
Defined.

Lemma cbc_DecryptStream_validates_no_padding_witness :
  valid_key_size (len (cbc_key toyCBC)) /\ length iv16 = 16%nat /\
  (length iv16 mod 16 = 0)%nat /\ (16 <= length iv16)%nat /\
  (2 * length iv16 < 100)%nat /\
  forall e src' dst',
    cbcCipher_DecryptStream toyBlock 100 toyCBC (BytesReader (iv16 ++ iv16)) (BufferSink [])
      <> Ret (Some e, src', dst').
Proof.
  assert (Hf : (2 * length iv16 < 100)%nat) by (simpl; lia).
  assert (Hg : (16 <= length iv16)%nat) by (simpl; lia).
  split; [exact key32_valid|]. split; [reflexivity|]. split; [reflexivity|].
  split; [exact Hg|]. split; [exact Hf|].
  exact (proj2 (cbc_DecryptStream_validates_no_padding toyBlock toyBlock_ok toyCBC
                  iv16 iv16 [] 100%nat key32_valid eq_refl eq_refl Hg Hf)).
Defined.

Lemma cbc_DecryptStream_header_only_witness :
  valid_key_size (len (cbc_key toyCBC)) /\ delivering (BytesReader iv16) /\
  length (unread (BytesReader iv16)) = 16%nat /\ (0 < 1)%nat /\
  cbcCipher_DecryptStream toyBlock 1 toyCBC (BytesReader iv16) (BufferSink [])
    = Ret (None, with_unread (BytesReader iv16) [], BufferSink []).
Proof.
  assert (Hf : (0 < 1)%nat) by lia.
  split; [exact key32_valid|]. split; [exact I|]. split; [reflexivity|].
  split; [exact Hf|].
  exact (cbc_DecryptStream_header_only toyBlock toyCBC (BytesReader iv16) [] 1%nat
           key32_valid I eq_refl Hf).
Defined.

Lemma cbc_DecryptStream_short (aes : list byte -> Block) (c : cbcCipher)
    (fuel : nat) (src : Source) (dst : Sink) :
  delivering src -> valid_key_size (len (cbc_key c)) ->
  (length (unread src) < 16)%nat ->
  cbcCipher_DecryptStream aes fuel c src dst
    = Ret (Some (match unread src with [] => EOF | _ => ErrUnexpectedEOF end),
           with_unread src [], dst).
Proof.
  intros Hd Hk Hl. unfold cbcCipher_DecryptStream.
  rewrite aes_NewCipher_valid by exact Hk.
  rewrite make_ok by (unfold aes_BlockSize; lia). cbn [bind].
  destruct (io_ReadFull_short src (repeat x00 (Z.to_nat aes_BlockSize)) Hd)
    as (buf' & Hr).
  { rewrite repeat_length. unfold aes_BlockSize. lia. }
  rewrite Hr. reflexivity.
Qed.

Lemma gcm_DecryptStream_short (c : gcmContentCipher) (a : AEAD)
    (src : Source) (dst : Sink) :
  delivering src -> gcm c = Some a -> len (unread src) < NonceSize a ->
  gcmContentCipher_DecryptStream c src dst
    = Ret (Some (match unread src with [] => EOF | _ => ErrUnexpectedEOF end),
           with_unread src [], dst).
Proof.
  intros Hd Hc Hl. unfold gcmContentCipher_DecryptStream. rewrite Hc.
  pose proof (len_nonneg (unread src)).
  rewrite make_ok by lia. cbn [bind].
  destruct (io_ReadFull_short src (repeat x00 (Z.to_nat (NonceSize a))) Hd)
    as (buf' & Hr).
  { rewrite repeat_length. unfold len in *. lia. }
  rewrite Hr. reflexivity.
Qed.

(** X5. A stream too short to hold its header is reported as such: the CBC
    stream that ends before sixteen bytes and the GCM stream that ends
    before a whole nonce return [io.EOF] when they are empty and
    [io.ErrUnexpectedEOF] otherwise, and write nothing. *)
Theorem DecryptStream_truncated_header (aes : list byte -> Block) (src : Source)
    (dst : Sink) :
  delivering src ->
  let e := match unread src with [] => EOF | _ => ErrUnexpectedEOF end in
  (forall (c : cbcCipher) (fuel : nat),
      valid_key_size (len (cbc_key c)) -> (length (unread src) < 16)%nat ->
      cbcCipher_DecryptStream aes fuel c src dst
        = Ret (Some e, with_unread src [], dst)) /\
  (forall (c : gcmContentCipher) (a : AEAD),
      gcm c = Some a -> len (unread src) < NonceSize a ->
      gcmContentCipher_DecryptStream c src dst
        = Ret (Some e, with_unread src [], dst)).
Proof.
  intros Hd e. split.
  - intros c fuel Hk Hl. now apply cbc_DecryptStream_short.
  - intros c a Hc Hl. now apply (gcm_DecryptStream_short c a).
Qed.

Lemma DecryptStream_truncated_header_witness :
  delivering (BytesReader [x57; x41]) /\
  forall (c : cbcCipher) (fuel : nat),
    valid_key_size (len (cbc_key c)) ->
    (length (unread (BytesReader [x57; x41])) < 16)%nat ->
    cbcCipher_DecryptStream toyBlock fuel c (BytesReader [x57; x41]) (BufferSink [])
      = Ret (Some ErrUnexpectedEOF, with_unread (BytesReader [x57; x41]) [],
             BufferSink []).
Proof.
  split; [exact I|].
  exact (proj1 (DecryptStream_truncated_header toyBlock (BytesReader [x57; x41])
                  (BufferSink []) I)).
Defined.

Section ChunkedSealed.

Variable a : AEAD.
Variable nonce : list byte.
Hypothesis a_ok : AEAD_ok a.

(** On a stream of sealed chunks, each as long as a read but for the last,
    the decrypting loop opens every chunk and writes the plaintexts. *)
Lemma decrypt_loop_sealed (L : nat) (cs : list (list byte)) :
  forall (fuel : nat) (w buf : list byte) (calls : list aead_call),
    (0 < L)%nat -> aligned L cs ->
    length buf = (L + Z.to_nat (Overhead a))%nat ->
    (length (concat (map (Seal a nonce) cs)) < fuel)%nat ->
    Chunked.decrypt_loop fuel a nonce
        (BytesReader (concat (map (Seal a nonce) cs))) (BufferSink w) buf calls
      = Ret (None, BytesReader [], BufferSink (w ++ concat cs),
             calls ++ map (fun c => OpenCall nonce (Seal a nonce c)) cs).
Proof.
  induction cs as [|c rest IH]; intros fuel w buf calls HL Hal Hb Hf;
    (destruct fuel as [|fuel]; [lia|]).
  { cbn. now rewrite !app_nil_r. }
  cbn [map concat] in *.
  set (sealed := Seal a nonce c) in *.
  set (R := concat (map (Seal a nonce) rest)) in *.
  pose proof (Seal_length_nat a nonce a_ok c) as HS. fold sealed in HS.
  assert (Hc : (0 < length c <= L)%nat /\ (rest <> [] -> length c = L)).
  { cbn [aligned] in Hal. destruct rest; [split; [exact Hal | congruence]|].
    destruct Hal as [Hal _]. split; [lia | auto]. }
  assert (Hne : unread (BytesReader (sealed ++ R)) <> []).
  { cbn [unread]. intros H0. apply (f_equal (@length byte)) in H0.
    rewrite length_app in H0. simpl in H0. lia. }
  assert (Hbuf : (0 < length buf)%nat) by lia.
  assert (Hfirst : firstn (length buf) (sealed ++ R) = sealed /\
                   skipn (length buf) (sealed ++ R) = R).
  { destruct rest as [|r rest'].
    - subst R. cbn [map concat]. rewrite app_nil_r.
      split; [apply firstn_all2 | apply skipn_all2]; lia.
    - assert (length c = L) by (apply Hc; discriminate).
      rewrite firstn_app, skipn_app.
      replace (length buf - length sealed)%nat with 0%nat by lia.
      rewrite firstn_O, app_nil_r, firstn_all2, skipn_all2 by lia.
      split; reflexivity. }
  destruct Hfirst as [Hfi Hsk].
  cbn [Chunked.decrypt_loop].
  destruct (src_Read_chunk (BytesReader (sealed ++ R)) buf I Hne Hbuf)
    as (p' & n & -> & Hn & Hl & Hch).
  apply Z.ltb_lt in Hn. rewrite Hn, Hch. cbn [bind quota unread with_unread].
  rewrite Hfi, Hsk. subst sealed.
  rewrite (Open_Seal a a_ok). cbn [dst_Write bind is_EOF].
  rewrite IH.
  - cbn [map concat]. rewrite <- !app_assoc. reflexivity.
  - exact HL.
  - cbn [aligned] in Hal. destruct rest; [exact I | tauto].
  - lia.
  - fold R. rewrite length_app in Hf. lia.
Qed.

End ChunkedSealed.

Section ChunkedFacts.

Variable a : AEAD.
Variable c : gcmContentCipher.
Hypothesis c_gcm : gcm c = Some a.
Hypothesis a_ok : AEAD_ok a.

(** The chunked [DecryptStream] on a header and a body of sealed chunks. *)
Lemma chunked_DecryptStream_sealed (nonce : list byte) (cs : list (list byte)) :
  len nonce = NonceSize a ->
  aligned (Z.to_nat Chunked.chunkSize) cs ->
  Chunked.DecryptStream c
      (BytesReader (nonce ++ concat (map (Seal a nonce) cs))) (BufferSink [])
    = Ret (None, BytesReader [], BufferSink (concat cs),
           map (fun c => OpenCall nonce (Seal a nonce c)) cs).
Proof.
  intros Hn Hal. unfold Chunked.DecryptStream.
  assert (Hz : Z.to_nat (NonceSize a) = length nonce) by (unfold len in Hn; lia).
  pose proof (Overhead_nonneg a a_ok) as Hov.
  rewrite c_gcm, make_ok by (apply (NonceSize_nonneg a a_ok)). cbn [bind].
  rewrite io_ReadFull_spec;
    [|exact I | rewrite repeat_length; cbn [unread]; rewrite length_app; lia].
  cbn [bind]. rewrite repeat_length, Hz. cbn [unread with_unread].
  rewrite firstn_app, firstn_all, Nat.sub_diag, firstn_O, app_nil_r.
  rewrite skipn_app, skipn_all, Nat.sub_diag. cbn [skipn app].
  rewrite make_ok by (unfold Chunked.chunkSize; lia). cbn [bind].
  rewrite (decrypt_loop_sealed a nonce a_ok (Z.to_nat Chunked.chunkSize)).
  - reflexivity.
  - unfold Chunked.chunkSize; lia.
  - exact Hal.
  - rewrite repeat_length. unfold Chunked.chunkSize. lia.
  - lia.
Qed.

(** X6. The chunked stream restores its plaintext: what [EncryptStream] wrote
    for a plaintext held in memory, [DecryptStream] reads back from memory
    as that plaintext. *)
Theorem chunked_round_trip (nonce P : list byte) :
  len nonce = NonceSize a ->
  exists ct calls calls',
    Chunked.EncryptStream c (BytesReader nonce) (BytesReader P) (BufferSink [])
      = Ret (None, BytesReader [], BufferSink ct, calls) /\
    Chunked.DecryptStream c (BytesReader ct) (BufferSink [])
      = Ret (None, BytesReader [], BufferSink P, calls').
Proof.
  intros Hn. eexists _, _, _. split.
  - now apply (chunked_EncryptStream_bytes a c c_gcm a_ok).
  - rewrite chunked_DecryptStream_sealed; [|exact Hn|].
    + rewrite concat_chunks by (unfold Chunked.chunkSize; lia). reflexivity.
    + apply chunks_aligned. unfold Chunked.chunkSize; lia.
Qed.

(** X7. Every chunk of the chunked stream is sealed for itself under the one
    nonce, and nothing binds a chunk to its place: with two whole chunks
    exchanged the stream is decrypted without error to the plaintext with
    the two chunks exchanged, a stream cut after a whole chunk to the
    plaintext cut there, and the bare header to the empty plaintext. *)
Theorem chunked_stream_unordered (nonce A B R : list byte) :
  len nonce = NonceSize a ->
  len A = Chunked.chunkSize -> len B = Chunked.chunkSize ->
  exists tail calls,
    Chunked.EncryptStream c (BytesReader nonce) (BytesReader (A ++ B ++ R))
        (BufferSink [])
      = Ret (None, BytesReader [],
             BufferSink (nonce ++ Seal a nonce A ++ Seal a nonce B ++ tail), calls) /\
    (exists calls',
        Chunked.DecryptStream c
            (BytesReader (nonce ++ Seal a nonce B ++ Seal a nonce A ++ tail))
            (BufferSink [])
          = Ret (None, BytesReader [], BufferSink (B ++ A ++ R), calls')) /\
    (exists calls',
        Chunked.DecryptStream c (BytesReader (nonce ++ Seal a nonce A)) (BufferSink [])
          = Ret (None, BytesReader [], BufferSink A, calls')) /\
    Chunked.DecryptStream c (BytesReader nonce) (BufferSink [])
      = Ret (None, BytesReader [], BufferSink [], []).
Proof.
  intros Hn HA HB.
  set (L := Z.to_nat Chunked.chunkSize).
  assert (HL : (0 < L)%nat) by (subst L; unfold Chunked.chunkSize; lia).
  assert (HlA : length A = L) by (subst L; unfold len in HA; lia).
  assert (HlB : length B = L) by (subst L; unfold len in HB; lia).
  assert (HneA : A <> []) by (intros ->; simpl in HlA; lia).
  assert (HneB : B <> []) by (intros ->; simpl in HlB; lia).
  assert (Hcs : chunks L (A ++ B ++ R) = A :: B :: chunks L R).
  { rewrite chunks_step; [|exact HL|].
    2:{ intros E. apply app_eq_nil in E. tauto. }
    rewrite firstn_app, skipn_app.
    replace (L - length A)%nat with 0%nat by lia.
    rewrite firstn_O, app_nil_r.
    rewrite firstn_all2 with (l := A) by lia.
    rewrite skipn_all2 with (l := A) by lia.
    cbn [skipn app].
    rewrite chunks_step; [|exact HL|].
    2:{ intros E. apply app_eq_nil in E. tauto. }
    rewrite firstn_app, skipn_app.
    replace (L - length B)%nat with 0%nat by lia.
    rewrite firstn_O, app_nil_r.
    rewrite firstn_all2 with (l := B) by lia.
    rewrite skipn_all2 with (l := B) by lia.
    cbn [skipn app].
    reflexivity. }
  pose proof (chunks_aligned L R HL) as HalR.
  exists (concat (map (Seal a nonce) (chunks L R))). eexists.
  split; [|split; [|split]].
  - rewrite (chunked_EncryptStream_bytes a c c_gcm a_ok nonce _ Hn).
    fold L. rewrite Hcs. cbn [map concat]. reflexivity.
  - eexists.
    pose proof (chunked_DecryptStream_sealed nonce (B :: A :: chunks L R) Hn) as H.
    cbn [map concat] in H. rewrite H.
    + rewrite (concat_chunks L R HL). reflexivity.
    + fold L. cbn [aligned]. split; [exact HlB|].
      destruct (chunks L R); [lia | split; [exact HlA | exact HalR]].
  - eexists.
    pose proof (chunked_DecryptStream_sealed nonce [A] Hn) as H.
    cbn [map concat] in H. rewrite !app_nil_r in H. rewrite H; [reflexivity|].
    fold L. cbn [aligned]. lia.
  - pose proof (chunked_DecryptStream_sealed nonce [] Hn I) as H.
    cbn [map concat] in H. rewrite app_nil_r in H. exact H.
Qed.

End ChunkedFacts.

Lemma chunked_round_trip_witness :
  gcm toyEngine = Some toyAEAD /\ len nonce12 = NonceSize toyAEAD /\
  exists ct calls calls',
    Chunked.EncryptStream toyEngine (BytesReader nonce12) (BytesReader hello_walrus)
        (BufferSink [])
      = Ret (None, BytesReader [], BufferSink ct, calls) /\
    Chunked.DecryptStream toyEngine (BytesReader ct) (BufferSink [])
      = Ret (None, BytesReader [], BufferSink hello_walrus, calls').
Proof.
  split; [reflexivity|]. split; [reflexivity|].
  exact (chunked_round_trip toyAEAD toyEngine eq_refl toyAEAD_ok nonce12
           hello_walrus eq_refl).
Defined.

Lemma chunked_stream_unordered_witness :
  gcm toyEngine = Some toyAEAD /\ len nonce12 = NonceSize toyAEAD /\
  len chunkA = Chunked.chunkSize /\ len chunkB = Chunked.chunkSize /\
  exists tail calls,
    Chunked.EncryptStream toyEngine (BytesReader nonce12)
        (BytesReader (chunkA ++ chunkB ++ hello_walrus)) (BufferSink [])
      = Ret (None, BytesReader [],
             BufferSink (nonce12 ++ Seal toyAEAD nonce12 chunkA
                           ++ Seal toyAEAD nonce12 chunkB ++ tail), calls) /\
    (exists calls',
        Chunked.DecryptStream toyEngine
            (BytesReader (nonce12 ++ Seal toyAEAD nonce12 chunkB
                            ++ Seal toyAEAD nonce12 chunkA ++ tail))
            (BufferSink [])
          = Ret (None, BytesReader [],
                 BufferSink (chunkB ++ chunkA ++ hello_walrus), calls')) /\
    (exists calls',
        Chunked.DecryptStream toyEngine
            (BytesReader (nonce12 ++ Seal toyAEAD nonce12 chunkA)) (BufferSink [])
          = Ret (None, BytesReader [], BufferSink chunkA, calls')) /\
    Chunked.DecryptStream toyEngine (BytesReader nonce12) (BufferSink [])
      = Ret (None, BytesReader [], BufferSink [], []).
Proof.
  assert (HA : len chunkA = Chunked.chunkSize) by (vm_compute; reflexivity).
  assert (HB : len chunkB = Chunked.chunkSize) by (vm_compute; reflexivity).
  split; [reflexivity|]. split; [reflexivity|]. split; [exact HA|].
  split; [exact HB|].
  exact (chunked_stream_unordered toyAEAD toyEngine eq_refl toyAEAD_ok nonce12
           chunkA chunkB hello_walrus eq_refl HA HB).
Defined.

(** X8. [getSliceSize] answers with a positive number of whole blocks. Beyond
    one block it leaves at least a block of the buffer unread, so that the
    reader holds the last block back until the source is exhausted; for a
    buffer of whole blocks and room for two blocks of data it takes the
    whole buffer only when that is the last block. A zero block size makes
    it panic. *)
Theorem getSliceSize_whole_blocks (blockSize bufSize dataSize : Z) :
  0 <= bufSize -> 0 <= dataSize ->
  (0 < blockSize ->
   exists size,
     getSliceSize blockSize bufSize dataSize = Ret size /\
     0 < size /\ size mod blockSize = 0 /\
     (size = blockSize \/
      (size + blockSize <= bufSize /\ size + blockSize <= dataSize)) /\
     (blockSize <= dataSize -> size <= dataSize) /\
     (bufSize mod blockSize = 0 -> blockSize <= bufSize ->
      2 * blockSize <= dataSize ->
      size <= bufSize /\ (size = bufSize <-> bufSize = blockSize))) /\
  getSliceSize 0 bufSize dataSize = Panic "runtime error: integer divide by zero".
Proof.
  intros Hb Hd. split; [|reflexivity].
  intros Hbs. unfold getSliceSize, go_rem.
  replace (blockSize =? 0) with false by (symmetry; apply Z.eqb_neq; lia).
  cbn [bind].
  set (m := if bufSize >? dataSize then dataSize else bufSize).
  assert (Hm : m = Z.min bufSize dataSize).
  { subst m. destruct (bufSize >? dataSize) eqn:E.
    - apply Z.gtb_lt in E. lia.
    - rewrite Z.gtb_ltb in E. apply Z.ltb_ge in E. lia. }
  assert (Hm0 : 0 <= m) by lia.
  rewrite Z.rem_mod_nonneg by lia.
  pose proof (Z.mod_pos_bound m blockSize Hbs) as Hr.
  pose proof (Z.div_mod m blockSize ltac:(lia)) as Hdm.
  assert (Hq : 0 <= m / blockSize) by (apply Z.div_pos; lia).
  set (q := m / blockSize) in *. set (r := m mod blockSize) in *.
  assert (Hs0 : m - r - blockSize = blockSize * (q - 1)) by lia.
  eexists. split; [reflexivity|].
  destruct (m - r - blockSize <=? 0) eqn:E.
  - apply Z.leb_le in E. split; [lia|]. split; [apply Z.mod_same; lia|].
    split; [left; reflexivity|]. split; [lia|].
    intros Hbm Hge H2. split; [lia|]. split; [lia|]. intros ->. reflexivity.
  - apply Z.leb_gt in E. split; [lia|]. split.
    { rewrite Hs0, Z.mul_comm. apply Z.mod_mul. lia. }
    split; [right; lia|]. split; [lia|].
    intros Hbm Hge H2. split; [lia|]. split; [lia|]. intros ->. lia.
Qed.

Lemma getSliceSize_whole_blocks_witness :
  0 <= 48 /\ 0 <= 32768 /\ 0 < 16 /\
  exists size,
    getSliceSize 16 48 32768 = Ret size /\
    0 < size /\ size mod 16 = 0 /\
    (size = 16 \/ (size + 16 <= 48 /\ size + 16 <= 32768)) /\
    (16 <= 32768 -> size <= 32768) /\
    (48 mod 16 = 0 -> 16 <= 48 -> 2 * 16 <= 32768 ->
     size <= 48 /\ (size = 48 <-> 48 = 16)).
Proof.
  assert (H1 : 0 <= 48) by lia. assert (H2 : 0 <= 32768) by lia.
  assert (H3 : 0 < 16) by lia.
  split; [exact H1|]. split; [exact H2|]. split; [exact H3|].
  exact (proj1 (getSliceSize_whole_blocks 16 48 32768 H1 H2) H3).
Defined.

(** [io.ReadFull] and [io.ReadAll] on a reader that fails. *)
Lemma io_ReadFull_failing (e : error) (buf : list byte) :
  buf <> [] ->
  io_ReadFull (FailingReader e) buf = Ret (FailingReader e, buf, 0, Some e).
Proof.
  intros Hb. unfold io_ReadFull. cbn [readFull_loop].
  assert (Hl : 0 < len buf).
  { destruct buf; [contradiction | unfold len; cbn [length]; lia]. }
  replace (0 <? len buf) with true by (symmetry; apply Z.ltb_lt; lia).
  rewrite slice_to_ok, slice_from_ok by lia.
  cbn [bind Z.to_nat firstn skipn src_Read app].
  unfold readFull_error.
  replace (len buf <=? 0 + 0) with false by (symmetry; apply Z.leb_gt; lia).
  reflexivity.
Qed.

Lemma io_ReadAll_failing (e : error) :
  e <> EOF ->
  io_ReadAll (FailingReader e) = Ret (FailingReader e, [], Some e).
Proof.
  intros He. unfold io_ReadAll. cbn [unread length readAll_loop src_Read].
  rewrite slice_to_ok by (unfold len; rewrite repeat_length; lia).
  cbn [bind Z.to_nat firstn app]. destruct e; try reflexivity. contradiction.
Qed.

Section SingleShotFacts.

Variable a : AEAD.
Variable c : gcmContentCipher.
Hypothesis c_gcm : gcm c = Some a.
Hypothesis a_ok : AEAD_ok a.

(** X9. The single-shot [EncryptStream] reads its source to the end, whatever
    the sizes of the reads, and writes the nonce drawn from the entropy
    source followed by the whole plaintext sealed as one message: the
    ciphertext is longer than the plaintext by the nonce and the tag. *)
Theorem gcm_EncryptStream_layout (entropy src : Source) (w : list byte) :
  delivering entropy -> NonceSize a <= len (unread entropy) -> delivering src ->
  exists nonce body,
    gcmContentCipher_EncryptStream c entropy src (BufferSink w)
      = Ret (None, with_unread src [], BufferSink (w ++ nonce ++ body)) /\
    nonce = firstn (Z.to_nat (NonceSize a)) (unread entropy) /\
    body = Seal a nonce (unread src) /\
    len (nonce ++ body) = NonceSize a + len (unread src) + Overhead a.
Proof.
  intros He Hn Hs. eexists _, _. split; [|split; [reflexivity|split; [reflexivity|]]].
  - rewrite (gcm_EncryptStream_spec a c c_gcm (NonceSize_nonneg a a_ok))
      by assumption.
    now rewrite <- app_assoc.
  - rewrite len_app, (Seal_length a a_ok). unfold len in *.
    rewrite length_firstn. pose proof (NonceSize_nonneg a a_ok). lia.
Qed.

(** X10. The single-shot [DecryptStream] writes plaintext only after the whole
    stream has been authenticated: whatever the stream, it either reports
    an error and leaves the writer as it was, or writes exactly the
    plaintext that the AEAD opened from the bytes after the nonce. *)
Theorem gcm_DecryptStream_all_or_nothing (src : Source) (w : list byte) :
  delivering src ->
  (exists e,
      gcmContentCipher_DecryptStream c src (BufferSink w)
        = Ret (Some e, with_unread src [], BufferSink w)) \/
  (exists nonce ciphertext plaintext,
      unread src = nonce ++ ciphertext /\ len nonce = NonceSize a /\
      Open a nonce ciphertext = Some plaintext /\
      gcmContentCipher_DecryptStream c src (BufferSink w)
        = Ret (None, with_unread src [], BufferSink (w ++ plaintext))).
Proof.
  intros Hd. pose proof (NonceSize_nonneg a a_ok) as Hn0.
  destruct (Z.lt_ge_cases (len (unread src)) (NonceSize a)) as [Hlt|Hge].
  - left. eexists. now apply (gcm_DecryptStream_short c a).
  - pose proof (gcm_DecryptStream_spec a c c_gcm Hn0 src w Hd Hge) as H.
    cbv zeta in H.
    destruct (Open a (firstn (Z.to_nat (NonceSize a)) (unread src))
                (skipn (Z.to_nat (NonceSize a)) (unread src))) as [p|] eqn:Eo.
    + right. eexists _, _, p. split; [symmetry; apply firstn_skipn|].
      split; [|split; [exact Eo | exact H]].
      unfold len in *. rewrite length_firstn. lia.
    + left. eexists. exact H.
Qed.

(** X11. What the single-shot [EncryptStream] does when a step fails: without
    enough entropy for the nonce it reads and writes nothing; on a writer
    that fails it does not read the source; on a source that fails nothing
    of the plaintext read so far is sealed, the nonce alone has been
    written. [DecryptStream] on a writer that fails returns its error. *)
Theorem gcm_stream_failures (entropy src : Source) (dst : Sink) (e : error) :
  delivering entropy ->
  (len (unread entropy) < NonceSize a ->
     gcmContentCipher_EncryptStream c entropy src dst
       = Ret (Some (match unread entropy with [] => EOF | _ => ErrUnexpectedEOF end),
              src, dst)) /\
  (NonceSize a <= len (unread entropy) ->
     gcmContentCipher_EncryptStream c entropy src (FailingWriter e)
       = Ret (Some e, src, FailingWriter e)) /\
  (NonceSize a <= len (unread entropy) -> e <> EOF ->
     forall w,
       gcmContentCipher_EncryptStream c entropy (FailingReader e) (BufferSink w)
         = Ret (Some e, FailingReader e,
                BufferSink (w ++ firstn (Z.to_nat (NonceSize a)) (unread entropy)))) /\
  (forall nonce ciphertext plaintext,
     delivering src -> unread src = nonce ++ ciphertext ->
     len nonce = NonceSize a -> Open a nonce ciphertext = Some plaintext ->
     gcmContentCipher_DecryptStream c src (FailingWriter e)
       = Ret (Some e, with_unread src [], FailingWriter e)).
Proof.
  intros He. pose proof (NonceSize_nonneg a a_ok) as Hn0.
  assert (Hfull : NonceSize a <= len (unread entropy) ->
            rand_Read entropy (repeat x00 (Z.to_nat (NonceSize a)))
              = Ret (with_unread entropy
                       (skipn (Z.to_nat (NonceSize a)) (unread entropy)),
                     firstn (Z.to_nat (NonceSize a)) (unread entropy),
                     NonceSize a, None)).
  { intros Hn. unfold rand_Read. rewrite io_ReadFull_spec;
      [|exact He | rewrite repeat_length; unfold len in Hn; lia].
    rewrite repeat_length. unfold len. rewrite repeat_length.
    now rewrite Z2Nat.id by lia. }
  split; [|split; [|split]].
  - intros Hlt. unfold gcmContentCipher_EncryptStream. rewrite c_gcm.
    rewrite make_ok by lia. cbn [bind]. unfold rand_Read.
    destruct (io_ReadFull_short entropy (repeat x00 (Z.to_nat (NonceSize a))) He)
      as (buf' & Hr).
    { rewrite repeat_length. unfold len in Hlt. lia. }
    rewrite Hr. reflexivity.
  - intros Hn. unfold gcmContentCipher_EncryptStream. rewrite c_gcm.
    rewrite make_ok by lia. cbn [bind]. rewrite Hfull by exact Hn. reflexivity.
  - intros Hn Hne w. unfold gcmContentCipher_EncryptStream. rewrite c_gcm.
    rewrite make_ok by lia. cbn [bind]. rewrite Hfull by exact Hn.
    cbn [bind dst_Write]. rewrite io_ReadAll_failing by exact Hne. reflexivity.
  - intros nonce ciphertext plaintext Hd Hu Hl Ho.
    unfold gcmContentCipher_DecryptStream. rewrite c_gcm.
    rewrite make_ok by lia. cbn [bind].
    assert (Hz : Z.to_nat (NonceSize a) = length nonce) by (unfold len in Hl; lia).
    rewrite io_ReadFull_spec;
      [|exact Hd | rewrite repeat_length, Hu, length_app; lia].
    cbn [bind]. rewrite repeat_length, Hz, Hu.
    rewrite firstn_app, firstn_all, Nat.sub_diag, firstn_O, app_nil_r.
    rewrite skipn_app, skipn_all, Nat.sub_diag. cbn [skipn app].
    rewrite io_ReadAll_spec by now apply delivering_with_unread.
    cbn [bind]. rewrite unread_with_unread by exact Hd. rewrite Ho.
    cbn [dst_Write]. now rewrite with_unread_twice.
Qed.

End SingleShotFacts.

Lemma gcm_EncryptStream_layout_witness :
  gcm toyEngine = Some toyAEAD /\ delivering (BytesReader nonce12) /\
  NonceSize toyAEAD <= len (unread (BytesReader nonce12)) /\
  delivering short_hello /\
  exists nonce body,
    gcmContentCipher_EncryptStream toyEngine (BytesReader nonce12) short_hello
        (BufferSink [])
      = Ret (None, with_unread short_hello [], BufferSink ([] ++ nonce ++ body)) /\
    nonce = firstn (Z.to_nat (NonceSize toyAEAD)) (unread (BytesReader nonce12)) /\
    body = Seal toyAEAD nonce (unread short_hello) /\
    len (nonce ++ body)
      = NonceSize toyAEAD + len (unread short_hello) + Overhead toyAEAD.
Proof.
  split; [reflexivity|]. split; [exact I|]. split; [exact nonce12_enough|].
  split; [exact short_hello_delivering|].
  exact (gcm_EncryptStream_layout toyAEAD toyEngine eq_refl toyAEAD_ok
           (BytesReader nonce12) short_hello [] I nonce12_enough
           short_hello_delivering).
Defined.

Lemma gcm_DecryptStream_all_or_nothing_witness :
  gcm toyEngine = Some toyAEAD /\ delivering short_hello /\
  ((exists e,
       gcmContentCipher_DecryptStream toyEngine short_hello (BufferSink [])
         = Ret (Some e, with_unread short_hello [], BufferSink [])) \/
   (exists nonce ciphertext plaintext,
       unread short_hello = nonce ++ ciphertext /\ len nonce = NonceSize toyAEAD /\
       Open toyAEAD nonce ciphertext = Some plaintext /\
       gcmContentCipher_DecryptStream toyEngine short_hello (BufferSink [])
         = Ret (None, with_unread short_hello [], BufferSink ([] ++ plaintext)))).
Proof.
  split; [reflexivity|]. split; [exact short_hello_delivering|].
  exact (gcm_DecryptStream_all_or_nothing toyAEAD toyEngine eq_refl toyAEAD_ok
           short_hello [] short_hello_delivering).
Defined.

Lemma gcm_stream_failures_witness :
  gcm toyEngine = Some toyAEAD /\ delivering (BytesReader nonce12) /\
  (NonceSize toyAEAD <= len (unread (BytesReader nonce12)) ->
   gcmContentCipher_EncryptStream toyEngine (BytesReader nonce12)
       (BytesReader hello_walrus) (FailingWriter ErrShortWrite)
     = Ret (Some ErrShortWrite, BytesReader hello_walrus,
            FailingWriter ErrShortWrite)).
Proof.
  split; [reflexivity|]. split; [exact I|].
  exact (proj1 (proj2 (gcm_stream_failures toyAEAD toyEngine eq_refl toyAEAD_ok
                         (BytesReader nonce12) (BytesReader hello_walrus)
                         (BufferSink []) ErrShortWrite I))).
Defined.

(** [io.Copy] when a reader reports more bytes than the buffer holds. *)
Lemma copy_loop_overrun (R : Type)
    (Read : R -> list byte -> outcome (R * list byte * Z * option error))
    (fuel : nat) (src src1 : R) (dst : Sink) (buf buf1 : list byte)
    (nr : Z) (er : option error) (written : Z) :
  Read src buf = Ret (src1, buf1, nr, er) -> len buf1 < nr ->
  copy_loop Read (S fuel) src dst buf written
    = Panic "runtime error: slice bounds out of range".
Proof.
  intros Hr Hlt. cbn [copy_loop]. rewrite Hr. cbn [bind].
  pose proof (len_nonneg buf1).
  replace (0 <? nr) with true by (symmetry; apply Z.ltb_lt; lia).
  unfold slice_to.
  replace (nr <? 0) with false by (symmetry; apply Z.ltb_ge; lia).
  replace (len buf1 <? nr) with true by (symmetry; apply Z.ltb_lt; lia).
  reflexivity.
Qed.

Section BufferedStream.

Variable a : AEAD.
Variable nonce : list byte.
Hypothesis a_ok : AEAD_ok a.

(** A first [Read] that takes in a plaintext shorter than the buffer. *)
Lemma Buffered_Read_short (P data : list byte) :
  P <> [] -> length data = bufferedChunk -> (length P < bufferedChunk)%nat ->
  gcmEncryptReader_Read
    {| Buffered.src := BytesReader P; Buffered.gcm := a;
       Buffered.nonce := nonce; Buffered.buf := [] |} data
  = Ret ({| Buffered.src := BytesReader []; Buffered.gcm := a;
            Buffered.nonce := nonce; Buffered.buf := P |},
         P ++ skipn (length P) data, 0, None).
Proof.
  intros HP Hd Hl. unfold gcmEncryptReader_Read, Buffered.Read.
  cbn [Buffered.src Buffered.buf Buffered.gcm Buffered.nonce].
  rewrite (src_Read_delivers (BytesReader P) data I HP). cbv zeta.
  cbn [quota unread with_unread].
  rewrite firstn_all2 with (l := P) by lia.
  rewrite skipn_all2 with (l := P) by lia.
  assert (Hn : 0 < len P) by (pose proof (length_nonempty _ HP); unfold len; lia).
  apply Z.ltb_lt in Hn. rewrite Hn. rewrite slice_to_app.
  cbn [bind is_EOF Buffer_Write app].
  unfold Buffer_Len.
  replace (Buffered.defaultBufferSize <=? len P) with false.
  2:{ symmetry. apply Z.leb_gt. unfold bufferedChunk in *. unfold len. lia. }
  reflexivity.
Qed.

(** A first [Read] that fills the buffer: one chunk is sealed and reported
    with its tag, sixteen bytes more than the buffer holds. *)
Lemma Buffered_Read_full (P data : list byte) :
  length data = bufferedChunk -> (bufferedChunk <= length P)%nat ->
  exists r1 data1,
    gcmEncryptReader_Read
      {| Buffered.src := BytesReader P; Buffered.gcm := a;
         Buffered.nonce := nonce; Buffered.buf := [] |} data
    = Ret (r1, data1, Z.of_nat bufferedChunk + Overhead a, None) /\
    length data1 = bufferedChunk.
Proof.
  intros Hd Hl. unfold gcmEncryptReader_Read, Buffered.Read.
  cbn [Buffered.src Buffered.buf Buffered.gcm Buffered.nonce].
  assert (HL : (0 < bufferedChunk)%nat)
    by (unfold bufferedChunk in *; unfold Buffered.defaultBufferSize; lia).
  assert (HP : P <> []) by (intros ->; simpl in Hl; lia).
  rewrite (src_Read_delivers (BytesReader P) data I HP). cbv zeta.
  cbn [quota unread with_unread]. rewrite Hd.
  set (chunk := firstn bufferedChunk P).
  assert (Hc : length chunk = bufferedChunk) by (subst chunk; rewrite length_firstn; lia).
  assert (Hn : 0 < len chunk) by (unfold len; lia).
  apply Z.ltb_lt in Hn. rewrite Hn. rewrite slice_to_app.
  cbn [bind is_EOF Buffer_Write app].
  unfold Buffer_Len.
  replace (Buffered.defaultBufferSize <=? len chunk) with true.
  2:{ symmetry. apply Z.leb_le. unfold len. rewrite Hc. unfold bufferedChunk in *. lia. }
  unfold Buffer_Next. fold bufferedChunk. rewrite Hc, Nat.min_id.
  rewrite firstn_all2 with (l := chunk) by lia.
  rewrite skipn_all2 with (l := chunk) by lia.
  unfold copy. cbn [bind].
  eexists _, _. split.
  - rewrite (Seal_length a a_ok). unfold len. rewrite Hc. reflexivity.
  - rewrite length_app, length_firstn, length_skipn, length_app, length_skipn, Hc.
    lia.
Qed.

(** The [Read] at the end of the source: what is buffered is sealed. *)
Lemma Buffered_Read_end (B data : list byte) :
  B <> [] ->
  exists data1,
    gcmEncryptReader_Read
      {| Buffered.src := BytesReader []; Buffered.gcm := a;
         Buffered.nonce := nonce; Buffered.buf := B |} data
    = Ret ({| Buffered.src := BytesReader []; Buffered.gcm := a;
              Buffered.nonce := nonce; Buffered.buf := [] |},
           data1, len B + Overhead a, Some EOF) /\
    length data1 = length data /\
    (len B + Overhead a <= len data ->
     firstn (Z.to_nat (len B + Overhead a)) data1 = Seal a nonce B).
Proof.
  intros HB. unfold gcmEncryptReader_Read, Buffered.Read.
  cbn [Buffered.src Buffered.buf Buffered.gcm Buffered.nonce src_Read read_upto].
  cbn [Z.ltb Z.compare bind is_EOF]. unfold Buffer_Len.
  assert (Hn : 0 < len B) by (pose proof (length_nonempty _ HB); unfold len; lia).
  apply Z.ltb_lt in Hn. rewrite Hn. unfold copy. cbn [bind].
  eexists. split; [rewrite (Seal_length a a_ok); reflexivity|].
  pose proof (Seal_length a a_ok nonce B) as HS. unfold len in HS.
  split.
  - rewrite length_app, length_firstn, length_skipn. lia.
  - intros Hfit. unfold len in Hfit.
    replace (Nat.min (length data) (length (Seal a nonce B)))
      with (length (Seal a nonce B)) by lia.
    rewrite firstn_all.
    replace (Z.to_nat (len B + Overhead a)) with (length (Seal a nonce B))
      by (unfold len; lia).
    rewrite firstn_app, Nat.sub_diag, firstn_O, app_nil_r. apply firstn_all.
Qed.

Lemma Buffered_Read_nothing (data : list byte) :
  gcmEncryptReader_Read
    {| Buffered.src := BytesReader []; Buffered.gcm := a;
       Buffered.nonce := nonce; Buffered.buf := [] |} data
  = Ret ({| Buffered.src := BytesReader []; Buffered.gcm := a;
            Buffered.nonce := nonce; Buffered.buf := [] |}, data, 0, Some EOF).
Proof. reflexivity. Qed.

End BufferedStream.

(** [EncryptStream] of the buffered-reader form, down to the loop of
    [io.Copy]. *)
Lemma Buffered_EncryptStream_loop (a : AEAD) (c : gcmContentCipher)
    (nonce : list byte) (src : Source) (w : list byte) (fuel : nat) :
  gcm c = Some a -> 0 <= NonceSize a -> len nonce = NonceSize a ->
  Buffered_EncryptStream fuel c (BytesReader nonce) src (BufferSink w) =
    ' (reader1, dst2, _, err) <-
      copy_loop gcmEncryptReader_Read fuel
        {| Buffered.src := src; Buffered.gcm := a;
           Buffered.nonce := nonce; Buffered.buf := [] |}
        (BufferSink (w ++ nonce)) (repeat x00 (Z.to_nat copyBufSize)) 0 ;;
    Ret (err, Buffered.src reader1, dst2).
Proof.
  intros Hc Hn0 Hn. unfold Buffered_EncryptStream. rewrite Hc.
  assert (Hz : Z.to_nat (NonceSize a) = length nonce) by (unfold len in Hn; lia).
  rewrite make_ok by exact Hn0. cbn [bind]. unfold rand_Read.
  rewrite io_ReadFull_spec;
    [|exact I | rewrite repeat_length; cbn [unread]; lia].
  cbn [bind]. rewrite repeat_length, Hz. cbn [unread dst_Write].
  rewrite firstn_all. unfold io_Copy.
  rewrite make_ok by (unfold copyBufSize; lia). reflexivity.
Qed.

(** X12. The buffered-reader form seals what it has gathered and reports the
    length of the sealed chunk, tag included, as the count of one [Read]
    into the buffer of [io.Copy]. A plaintext that with its tag fits the
    32 KiB of that buffer is written as the nonce and one sealed message;
    a longer one makes [io.Copy] slice beyond its buffer, and
    [EncryptStream] panics; of the empty plaintext only the nonce is
    written, and no tag. *)
Theorem Buffered_EncryptStream_size_limit (a : AEAD) (c : gcmContentCipher)
    (nonce P : list byte) (fuel : nat) :
  gcm c = Some a -> AEAD_ok a -> 0 < Overhead a ->
  len nonce = NonceSize a -> (2 <= fuel)%nat ->
  (P = [] ->
   Buffered_EncryptStream fuel c (BytesReader nonce) (BytesReader P) (BufferSink [])
     = Ret (None, BytesReader [], BufferSink nonce)) /\
  (P <> [] -> len P + Overhead a <= Buffered.defaultBufferSize ->
   Buffered_EncryptStream fuel c (BytesReader nonce) (BytesReader P) (BufferSink [])
     = Ret (None, BytesReader [], BufferSink (nonce ++ Seal a nonce P))) /\
  (P <> [] -> Buffered.defaultBufferSize < len P + Overhead a ->
   Buffered_EncryptStream fuel c (BytesReader nonce) (BytesReader P) (BufferSink [])
     = Panic "runtime error: slice bounds out of range").
Proof.
  intros Hc Hok Hov Hn Hf.
  pose proof (NonceSize_nonneg a Hok) as Hn0.
  rewrite (Buffered_EncryptStream_loop a c nonce (BytesReader P) [] fuel Hc Hn0 Hn).
  cbn [app].
  set (buf := repeat x00 (Z.to_nat copyBufSize)).
  assert (Hbuf : length buf = Z.to_nat Buffered.defaultBufferSize)
    by (subst buf; rewrite repeat_length; reflexivity).
  assert (HL : Z.to_nat Buffered.defaultBufferSize = Z.to_nat (32 * 1024)) by reflexivity.
  destruct fuel as [|[|fuel]]; try lia.
  split; [|split].
  - intros ->.
    erewrite copy_loop_step with (T := 0%nat);
      [|apply Buffered_Read_nothing | lia].
    cbn [is_EOF bind firstn Buffered.src]. now rewrite app_nil_r.
  - intros HP Hfit.
    assert (Hlt : (length P < Z.to_nat Buffered.defaultBufferSize)%nat)
      by (unfold len in Hfit; lia).
    erewrite copy_loop_step with (T := 0%nat);
      [|apply (Buffered_Read_short a nonce P buf HP Hbuf Hlt)
       |rewrite length_app, length_skipn; lia].
    cbn [firstn]. rewrite app_nil_r.
    destruct (Buffered_Read_end a nonce Hok P (P ++ skipn (length P) buf) HP)
      as (data1 & Hr & Hl1 & Hfirst).
    assert (Hld : length (P ++ skipn (length P) buf) = Z.to_nat (32 * 1024))
      by (rewrite length_app, length_skipn; lia).
    assert (HT : len P + Overhead a = Z.of_nat (Z.to_nat (len P + Overhead a)))
      by (unfold len; lia).
    rewrite HT in Hr.
    erewrite copy_loop_step; [|exact Hr|].
    2:{ rewrite Hl1, Hld. unfold len in *. lia. }
    cbn [is_EOF bind Buffered.src]. rewrite Hfirst; [reflexivity|].
    unfold len at 2. rewrite Hld. exact Hfit.
  - intros HP Hbig.
    destruct (Nat.lt_ge_cases (length P) (Z.to_nat Buffered.defaultBufferSize))
      as [Hlt|Hge].
    + erewrite copy_loop_step with (T := 0%nat);
        [|apply (Buffered_Read_short a nonce P buf HP Hbuf Hlt)
         |rewrite length_app, length_skipn; lia].
      cbn [firstn]. rewrite app_nil_r.
      destruct (Buffered_Read_end a nonce Hok P (P ++ skipn (length P) buf) HP)
        as (data1 & Hr & Hl1 & _).
      erewrite copy_loop_overrun; [reflexivity | exact Hr |].
      unfold len at 1. rewrite Hl1, length_app, length_skipn.
      unfold len in *. lia.
    + destruct (Buffered_Read_full a nonce Hok P buf Hbuf Hge)
        as (r1 & data1 & Hr & Hl1).
      erewrite copy_loop_overrun; [reflexivity | exact Hr |].
      unfold len. rewrite Hl1. lia.
Qed.

Lemma Buffered_EncryptStream_size_limit_witness :
  gcm toyEngine = Some toyAEAD /\ 0 < Overhead toyAEAD /\
  len nonce12 = NonceSize toyAEAD /\ (2 <= 2)%nat /\
  (two_chunks <> [] ->
   Buffered.defaultBufferSize < len two_chunks + Overhead toyAEAD ->
   Buffered_EncryptStream 2 toyEngine (BytesReader nonce12) (BytesReader two_chunks)
       (BufferSink [])
     = Panic "runtime error: slice bounds out of range").
Proof.
  assert (Ho : 0 < Overhead toyAEAD) by (simpl; lia).
  assert (Hf : (2 <= 2)%nat) by lia.
  split; [reflexivity|]. split; [exact Ho|]. split; [reflexivity|].
  split; [exact Hf|].
  exact (proj2 (proj2 (Buffered_EncryptStream_size_limit toyAEAD toyEngine nonce12
                         two_chunks 2%nat eq_refl toyAEAD_ok Ho eq_refl Hf))).
Defined.

Lemma key_size_test_valid (n : Z) :
  valid_key_size n -> (n =? 16) || (n =? 24) || (n =? 32) = true.
Proof. intros [ -> | [ -> | -> ] ]; reflexivity. Qed.

Lemma aes_NewCipher_invalid (aes : list byte -> Block) (key : list byte) :
  ~ valid_key_size (len key) ->
  aes_NewCipher aes key = Failure (KeySizeError (len key)).
Proof. intros H. unfold aes_NewCipher. now rewrite key_size_test. Qed.

Section KeyedGCMFacts.

Variable aes : list byte -> Block.
Variable NewGCM : Block -> AEAD.

Lemma gcmCipher_EncryptStream_eq (key : list byte) (entropy src : Source) (dst : Sink) :
  valid_key_size (len key) ->
  gcmCipher_EncryptStream aes NewGCM {| gc_key := key |} entropy src dst =
  gcmContentCipher_EncryptStream
    {| gcm_key := Some key; gcm := Some (NewGCM (aes key)) |} entropy src dst.
Proof.
  intros Hk. unfold gcmCipher_EncryptStream, gcmContentCipher_EncryptStream.
  cbn [gc_key gcm]. now rewrite aes_NewCipher_valid.
Qed.

Lemma gcmCipher_DecryptStream_eq (key : list byte) (src : Source) (dst : Sink) :
  valid_key_size (len key) ->
  gcmCipher_DecryptStream aes NewGCM {| gc_key := key |} src dst =
  gcmContentCipher_DecryptStream
    {| gcm_key := Some key; gcm := Some (NewGCM (aes key)) |} src dst.
Proof.
  intros Hk. unfold gcmCipher_DecryptStream, gcmContentCipher_DecryptStream.
  cbn [gc_key gcm]. now rewrite aes_NewCipher_valid.
Qed.

(** X13. The engine that holds a key alone and builds its AEAD at every call
    does, for a key of a valid size, exactly what the engine that
    [NewGCMContentCipher] builds for that key does, in both directions and
    on every source and writer. *)
Theorem gcmCipher_matches_constructed_engine (key : list byte) :
  valid_key_size (len key) ->
  exists g,
    NewGCMContentCipher aes NewGCM (Some key) = Value (GCMEngine g) /\
    (forall entropy src dst,
        gcmCipher_EncryptStream aes NewGCM {| gc_key := key |} entropy src dst
          = gcmContentCipher_EncryptStream g entropy src dst) /\
    (forall src dst,
        gcmCipher_DecryptStream aes NewGCM {| gc_key := key |} src dst
          = gcmContentCipher_DecryptStream g src dst).
Proof.
  intros Hk. eexists. split; [|split].
  - unfold NewGCMContentCipher. rewrite key_size_test_valid by exact Hk.
    rewrite aes_NewCipher_valid by exact Hk. reflexivity.
  - intros. now apply gcmCipher_EncryptStream_eq.
  - intros. now apply gcmCipher_DecryptStream_eq.
Qed.

(** X14. The engine that holds a key alone restores its plaintext: what its
    [EncryptStream] wrote for a plaintext held in memory, its
    [DecryptStream] under the same key turns back into that plaintext. *)
Theorem gcmCipher_round_trip (key nonce P : list byte) :
  valid_key_size (len key) -> AEAD_ok (NewGCM (aes key)) ->
  len nonce = NonceSize (NewGCM (aes key)) ->
  exists ct,
    gcmCipher_EncryptStream aes NewGCM {| gc_key := key |}
        (BytesReader nonce) (BytesReader P) (BufferSink [])
      = Ret (None, BytesReader [], BufferSink ct) /\
    gcmCipher_DecryptStream aes NewGCM {| gc_key := key |}
        (BytesReader ct) (BufferSink [])
      = Ret (None, BytesReader [], BufferSink P).
Proof.
  intros Hk Hok Hn. eexists.
  rewrite gcmCipher_EncryptStream_eq by exact Hk.
  rewrite gcmCipher_DecryptStream_eq by exact Hk.
  apply (gcm_round_trip (NewGCM (aes key))
           {| gcm_key := Some key; gcm := Some (NewGCM (aes key)) |}
           eq_refl (NonceSize_nonneg _ Hok) nonce P Hn).
  apply (Open_Seal _ Hok).
Qed.

(** X15. [NewCipher] succeeds exactly for a suite that [IsValid] accepts, a key
    of 16, 24 or 32 bytes and, where the suite [RequiresIV], an IV of 16
    bytes; for a suite that does not require an IV the IV is ignored. *)
Theorem NewCipher_succeeds_iff (suite : CipherSuite) (key iv : option (list byte)) :
  ((exists engine, NewCipher aes NewGCM suite key iv = Value engine) <->
   IsValid suite = true /\ valid_key_size (slice_len key) /\
   (RequiresIV suite = true -> slice_len iv = aes_BlockSize)) /\
  (RequiresIV suite = false ->
   forall iv', NewCipher aes NewGCM suite key iv' = NewCipher aes NewGCM suite key iv).
Proof.
  unfold NewCipher, IsValid, RequiresIV.
  destruct (String.eqb suite AES256GCM) eqn:Eg.
  - apply String.eqb_eq in Eg. subst suite. cbn [orb].
    change (String.eqb AES256GCM AES256CBC) with false.
    split; [|reflexivity]. split.
    + intros [engine H]. split; [reflexivity|]. split; [|discriminate].
      unfold NewGCMContentCipher in H. destruct key as [k|]; [|discriminate H].
      cbn [slice_len]. apply key_size_test_true.
      destruct ((len k =? 16) || (len k =? 24) || (len k =? 32));
        [reflexivity | discriminate H].
    + intros (_ & Hk & _). destruct key as [k|].
      * cbn [slice_len] in Hk. unfold NewGCMContentCipher.
        rewrite key_size_test_valid, aes_NewCipher_valid by exact Hk. eauto.
      * cbn [slice_len] in Hk. destruct Hk as [H|[H|H]]; discriminate H.
  - cbn [orb]. destruct (String.eqb suite AES256CBC) eqn:Ec.
    + split; [|discriminate]. split.
      * intros [engine H].
        destruct (NewCBCCipher key iv) as [c|e] eqn:En; [|discriminate H].
        pose proof (NewCBCCipher_value key iv c En) as Hv.
        destruct Hv as (-> & -> & Hk & Hiv). cbn [slice_len].
        split; [reflexivity|]. split; [exact Hk | intros _; exact Hiv].
      * intros (_ & Hk & Hiv). specialize (Hiv eq_refl).
        unfold NewCBCCipher.
        destruct key as [k|]; cbn [slice_len] in Hk;
          [|destruct Hk as [H|[H|H]]; discriminate H].
        destruct iv as [v|]; cbn [slice_len] in Hiv; [|discriminate Hiv].
        rewrite key_size_test_valid by exact Hk. rewrite Hiv, Z.eqb_refl.
        cbn [negb]. eauto.
    + split; [|reflexivity]. split.
      * intros [engine H]. discriminate H.
      * intros (H & _). discriminate H.
Qed.

End KeyedGCMFacts.

Lemma gcmCipher_matches_constructed_engine_witness :
  valid_key_size (len key32) /\
  exists g,
    NewGCMContentCipher toyBlock toyGCM (Some key32) = Value (GCMEngine g) /\
    (forall entropy src dst,
        gcmCipher_EncryptStream toyBlock toyGCM {| gc_key := key32 |} entropy src dst
          = gcmContentCipher_EncryptStream g entropy src dst) /\
    (forall src dst,
        gcmCipher_DecryptStream toyBlock toyGCM {| gc_key := key32 |} src dst
          = gcmContentCipher_DecryptStream g src dst).
Proof.
  split; [exact key32_valid|].
  exact (gcmCipher_matches_constructed_engine toyBlock toyGCM key32 key32_valid).
Defined.

Lemma gcmCipher_round_trip_witness :
  valid_key_size (len key32) /\
  len nonce12 = NonceSize (toyGCM (toyBlock key32)) /\
  exists ct,
    gcmCipher_EncryptStream toyBlock toyGCM {| gc_key := key32 |}
        (BytesReader nonce12) (BytesReader hello_walrus) (BufferSink [])
      = Ret (None, BytesReader [], BufferSink ct) /\
    gcmCipher_DecryptStream toyBlock toyGCM {| gc_key := key32 |}
        (BytesReader ct) (BufferSink [])
      = Ret (None, BytesReader [], BufferSink hello_walrus).
Proof.
  split; [exact key32_valid|]. split; [reflexivity|].
  exact (gcmCipher_round_trip toyBlock toyGCM key32 nonce12 hello_walrus
           key32_valid toyAEAD_ok eq_refl).
Defined.

Lemma NewCipher_succeeds_iff_witness :
  (exists engine,
      NewCipher toyBlock toyGCM "AES256CBC" (Some key32) (Some iv16) = Value engine) /\
  NewCipher toyBlock toyGCM "AES256GCM" (Some key32) None
    = NewCipher toyBlock toyGCM "AES256GCM" (Some key32) (Some iv16).
Proof.
  split.
  - apply (proj2 (proj1 (NewCipher_succeeds_iff toyBlock toyGCM "AES256CBC"
                           (Some key32) (Some iv16)))).
    split; [reflexivity|]. split; [exact key32_valid|]. intros _. reflexivity.
  - exact (proj2 (NewCipher_succeeds_iff toyBlock toyGCM "AES256GCM"
                    (Some key32) (Some iv16)) eq_refl None).
Defined.

Lemma append_nil_r (s : string) : String.append s "" = s.
Proof. induction s as [|c s IH]; [reflexivity | cbn; now rewrite IH]. Qed.

(** What [getCipher] makes of the options it accepts. *)
Lemma getCipher_CBC (o : EncryptionOptions) :
  Key o <> [] -> Mode o = "CBC" -> IV o <> [] ->
  getCipher (Some o)
    = Done (StreamAPI.CBCStream {| cbc_key := Key o; cbc_iv := IV o |}).
Proof.
  intros Hk Hm Hiv. unfold getCipher.
  replace (len (Key o) =? 0) with false
    by (symmetry; apply Z.eqb_neq; rewrite len_nil_iff; exact Hk).
  rewrite Hm. cbn [String.eqb Ascii.eqb Bool.eqb andb].
  replace (len (IV o) =? 0) with false
    by (symmetry; apply Z.eqb_neq; rewrite len_nil_iff; exact Hiv).
  reflexivity.
Qed.

Lemma getCipher_GCM (o : EncryptionOptions) :
  Key o <> [] -> Mode o = "GCM" \/ Mode o = "" ->
  getCipher (Some o) = Done (StreamAPI.GCMStream {| gc_key := Key o |}).
Proof.
  intros Hk Hm. unfold getCipher.
  replace (len (Key o) =? 0) with false
    by (symmetry; apply Z.eqb_neq; rewrite len_nil_iff; exact Hk).
  destruct Hm as [-> | ->]; reflexivity.
Qed.

(** X16. [getCipher] asks for a non-empty key, for a mode among "CBC", "GCM" and
    the empty string, and for a non-empty IV in mode "CBC", and for nothing
    else; the error for another mode ends with the mode that was asked
    for, and a missing key is reported whatever the mode. *)
Theorem getCipher_accepts_iff (opts : option EncryptionOptions) :
  ((exists c, getCipher opts = Done c) <->
   exists o, opts = Some o /\ Key o <> [] /\
     ((Mode o = "CBC" /\ IV o <> []) \/ Mode o = "GCM" \/ Mode o = "")) /\
  (forall o, opts = Some o -> Key o <> [] ->
     Mode o <> "CBC" -> Mode o <> "GCM" -> Mode o <> "" ->
     exists e, getCipher opts = Failed e /\
       walrus_Error e = String.append "unsupported encryption mode: " (Mode o)) /\
  (opts = None \/ (exists o, opts = Some o /\ Key o = []) ->
     exists e, getCipher opts = Failed e /\
       walrus_Error e = "encryption key is required").
Proof.
  split; [|split].
  - split.
    + intros [c H]. destruct opts as [o|]; [|discriminate H].
      exists o. split; [reflexivity|]. unfold getCipher in H.
      destruct (len (Key o) =? 0) eqn:Ek; [discriminate H|].
      apply Z.eqb_neq in Ek. rewrite len_nil_iff in Ek. split; [exact Ek|].
      destruct (String.eqb (Mode o) "CBC") eqn:Ec.
      * apply String.eqb_eq in Ec. left. split; [exact Ec|].
        destruct (len (IV o) =? 0) eqn:Ei; [discriminate H|].
        apply Z.eqb_neq in Ei. now rewrite len_nil_iff in Ei.
      * right. destruct (String.eqb (Mode o) "GCM") eqn:Eg.
        { apply String.eqb_eq in Eg. now left. }
        destruct (String.eqb (Mode o) "") eqn:Ee; [|discriminate H].
        apply String.eqb_eq in Ee. now right.
    + intros (o & -> & Hk & [[Hm Hiv]|Hm]).
      * rewrite getCipher_CBC by assumption. eauto.
      * rewrite getCipher_GCM by assumption. eauto.
  - intros o -> Hk Hc Hg He. unfold getCipher.
    replace (len (Key o) =? 0) with false
      by (symmetry; apply Z.eqb_neq; rewrite len_nil_iff; exact Hk).
    apply String.eqb_neq in Hc, Hg, He. rewrite Hc, Hg, He. cbn [orb].
    eexists. split; [reflexivity|]. cbn. now rewrite append_nil_r.
  - intros [-> | (o & -> & Hk)].
    + eexists. split; reflexivity.
    + unfold getCipher. rewrite Hk. cbn. eexists. split; reflexivity.
Qed.

Lemma getCipher_accepts_iff_witness :
  (exists c, getCipher (Some optsDefault) = Done c) /\
  (exists e, getCipher (Some optsCTR) = Failed e /\
     walrus_Error e = "unsupported encryption mode: CTR") /\
  (exists e, getCipher None = Failed e /\
     walrus_Error e = "encryption key is required").
Proof.
  assert (Hk : Key optsCTR <> []) by discriminate.
  assert (H1 : Mode optsCTR <> "CBC") by discriminate.
  assert (H2 : Mode optsCTR <> "GCM") by discriminate.
  assert (H3 : Mode optsCTR <> "") by discriminate.
  split; [|split].
  - apply (proj2 (proj1 (getCipher_accepts_iff (Some optsDefault)))).
    exists optsDefault. split; [reflexivity|]. split; [discriminate|].
    right. right. reflexivity.
  - exact (proj1 (proj2 (getCipher_accepts_iff (Some optsCTR)))
             optsCTR eq_refl Hk H1 H2 H3).
  - exact (proj2 (proj2 (getCipher_accepts_iff None)) (or_introl eq_refl)).
Defined.

Section OptionsFacts.

Variable aes : list byte -> Block.
Variable NewGCM : Block -> AEAD.

(** X17. [getCipher] checks no length. With a key that is not of 16, 24 or 32
    bytes it hands out an engine all the same, whose [EncryptStream] and
    [DecryptStream] return [aes.KeySizeError] without reading or writing a
    byte; with mode "CBC", a good key and an IV that is not of 16 bytes,
    the engine's [EncryptStream] panics in [cipher.NewCBCEncrypter]. *)
Theorem getCipher_checks_no_length (o : EncryptionOptions) (fuel : nat)
    (entropy src : Source) (dst : Sink) :
  Key o <> [] ->
  (Mode o = "CBC" /\ IV o <> []) \/ Mode o = "GCM" \/ Mode o = "" ->
  exists c,
    getCipher (Some o) = Done c /\
    (~ valid_key_size (len (Key o)) ->
     StreamAPI.EncryptStream aes NewGCM fuel c entropy src dst
       = Ret (Some (KeySizeError (len (Key o))), src, dst) /\
     StreamAPI.DecryptStream aes NewGCM fuel c src dst
       = Ret (Some (KeySizeError (len (Key o))), src, dst)) /\
    (valid_key_size (len (Key o)) -> Mode o = "CBC" ->
     len (IV o) <> aes_BlockSize ->
     forall w,
       StreamAPI.EncryptStream aes NewGCM fuel c entropy src (BufferSink w)
         = Panic "cipher.NewCBCEncrypter: IV length must equal block size").
Proof.
  intros Hk [[Hm Hiv]|Hm].
  - eexists. split; [now apply getCipher_CBC|]. split.
    + intros Hbad.
      cbn [StreamAPI.EncryptStream StreamAPI.DecryptStream].
      unfold cbcCipher_EncryptStream, cbcCipher_DecryptStream. cbn [cbc_key].
      rewrite aes_NewCipher_invalid by exact Hbad. split; reflexivity.
    + intros Hgood _ Hlen w. cbn [StreamAPI.EncryptStream].
      unfold cbcCipher_EncryptStream. cbn [cbc_key cbc_iv].
      rewrite aes_NewCipher_valid by exact Hgood. cbn [dst_Write].
      unfold NewCBCEncrypter.
      apply Z.eqb_neq in Hlen. rewrite Hlen. reflexivity.
  - eexists. split; [now apply getCipher_GCM|]. split.
    + intros Hbad.
      cbn [StreamAPI.EncryptStream StreamAPI.DecryptStream].
      unfold gcmCipher_EncryptStream, gcmCipher_DecryptStream. cbn [gc_key].
      rewrite aes_NewCipher_invalid by exact Hbad. split; reflexivity.
    + intros _ Hc. exfalso. destruct Hm as [Hm|Hm]; rewrite Hm in Hc; discriminate Hc.
Qed.

Hypothesis aes_ok : forall key, Block_ok (aes key).
Hypothesis NewGCM_ok : forall blk, AEAD_ok (NewGCM blk).

(** X18. What the client encrypts under its options it decrypts under the same
    options: with a key of a valid size, and an IV of 16 bytes in mode
    "CBC", the engine of [getCipher] turns a plaintext held in memory into
    a ciphertext that the engine of [getCipher] turns back into the
    plaintext; in the GCM modes from any reader that delivers it. *)
Theorem getCipher_round_trip (o : EncryptionOptions) (P nonce : list byte)
    (fuel : nat) :
  valid_key_size (len (Key o)) ->
  (Mode o = "CBC" /\ len (IV o) = aes_BlockSize) \/ Mode o = "GCM" \/ Mode o = "" ->
  (forall blk, len nonce = NonceSize (NewGCM blk)) ->
  (2 * (length P + 16) < fuel)%nat ->
  exists c ct,
    getCipher (Some o) = Done c /\
    StreamAPI.EncryptStream aes NewGCM fuel c
        (BytesReader nonce) (BytesReader P) (BufferSink [])
      = Ret (None, BytesReader [], BufferSink ct) /\
    StreamAPI.DecryptStream aes NewGCM fuel c (BytesReader ct) (BufferSink [])
      = Ret (None, BytesReader [], BufferSink P) /\
    (Mode o <> "CBC" ->
     forall dsrc, delivering dsrc -> unread dsrc = ct ->
       StreamAPI.DecryptStream aes NewGCM fuel c dsrc (BufferSink [])
         = Ret (None, with_unread dsrc [], BufferSink P)).
Proof.
  intros Hk Hm Hn Hf.
  assert (Hkey : Key o <> []).
  { intros E. rewrite E in Hk. destruct Hk as [H|[H|H]]; discriminate H. }
  destruct Hm as [[Hm Hiv]|Hm].
  - assert (Hiv' : IV o <> []) by (intros E; rewrite E in Hiv; discriminate Hiv).
    destruct (cbc_round_trip aes aes_ok {| cbc_key := Key o; cbc_iv := IV o |}
                P fuel Hk Hiv Hf) as (ct & He & Hd).
    eexists _, ct. split; [now apply getCipher_CBC|].
    cbn [StreamAPI.EncryptStream StreamAPI.DecryptStream].
    split; [exact He|]. split; [exact Hd|]. intros Hc. contradiction.
  - set (a := NewGCM (aes (Key o))).
    set (g := {| gcm_key := Some (Key o); gcm := Some a |}).
    pose proof (NonceSize_nonneg a (NewGCM_ok _)) as Hn0.
    destruct (gcm_round_trip a g eq_refl Hn0 nonce P (Hn _)
                (Open_Seal a (NewGCM_ok _) nonce P)) as (He & Hd).
    eexists _, _. split; [now apply getCipher_GCM|].
    cbn [StreamAPI.EncryptStream StreamAPI.DecryptStream].
    rewrite gcmCipher_EncryptStream_eq by exact Hk.
    split; [exact He|].
    split; [rewrite gcmCipher_DecryptStream_eq by exact Hk; exact Hd|].
    intros _ dsrc Hdel Hu.
    rewrite gcmCipher_DecryptStream_eq by exact Hk.
    assert (Hz : Z.to_nat (NonceSize a) = length nonce)
      by (specialize (Hn (aes (Key o))); fold a in Hn; unfold len in Hn; lia).
    pose proof (gcm_DecryptStream_spec a g eq_refl Hn0 dsrc [] Hdel) as H.
    rewrite Hu in H. cbv zeta in H. rewrite Hz in H.
    rewrite firstn_app, firstn_all, Nat.sub_diag, firstn_O, app_nil_r in H.
    rewrite skipn_app, skipn_all, Nat.sub_diag in H. cbn [skipn app] in H.
    rewrite (Open_Seal a (NewGCM_ok _)) in H. apply H.
    rewrite len_app. specialize (Hn (aes (Key o))). fold a in Hn.
    pose proof (len_nonneg (Seal a nonce P)). lia.
Qed.

End OptionsFacts.

Lemma getCipher_checks_no_length_witness :
  Key optsShortKey <> [] /\
  (Mode optsShortKey = "CBC" /\ IV optsShortKey <> [] \/
   Mode optsShortKey = "GCM" \/ Mode optsShortKey = "") /\
  exists c,
    getCipher (Some optsShortKey) = Done c /\
    (~ valid_key_size (len (Key optsShortKey)) ->
     StreamAPI.EncryptStream toyBlock toyGCM 100 c (BytesReader nonce12)
         (BytesReader hello_walrus) (BufferSink [])
       = Ret (Some (KeySizeError (len (Key optsShortKey))),
              BytesReader hello_walrus, BufferSink []) /\
     StreamAPI.DecryptStream toyBlock toyGCM 100 c (BytesReader hello_walrus)
         (BufferSink [])
       = Ret (Some (KeySizeError (len (Key optsShortKey))),
              BytesReader hello_walrus, BufferSink [])) /\
    (valid_key_size (len (Key optsShortKey)) -> Mode optsShortKey = "CBC" ->
     len (IV optsShortKey) <> aes_BlockSize ->
     forall w,
       StreamAPI.EncryptStream toyBlock toyGCM 100 c (BytesReader nonce12)
           (BytesReader hello_walrus) (BufferSink w)
         = Panic "cipher.NewCBCEncrypter: IV length must equal block size").
Proof.
  assert (Hm : Mode optsShortKey = "CBC" /\ IV optsShortKey <> [] \/
               Mode optsShortKey = "GCM" \/ Mode optsShortKey = "")
    by (right; left; reflexivity).
  split; [exact optsShortKey_key|]. split; [exact Hm|].
  exact (getCipher_checks_no_length toyBlock toyGCM optsShortKey 100%nat
           (BytesReader nonce12) (BytesReader hello_walrus) (BufferSink [])
           optsShortKey_key Hm).
Defined.

Lemma getCipher_round_trip_witness :
  valid_key_size (len (Key optsDefault)) /\
  (forall blk, len nonce12 = NonceSize (toyGCM blk)) /\
  (2 * (length hello_walrus + 16) < 100)%nat /\
  exists c ct,
    getCipher (Some optsDefault) = Done c /\
    StreamAPI.EncryptStream toyBlock toyGCM 100 c
        (BytesReader nonce12) (BytesReader hello_walrus) (BufferSink [])
      = Ret (None, BytesReader [], BufferSink ct) /\
    StreamAPI.DecryptStream toyBlock toyGCM 100 c (BytesReader ct) (BufferSink [])
      = Ret (None, BytesReader [], BufferSink hello_walrus) /\
    (Mode optsDefault <> "CBC" ->
     forall dsrc, delivering dsrc -> unread dsrc = ct ->
       StreamAPI.DecryptStream toyBlock toyGCM 100 c dsrc (BufferSink [])
         = Ret (None, with_unread dsrc [], BufferSink hello_walrus)).
Proof.
  assert (Hn : forall blk, len nonce12 = NonceSize (toyGCM blk))
    by (intros; reflexivity).
  assert (Hf : (2 * (length hello_walrus + 16) < 100)%nat) by (simpl; lia).
  split; [exact key32_valid|]. split; [exact Hn|]. split; [exact Hf|].
  exact (getCipher_round_trip toyBlock toyGCM toyBlock_ok (fun _ => toyAEAD_ok)
           optsDefault hello_walrus nonce12 100%nat key32_valid
           (or_intror (or_intror eq_refl)) Hn Hf).
Defined.

(** ** The key stream *)

Lemma keyStream_xor_app (s t : list byte) :
  forall x,
    keyStream_xor x (s ++ t) =
      (fst (keyStream_xor (fst (keyStream_xor x s)) t),
       snd (keyStream_xor x s) ++ snd (keyStream_xor (fst (keyStream_xor x s)) t)).
Proof.
  induction s as [|b s IH]; intros x.
  - cbn [app keyStream_xor fst snd]. now destruct (keyStream_xor x t).
  - cbn [app keyStream_xor]. rewrite IH.
    destruct (keyStream_xor _ s) as [x2 out]. reflexivity.
Qed.

Lemma keyStream_xor_length (s : list byte) :
  forall x, length (snd (keyStream_xor x s)) = length s.
Proof.
  induction s as [|b s IH]; intros x; [reflexivity|].
  cbn [keyStream_xor]. specialize (IH (if (S (s_outUsed x) <? 16)%nat
      then {| s_block := s_block x; s_ctr := s_ctr x; s_outUsed := S (s_outUsed x) |}
      else {| s_block := s_block x; s_ctr := ctr_incr (s_ctr x); s_outUsed := 0 |})).
  destruct (keyStream_xor _ s) as [x2 out]. cbn [snd length] in *. now rewrite IH.
Qed.

(** The stream advances by the number of bytes, whatever the bytes. *)
Lemma keyStream_xor_state (s : list byte) :
  forall t x, length s = length t ->
    fst (keyStream_xor x s) = fst (keyStream_xor x t).
Proof.
  induction s as [|b s IH]; intros [|c t] x Hl; try discriminate Hl;
    [reflexivity|].
  cbn [keyStream_xor]. injection Hl as Hl.
  specialize (IH t (if (S (s_outUsed x) <? 16)%nat
      then {| s_block := s_block x; s_ctr := s_ctr x; s_outUsed := S (s_outUsed x) |}
      else {| s_block := s_block x; s_ctr := ctr_incr (s_ctr x); s_outUsed := 0 |}) Hl).
  destruct (keyStream_xor _ s) as [x2 out].
  destruct (keyStream_xor _ t) as [x3 out']. exact IH.
Qed.

(** Applying the key stream twice from the same state gives the bytes back. *)
Lemma keyStream_xor_involutive (s : list byte) :
  forall x, snd (keyStream_xor x (snd (keyStream_xor x s))) = s.
Proof.
  induction s as [|b s IH]; intros x; [reflexivity|].
  cbn [keyStream_xor].
  specialize (IH (if (S (s_outUsed x) <? 16)%nat
      then {| s_block := s_block x; s_ctr := s_ctr x; s_outUsed := S (s_outUsed x) |}
      else {| s_block := s_block x; s_ctr := ctr_incr (s_ctr x); s_outUsed := 0 |})).
  destruct (keyStream_xor _ s) as [x2 out] eqn:E1. cbn [snd] in *.
  cbn [keyStream_xor].
  destruct (keyStream_xor _ out) as [x3 out'] eqn:E2. cbn [snd] in *.
  now rewrite byte_xor_cancel_r, IH.
Qed.

Lemma flip_byte_xor (k : nat) (b key : byte) :
  (k < 8)%nat -> byte_xor (flip_byte k b) key = flip_byte k (byte_xor b key).
Proof.
  intros Hk. apply Z_of_byte_inj. unfold flip_byte.
  assert (Hr : 0 <= Z.shiftl 1 (Z.of_nat k) < 256).
  { rewrite Z.shiftl_1_l. split; [apply Z.pow_nonneg; lia|].
    change 256 with (2 ^ 8). apply Z.pow_lt_mono_r; lia. }
  rewrite Z_of_byte_xor, !Z_of_byte_of_Z, Z_of_byte_xor.
  rewrite !Z.mod_small
    by (apply lxor_byte_range;
        [first [apply Z_of_byte_range
               | apply lxor_byte_range; apply Z_of_byte_range]
        | exact Hr]).
  rewrite !Z.lxor_assoc. f_equal. apply Z.lxor_comm.
Qed.

(** A bit inverted in the input of the key stream is the same bit inverted
    in its output. *)
Lemma keyStream_xor_flip (s : list byte) :
  forall x i,
    snd (keyStream_xor x (flip_bit i s)) = flip_bit i (snd (keyStream_xor x s)).
Proof.
  induction s as [|b s IH]; intros x i; [reflexivity|].
  cbn [flip_bit]. destruct (i <? 8)%nat eqn:E.
  - apply Nat.ltb_lt in E. cbn [keyStream_xor].
    destruct (keyStream_xor _ s) as [x2 out]. cbn [snd flip_bit].
    apply Nat.ltb_lt in E. rewrite E. apply Nat.ltb_lt in E.
    now rewrite flip_byte_xor.
  - cbn [keyStream_xor].
    specialize (IH (if (S (s_outUsed x) <? 16)%nat
      then {| s_block := s_block x; s_ctr := s_ctr x; s_outUsed := S (s_outUsed x) |}
      else {| s_block := s_block x; s_ctr := ctr_incr (s_ctr x); s_outUsed := 0 |})
      (i - 8)%nat).
    destruct (keyStream_xor _ (flip_bit (i - 8) s)) as [x2 out].
    destruct (keyStream_xor _ s) as [x3 out']. cbn [snd flip_bit] in *.
    now rewrite E, IH.
Qed.

Lemma XORKeyStream_ok (x : Stream) (dst src : list byte) :
  (length src <= length dst)%nat ->
  XORKeyStream x dst src =
    Ret (fst (keyStream_xor x src),
         snd (keyStream_xor x src) ++ skipn (length src) dst).
Proof.
  intros H. unfold XORKeyStream.
  replace (len dst <? len src) with false
    by (symmetry; apply Z.ltb_ge; unfold len; lia).
  now destruct (keyStream_xor x src).
Qed.

(** ** The stream writer and the stream reader *)

Lemma StreamWriter_Write_buffer (x : Stream) (w src : list byte) :
  StreamWriter_Write {| sw_S := x; sw_W := BufferSink w |} src =
    Ret ({| sw_S := fst (keyStream_xor x src);
            sw_W := BufferSink (w ++ snd (keyStream_xor x src)) |},
         len src, None).
Proof.
  unfold StreamWriter_Write. rewrite make_ok by apply len_nonneg. cbn [bind sw_S sw_W].
  rewrite XORKeyStream_ok by (rewrite repeat_length; unfold len; lia).
  cbn [bind dst_Write]. rewrite skipn_all2 by (rewrite repeat_length; unfold len; lia).
  rewrite app_nil_r.
  assert (Hl : len (snd (keyStream_xor x src)) = len src)
    by (unfold len; now rewrite keyStream_xor_length).
  rewrite Hl, Z.eqb_refl. reflexivity.
Qed.

Lemma StreamReader_Read_data (x : Stream) (src : Source) (dst : list byte) :
  delivering src -> unread src <> [] ->
  let chunk := firstn (quota src (length dst)) (unread src) in
  StreamReader_Read {| sr_S := x; sr_R := src |} dst =
    Ret ({| sr_S := fst (keyStream_xor x chunk);
            sr_R := with_unread src (skipn (quota src (length dst)) (unread src)) |},
         snd (keyStream_xor x chunk) ++ skipn (length chunk) dst,
         len chunk, None).
Proof.
  intros Hd Hne chunk. unfold StreamReader_Read. cbn [sr_S sr_R].
  rewrite (src_Read_delivers src dst Hd Hne). cbv zeta. fold chunk.
  rewrite slice_to_app. cbn [bind].
  rewrite XORKeyStream_ok by lia. cbn [bind].
  rewrite skipn_all, app_nil_r.
  rewrite skipn_app, skipn_all, Nat.sub_diag. reflexivity.
Qed.

Lemma StreamReader_Read_EOF (x : Stream) (src : Source) (dst : list byte) :
  delivering src -> unread src = [] ->
  StreamReader_Read {| sr_S := x; sr_R := src |} dst =
    Ret ({| sr_S := x; sr_R := src |}, dst, 0, Some EOF).
Proof.
  intros Hd He. unfold StreamReader_Read. cbn [sr_S sr_R].
  rewrite src_Read_EOF by assumption.
  rewrite slice_to_ok by (pose proof (len_nonneg dst); lia).
  cbn [bind Z.to_nat firstn]. reflexivity.
Qed.

(** ** The two copies *)

Lemma copy_to_loop_stream (fuel : nat) :
  forall (x : Stream) (src : Source) (w buf : list byte) (written : Z),
    delivering src -> (length (unread src) < fuel)%nat -> (0 < length buf)%nat ->
    exists written',
      copy_to_loop StreamWriter_Write fuel src
          {| sw_S := x; sw_W := BufferSink w |} buf written
        = Ret (with_unread src [],
               {| sw_S := fst (keyStream_xor x (unread src));
                  sw_W := BufferSink (w ++ snd (keyStream_xor x (unread src))) |},
               written', None).
Proof.
  induction fuel as [|fuel IH]; intros x src w buf written Hd Hf Hb; [lia|].
  cbn [copy_to_loop].
  destruct (list_eq_dec Byte.byte_eq_dec (unread src) []) as [Hs|Hs].
  - rewrite src_Read_EOF by assumption. cbn [Z.ltb Z.compare bind is_EOF].
    rewrite Hs. cbn [keyStream_xor fst snd]. rewrite app_nil_r.
    rewrite <- Hs, with_unread_same. eauto.
  - rewrite (src_Read_delivers src buf Hd Hs). cbv zeta.
    set (q := quota src (length buf)) in *.
    set (chunk := firstn q (unread src)) in *.
    pose proof (chunk_length src (length buf) Hd Hs Hb) as Hcl.
    fold q in Hcl. fold chunk in Hcl.
    replace (0 <? len chunk) with true
      by (symmetry; apply Z.ltb_lt; unfold len; lia).
    rewrite slice_to_app. cbn [bind].
    rewrite StreamWriter_Write_buffer. cbn [bind].
    rewrite Z.eqb_refl. cbn [bind].
    pose proof (quota_pos src (length buf) Hd Hb) as Hq. fold q in Hq.
    destruct (IH (fst (keyStream_xor x chunk))
                (with_unread src (skipn q (unread src)))
                (w ++ snd (keyStream_xor x chunk))
                (chunk ++ skipn (length chunk) buf)
                (written + len chunk)) as (written' & Hr).
    + now apply delivering_with_unread.
    + rewrite unread_with_unread, length_skipn by assumption.
      pose proof (length_nonempty _ Hs). lia.
    + rewrite length_app, length_skipn. lia.
    + rewrite Hr. exists written'.
      rewrite with_unread_twice, unread_with_unread by assumption.
      pose proof (keyStream_xor_app chunk (skipn q (unread src)) x) as Happ.
      unfold chunk in Happ at 1. rewrite firstn_skipn in Happ.
      rewrite Happ. cbn [fst snd]. now rewrite <- app_assoc.
Qed.

Lemma copy_loop_stream (fuel : nat) :
  forall (x : Stream) (src : Source) (w buf : list byte) (written : Z),
    delivering src -> (length (unread src) < fuel)%nat -> (0 < length buf)%nat ->
    exists r' written',
      copy_loop StreamReader_Read fuel {| sr_S := x; sr_R := src |}
          (BufferSink w) buf written
        = Ret (r', BufferSink (w ++ snd (keyStream_xor x (unread src))),
               written', None) /\
      sr_R r' = with_unread src [].
Proof.
  induction fuel as [|fuel IH]; intros x src w buf written Hd Hf Hb; [lia|].
  destruct (list_eq_dec Byte.byte_eq_dec (unread src) []) as [Hs|Hs].
  - erewrite copy_loop_step with (T := 0%nat);
      [|apply StreamReader_Read_EOF; assumption | lia].
    cbn [is_EOF firstn]. rewrite Hs. cbn [keyStream_xor snd].
    eexists _, _. split; [reflexivity|]. cbn [sr_R].
    rewrite <- Hs. symmetry. apply with_unread_same.
  - pose proof (StreamReader_Read_data x src buf Hd Hs) as Hr. cbv zeta in Hr.
    set (q := quota src (length buf)) in *.
    set (chunk := firstn q (unread src)) in *.
    pose proof (chunk_length src (length buf) Hd Hs Hb) as Hcl.
    fold q in Hcl. fold chunk in Hcl.
    erewrite copy_loop_step; [|exact Hr|].
    2:{ rewrite length_app, length_skipn, keyStream_xor_length. lia. }
    rewrite firstn_app, keyStream_xor_length, Nat.sub_diag, firstn_O, app_nil_r.
    rewrite firstn_all2 by (rewrite keyStream_xor_length; lia).
    destruct (IH (fst (keyStream_xor x chunk))
                (with_unread src (skipn q (unread src)))
                (w ++ snd (keyStream_xor x chunk))
                (snd (keyStream_xor x chunk) ++ skipn (length chunk) buf)
                (written + Z.of_nat (length chunk))) as (r' & written' & Hl & Hsrc).
    + now apply delivering_with_unread.
    + rewrite unread_with_unread, length_skipn by assumption.
      pose proof (length_nonempty _ Hs). pose proof (quota_pos src _ Hd Hb).
      fold q in H0. lia.
    + rewrite length_app, length_skipn, keyStream_xor_length. lia.
    + rewrite Hl. exists r', written'.
      rewrite unread_with_unread by assumption.
      split.
      * pose proof (keyStream_xor_app chunk (skipn q (unread src)) x) as Happ.
        unfold chunk in Happ at 1. rewrite firstn_skipn in Happ.
        rewrite Happ. cbn [snd]. now rewrite <- app_assoc.
      * rewrite Hsrc. apply with_unread_twice.
Qed.

(** ** The CTR streams *)

Section CTRFacts.

Variable aes : list byte -> Block.

Lemma CTR_EncryptStream_spec (fuel : nat) (key : list byte) (entropy src : Source)
    (w : list byte) :
  valid_key_size (len key) ->
  delivering entropy -> (16 <= length (unread entropy))%nat ->
  delivering src -> (length (unread src) < fuel)%nat ->
  let iv := firstn 16 (unread entropy) in
  CTR.EncryptStream aes fuel key entropy src (BufferSink w) =
    Ret (None, with_unread src [],
         BufferSink ((w ++ iv) ++ snd (keyStream_xor (ctr_start (aes key) iv) (unread src)))).
Proof.
  intros Hk He Hel Hd Hf iv. unfold CTR.EncryptStream.
  rewrite aes_NewCipher_valid by exact Hk.
  rewrite make_ok by (unfold aes_BlockSize; lia). cbn [bind].
  unfold rand_Read. rewrite io_ReadFull_spec;
    [|exact He | rewrite repeat_length; unfold aes_BlockSize; lia].
  cbn [bind]. rewrite repeat_length.
  change (Z.to_nat aes_BlockSize) with 16%nat. fold iv. cbn [dst_Write].
  assert (Hiv : length iv = 16%nat) by (subst iv; rewrite length_firstn; lia).
  unfold NewCTR.
  replace (len iv =? aes_BlockSize) with true
    by (symmetry; apply Z.eqb_eq; unfold len, aes_BlockSize; lia).
  cbn [bind]. fold (ctr_start (aes key) iv).
  unfold io_Copy_to.
  destruct src as [s|k s|e]; cbn [delivering] in Hd; [| |contradiction].
  - destruct s as [|b s].
    { cbn [bind sw_W with_unread unread keyStream_xor snd].
      now rewrite app_nil_r. }
    rewrite StreamWriter_Write_buffer. cbn [bind].
    rewrite Z.ltb_irrefl. rewrite slice_from_ok by (pose proof (len_nonneg (b :: s)); lia).
    cbn [bind]. rewrite Z.eqb_refl. cbn [sw_W with_unread unread].
    unfold len. rewrite Nat2Z.id, skipn_all. reflexivity.
  - rewrite make_ok by (unfold copyBufSize; lia). cbn [bind].
    destruct (copy_to_loop_stream fuel (ctr_start (aes key) iv) (ShortReader k s)
                (w ++ iv) (repeat x00 (Z.to_nat copyBufSize)) 0 Hd Hf)
      as (written' & Hr).
    { rewrite repeat_length. unfold copyBufSize. lia. }
    rewrite Hr. reflexivity.
Qed.

Lemma CTR_DecryptStream_spec (fuel : nat) (key : list byte) (src : Source)
    (iv C w : list byte) :
  valid_key_size (len key) ->
  delivering src -> unread src = iv ++ C -> length iv = 16%nat ->
  (length C < fuel)%nat ->
  CTR.DecryptStream aes fuel key src (BufferSink w) =
    Ret (None, with_unread src [],
         BufferSink (w ++ snd (keyStream_xor (ctr_start (aes key) iv) C))).
Proof.
  intros Hk Hd Hu Hiv Hf. unfold CTR.DecryptStream.
  rewrite aes_NewCipher_valid by exact Hk.
  rewrite make_ok by (unfold aes_BlockSize; lia). cbn [bind].
  rewrite io_ReadFull_spec;
    [|exact Hd | rewrite repeat_length, Hu, length_app; unfold aes_BlockSize; lia].
  cbn [bind]. rewrite repeat_length, Hu.
  change (Z.to_nat aes_BlockSize) with 16%nat.
  rewrite firstn_app, skipn_app, Hiv, Nat.sub_diag, firstn_O, app_nil_r.
  rewrite firstn_all2 with (l := iv) by lia.
  rewrite skipn_all2 with (l := iv) by lia. cbn [skipn app].
  unfold NewCTR.
  replace (len iv =? aes_BlockSize) with true
    by (symmetry; apply Z.eqb_eq; unfold len, aes_BlockSize; lia).
  cbn [bind]. unfold io_Copy.
  rewrite make_ok by (unfold copyBufSize; lia). cbn [bind].
  fold (ctr_start (aes key) iv).
  destruct (copy_loop_stream fuel (ctr_start (aes key) iv) (with_unread src C) w
              (repeat x00 (Z.to_nat copyBufSize)) 0) as (r' & written' & Hr & Hs).
  - now apply delivering_with_unread.
  - rewrite unread_with_unread by exact Hd. exact Hf.
  - rewrite repeat_length. unfold copyBufSize. lia.
  - rewrite Hr. cbn [bind]. rewrite Hs, with_unread_twice.
    rewrite unread_with_unread by exact Hd. reflexivity.
Qed.

(** X19. The CTR stream restores its plaintext from any readers, whatever the
    sizes of their reads: [EncryptStream] writes the IV it drew and the
    plaintext under the key stream, sixteen bytes more than the plaintext,
    and [DecryptStream] turns that back into the plaintext. *)
Theorem CTR_round_trip (fuel : nat) (key : list byte) (entropy src : Source) :
  valid_key_size (len key) ->
  delivering entropy -> (16 <= length (unread entropy))%nat ->
  delivering src -> (length (unread src) < fuel)%nat ->
  exists ct,
    CTR.EncryptStream aes fuel key entropy src (BufferSink [])
      = Ret (None, with_unread src [], BufferSink ct) /\
    len ct = 16 + len (unread src) /\
    (forall dsrc, delivering dsrc -> unread dsrc = ct ->
     CTR.DecryptStream aes fuel key dsrc (BufferSink [])
       = Ret (None, with_unread dsrc [], BufferSink (unread src))).
Proof.
  intros Hk He Hel Hd Hf. eexists. split; [|split].
  - now apply CTR_EncryptStream_spec.
  - cbn [app]. rewrite len_app. unfold len.
    rewrite keyStream_xor_length, length_firstn. lia.
  - intros dsrc Hdd Hu. cbn [app] in Hu.
    rewrite (CTR_DecryptStream_spec fuel key dsrc _ _ [] Hk Hdd Hu).
    + cbn [app]. now rewrite keyStream_xor_involutive.
    + rewrite length_firstn. lia.
    + rewrite keyStream_xor_length. exact Hf.
Qed.

(** X20. The CTR stream authenticates nothing: whatever follows the sixteen
    bytes of the IV is decrypted without error, and a bit inverted in it
    comes out as the same bit inverted in the plaintext. *)
Theorem CTR_DecryptStream_malleable (fuel : nat) (key iv C : list byte) (i : nat) :
  valid_key_size (len key) -> length iv = 16%nat -> (length C < fuel)%nat ->
  exists P,
    CTR.DecryptStream aes fuel key (BytesReader (iv ++ C)) (BufferSink [])
      = Ret (None, BytesReader [], BufferSink P) /\
    CTR.DecryptStream aes fuel key (BytesReader (iv ++ flip_bit i C)) (BufferSink [])
      = Ret (None, BytesReader [], BufferSink (flip_bit i P)).
Proof.
  intros Hk Hiv Hf. eexists. split.
  - now apply (CTR_DecryptStream_spec fuel key (BytesReader (iv ++ C)) iv C []).
  - rewrite (CTR_DecryptStream_spec fuel key (BytesReader (iv ++ flip_bit i C))
               iv (flip_bit i C) []); try assumption; try exact I; try reflexivity.
    + cbn [app with_unread]. now rewrite keyStream_xor_flip.
    + now rewrite flip_bit_length.
Qed.

End CTRFacts.

Lemma CTR_round_trip_witness :
  valid_key_size (len key32) /\ delivering (BytesReader iv16) /\
  (16 <= length (unread (BytesReader iv16)))%nat /\
  delivering short_hello /\ (length (unread short_hello) < 100)%nat /\
  exists ct,
    CTR.EncryptStream toyBlock 100 key32 (BytesReader iv16) short_hello (BufferSink [])
      = Ret (None, with_unread short_hello [], BufferSink ct) /\
    len ct = 16 + len (unread short_hello) /\
    (forall dsrc, delivering dsrc -> unread dsrc = ct ->
     CTR.DecryptStream toyBlock 100 key32 dsrc (BufferSink [])
       = Ret (None, with_unread dsrc [], BufferSink (unread short_hello))).
Proof.
  split; [exact key32_valid|]. split; [exact I|]. split; [exact iv16_enough|].
  split; [exact short_hello_delivering|]. split; [exact short_hello_fuel|].
  exact (CTR_round_trip toyBlock 100%nat key32 (BytesReader iv16) short_hello
           key32_valid I iv16_enough short_hello_delivering short_hello_fuel).
Defined.

Lemma CTR_DecryptStream_malleable_witness :
  valid_key_size (len key32) /\ length iv16 = 16%nat /\
  (length hello_walrus < 100)%nat /\
  exists P,
    CTR.DecryptStream toyBlock 100 key32 (BytesReader (iv16 ++ hello_walrus))
        (BufferSink [])
      = Ret (None, BytesReader [], BufferSink P) /\
    CTR.DecryptStream toyBlock 100 key32
        (BytesReader (iv16 ++ flip_bit 3 hello_walrus)) (BufferSink [])
      = Ret (None, BytesReader [], BufferSink (flip_bit 3 P)).
Proof.
  split; [exact key32_valid|]. split; [reflexivity|]. split; [exact hello_fuel|].
  exact (CTR_DecryptStream_malleable toyBlock 100%nat key32 iv16 hello_walrus 3%nat
           key32_valid eq_refl hello_fuel).
Defined.

(** ** The CTR streams with magic bytes *)

(** Two texts under the same key stream give away the shorter one, once
    the longer is known. *)
Lemma byte_xor_shared_key (b c k : byte) :
  byte_xor (byte_xor (byte_xor b k) (byte_xor c k)) c = b.
Proof.
  apply Z_of_byte_inj. rewrite !Z_of_byte_xor.
  apply Z.bits_inj'. intros n Hn. rewrite !Z.lxor_spec.
  destruct (Z.testbit (Z_of_byte b) n), (Z.testbit (Z_of_byte c) n),
    (Z.testbit (Z_of_byte k) n); reflexivity.
Qed.

Lemma keyStream_xor_shared (s : list byte) :
  forall t x, (length s <= length t)%nat ->
    xor_bytes (xor_bytes (snd (keyStream_xor x s)) (snd (keyStream_xor x t))) t = s.
Proof.
  induction s as [|b s IH]; intros t x Hl; [reflexivity|].
  destruct t as [|c t]; [cbn [length] in Hl; lia|].
  cbn [keyStream_xor].
  specialize (IH t (if (S (s_outUsed x) <? 16)%nat
      then {| s_block := s_block x; s_ctr := s_ctr x; s_outUsed := S (s_outUsed x) |}
      else {| s_block := s_block x; s_ctr := ctr_incr (s_ctr x); s_outUsed := 0 |})
      ltac:(cbn [length] in Hl; lia)).
  destruct (keyStream_xor _ s) as [x2 out].
  destruct (keyStream_xor _ t) as [x3 out']. cbn [snd xor_bytes] in *.
  now rewrite byte_xor_shared_key, IH.
Qed.

Lemma keyStream_xor_firstn (n : nat) (s : list byte) (x : Stream) :
  firstn n (snd (keyStream_xor x s)) = snd (keyStream_xor x (firstn n s)).
Proof.
  destruct (Nat.le_ge_cases (length s) n) as [H|H].
  - rewrite firstn_all2 by (rewrite keyStream_xor_length; lia).
    now rewrite firstn_all2 with (l := s) by lia.
  - rewrite <- (firstn_skipn n s) at 1. rewrite keyStream_xor_app. cbn [snd].
    rewrite firstn_app, keyStream_xor_length, length_firstn.
    rewrite firstn_all2 by (rewrite keyStream_xor_length, length_firstn; lia).
    replace (n - Nat.min n (length s))%nat with 0%nat by lia.
    now rewrite firstn_O, app_nil_r.
Qed.

Section CTRMagicFacts.

Variable aes : list byte -> Block.

Lemma magic_length : length CTRMagic.magicBytes = 6%nat.
Proof. reflexivity. Qed.

Lemma CTRMagic_EncryptStream_spec (fuel : nat) (key : list byte)
    (entropy src : Source) (w : list byte) :
  valid_key_size (len key) ->
  delivering entropy -> (16 <= length (unread entropy))%nat ->
  delivering src -> (length (unread src) < fuel)%nat ->
  let iv := firstn 16 (unread entropy) in
  let x := ctr_start (aes key) iv in
  CTRMagic.EncryptStream aes fuel key entropy src (BufferSink w) =
    Ret (None, with_unread src [],
         BufferSink ((((w ++ CTRMagic.magicBytes) ++ iv)
                        ++ snd (keyStream_xor x CTRMagic.magicBytes))
                       ++ snd (keyStream_xor x (unread src)))).
Proof.
  intros Hk He Hel Hd Hf iv x. unfold CTRMagic.EncryptStream.
  rewrite aes_NewCipher_valid by exact Hk.
  rewrite make_ok by (unfold aes_BlockSize; lia). cbn [bind].
  unfold rand_Read. rewrite io_ReadFull_spec;
    [|exact He | rewrite repeat_length; unfold aes_BlockSize; lia].
  cbn [bind]. rewrite repeat_length.
  change (Z.to_nat aes_BlockSize) with 16%nat. fold iv. cbn [dst_Write].
  assert (Hiv : length iv = 16%nat) by (subst iv; rewrite length_firstn; lia).
  unfold NewCTR.
  replace (len iv =? aes_BlockSize) with true
    by (symmetry; apply Z.eqb_eq; unfold len, aes_BlockSize; lia).
  cbn [bind]. fold (ctr_start (aes key) iv). fold x.
  rewrite make_ok by apply len_nonneg. cbn [bind].
  rewrite XORKeyStream_ok by (rewrite repeat_length; unfold len; lia).
  cbn [bind]. rewrite skipn_all2 by (rewrite repeat_length; unfold len; lia).
  rewrite app_nil_r.
  unfold io_Copy_to.
  destruct src as [s|k s|e]; cbn [delivering] in Hd; [| |contradiction].
  - destruct s as [|b s].
    { cbn [bind sw_W with_unread unread keyStream_xor snd].
      now rewrite app_nil_r. }
    rewrite StreamWriter_Write_buffer. cbn [bind].
    rewrite Z.ltb_irrefl. rewrite slice_from_ok by (pose proof (len_nonneg (b :: s)); lia).
    cbn [bind]. rewrite Z.eqb_refl. cbn [sw_W with_unread unread].
    unfold len. rewrite Nat2Z.id, skipn_all. reflexivity.
  - rewrite make_ok by (unfold copyBufSize; lia). cbn [bind].
    destruct (copy_to_loop_stream fuel x (ShortReader k s)
                (((w ++ CTRMagic.magicBytes) ++ iv)
                   ++ snd (keyStream_xor x CTRMagic.magicBytes))
                (repeat x00 (Z.to_nat copyBufSize)) 0 Hd Hf)
      as (written' & Hr).
    { rewrite repeat_length. unfold copyBufSize. lia. }
    rewrite Hr. reflexivity.
Qed.

(** [DecryptStream] on a stream that has its three headers. *)
Lemma CTRMagic_DecryptStream_spec (fuel : nat) (key : list byte) (src : Source)
    (iv V C w : list byte) :
  valid_key_size (len key) ->
  delivering src -> unread src = CTRMagic.magicBytes ++ iv ++ V ++ C ->
  length iv = 16%nat -> length V = 6%nat -> (length C < fuel)%nat ->
  let x := ctr_start (aes key) iv in
  CTRMagic.DecryptStream aes fuel key src (BufferSink w) =
    if bytes_eqb (snd (keyStream_xor x V)) CTRMagic.magicBytes
    then Ret (None, with_unread src [],
              BufferSink (w ++ snd (keyStream_xor x C)))
    else Ret (Some ErrDecryption, with_unread src C, BufferSink w).
Proof.
  intros Hk Hd Hu Hiv HV Hf x. unfold CTRMagic.DecryptStream.
  rewrite make_ok by apply len_nonneg. cbn [bind].
  rewrite io_ReadFull_spec;
    [|exact Hd | rewrite repeat_length, Hu, !length_app, magic_length;
                 unfold len; rewrite magic_length; lia].
  cbn [bind]. rewrite repeat_length, Hu.
  change (Z.to_nat (len CTRMagic.magicBytes)) with 6%nat.
  change (firstn 6 (CTRMagic.magicBytes ++ iv ++ V ++ C)) with CTRMagic.magicBytes.
  change (skipn 6 (CTRMagic.magicBytes ++ iv ++ V ++ C)) with (iv ++ V ++ C).
  change (negb (bytes_eqb CTRMagic.magicBytes CTRMagic.magicBytes)) with false.
  cbv iota. rewrite aes_NewCipher_valid by exact Hk.
  rewrite make_ok by (unfold aes_BlockSize; lia). cbn [bind].
  assert (Hd1 : delivering (with_unread src (iv ++ V ++ C)))
    by now apply delivering_with_unread.
  rewrite io_ReadFull_spec;
    [|exact Hd1
     |rewrite repeat_length, unread_with_unread, !length_app by exact Hd;
      unfold aes_BlockSize; lia].
  cbn [bind]. rewrite repeat_length, unread_with_unread by exact Hd.
  change (Z.to_nat aes_BlockSize) with 16%nat.
  rewrite with_unread_twice.
  rewrite firstn_app, skipn_app, Hiv, Nat.sub_diag, firstn_O, app_nil_r.
  rewrite firstn_all2 with (l := iv) by lia.
  rewrite skipn_all2 with (l := iv) by lia. cbn [skipn app].
  unfold NewCTR.
  replace (len iv =? aes_BlockSize) with true
    by (symmetry; apply Z.eqb_eq; unfold len, aes_BlockSize; lia).
  cbn [bind]. fold (ctr_start (aes key) iv). fold x.
  assert (Hd2 : delivering (with_unread src (V ++ C)))
    by now apply delivering_with_unread.
  rewrite io_ReadFull_spec;
    [|exact Hd2
     |rewrite repeat_length, unread_with_unread, !length_app by exact Hd;
      change (Z.to_nat (len CTRMagic.magicBytes)) with 6%nat; lia].
  cbn [bind]. rewrite repeat_length, unread_with_unread by exact Hd.
  change (Z.to_nat (len CTRMagic.magicBytes)) with 6%nat.
  rewrite with_unread_twice.
  rewrite firstn_app, skipn_app, HV, Nat.sub_diag, firstn_O, app_nil_r.
  rewrite firstn_all2 with (l := V) by lia.
  rewrite skipn_all2 with (l := V) by lia. cbn [skipn app].
  rewrite XORKeyStream_ok by (rewrite repeat_length; lia). cbn [bind].
  rewrite skipn_all2 by (rewrite repeat_length; lia). rewrite app_nil_r.
  destruct (bytes_eqb (snd (keyStream_xor x V)) CTRMagic.magicBytes);
    cbn [negb]; [|reflexivity].
  unfold io_Copy. rewrite make_ok by (unfold copyBufSize; lia). cbn [bind].
  destruct (copy_loop_stream fuel x (with_unread src C) w
              (repeat x00 (Z.to_nat copyBufSize)) 0) as (r' & written' & Hr & Hs).
  - now apply delivering_with_unread.
  - rewrite unread_with_unread by exact Hd. exact Hf.
  - rewrite repeat_length. unfold copyBufSize. lia.
  - rewrite Hr. cbn [bind option_map]. rewrite Hs, with_unread_twice.
    rewrite unread_with_unread by exact Hd. reflexivity.
Qed.

(** X21. The stream with magic bytes restores its plaintext from any readers:
    [EncryptStream] writes "WAL_V1", the IV, the magic bytes under the key
    stream and the plaintext under the key stream, 28 bytes more than the
    plaintext, and [DecryptStream] turns that back into the plaintext. *)
Theorem CTRMagic_round_trip (fuel : nat) (key : list byte)
    (entropy src : Source) :
  valid_key_size (len key) ->
  delivering entropy -> (16 <= length (unread entropy))%nat ->
  delivering src -> (length (unread src) < fuel)%nat ->
  exists ct,
    CTRMagic.EncryptStream aes fuel key entropy src (BufferSink [])
      = Ret (None, with_unread src [], BufferSink ct) /\
    len ct = 28 + len (unread src) /\
    firstn 6 ct = CTRMagic.magicBytes /\
    (forall dsrc, delivering dsrc -> unread dsrc = ct ->
     CTRMagic.DecryptStream aes fuel key dsrc (BufferSink [])
       = Ret (None, with_unread dsrc [], BufferSink (unread src))).
Proof.
  intros Hk He Hel Hd Hf.
  set (iv := firstn 16 (unread entropy)).
  set (x := ctr_start (aes key) iv).
  assert (Hiv : length iv = 16%nat) by (subst iv; rewrite length_firstn; lia).
  eexists. split; [|split; [|split]].
  - now apply CTRMagic_EncryptStream_spec.
  - cbn [app]. rewrite !len_app. unfold len.
    rewrite !keyStream_xor_length, length_firstn, magic_length. lia.
  - reflexivity.
  - intros dsrc Hdd Hu. cbn [app] in Hu. fold iv in Hu. fold x in Hu.
    rewrite <- !app_assoc in Hu.
    pose proof (CTRMagic_DecryptStream_spec fuel key dsrc iv
                  (snd (keyStream_xor x CTRMagic.magicBytes))
                  (snd (keyStream_xor x (unread src))) [] Hk Hdd Hu Hiv) as H.
    rewrite !keyStream_xor_length in H.
    specialize (H magic_length Hf). cbv zeta in H. fold x in H.
    rewrite !keyStream_xor_involutive in H. exact H.
Qed.

(** X22. [DecryptStream] answers [ErrDecryption] to every stream that does not
    begin with the six bytes "WAL_V1", before it looks at the key (of a
    valid size or not), and writes nothing. *)
Theorem CTRMagic_DecryptStream_rejects_header (fuel : nat) (key : list byte)
    (src : Source) (dst : Sink) :
  delivering src -> firstn 6 (unread src) <> CTRMagic.magicBytes ->
  exists src',
    CTRMagic.DecryptStream aes fuel key src dst
      = Ret (Some ErrDecryption, src', dst) /\
    walrus_Error ErrDecryption
      = "failed to decrypt data: invalid key or corrupted data".
Proof.
  intros Hd Hne. unfold CTRMagic.DecryptStream.
  rewrite make_ok by apply len_nonneg. cbn [bind].
  change (Z.to_nat (len CTRMagic.magicBytes)) with 6%nat.
  destruct (Nat.lt_ge_cases (length (unread src)) 6) as [Hlt|Hge].
  - destruct (io_ReadFull_short src (repeat x00 6) Hd) as (buf' & Hr).
    { rewrite repeat_length. exact Hlt. }
    rewrite Hr. cbn [bind]. eauto.
  - rewrite io_ReadFull_spec; [|exact Hd | rewrite repeat_length; lia].
    cbn [bind]. rewrite repeat_length.
    destruct (bytes_eqb (firstn 6 (unread src)) CTRMagic.magicBytes) eqn:E.
    + apply bytes_eqb_eq in E. contradiction.
    + cbn [negb]. eauto.
Qed.

(** X23. The magic bytes and the plaintext are put under the same key stream,
    from its start, and the magic bytes are public: the first six bytes of
    every plaintext are read off the ciphertext without the key, as the
    bytes after the header combined with the encrypted magic bytes and the
    magic bytes. *)
Theorem CTRMagic_leaks_first_bytes (fuel : nat) (key : list byte)
    (entropy src : Source) :
  valid_key_size (len key) ->
  delivering entropy -> (16 <= length (unread entropy))%nat ->
  delivering src -> (length (unread src) < fuel)%nat ->
  exists iv V body,
    CTRMagic.EncryptStream aes fuel key entropy src (BufferSink [])
      = Ret (None, with_unread src [],
             BufferSink (CTRMagic.magicBytes ++ iv ++ V ++ body)) /\
    length iv = 16%nat /\ length V = 6%nat /\
    xor_bytes (xor_bytes (firstn 6 body) V) CTRMagic.magicBytes
      = firstn 6 (unread src).
Proof.
  intros Hk He Hel Hd Hf.
  set (iv := firstn 16 (unread entropy)).
  set (x := ctr_start (aes key) iv).
  exists iv, (snd (keyStream_xor x CTRMagic.magicBytes)),
    (snd (keyStream_xor x (unread src))).
  split; [|split; [|split]].
  - rewrite CTRMagic_EncryptStream_spec by assumption. cbv zeta.
    fold iv. fold x. cbn [app]. now rewrite <- !app_assoc.
  - subst iv. rewrite length_firstn. lia.
  - now rewrite keyStream_xor_length.
  - rewrite keyStream_xor_firstn. apply keyStream_xor_shared.
    rewrite length_firstn, magic_length. lia.
Qed.

End CTRMagicFacts.

Lemma CTRMagic_round_trip_witness :
  valid_key_size (len key32) /\ delivering (BytesReader iv16) /\
  (16 <= length (unread (BytesReader iv16)))%nat /\
  delivering short_hello /\ (length (unread short_hello) < 100)%nat /\
  exists ct,
    CTRMagic.EncryptStream toyBlock 100 key32 (BytesReader iv16) short_hello
        (BufferSink [])
      = Ret (None, with_unread short_hello [], BufferSink ct) /\
    len ct = 28 + len (unread short_hello) /\
    firstn 6 ct = CTRMagic.magicBytes /\
    (forall dsrc, delivering dsrc -> unread dsrc = ct ->
     CTRMagic.DecryptStream toyBlock 100 key32 dsrc (BufferSink [])
       = Ret (None, with_unread dsrc [], BufferSink (unread short_hello))).
Proof.
  split; [exact key32_valid|]. split; [exact I|]. split; [exact iv16_enough|].
  split; [exact short_hello_delivering|]. split; [exact short_hello_fuel|].
  exact (CTRMagic_round_trip toyBlock 100%nat key32 (BytesReader iv16) short_hello
           key32_valid I iv16_enough short_hello_delivering short_hello_fuel).
Defined.

Lemma CTRMagic_DecryptStream_rejects_header_witness :
  delivering (BytesReader hello_walrus) /\
  firstn 6 (unread (BytesReader hello_walrus)) <> CTRMagic.magicBytes /\
  exists src',
    CTRMagic.DecryptStream toyBlock 100 [x01] (BytesReader hello_walrus) (BufferSink [])
      = Ret (Some ErrDecryption, src', BufferSink []) /\
    walrus_Error ErrDecryption
      = "failed to decrypt data: invalid key or corrupted data".
Proof.
  split; [exact I|]. split; [exact hello_not_magic|].
  exact (CTRMagic_DecryptStream_rejects_header toyBlock 100%nat [x01]
           (BytesReader hello_walrus) (BufferSink []) I hello_not_magic).
Defined.

Lemma CTRMagic_leaks_first_bytes_witness :
  valid_key_size (len key32) /\ delivering (BytesReader iv16) /\
  (16 <= length (unread (BytesReader iv16)))%nat /\
  delivering short_hello /\ (length (unread short_hello) < 100)%nat /\
  exists iv V body,
    CTRMagic.EncryptStream toyBlock 100 key32 (BytesReader iv16) short_hello
        (BufferSink [])
      = Ret (None, with_unread short_hello [],
             BufferSink (CTRMagic.magicBytes ++ iv ++ V ++ body)) /\
    length iv = 16%nat /\ length V = 6%nat /\
    xor_bytes (xor_bytes (firstn 6 body) V) CTRMagic.magicBytes
      = firstn 6 (unread short_hello).
Proof.
  split; [exact key32_valid|]. split; [exact I|]. split; [exact iv16_enough|].
  split; [exact short_hello_delivering|]. split; [exact short_hello_fuel|].
  exact (CTRMagic_leaks_first_bytes toyBlock 100%nat key32 (BytesReader iv16)
           short_hello key32_valid I iv16_enough short_hello_delivering
           short_hello_fuel).
Defined.

(** ** Responses *)

(** X24. [NormalizeBlobResponse] fills [Blob] from the newly created blob when
    there is one, else from the already certified one, else leaves it; it
    changes nothing else, and a second call changes nothing. *)
Theorem NormalizeBlobResponse_idempotent (resp : Walrus.StoreResponse) :
  let resp' := Walrus.NormalizeBlobResponse resp in
  Walrus.NormalizeBlobResponse resp' = resp' /\
  Walrus.NewlyCreated resp' = Walrus.NewlyCreated resp /\
  Walrus.AlreadyCertified resp' = Walrus.AlreadyCertified resp /\
  Walrus.Blob resp' =
    match Walrus.NewlyCreated resp, Walrus.AlreadyCertified resp with
    | Some nc, _ =>
        {| Walrus.BlobID := Walrus.object_BlobID (Walrus.created_BlobObject nc);
           Walrus.EndEpoch :=
             Walrus.storage_EndEpoch (Walrus.Storage (Walrus.created_BlobObject nc)) |}
    | None, Some ac =>
        {| Walrus.BlobID := Walrus.certified_BlobID ac;
           Walrus.EndEpoch := Walrus.certified_EndEpoch ac |}
    | None, None => Walrus.Blob resp
    end.
Proof.
  destruct resp as [blob [nc|] [ac|]]; cbn; repeat split; reflexivity.
Qed.

(** ** The client and its options *)

Section ClientFacts.

Variable URL : Type.
Variable World : Type.
Variable aggregators publishers : list string.
Variable http : Walrus.HTTPClient URL World.

Lemma package_option_keeps (opt : Walrus.ClientOption URL World)
    (c : Walrus.Client URL World) :
  Walrus.package_option opt ->
  Walrus.AggregatorURL c <> [] -> Walrus.PublisherURL c <> [] ->
  0 < Walrus.MaxUnknownLengthUploadSize c ->
  Walrus.AggregatorURL (opt c) <> [] /\ Walrus.PublisherURL (opt c) <> [] /\
  0 < Walrus.MaxUnknownLengthUploadSize (opt c).
Proof.
  intros Ho Ha Hp Hm. destruct Ho as [urls|urls|h|m d|n].
  - unfold Walrus.WithAggregatorURLs. destruct urls as [|u urls]; cbn; auto.
    repeat split; auto. discriminate.
  - unfold Walrus.WithPublisherURLs. destruct urls as [|u urls]; cbn; auto.
    repeat split; auto. discriminate.
  - destruct h; cbn; auto.
  - cbn. auto.
  - unfold Walrus.WithMaxUnknownLengthUploadSize.
    destruct (0 <? n) eqn:E; cbn; auto.
    apply Z.ltb_lt in E. auto.
Qed.

(** X25. Whatever options of the package are given, in whatever order, the
    client that [NewClient] builds has an aggregator and a publisher, when
    the defaults name one, and a positive limit for uploads of unknown
    length: empty lists and limits that are not positive are ignored. Among
    the options, the last one of a kind decides. *)
Theorem NewClient_keeps_endpoints (opts : list (Walrus.ClientOption URL World)) :
  aggregators <> [] -> publishers <> [] ->
  Forall (@Walrus.package_option URL World) opts ->
  let client := Walrus.NewClient aggregators publishers http opts in
  (Walrus.AggregatorURL client <> [] /\ Walrus.PublisherURL client <> [] /\
   0 < Walrus.MaxUnknownLengthUploadSize client) /\
  (forall urls, urls <> [] ->
     Walrus.AggregatorURL
       (Walrus.NewClient aggregators publishers http
          (opts ++ [Walrus.WithAggregatorURLs urls])) = urls) /\
  (forall m d,
     Walrus.retryConfig
       (Walrus.NewClient aggregators publishers http
          (opts ++ [Walrus.WithRetryConfig m d]))
       = {| Walrus.MaxRetries := m; Walrus.RetryDelay := d |}) /\
  Walrus.retryConfig (Walrus.NewClient aggregators publishers http [])
    = {| Walrus.MaxRetries := 5; Walrus.RetryDelay := 500000000 |}.
Proof.
  intros Ha Hp Hall client. split; [|split; [|split]].
  - subst client. unfold Walrus.NewClient.
    set (c0 := {| Walrus.AggregatorURL := aggregators |}).
    assert (H0 : Walrus.AggregatorURL c0 <> [] /\ Walrus.PublisherURL c0 <> [] /\
                 0 < Walrus.MaxUnknownLengthUploadSize c0)
      by (subst c0; cbn; repeat split; auto; lia).
    clearbody c0. revert c0 H0.
    induction Hall as [|opt opts Ho Hall IH]; intros c0 H0; cbn [fold_left];
      [exact H0|].
    apply IH. destruct H0 as (H1 & H2 & H3). now apply package_option_keeps.
  - intros urls Hu. unfold Walrus.NewClient. rewrite fold_left_app.
    cbn [fold_left]. unfold Walrus.WithAggregatorURLs.
    destruct urls as [|u urls]; [contradiction | reflexivity].
  - intros m d. unfold Walrus.NewClient. rewrite fold_left_app. reflexivity.
  - reflexivity.
Qed.

End ClientFacts.

Lemma NewClient_keeps_endpoints_witness :
  let client :=
    Walrus.NewClient ["https://aggregator.example"] ["https://publisher.example"]
      toyHTTP toyOptions in
  (Walrus.AggregatorURL client <> [] /\ Walrus.PublisherURL client <> [] /\
   0 < Walrus.MaxUnknownLengthUploadSize client) /\
  Walrus.PublisherURL client = ["https://publisher.example"].
Proof.
  assert (Ha : ["https://aggregator.example"] <> @nil string) by discriminate.
  assert (Hp : ["https://publisher.example"] <> @nil string) by discriminate.
  split; [|reflexivity].
  exact (proj1 (NewClient_keeps_endpoints string nat ["https://aggregator.example"]
                  ["https://publisher.example"] toyHTTP toyOptions Ha Hp
                  toyOptions_package)).
Defined.

(** ** Retries *)

Lemma int_wrap_small (z : Z) : - 2 ^ 63 <= z < 2 ^ 63 -> int_wrap z = z.
Proof.
  intros H. unfold int_wrap. rewrite Z.mod_small by lia. lia.
Qed.


Lemma replayed_replayed (body : option Source) :
  Walrus.replayed (Walrus.replayed body) = Walrus.replayed body.
Proof. destruct body; reflexivity. Qed.

Lemma round_robin_cons (urls : list string) (from n : nat) :
  Walrus.round_robin urls from (S n) =
    nth (from mod length urls) urls EmptyString :: Walrus.round_robin urls (S from) n.
Proof. reflexivity. Qed.

Section RetryFacts.

Variable URL : Type.
Variable url_String : URL -> string.
Variable url_Parse : string -> option URL.
Variable url_strip : URL -> URL.
Variable World : Type.
Variable c : Walrus.Client URL World.
Variable urls : list string.

Hypothesis urls_nonempty : urls <> [].
Hypothesis parses : forall s, url_Parse s <> None.
Hypothesis bodies :
  forall w r w' resp,
    Walrus.Do (Walrus.httpClient c) w r = (w', inl resp) ->
    delivering (Walrus.resp_Body resp).

Lemma doWithRetry_loop_spec (fuel : nat) :
  forall (req : Walrus.Request URL) (total attempt : Z)
         (lastErr : option walrus_error) (net : Walrus.Net URL World),
    0 <= attempt -> total <= MaxInt -> (Z.to_nat (total - attempt) < fuel)%nat ->
    Walrus.req_URL req <> None ->
    (forall b, Walrus.req_Body req = Some b -> delivering b) ->
    exists result req' net' added,
      Walrus.doWithRetry_loop url_String url_Parse url_strip fuel c urls req
          total attempt lastErr net
        = Ret (result, req', net') /\
      Walrus.sent net' = Walrus.sent net ++ added /\
      (length added <= Z.to_nat (total - attempt))%nat /\
      map fst added = Walrus.round_robin urls (Z.to_nat attempt) (length added) /\
      Forall (fun r => Walrus.req_Body (snd r) = Walrus.replayed (Walrus.req_Body req))
             added /\
      Walrus.slept net' =
        Walrus.slept net
          ++ repeat (Walrus.RetryDelay (Walrus.retryConfig c)) (length added - 1) /\
      match result with
      | Done resp => Walrus.StatusCode resp = 200 /\ (1 <= length added)%nat
      | Failed e =>
          length added = Z.to_nat (total - attempt) /\
          (added = [] -> e = wrap_w "all retry attempts failed: %w" lastErr) /\
          (added <> [] ->
           exists last, e = WrapError "all retry attempts failed: %w" last)
      end.
Proof.
  induction fuel as [|fuel IH]; intros req total attempt lastErr net Ha Ht Hf Hu Hb;
    [lia|].
  unfold MaxInt in Ht.
  cbn [Walrus.doWithRetry_loop].
  destruct (attempt <? total) eqn:Elt.
  2:{ apply Z.ltb_ge in Elt. exists (Failed (wrap_w "all retry attempts failed: %w" lastErr)),
        req, net, []. cbn [length Nat.sub repeat map].
      rewrite !app_nil_r.
      replace (Z.to_nat (total - attempt)) with 0%nat by lia.
      repeat split; auto. intros H; contradiction. }
  apply Z.ltb_lt in Elt.
  rewrite (int_wrap_small (attempt + 1)), (int_wrap_small (total - 1)) by lia.
  assert (Hn : (0 < length urls)%nat) by (destruct urls; [contradiction | cbn; lia]).
  unfold go_rem.
  replace (Z.of_nat (length urls) =? 0) with false
    by (symmetry; apply Z.eqb_neq; lia).
  cbn [bind]. rewrite Z.rem_mod_nonneg by lia.
  pose proof (Z.mod_pos_bound attempt (Z.of_nat (length urls)) ltac:(lia)) as Hm.
  unfold Walrus.index_string.
  replace ((attempt mod Z.of_nat (length urls) <? 0)
           || (Z.of_nat (length urls) <=? attempt mod Z.of_nat (length urls)))
    with false.
  2:{ symmetry. apply orb_false_iff. split; [apply Z.ltb_ge | apply Z.leb_gt]; lia. }
  cbn [bind].
  assert (Hidx : Z.to_nat (attempt mod Z.of_nat (length urls))
                 = (Z.to_nat attempt mod length urls)%nat).
  { rewrite <- (Z2Nat.id attempt) at 1 by lia.
    rewrite <- Nat2Z.inj_mod. apply Nat2Z.id. }
  rewrite Hidx.
  set (baseURL := nth (Z.to_nat attempt mod length urls) urls EmptyString).
  destruct (Walrus.req_URL req) as [u|] eqn:Eu; [|contradiction].
  set (full := String.append baseURL (url_String (url_strip u))).
  destruct (url_Parse full) as [u1|] eqn:Ep; [|exfalso; now apply (parses full)].
  set (req1 := {| Walrus.Method := Walrus.Method req; Walrus.req_URL := Some u1;
                  Walrus.req_Body := Walrus.replayed (Walrus.req_Body req) |}).
  assert (Hbody :
    match Walrus.req_Body req with
    | None => Ret (None, None)
    | Some b =>
        ' (b1, bodyBytes, err) <- io_ReadAll b ;;
        match err with
        | Some e => Ret (Some b1, Some e)
        | None => Ret (Some (BytesReader bodyBytes), None)
        end
    end = Ret (Walrus.replayed (Walrus.req_Body req), @None error)).
  { destruct (Walrus.req_Body req) as [b|] eqn:Eb; [|reflexivity].
    rewrite io_ReadAll_spec by (now apply Hb). reflexivity. }
  rewrite Hbody. clear Hbody. cbn [bind]. fold req1.
  destruct (Walrus.Do (Walrus.httpClient c) (Walrus.world net) req1)
    as [w1 r] eqn:Edo.
  set (sent1 := Walrus.sent net ++ [(baseURL, req1)]).
  set (slept1 := if attempt <? total - 1
                 then Walrus.slept net ++ [Walrus.RetryDelay (Walrus.retryConfig c)]
                 else Walrus.slept net).
  set (net1 := {| Walrus.world := w1; Walrus.sent := sent1; Walrus.slept := slept1 |}).
  assert (Hfail : forall E,
    exists result req' net' added,
      Walrus.doWithRetry_loop url_String url_Parse url_strip fuel c urls req1
          total (attempt + 1) (Some E) net1
        = Ret (result, req', net') /\
      Walrus.sent net' = Walrus.sent net ++ added /\
      (length added <= Z.to_nat (total - attempt))%nat /\
      map fst added = Walrus.round_robin urls (Z.to_nat attempt) (length added) /\
      Forall (fun r => Walrus.req_Body (snd r) = Walrus.replayed (Walrus.req_Body req))
             added /\
      Walrus.slept net' =
        Walrus.slept net
          ++ repeat (Walrus.RetryDelay (Walrus.retryConfig c)) (length added - 1) /\
      match result with
      | Done resp => Walrus.StatusCode resp = 200 /\ (1 <= length added)%nat
      | Failed e =>
          length added = Z.to_nat (total - attempt) /\
          (added = [] -> e = wrap_w "all retry attempts failed: %w" lastErr) /\
          (added <> [] ->
           exists last, e = WrapError "all retry attempts failed: %w" last)
      end).
  { intros E.
    destruct (IH req1 total (attempt + 1) (Some E) net1)
      as (result & req' & net' & added' & Hl & Hs & Hlen & Hrr & Hbd & Hsl & Hres).
    - lia.
    - unfold MaxInt; lia.
    - lia.
    - discriminate.
    - intros b Hb1. cbn [req1 Walrus.req_Body] in Hb1.
      destruct (Walrus.req_Body req); [|discriminate Hb1].
      cbn [Walrus.replayed] in Hb1. injection Hb1 as <-. exact I.
    - exists result, req', net', ((baseURL, req1) :: added').
      split; [exact Hl|]. split.
      { rewrite Hs. cbn [net1 Walrus.sent]. subst sent1.
        now rewrite <- app_assoc. }
      split; [cbn [length]; lia|]. split.
      { cbn [map fst length]. rewrite round_robin_cons. f_equal.
        rewrite Hrr. now replace (Z.to_nat (attempt + 1)) with (S (Z.to_nat attempt))
          by lia. }
      split.
      { constructor; [reflexivity|].
        eapply Forall_impl; [|exact Hbd]. intros r0 Hr. rewrite Hr.
        cbn [req1 Walrus.req_Body]. apply replayed_replayed. }
      assert (Hge : (attempt <? total - 1) = true -> (1 <= length added')%nat).
      { intros E1. apply Z.ltb_lt in E1.
        destruct result as [resp|e]; [apply Hres|].
        destruct Hres as (Hres & _). lia. }
      split.
      { rewrite Hsl. cbn [net1 Walrus.slept length]. subst slept1.
        replace (S (length added') - 1)%nat with (length added') by lia.
        destruct (attempt <? total - 1) eqn:E1.
        - specialize (Hge eq_refl). rewrite <- app_assoc. f_equal.
          destruct (length added') as [|n]; [lia|].
          cbn [Nat.sub repeat app]. now rewrite Nat.sub_0_r.
        - apply Z.ltb_ge in E1.
          replace (length added') with 0%nat by lia. reflexivity. }
      destruct result as [resp|e].
      { split; [apply Hres | cbn [length]; lia]. }
      destruct Hres as (Hr1 & Hr2 & Hr3).
      split; [cbn [length]; lia|]. split; [discriminate|].
      intros _. destruct added' as [|x added'].
      + exists E. now apply Hr2.
      + apply Hr3. discriminate. }
  destruct r as [resp|err]; [|exact (Hfail err)].
  destruct (Walrus.StatusCode resp =? 200) eqn:E200.
  - apply Z.eqb_eq in E200.
    exists (Done resp), req1,
      {| Walrus.world := w1; Walrus.sent := sent1; Walrus.slept := Walrus.slept net |},
      [(baseURL, req1)].
    split; [reflexivity|]. cbn [Walrus.sent Walrus.slept length Nat.sub repeat map fst].
    rewrite app_nil_r.
    split; [reflexivity|]. split; [lia|]. split; [reflexivity|].
    split; [constructor; [reflexivity | constructor]|].
    split; [reflexivity|]. split; [exact E200 | lia].
  - rewrite io_ReadAll_spec by (eapply bodies; exact Edo). cbn [bind].
    destruct (0 <? len (unread (Walrus.resp_Body resp))); apply Hfail.
Qed.

(** X26. [doWithRetry] hands at most [MaxRetries + 1] requests to the HTTP
    client, built for the base URLs in turn from the first, every one with
    the body the request came with, and sleeps the retry delay between two
    of them. It returns the first response whose status is 200; when it
    returns an error all the [MaxRetries + 1] requests have been made.
    [MaxRetries] is below the largest [int], there is a base URL, the
    request has a URL, every URL built parses, and the bodies can be read. *)
Theorem doWithRetry_round_robin (req : Walrus.Request URL) (w : World) :
  - 2 ^ 63 <= Walrus.MaxRetries (Walrus.retryConfig c) < MaxInt ->
  Walrus.req_URL req <> None ->
  (forall b, Walrus.req_Body req = Some b -> delivering b) ->
  exists result req' net,
    Walrus.doWithRetry url_String url_Parse url_strip c req urls w
      = Ret (result, req', net) /\
    (length (Walrus.sent net)
       <= Z.to_nat (Walrus.MaxRetries (Walrus.retryConfig c) + 1))%nat /\
    map fst (Walrus.sent net)
      = Walrus.round_robin urls 0 (length (Walrus.sent net)) /\
    Forall (fun r => Walrus.req_Body (snd r) = Walrus.replayed (Walrus.req_Body req))
           (Walrus.sent net) /\
    Walrus.slept net
      = repeat (Walrus.RetryDelay (Walrus.retryConfig c))
               (length (Walrus.sent net) - 1) /\
    match result with
    | Done resp =>
        Walrus.StatusCode resp = 200 /\ (1 <= length (Walrus.sent net))%nat
    | Failed e =>
        length (Walrus.sent net)
          = Z.to_nat (Walrus.MaxRetries (Walrus.retryConfig c) + 1) /\
        (e = WrapNil "all retry attempts failed: %w" \/
         exists last, e = WrapError "all retry attempts failed: %w" last)
    end.
Proof.
  intros Hm Hu Hb. unfold Walrus.doWithRetry. unfold MaxInt in Hm.
  rewrite int_wrap_small by lia.
  set (total := Walrus.MaxRetries (Walrus.retryConfig c) + 1).
  destruct (doWithRetry_loop_spec (S (Z.to_nat total)) req total 0 None
              {| Walrus.world := w; Walrus.sent := []; Walrus.slept := [] |})
    as (result & req' & net' & added & Hl & Hs & Hlen & Hrr & Hbd & Hsl & Hres);
    try assumption; try (unfold MaxInt; lia).
  cbn [Walrus.sent Walrus.slept app] in Hs, Hsl.
  rewrite Z.sub_0_r in Hlen, Hres. change (Z.to_nat 0) with 0%nat in Hrr.
  exists result, req', net'. rewrite Hs, Hsl.
  split; [exact Hl|]. split; [exact Hlen|]. split; [exact Hrr|].
  split; [exact Hbd|]. split; [reflexivity|].
  destruct result as [resp|e]; [exact Hres|].
  destruct Hres as (H1 & H2 & H3). split; [exact H1|].
  destruct added as [|x added]; [left; now apply H2 | right; apply H3; discriminate].
Qed.

End RetryFacts.

Lemma doWithRetry_round_robin_witness :
  exists result req' net,
    Walrus.doWithRetry (fun u => u) Some (fun u => u) toyClient toyRequest
        (Walrus.AggregatorURL toyClient) O
      = Ret (result, req', net) /\
    (length (Walrus.sent net)
       <= Z.to_nat (Walrus.MaxRetries (Walrus.retryConfig toyClient) + 1))%nat /\
    map fst (Walrus.sent net)
      = Walrus.round_robin (Walrus.AggregatorURL toyClient) 0
          (length (Walrus.sent net)) /\
    Forall (fun r => Walrus.req_Body (snd r)
                     = Walrus.replayed (Walrus.req_Body toyRequest))
           (Walrus.sent net) /\
    Walrus.slept net
      = repeat (Walrus.RetryDelay (Walrus.retryConfig toyClient))
               (length (Walrus.sent net) - 1) /\
    match result with
    | Done resp =>
        Walrus.StatusCode resp = 200 /\ (1 <= length (Walrus.sent net))%nat
    | Failed e =>
        length (Walrus.sent net)
          = Z.to_nat (Walrus.MaxRetries (Walrus.retryConfig toyClient) + 1) /\
        (e = WrapNil "all retry attempts failed: %w" \/
         exists last, e = WrapError "all retry attempts failed: %w" last)
    end.
Proof.
  assert (Hu : Walrus.AggregatorURL toyClient <> []) by discriminate.
  assert (Hm : - 2 ^ 63 <= Walrus.MaxRetries (Walrus.retryConfig toyClient) < MaxInt)
    by (unfold MaxInt; simpl; lia).
  assert (Hr : Walrus.req_URL toyRequest <> None) by discriminate.
  exact (doWithRetry_round_robin string (fun u => u) Some (fun u => u) nat toyClient
           (Walrus.AggregatorURL toyClient) Hu toy_parses toyHTTP_bodies
           toyRequest O Hm Hr toyRequest_body).
Defined.

(** X27. What [doWithRetry] does at the edges: with a negative [MaxRetries], and
    with the largest [int], whose successor wraps around, it makes no
    request and returns an error that wraps no cause; with no base URL it
    panics on the division by the number of URLs; with a request that has no
    URL it panics on the nil pointer. *)
Theorem doWithRetry_edges (URL World : Type) (url_String : URL -> string)
    (url_Parse : string -> option URL) (url_strip : URL -> URL)
    (c : Walrus.Client URL World) (req : Walrus.Request URL)
    (urls : list string) (w : World) :
  - 2 ^ 63 <= Walrus.MaxRetries (Walrus.retryConfig c) <= MaxInt ->
  (Walrus.MaxRetries (Walrus.retryConfig c) < 0 \/
   Walrus.MaxRetries (Walrus.retryConfig c) = MaxInt ->
   Walrus.doWithRetry url_String url_Parse url_strip c req urls w
     = Ret (Failed (WrapNil "all retry attempts failed: %w"), req,
            {| Walrus.world := w; Walrus.sent := []; Walrus.slept := [] |})) /\
  walrus_Error (WrapNil "all retry attempts failed: %w")
    = "all retry attempts failed: %!w(<nil>)" /\
  (0 <= Walrus.MaxRetries (Walrus.retryConfig c) < MaxInt ->
   Walrus.doWithRetry url_String url_Parse url_strip c req [] w
     = Panic "runtime error: integer divide by zero") /\
  (0 <= Walrus.MaxRetries (Walrus.retryConfig c) < MaxInt -> urls <> [] ->
   Walrus.req_URL req = None ->
   Walrus.doWithRetry url_String url_Parse url_strip c req urls w
     = Panic nil_dereference).
Proof.
  intros Hrange. unfold MaxInt in *.
  split; [|split; [reflexivity|split]].
  - intros Hm. unfold Walrus.doWithRetry. cbn [Walrus.doWithRetry_loop].
    replace (0 <? int_wrap (Walrus.MaxRetries (Walrus.retryConfig c) + 1)) with false.
    + reflexivity.
    + symmetry. apply Z.ltb_ge. destruct Hm as [Hm|Hm].
      * rewrite int_wrap_small by lia. lia.
      * rewrite Hm. change (int_wrap (2 ^ 63 - 1 + 1)) with (- 2 ^ 63). lia.
  - intros Hm. unfold Walrus.doWithRetry. cbn [Walrus.doWithRetry_loop].
    rewrite int_wrap_small by lia.
    replace (0 <? Walrus.MaxRetries (Walrus.retryConfig c) + 1) with true
      by (symmetry; apply Z.ltb_lt; lia).
    reflexivity.
  - intros Hm Hu Hr. unfold Walrus.doWithRetry. cbn [Walrus.doWithRetry_loop].
    rewrite int_wrap_small by lia.
    replace (0 <? Walrus.MaxRetries (Walrus.retryConfig c) + 1) with true
      by (symmetry; apply Z.ltb_lt; lia).
    destruct urls as [|u0 urls0]; [contradiction|].
    unfold go_rem. cbn [length].
    replace (Z.of_nat (S (length urls0)) =? 0) with false
      by (symmetry; apply Z.eqb_neq; lia).
    cbn [bind]. rewrite Z.rem_0_l by lia.
    unfold Walrus.index_string.
    replace ((0 <? 0) || (Z.of_nat (length (u0 :: urls0)) <=? 0)) with false
      by (symmetry; apply orb_false_iff; split;
          [reflexivity | apply Z.leb_gt; cbn [length]; lia]).
    cbn [bind]. rewrite Hr. reflexivity.
Qed.

Lemma doWithRetry_edges_witness :
  Walrus.doWithRetry (fun u => u) Some (fun u => u) toyClientMax toyRequest
      (Walrus.AggregatorURL toyClientMax) O
    = Ret (Failed (WrapNil "all retry attempts failed: %w"), toyRequest,
           {| Walrus.world := O; Walrus.sent := []; Walrus.slept := [] |}) /\
  Walrus.doWithRetry (fun u => u) Some (fun u => u) toyClient toyRequest [] O
    = Panic "runtime error: integer divide by zero" /\
  Walrus.doWithRetry (fun u => u) Some (fun u => u) toyClient toyRequest_no_URL
      (Walrus.AggregatorURL toyClient) O
    = Panic nil_dereference.
Proof.
  assert (Hmax : - 2 ^ 63 <= Walrus.MaxRetries (Walrus.retryConfig toyClientMax)
                 <= MaxInt) by (vm_compute; split; discriminate).
  assert (Hr : - 2 ^ 63 <= Walrus.MaxRetries (Walrus.retryConfig toyClient) <= MaxInt)
    by (unfold MaxInt; simpl; lia).
  assert (Hm : 0 <= Walrus.MaxRetries (Walrus.retryConfig toyClient) < MaxInt)
    by (unfold MaxInt; simpl; lia).
  assert (Hu : Walrus.AggregatorURL toyClient <> []) by discriminate.
  split; [|split].
  - exact (proj1 (doWithRetry_edges string nat (fun u => u) Some (fun u => u)
                    toyClientMax toyRequest (Walrus.AggregatorURL toyClientMax) O Hmax)
             (or_intror eq_refl)).
  - exact (proj1 (proj2 (proj2 (doWithRetry_edges string nat (fun u => u) Some
                                  (fun u => u) toyClient toyRequest [] O Hr))) Hm).
  - exact (proj2 (proj2 (proj2 (doWithRetry_edges string nat (fun u => u) Some
                                  (fun u => u) toyClient toyRequest_no_URL
                                  (Walrus.AggregatorURL toyClient) O Hr)))
             Hm Hu eq_refl).
Defined.

(** ** Writers that fail *)

Section CopyFailing.

Variable R : Type.
Variable Read : R -> list byte -> outcome (R * list byte * Z * option error).

(** What [io.Copy] has written extends what was there. *)
Lemma copy_loop_extends (fuel : nat) :
  forall (src src' : R) (w w' buf : list byte) (wr wr' : Z) (dst' : Sink)
         (err : option error),
    copy_loop Read fuel src (BufferSink w) buf wr = Ret (src', dst', wr', err) ->
    exists x, dst' = BufferSink (w ++ x).
Proof.
  induction fuel as [|fuel IH]; intros src src' w w' buf wr wr' dst' err H;
    [discriminate H|].
  cbn [copy_loop] in H.
  destruct (Read src buf) as [[[[src1 buf1] nr] er]|m|]; cbn [bind] in H;
    try discriminate H.
  destruct (0 <? nr).
  - destruct (slice_to buf1 nr) as [chunk|m|]; cbn [bind dst_Write] in H;
      try discriminate H.
    destruct (nr =? len chunk); cbn [bind] in H.
    + destruct er as [e1|].
      * injection H as _ <- _ _. eauto.
      * apply IH in H; [|exact w]. destruct H as [x ->].
        exists (chunk ++ x). now rewrite <- app_assoc.
    + injection H as _ <- _ _. eauto.
  - cbn [bind] in H. destruct er as [e1|].
    + injection H as _ <- _ _. exists []. now rewrite app_nil_r.
    + apply IH in H; [|exact w]. exact H.
Qed.

(** A writer that fails changes the outcome of [io.Copy] exactly when
    there is something to write. *)
Lemma copy_loop_failing_writer (e : error) (fuel : nat) :
  forall (src src' : R) (w w' buf : list byte) (wr wr' : Z) (err : option error),
    copy_loop Read fuel src (BufferSink w) buf wr
      = Ret (src', BufferSink w', wr', err) ->
    (w' = w ->
     copy_loop Read fuel src (FailingWriter e) buf wr
       = Ret (src', FailingWriter e, wr', err)) /\
    (w' <> w ->
     exists src'' wr'',
       copy_loop Read fuel src (FailingWriter e) buf wr
         = Ret (src'', FailingWriter e, wr'', Some e)).
Proof.
  induction fuel as [|fuel IH]; intros src src' w w' buf wr wr' err H;
    [discriminate H|].
  cbn [copy_loop] in H |- *.
  destruct (Read src buf) as [[[[src1 buf1] nr] er]|m|]; cbn [bind] in H |- *;
    try discriminate H.
  destruct (0 <? nr) eqn:Enr.
  - unfold slice_to in H |- *.
    destruct ((nr <? 0) || (len buf1 <? nr)) eqn:Es; cbn [bind dst_Write] in H |- *;
      [discriminate H|].
    apply orb_false_iff in Es. destruct Es as [Es1 Es2].
    apply Z.ltb_ge in Es1, Es2. apply Z.ltb_lt in Enr.
    set (chunk := firstn (Z.to_nat nr) buf1) in *.
    assert (Hc : chunk <> []).
    { intros E. apply (f_equal (@length byte)) in E. subst chunk.
      rewrite length_firstn in E. cbn [length] in E. unfold len in Es2. lia. }
    assert (Hl : len chunk = nr).
    { subst chunk. unfold len in *. rewrite length_firstn. lia. }
    rewrite Hl, Z.eqb_refl in H. cbn [bind] in H.
    assert (Hw : w' <> w).
    { destruct er as [e1|].
      - injection H as _ <- _ _. intros E.
        rewrite <- (app_nil_r w) in E at 2. apply app_inv_head in E. contradiction.
      - apply copy_loop_extends in H; [|exact w]. destruct H as [x Hx].
        injection Hx as ->. rewrite <- app_assoc. intros E.
        rewrite <- (app_nil_r w) in E at 2. apply app_inv_head in E.
        apply app_eq_nil in E. destruct E. contradiction. }
    split; [intros E; contradiction|]. intros _. eauto.
  - cbn [bind] in H |- *. destruct er as [e1|].
    + injection H as <- <- <- <-. split; [reflexivity|]. intros E. contradiction.
    + now apply IH.
Qed.

End CopyFailing.

Section StreamFailures.

Variable aes : list byte -> Block.
Hypothesis aes_ok : forall key, Block_ok (aes key).

(** [DecryptStream] down to the loop of [io.Copy], for any writer. *)
Lemma cbc_DecryptStream_loop (fuel : nat) (c : cbcCipher) (src : Source)
    (iv C : list byte) (dst : Sink) :
  valid_key_size (len (cbc_key c)) ->
  delivering src -> unread src = iv ++ C -> length iv = 16%nat ->
  cbcCipher_DecryptStream aes fuel c src dst =
    ' (reader1, dst1, _, err) <-
      copy_loop cbcDecryptReader_Read fuel
        {| decrypter := cbcMode (aes (cbc_key c)) Decrypting iv;
           d_src := with_unread src C; d_padder := p16; d_buf := [] |}
        dst (repeat x00 (Z.to_nat copyBufSize)) 0 ;;
    Ret (err, d_src reader1, dst1).
Proof.
  intros Hk Hd Hu Hiv. unfold cbcCipher_DecryptStream.
  rewrite aes_NewCipher_valid by exact Hk.
  rewrite make_ok by (unfold aes_BlockSize; lia). cbn [bind].
  rewrite io_ReadFull_spec;
    [|exact Hd | rewrite repeat_length, Hu, length_app; unfold aes_BlockSize; lia].
  cbn [bind]. rewrite repeat_length, Hu.
  change (Z.to_nat aes_BlockSize) with 16%nat.
  rewrite firstn_app, skipn_app, Hiv, Nat.sub_diag, firstn_O, app_nil_r.
  rewrite firstn_all2 with (l := iv) by lia.
  rewrite skipn_all2 with (l := iv) by lia. cbn [skipn app].
  unfold NewCBCDecrypter.
  replace (len iv =? aes_BlockSize) with true
    by (symmetry; apply Z.eqb_eq; unfold len, aes_BlockSize; lia).
  cbn [bind]. unfold io_Copy.
  rewrite make_ok by (unfold copyBufSize; lia). cbn [bind]. reflexivity.
Qed.

(** X28. What the CBC streams do when a step fails. [EncryptStream] on a writer
    that fails returns its error without reading the source, and on a
    source that fails returns its error with the IV alone written;
    [DecryptStream] on a source that fails returns its error. On a writer
    that fails [DecryptStream] returns the writer's error when the
    plaintext is not empty; the ciphertext of the empty plaintext it
    decrypts without error, there being nothing to write. *)
Theorem cbc_stream_failures (c : cbcCipher) (e : error) (fuel : nat) :
  valid_key_size (len (cbc_key c)) -> len (cbc_iv c) = aes_BlockSize ->
  (forall src,
     cbcCipher_EncryptStream aes fuel c src (FailingWriter e)
       = Ret (Some e, src, FailingWriter e)) /\
  (e <> EOF -> (0 < fuel)%nat ->
   forall w,
     cbcCipher_EncryptStream aes fuel c (FailingReader e) (BufferSink w)
       = Ret (Some e, FailingReader e, BufferSink (w ++ cbc_iv c))) /\
  (forall dst,
     cbcCipher_DecryptStream aes fuel c (FailingReader e) dst
       = Ret (Some e, FailingReader e, dst)) /\
  (forall P,
     (2 * (length P + 16) < fuel)%nat ->
     exists ct,
       cbcCipher_EncryptStream aes fuel c (BytesReader P) (BufferSink [])
         = Ret (None, BytesReader [], BufferSink ct) /\
       (P <> [] ->
        exists src',
          cbcCipher_DecryptStream aes fuel c (BytesReader ct) (FailingWriter e)
            = Ret (Some e, src', FailingWriter e)) /\
       (P = [] ->
        cbcCipher_DecryptStream aes fuel c (BytesReader ct) (FailingWriter e)
          = Ret (None, BytesReader [], FailingWriter e))).
Proof.
  intros Hk Hiv. split; [|split; [|split]].
  - intros src. unfold cbcCipher_EncryptStream.
    rewrite aes_NewCipher_valid by exact Hk. reflexivity.
  - intros He Hf w. unfold cbcCipher_EncryptStream.
    rewrite aes_NewCipher_valid by exact Hk. cbn [dst_Write].
    unfold NewCBCEncrypter. rewrite Hiv, Z.eqb_refl. cbn [bind].
    unfold io_Copy. rewrite make_ok by (unfold copyBufSize; lia). cbn [bind].
    destruct fuel as [|fuel']; [lia|].
    assert (Hr : cbcEncryptReader_Read
              {| encrypter := {| bm_block := aes (cbc_key c); bm_dir := Encrypting;
                                 bm_iv := cbc_iv c |};
                 e_src := FailingReader e;
                 e_padder := {| blockSize := aes_BlockSize |};
                 e_size := 0; e_buf := [] |}
              (repeat x00 (Z.to_nat copyBufSize))
            = Ret ({| encrypter := {| bm_block := aes (cbc_key c);
                                      bm_dir := Encrypting; bm_iv := cbc_iv c |};
                      e_src := FailingReader e;
                      e_padder := {| blockSize := aes_BlockSize |};
                      e_size := 0; e_buf := [] |},
                   repeat x00 (Z.to_nat copyBufSize), Z.of_nat 0, Some e)).
    { unfold cbcEncryptReader_Read. cbn [e_src src_Read].
      rewrite slice_to_ok by (unfold len; lia).
      cbn [bind Z.to_nat firstn Buffer_Write app e_buf e_size Z.add].
      destruct e; try reflexivity. contradiction. }
    erewrite copy_loop_step; [|exact Hr | lia].
    cbn [firstn bind e_src]. rewrite app_nil_r.
    destruct e; try reflexivity. contradiction.
  - intros dst. unfold cbcCipher_DecryptStream.
    rewrite aes_NewCipher_valid by exact Hk.
    rewrite make_ok by (unfold aes_BlockSize; lia). cbn [bind].
    rewrite io_ReadFull_failing by discriminate. reflexivity.
  - intros P Hf.
    assert (Hiv' : length (cbc_iv c) = 16%nat)
      by (unfold len, aes_BlockSize in Hiv; lia).
    rewrite cbc_EncryptStream_spec; try assumption; try exact I;
      [|cbn [unread]; lia].
    cbn [unread app with_unread]. eexists. split; [reflexivity|].
    set (E := cbc_encrypt (aes (cbc_key c)) (cbc_iv c) (P ++ pkcs7 (length P))).
    pose proof (cbc_decrypt_of_encrypt aes aes_ok fuel c P []
                  (BytesReader (cbc_iv c ++ E)) Hk Hiv I eq_refl Hf) as Hdec.
    cbn [quota with_unread app] in Hdec.
    rewrite (Nat.div_small 15) in Hdec by (pose proof copyBuf_block; lia).
    rewrite Nat.mul_0_r in Hdec. cbn [firstn app] in Hdec.
    rewrite (cbc_DecryptStream_loop fuel c (BytesReader (cbc_iv c ++ E))
               (cbc_iv c) E _ Hk I eq_refl Hiv') in Hdec.
    rewrite (cbc_DecryptStream_loop fuel c (BytesReader (cbc_iv c ++ E))
               (cbc_iv c) E _ Hk I eq_refl Hiv').
    destruct (copy_loop cbcDecryptReader_Read fuel _ (BufferSink []) _ 0)
      as [[[[r1 dst1] wr1] err1]|m|] eqn:Eloop; cbn [bind] in Hdec;
      try discriminate Hdec.
    injection Hdec as -> Hsrc ->.
    destruct (copy_loop_failing_writer _ cbcDecryptReader_Read e fuel _ _ _ _ _ _ _ _
                Eloop) as [Hsame Hdiff].
    split.
    + intros HP. destruct Hdiff as (src'' & wr'' & Hl).
      { intros E0. apply HP. exact E0. }
      rewrite Hl. cbn [bind]. eauto.
    + intros HP. rewrite Hsame by exact HP. cbn [bind]. now rewrite Hsrc.
Qed.

End StreamFailures.

Lemma cbc_stream_failures_witness :
  valid_key_size (len (cbc_key toyCBC)) /\ len (cbc_iv toyCBC) = aes_BlockSize /\
  cbcCipher_EncryptStream toyBlock 100 toyCBC (FailingReader ErrUnexpectedEOF)
      (BufferSink [])
    = Ret (Some ErrUnexpectedEOF, FailingReader ErrUnexpectedEOF,
           BufferSink ([] ++ cbc_iv toyCBC)) /\
  exists ct,
    cbcCipher_EncryptStream toyBlock 100 toyCBC (BytesReader hello_walrus)
        (BufferSink [])
      = Ret (None, BytesReader [], BufferSink ct) /\
    exists src',
      cbcCipher_DecryptStream toyBlock 100 toyCBC (BytesReader ct)
          (FailingWriter ErrUnexpectedEOF)
        = Ret (Some ErrUnexpectedEOF, src', FailingWriter ErrUnexpectedEOF).
Proof.
  assert (He : ErrUnexpectedEOF <> EOF) by discriminate.
  assert (Hf : (0 < 100)%nat) by lia.
  assert (Hg : (2 * (length hello_walrus + 16) < 100)%nat) by (simpl; lia).
  assert (Hp : hello_walrus <> []) by discriminate.
  pose proof (cbc_stream_failures toyBlock toyBlock_ok toyCBC ErrUnexpectedEOF
                100%nat key32_valid eq_refl) as (_ & H2 & _ & H4).
  split; [exact key32_valid|]. split; [reflexivity|].
  split; [exact (H2 He Hf [])|].
  destruct (H4 hello_walrus Hg) as (ct & Henc & Hdec & _).
  exists ct. split; [exact Henc | exact (Hdec Hp)].
Defined.

(* ================================================================== *)
(** * Runs of the model *)

(** The empty plaintext is padded with one full block. *)
Example Pad_empty_plaintext :
  Pad p16 [] 0 = Ret (repeat x10 16, None).
Proof. reflexivity. Qed.

(** Fourteen bytes are padded with two bytes of value 2. *)
Example Pad_hello_walrus :
  Pad p16 hello_walrus (len hello_walrus) = Ret (hello_walrus ++ [x02; x02], None).
Proof. reflexivity. Qed.

Example Unpad_hello_walrus :
  Unpad p16 (hello_walrus ++ [x02; x02]) = Ret (hello_walrus, None).
Proof. reflexivity. Qed.

(** The bytes removed are not compared with the count. *)
Example Unpad_unvalidated :
  Unpad p16 [x41; x42; x43; x02] = Ret ([x41; x42], None).
Proof. reflexivity. Qed.

(** The slice sizes met under the 32 KiB buffer of [io.Copy]. *)
Example getSliceSize_copy_buffer :
  getSliceSize 16 0 32768 = Ret 16 /\
  getSliceSize 16 32 32768 = Ret 16 /\
  getSliceSize 16 40000 32768 = Ret 32752.
Proof. repeat split. Qed.

(** A plaintext of 14 bytes gives the IV and one block of ciphertext. *)
Example EncryptStream_hello_walrus_length :
  exists ct,
    cbcCipher_EncryptStream toyBlock 100 toyCBC (BytesReader hello_walrus) (BufferSink [])
      = Ret (None, BytesReader [], BufferSink (iv16 ++ ct)) /\
    length ct = 16%nat.
Proof. eexists. split; [vm_compute; reflexivity | reflexivity]. Qed.
